(** * Capability management of the Ceph kernel client (fs/ceph/caps.c)

    A shallow embedding of the capability state machine, the reservation
    pool, the flush tracker and the acquisition path of fs/ceph/caps.c,
    together with the properties stated about them.

    Conventions of the embedding:
    - C [int], [u32] and [u64] values are integers in [Z]; arithmetic that
      can leave the type's range is wrapped explicitly ([wrap_int],
      [wrap_u32], [wrap_u64]).  Bit sets are [Z] too, with [Z.land],
      [Z.lor] and [Z.lnot] for [&], [|] and [~].
    - [BUG_ON] and dereferences of NULL are faults: the model returns
      [Oops f], where [f] names the check that fired.
    - pointers into shared objects are keys: a capability is named by the
      MDS rank that keys it in [i_caps], a cap flush record by a handle
      into the store of flush records.
    - constants that live in headers outside this file (cap bits, errno
      values, flag bits) are the fields of the class [KernelConsts]. *)

From Stdlib Require Import ZArith Lia Bool.
From stdpp Require Import base option list gmap fin_maps sorting.

Open Scope Z_scope.

(** ** Machine integers *)

Definition wrap_int (z : Z) : Z := (z + 2 ^ 31) mod 2 ^ 32 - 2 ^ 31.
Definition wrap_u32 (z : Z) : Z := z mod 2 ^ 32.
Definition wrap_u64 (z : Z) : Z := z mod 2 ^ 64.

Definition in_int (z : Z) : Prop := - 2 ^ 31 <= z < 2 ^ 31.
Definition in_u64 (z : Z) : Prop := 0 <= z < 2 ^ 64.

(** [a & b] is non-zero, the truth value of a C bit test. *)
Definition tst (a b : Z) : bool := negb (Z.land a b =? 0).

(** ** Faults

    What stops the kernel in the modelled code: each [BUG_ON] of the file,
    a NULL pointer that is dereferenced, an entry taken from an empty
    list. *)

Inductive fault :=
  | ConservationViolated  (* BUG_ON(total != use + reserve + avail) *)
  | ReserveUnderflow      (* BUG_ON(caps_reserve_count < nr_caps) *)
  | FreeListEmpty         (* BUG_ON(list_empty(&mdsc->caps_list)), or
                             list_first_entry() of the empty list *)
  | ReservationEmpty      (* BUG_ON(!ctx->count) *)
  | ReservationTooLarge   (* BUG_ON(ctx->count > caps_reserve_count) *)
  | ReserveCountMismatch  (* BUG_ON(have + alloc != need) *)
  | LoopBound             (* the iteration bound of a modelled loop *)
  | DuplicateCapNode      (* BUG() in __insert_cap_node *)
  | IssuedNotImplemented  (* BUG_ON(cap->issued & ~cap->implemented) *)
  | RetainWithoutPin      (* BUG_ON((retain & CEPH_CAP_PIN) == 0) *)
  | DirtyItemLinked       (* BUG_ON(!list_empty(&ci->i_dirty_item)) *)
  | DirtyItemUnlinked     (* BUG_ON(list_empty(&ci->i_dirty_item)) *)
  | NothingDirty          (* BUG_ON(ci->i_dirty_caps == 0) *)
  | NoPreallocFlush       (* BUG_ON(!ci->i_prealloc_cap_flush) *)
  | NoHeadSnapc           (* BUG_ON(!ci->i_head_snapc) *)
  | NeedFlushUnset        (* BUG_ON(!capsnap->need_flush) *)
  | SnapRwsemUnlocked     (* BUG_ON(!snap_rwsem_locked) *)
  | BadNeed               (* BUG_ON(need & ~CEPH_CAP_FILE_RD) *)
  | BadWant               (* BUG_ON(want & ~(...)) *)
  | NullDeref.            (* a NULL pointer is dereferenced *)

Inductive res (A : Type) :=
  | Ok (a : A)
  | Oops (f : fault).
Arguments Ok {A} a.
Arguments Oops {A} f.

Global Instance res_ret : MRet res := fun A a => Ok a.
Global Instance res_bind : MBind res :=
  fun A B f m => match m with Ok a => f a | Oops e => Oops e end.

Definition BUG_ON (c : bool) (f : fault) : res unit :=
  if c then Oops f else Ok tt.

(** ** Constants and inline helpers from headers *)

Class KernelConsts := {
  (* include/linux/ceph/ceph_fs.h: capability bits *)
  CEPH_CAP_PIN : Z;
  CEPH_CAP_FILE_SHARED : Z;
  CEPH_CAP_FILE_EXCL : Z;
  CEPH_CAP_FILE_CACHE : Z;
  CEPH_CAP_FILE_RD : Z;
  CEPH_CAP_FILE_WR : Z;
  CEPH_CAP_FILE_BUFFER : Z;
  CEPH_CAP_FILE_LAZYIO : Z;
  CEPH_CAP_ANY_SHARED : Z;
  CEPH_CAP_ANY_RD : Z;
  CEPH_CAP_ANY_FILE_RD : Z;
  CEPH_CAP_ANY_FILE_WR : Z;
  CEPH_CAP_ANY_WR : Z;
  CEPH_CAP_ANY : Z;
  CEPH_CAP_ANY_DIR_OPS : Z;
  CEPH_CAP_AUTH_SHARED : Z;
  CEPH_CAP_AUTH_EXCL : Z;
  CEPH_CAP_LINK_SHARED : Z;
  CEPH_CAP_LINK_EXCL : Z;
  CEPH_CAP_XATTR_SHARED : Z;
  CEPH_CAP_XATTR_EXCL : Z;
  (* include/linux/ceph/ceph_fs.h: flags of cap messages *)
  CEPH_CAP_FLAG_AUTH : Z;
  CEPH_CAP_FLAG_RELEASE : Z;
  CEPH_CLIENT_CAPS_SYNC : Z;
  CEPH_CLIENT_CAPS_PENDING_CAPSNAP : Z;
  (* include/linux/ceph/ceph_fs.h: file modes *)
  CEPH_FILE_MODE_PIN : Z;
  CEPH_FILE_MODE_RD : Z;
  CEPH_FILE_MODE_WR : Z;
  CEPH_FILE_MODE_RDWR : Z;
  CEPH_FILE_MODE_LAZY : Z;
  CEPH_FILE_MODE_MASK : Z;
  (* fs/ceph/super.h: bits of i_ceph_flags, flags of ceph_check_caps, mount options *)
  CEPH_I_FLUSH : Z;
  CEPH_I_POOL_PERM : Z;
  CEPH_I_KICK_FLUSH : Z;
  CEPH_I_FLUSH_SNAPS : Z;
  CEPH_I_ERROR_FILELOCK : Z;
  CEPH_I_ASYNC_CREATE : Z;
  CEPH_I_ASYNC_CHECK_CAPS : Z;
  CHECK_CAPS_AUTHONLY : Z;
  CHECK_CAPS_FLUSH : Z;
  CHECK_CAPS_NOINVAL : Z;
  CHECK_CAPS_FLUSH_FORCE : Z;
  CEPH_MOUNT_OPT_ASYNC_DIROPS : Z;
  (* include/linux/fs.h, include/linux/jiffies.h *)
  I_DIRTY_SYNC : Z;
  I_DIRTY_DATASYNC : Z;
  HZ : Z;
  (* errno *)
  EIO : Z;
  EAGAIN : Z;
  ENOMEM : Z;
  EFBIG : Z;
  EROFS : Z;
  ESTALE : Z;
  EUCLEAN : Z;
  (* include/linux/ceph/ceph_fs.h: ceph_seq_cmp(a, b), the sign of which
     orders two u32 sequence numbers *)
  ceph_seq_cmp : Z -> Z -> Z;
  (* include/linux/jiffies.h *)
  time_after : Z -> Z -> bool;
  time_after_eq : Z -> Z -> bool;
  (* fs/ceph/ceph_fs.c *)
  ceph_caps_for_mode : Z -> Z;
  (* include/linux/ceph/ceph_fs.h, include/linux/ceph/msgr.h: sizes of
     the wire structs the decoder steps over *)
  sizeof_ceph_mds_cap_peer : Z;
  sizeof_ceph_timespec : Z;
}.

Definition wrap_s64 (z : Z) : Z := (z + 2 ^ 63) mod 2 ^ 64 - 2 ^ 63.

(** The values these constants have in the Linux headers, and the
    helpers as the headers define them; the concrete runs below are
    evaluated with them. *)
Definition linux_consts : KernelConsts := {|
  CEPH_CAP_PIN := 1;
  CEPH_CAP_FILE_SHARED := 256;
  CEPH_CAP_FILE_EXCL := 512;
  CEPH_CAP_FILE_CACHE := 1024;
  CEPH_CAP_FILE_RD := 2048;
  CEPH_CAP_FILE_WR := 4096;
  CEPH_CAP_FILE_BUFFER := 8192;
  CEPH_CAP_FILE_LAZYIO := 32768;
  CEPH_CAP_ANY_SHARED := 340;
  CEPH_CAP_ANY_RD := 3412;
  CEPH_CAP_ANY_FILE_RD := 3328;
  CEPH_CAP_ANY_FILE_WR := 12800;
  CEPH_CAP_ANY_WR := 12968;
  CEPH_CAP_ANY := 49149;
  CEPH_CAP_ANY_DIR_OPS := 52224;
  CEPH_CAP_AUTH_SHARED := 4;
  CEPH_CAP_AUTH_EXCL := 8;
  CEPH_CAP_LINK_SHARED := 16;
  CEPH_CAP_LINK_EXCL := 32;
  CEPH_CAP_XATTR_SHARED := 64;
  CEPH_CAP_XATTR_EXCL := 128;
  CEPH_CAP_FLAG_AUTH := 1;
  CEPH_CAP_FLAG_RELEASE := 2;
  CEPH_CLIENT_CAPS_SYNC := 1;
  CEPH_CLIENT_CAPS_PENDING_CAPSNAP := 4;
  CEPH_FILE_MODE_PIN := 0;
  CEPH_FILE_MODE_RD := 1;
  CEPH_FILE_MODE_WR := 2;
  CEPH_FILE_MODE_RDWR := 3;
  CEPH_FILE_MODE_LAZY := 4;
  CEPH_FILE_MODE_MASK := 255;
  CEPH_I_FLUSH := 4;
  CEPH_I_POOL_PERM := 8;
  CEPH_I_KICK_FLUSH := 64;
  CEPH_I_FLUSH_SNAPS := 128;
  CEPH_I_ERROR_FILELOCK := 512;
  CEPH_I_ASYNC_CREATE := 2048;
  CEPH_I_ASYNC_CHECK_CAPS := 8192;
  CHECK_CAPS_AUTHONLY := 1;
  CHECK_CAPS_FLUSH := 2;
  CHECK_CAPS_NOINVAL := 4;
  CHECK_CAPS_FLUSH_FORCE := 8;
  CEPH_MOUNT_OPT_ASYNC_DIROPS := 32768;
  I_DIRTY_SYNC := 1;
  I_DIRTY_DATASYNC := 2;
  HZ := 1000;
  EIO := 5;
  EAGAIN := 11;
  ENOMEM := 12;
  EFBIG := 27;
  EROFS := 30;
  ESTALE := 116;
  EUCLEAN := 117;
  ceph_seq_cmp := fun a b => wrap_int (wrap_int a - wrap_int b);
  time_after := fun a b => wrap_s64 (b - a) <? 0;
  time_after_eq := fun a b => 0 <=? wrap_s64 (a - b);
  ceph_caps_for_mode := fun mode =>
    Z.lor 1
      (Z.lor (if tst mode 1 then Z.lor 256 (Z.lor 2048 1024) else 0)
         (Z.lor (if tst mode 2
                 then Z.lor 512 (Z.lor 4096 (Z.lor 8192
                        (Z.lor 4 (Z.lor 8 (Z.lor 64 128)))))
                 else 0)
            (if tst mode 4 then 32768 else 0)));
  sizeof_ceph_mds_cap_peer := 21;
  sizeof_ceph_timespec := 8;
|}.

(** ** The cap allocator and reservation pool *)

Module Pool.

(** The pool counters of [struct ceph_mds_client].  [caps_list] is the
    number of preallocated [struct ceph_cap] objects linked on
    [mdsc->caps_list]. *)
Record t := mk {
  caps_total_count : Z;
  caps_use_count : Z;
  caps_reserve_count : Z;
  caps_avail_count : Z;
  caps_min_count : Z;
  caps_use_max : Z;
  caps_list : nat;
}.

(** [struct ceph_cap_reservation] *)
Record ceph_cap_reservation := mk_ctx {
  count : Z;
  used : Z;
}.

Definition set_total (f : Z -> Z) (p : t) : t :=
  mk (f (caps_total_count p)) (caps_use_count p) (caps_reserve_count p)
     (caps_avail_count p) (caps_min_count p) (caps_use_max p) (caps_list p).
Definition set_use (f : Z -> Z) (p : t) : t :=
  mk (caps_total_count p) (f (caps_use_count p)) (caps_reserve_count p)
     (caps_avail_count p) (caps_min_count p) (caps_use_max p) (caps_list p).
Definition set_reserve (f : Z -> Z) (p : t) : t :=
  mk (caps_total_count p) (caps_use_count p) (f (caps_reserve_count p))
     (caps_avail_count p) (caps_min_count p) (caps_use_max p) (caps_list p).
Definition set_avail (f : Z -> Z) (p : t) : t :=
  mk (caps_total_count p) (caps_use_count p) (caps_reserve_count p)
     (f (caps_avail_count p)) (caps_min_count p) (caps_use_max p) (caps_list p).
Definition set_list (f : nat -> nat) (p : t) : t :=
  mk (caps_total_count p) (caps_use_count p) (caps_reserve_count p)
     (caps_avail_count p) (caps_min_count p) (caps_use_max p) (f (caps_list p)).

(** [x += d] and [x -= d] on an [int] field *)
Definition add (d : Z) (x : Z) : Z := wrap_int (x + d).
Definition sub (d : Z) (x : Z) : Z := wrap_int (x - d).

(** The condition every [BUG_ON(total != use + reserve + avail)] of the
    file negates, as the C expression computes it. *)
Definition sum3 (p : t) : Z :=
  wrap_int (wrap_int (caps_use_count p + caps_reserve_count p) + caps_avail_count p).

Definition conserved (p : t) : Prop := caps_total_count p = sum3 p.

Definition conservedb (p : t) : bool := caps_total_count p =? sum3 p.

(** [list_del(list_first_entry(&mdsc->caps_list))], [n] times; undefined
    on a list that is too short. *)
Definition take_from_list (n : Z) (p : t) : res t :=
  if decide (Z.of_nat (caps_list p) < n) then Oops FreeListEmpty
  else Ok (set_list (fun l => (l - Z.to_nat n)%nat) p).

Definition __ceph_unreserve_caps (p : t) (nr_caps : Z) : res t :=
  if decide (nr_caps = 0) then Ok p
  else
    _ ← BUG_ON (bool_decide (caps_reserve_count p < nr_caps)) ReserveUnderflow;
    let p := set_reserve (sub nr_caps) p in
    p ← (if decide (caps_avail_count p >=
                    wrap_int (caps_reserve_count p + caps_min_count p))
         then take_from_list nr_caps (set_total (sub nr_caps) p)
         else Ok (set_avail (add nr_caps) p));
    _ ← BUG_ON (negb (conservedb p)) ConservationViolated;
    Ok p.

Definition ceph_put_cap (p : t) : res t :=
  let p := set_use (sub 1) p in
  let p :=
    if decide (caps_avail_count p >=
               wrap_int (caps_reserve_count p + caps_min_count p))
    then set_total (sub 1) p
    else set_list S (set_avail (add 1) p) in
  _ ← BUG_ON (negb (conservedb p)) ConservationViolated;
  Ok p.

(** [ceph_get_cap]: [alloc_ok] is the outcome of [kmem_cache_alloc] on
    the path without a reservation.  The result tells whether a cap
    object was returned (false is the NULL return). *)
Definition ceph_get_cap (p : t) (ctx : option ceph_cap_reservation)
    (alloc_ok : bool) : res (t * option ceph_cap_reservation * bool) :=
  match ctx with
  | None =>
      if alloc_ok then
        Ok (set_total (add 1) (set_use (add 1) p), None, true)
      else if decide (caps_avail_count p ≠ 0) then
        _ ← BUG_ON (bool_decide (caps_list p = 0%nat)) FreeListEmpty;
        let p := set_use (add 1) (set_avail (sub 1) p) in
        p ← take_from_list 1 p;
        _ ← BUG_ON (negb (conservedb p)) ConservationViolated;
        Ok (p, None, true)
      else Ok (p, None, false)
  | Some c =>
      _ ← BUG_ON (bool_decide (count c = 0)) ReservationEmpty;
      _ ← BUG_ON (bool_decide (count c > caps_reserve_count p)) ReservationTooLarge;
      _ ← BUG_ON (bool_decide (caps_list p = 0%nat)) FreeListEmpty;
      let c := mk_ctx (sub 1 (count c)) (add 1 (used c)) in
      let p := set_use (add 1) (set_reserve (sub 1) p) in
      p ← take_from_list 1 p;
      _ ← BUG_ON (negb (conservedb p)) ConservationViolated;
      Ok (p, Some c, true)
  end.

(** The state of the allocation loop of [ceph_reserve_caps]. *)
Record loop_st := mk_loop {
  l_pool : t;
  l_i : Z;
  l_have : Z;
  l_alloc : Z;
  l_trimmed : bool;
}.

(** [ceph_trim_caps] on the sessions hands caps back through
    [ceph_put_cap]; [n] is how many it drops. *)
Fixpoint trim_puts (n : nat) (p : t) : res t :=
  match n with
  | O => Ok p
  | S n => p ← ceph_put_cap p; trim_puts n p
  end.

(** The loop [for (i = have; i < need; )].  [allocs] lists the outcomes
    of the successive [kmem_cache_alloc] calls, an exhausted list meaning
    that the allocation fails.  The result carries [err]. *)
Fixpoint reserve_loop `{!KernelConsts} (fuel : nat) (allocs : list bool)
    (trimmed_caps : nat) (need : Z) (s : loop_st) : res (loop_st * Z) :=
  if decide (l_i s < need) then
    match fuel with
    | O => Oops LoopBound
    | S fuel =>
        if head allocs is Some true then
          reserve_loop fuel (tail allocs) trimmed_caps need
            (mk_loop (l_pool s) (wrap_int (l_i s + 1)) (l_have s)
                     (wrap_int (l_alloc s + 1)) (l_trimmed s))
        else if negb (l_trimmed s) then
          p ← trim_puts trimmed_caps (l_pool s);
          let s :=
            if decide (caps_avail_count p ≠ 0) then
              let more_have :=
                if decide (caps_avail_count p >= wrap_int (need - l_i s))
                then wrap_int (need - l_i s) else caps_avail_count p in
              mk_loop (set_reserve (add more_have) (set_avail (sub more_have) p))
                      (wrap_int (l_i s + more_have))
                      (wrap_int (l_have s + more_have)) (l_alloc s) true
            else mk_loop p (l_i s) (l_have s) (l_alloc s) true in
          reserve_loop fuel (tail allocs) trimmed_caps need s
        else Ok (s, - ENOMEM)
    end
  else Ok (s, 0).

(** [ceph_reserve_caps]; the result is the pool, the reservation and the
    return value. *)
Definition ceph_reserve_caps `{!KernelConsts} (p : t) (ctx : ceph_cap_reservation)
    (need : Z) (allocs : list bool) (trimmed_caps : nat)
  : res (t * ceph_cap_reservation * Z) :=
  let have := if decide (caps_avail_count p >= need) then need
              else caps_avail_count p in
  let p := set_reserve (add have) (set_avail (sub have) p) in
  _ ← BUG_ON (negb (conservedb p)) ConservationViolated;
  '(s, err) ← reserve_loop (length allocs + 2) allocs trimmed_caps need
                 (mk_loop p have have 0 false);
  _ ← (if decide (err = 0)
       then BUG_ON (negb (wrap_int (l_have s + l_alloc s) =? need)) ReserveCountMismatch
       else Ok tt);
  let ctx := if decide (err = 0) then mk_ctx need 0 else ctx in
  let p := set_list (fun l => (l + Z.to_nat (l_alloc s))%nat)
             (set_reserve (add (l_alloc s))
                (set_total (add (l_alloc s)) (l_pool s))) in
  _ ← BUG_ON (negb (conservedb p)) ConservationViolated;
  p ← (if decide (err ≠ 0)
       then __ceph_unreserve_caps p (wrap_int (l_have s + l_alloc s))
       else Ok p);
  Ok (p, ctx, err).

(** [ceph_unreserve_caps]; the boolean is [reclaim], on which the caller
    goes on to [ceph_reclaim_caps_nr]. *)
Definition ceph_unreserve_caps (p : t) (ctx : ceph_cap_reservation)
  : res (t * ceph_cap_reservation * bool) :=
  if decide (count ctx = 0) then Ok (p, ctx, false)
  else
    p ← __ceph_unreserve_caps p (count ctx);
    let ctx := mk_ctx 0 (used ctx) in
    let reclaim := bool_decide (caps_use_max p > 0) &&
                   bool_decide (caps_use_count p > caps_use_max p) in
    Ok (p, ctx, reclaim).

(** The counters add up without wrap-around. *)
Definition conserved_exact (p : t) : Prop :=
  caps_total_count p = caps_use_count p + caps_reserve_count p + caps_avail_count p.

(** [Q] holds of the result of a run that completes, and a run that stops
    does so neither at a conservation check nor at the iteration bound of
    the model. *)
Definition sound {A} (Q : A -> Prop) (r : res A) : Prop :=
  match r with
  | Ok a => Q a
  | Oops f => f ≠ ConservationViolated ∧ f ≠ LoopBound
  end.

(** The allocator operations, with what the environment decides for each
    (allocation outcomes, how many caps trimming hands back). *)
Inductive op :=
  | Reserve (ctx : ceph_cap_reservation) (need : Z) (allocs : list bool)
            (trimmed_caps : nat)
  | Unreserve (ctx : ceph_cap_reservation)
  | Get (ctx : option ceph_cap_reservation) (alloc_ok : bool)
  | Put.

Definition run_op `{!KernelConsts} (o : op) (p : t) : res t :=
  match o with
  | Reserve ctx need allocs trimmed_caps =>
      '(p, _, _) ← ceph_reserve_caps p ctx need allocs trimmed_caps; Ok p
  | Unreserve ctx => '(p, _, _) ← ceph_unreserve_caps p ctx; Ok p
  | Get ctx alloc_ok => '(p, _, _) ← ceph_get_cap p ctx alloc_ok; Ok p
  | Put => ceph_put_cap p
  end.

Fixpoint run_ops `{!KernelConsts} (os : list op) (p : t) : res t :=
  match os with
  | [] => Ok p
  | o :: os => p ← run_op o p; run_ops os p
  end.

End Pool.

(** ** The data model *)

(** A cap flush record is named by a handle into the store of records; an
    inode by its number; a session and a capability by the MDS rank. *)
Abbreviation handle := nat.

Module Cap.

(** [struct ceph_cap].  [cap->session] is the session of rank [mds], [cap->ci] the inode whose [i_caps] holds the record. *)
Record t := mk {
  cap_id : Z;  (* u64 *)
  mds : Z;  (* int *)
  issued : Z;  (* int *)
  implemented : Z;  (* int *)
  mds_wanted : Z;  (* int *)
  seq : Z;  (* u32 *)
  issue_seq : Z;  (* u32 *)
  mseq : Z;  (* u32 *)
  cap_gen : Z;  (* u32 *)
}.

Definition set_cap_id (v : Z) (x : t) : t :=
  mk v (mds x) (issued x) (implemented x) (mds_wanted x) (seq x) (issue_seq x) (mseq x) (cap_gen x).
Definition set_mds (v : Z) (x : t) : t :=
  mk (cap_id x) v (issued x) (implemented x) (mds_wanted x) (seq x) (issue_seq x) (mseq x) (cap_gen x).
Definition set_issued (v : Z) (x : t) : t :=
  mk (cap_id x) (mds x) v (implemented x) (mds_wanted x) (seq x) (issue_seq x) (mseq x) (cap_gen x).
Definition set_implemented (v : Z) (x : t) : t :=
  mk (cap_id x) (mds x) (issued x) v (mds_wanted x) (seq x) (issue_seq x) (mseq x) (cap_gen x).
Definition set_mds_wanted (v : Z) (x : t) : t :=
  mk (cap_id x) (mds x) (issued x) (implemented x) v (seq x) (issue_seq x) (mseq x) (cap_gen x).
Definition set_seq (v : Z) (x : t) : t :=
  mk (cap_id x) (mds x) (issued x) (implemented x) (mds_wanted x) v (issue_seq x) (mseq x) (cap_gen x).
Definition set_issue_seq (v : Z) (x : t) : t :=
  mk (cap_id x) (mds x) (issued x) (implemented x) (mds_wanted x) (seq x) v (mseq x) (cap_gen x).
Definition set_mseq (v : Z) (x : t) : t :=
  mk (cap_id x) (mds x) (issued x) (implemented x) (mds_wanted x) (seq x) (issue_seq x) v (cap_gen x).
Definition set_cap_gen (v : Z) (x : t) : t :=
  mk (cap_id x) (mds x) (issued x) (implemented x) (mds_wanted x) (seq x) (issue_seq x) (mseq x) v.

End Cap.

Module Flush.

(** [struct ceph_cap_flush]; [g_list] and [i_list] are the positions of the record's handle on the global and the per-inode list. *)
Record t := mk {
  tid : Z;  (* u64 *)
  caps : Z;  (* int *)
  is_capsnap : bool;
  wake : bool;
}.

Definition set_tid (v : Z) (x : t) : t :=
  mk v (caps x) (is_capsnap x) (wake x).
Definition set_caps (v : Z) (x : t) : t :=
  mk (tid x) v (is_capsnap x) (wake x).
Definition set_is_capsnap (v : bool) (x : t) : t :=
  mk (tid x) (caps x) v (wake x).
Definition set_wake (v : bool) (x : t) : t :=
  mk (tid x) (caps x) (is_capsnap x) v.

End Flush.

(** [struct ceph_snap_realm], as far as this file reads it. *)
Record ceph_snap_realm := mk_realm {
  realm_ino : Z;  (* u64 *)
  cached_context : option Z;  (* the snap context, by its seq; None is NULL *)
}.

Definition set_realm_ino (v : Z) (x : ceph_snap_realm) : ceph_snap_realm :=
  mk_realm v (cached_context x).
Definition set_cached_context (v : option Z) (x : ceph_snap_realm) : ceph_snap_realm :=
  mk_realm (realm_ino x) v.

(** [struct ceph_cap_snap], as far as this file reads it. *)
Record ceph_cap_snap := mk_capsnap {
  cs_cap_flush : handle;  (* the embedded cap_flush *)
  cs_follows : Z;  (* u64 *)
  cs_dirty_pages : Z;  (* int *)
  cs_writing : Z;  (* int *)
  cs_need_flush : bool;
}.

Definition set_cs_cap_flush (v : handle) (x : ceph_cap_snap) : ceph_cap_snap :=
  mk_capsnap v (cs_follows x) (cs_dirty_pages x) (cs_writing x) (cs_need_flush x).
Definition set_cs_follows (v : Z) (x : ceph_cap_snap) : ceph_cap_snap :=
  mk_capsnap (cs_cap_flush x) v (cs_dirty_pages x) (cs_writing x) (cs_need_flush x).
Definition set_cs_dirty_pages (v : Z) (x : ceph_cap_snap) : ceph_cap_snap :=
  mk_capsnap (cs_cap_flush x) (cs_follows x) v (cs_writing x) (cs_need_flush x).
Definition set_cs_writing (v : Z) (x : ceph_cap_snap) : ceph_cap_snap :=
  mk_capsnap (cs_cap_flush x) (cs_follows x) (cs_dirty_pages x) v (cs_need_flush x).
Definition set_cs_need_flush (v : bool) (x : ceph_cap_snap) : ceph_cap_snap :=
  mk_capsnap (cs_cap_flush x) (cs_follows x) (cs_dirty_pages x) (cs_writing x) v.

Inductive file_kind := S_IFREG | S_IFDIR | S_IFOTHER.

Global Instance file_kind_eq_dec : EqDecision file_kind.
Proof. solve_decision. Defined.

(** [struct ceph_inode_info], the fields the modelled functions read or write. *)
Record ceph_inode_info := mk_inode {
  i_ino : Z;  (* i_vino.ino *)
  i_kind : file_kind;  (* the file type bits of i_mode *)
  i_count : Z;  (* the reference count of the inode (ihold, iput) *)
  i_caps : gmap Z Cap.t;  (* rb-tree keyed by mds *)
  i_auth_cap : option Z;  (* the mds of the auth cap; None is NULL *)
  i_snap_caps : Z;
  i_ceph_flags : Z;
  i_dirty_caps : Z;
  i_flushing_caps : Z;
  i_dirty_item : bool;  (* linked on a session's s_cap_dirty *)
  i_flushing_item : bool;  (* linked on a session's s_cap_flushing *)
  i_cap_flush_list : list handle;
  i_prealloc_cap_flush : option handle;
  i_head_snapc : option Z;
  i_snap_realm : option ceph_snap_realm;
  i_cap_snaps : list ceph_cap_snap;
  i_pin_ref : Z;
  i_rd_ref : Z;
  i_rdcache_ref : Z;
  i_wr_ref : Z;
  i_wb_ref : Z;
  i_wrbuffer_ref : Z;
  i_wrbuffer_ref_head : Z;
  i_fx_ref : Z;
  i_max_size : Z;  (* u64 *)
  i_wanted_max_size : Z;  (* u64 *)
  i_requested_max_size : Z;  (* u64 *)
  i_reported_size : Z;  (* u64 *)
  i_truncate_pending : Z;
  i_rdcache_gen : Z;  (* u32 *)
  i_rdcache_revoking : Z;  (* u32 *)
  i_nrpages : Z;  (* netfs.inode.i_data.nrpages *)
  i_last_rd : Z;  (* unsigned long *)
  i_last_wr : Z;  (* unsigned long *)
  i_nr_by_mode : list Z;  (* int[CEPH_FILE_MODE_BITS] *)
  i_size : Z;  (* i_size_read(inode) *)
  i_nlink : Z;
  i_rdonly : bool;  (* IS_RDONLY(inode) *)
  i_dir_complete : bool;  (* __ceph_dir_is_complete(ci) *)
}.

Definition set_i_ino (v : Z) (x : ceph_inode_info) : ceph_inode_info :=
  mk_inode v (i_kind x) (i_count x) (i_caps x) (i_auth_cap x) (i_snap_caps x) (i_ceph_flags x) (i_dirty_caps x) (i_flushing_caps x) (i_dirty_item x) (i_flushing_item x) (i_cap_flush_list x) (i_prealloc_cap_flush x) (i_head_snapc x) (i_snap_realm x) (i_cap_snaps x) (i_pin_ref x) (i_rd_ref x) (i_rdcache_ref x) (i_wr_ref x) (i_wb_ref x) (i_wrbuffer_ref x) (i_wrbuffer_ref_head x) (i_fx_ref x) (i_max_size x) (i_wanted_max_size x) (i_requested_max_size x) (i_reported_size x) (i_truncate_pending x) (i_rdcache_gen x) (i_rdcache_revoking x) (i_nrpages x) (i_last_rd x) (i_last_wr x) (i_nr_by_mode x) (i_size x) (i_nlink x) (i_rdonly x) (i_dir_complete x).
Definition set_i_kind (v : file_kind) (x : ceph_inode_info) : ceph_inode_info :=
  mk_inode (i_ino x) v (i_count x) (i_caps x) (i_auth_cap x) (i_snap_caps x) (i_ceph_flags x) (i_dirty_caps x) (i_flushing_caps x) (i_dirty_item x) (i_flushing_item x) (i_cap_flush_list x) (i_prealloc_cap_flush x) (i_head_snapc x) (i_snap_realm x) (i_cap_snaps x) (i_pin_ref x) (i_rd_ref x) (i_rdcache_ref x) (i_wr_ref x) (i_wb_ref x) (i_wrbuffer_ref x) (i_wrbuffer_ref_head x) (i_fx_ref x) (i_max_size x) (i_wanted_max_size x) (i_requested_max_size x) (i_reported_size x) (i_truncate_pending x) (i_rdcache_gen x) (i_rdcache_revoking x) (i_nrpages x) (i_last_rd x) (i_last_wr x) (i_nr_by_mode x) (i_size x) (i_nlink x) (i_rdonly x) (i_dir_complete x).
Definition set_i_count (v : Z) (x : ceph_inode_info) : ceph_inode_info :=
  mk_inode (i_ino x) (i_kind x) v (i_caps x) (i_auth_cap x) (i_snap_caps x) (i_ceph_flags x) (i_dirty_caps x) (i_flushing_caps x) (i_dirty_item x) (i_flushing_item x) (i_cap_flush_list x) (i_prealloc_cap_flush x) (i_head_snapc x) (i_snap_realm x) (i_cap_snaps x) (i_pin_ref x) (i_rd_ref x) (i_rdcache_ref x) (i_wr_ref x) (i_wb_ref x) (i_wrbuffer_ref x) (i_wrbuffer_ref_head x) (i_fx_ref x) (i_max_size x) (i_wanted_max_size x) (i_requested_max_size x) (i_reported_size x) (i_truncate_pending x) (i_rdcache_gen x) (i_rdcache_revoking x) (i_nrpages x) (i_last_rd x) (i_last_wr x) (i_nr_by_mode x) (i_size x) (i_nlink x) (i_rdonly x) (i_dir_complete x).
Definition set_i_caps (v : gmap Z Cap.t) (x : ceph_inode_info) : ceph_inode_info :=
  mk_inode (i_ino x) (i_kind x) (i_count x) v (i_auth_cap x) (i_snap_caps x) (i_ceph_flags x) (i_dirty_caps x) (i_flushing_caps x) (i_dirty_item x) (i_flushing_item x) (i_cap_flush_list x) (i_prealloc_cap_flush x) (i_head_snapc x) (i_snap_realm x) (i_cap_snaps x) (i_pin_ref x) (i_rd_ref x) (i_rdcache_ref x) (i_wr_ref x) (i_wb_ref x) (i_wrbuffer_ref x) (i_wrbuffer_ref_head x) (i_fx_ref x) (i_max_size x) (i_wanted_max_size x) (i_requested_max_size x) (i_reported_size x) (i_truncate_pending x) (i_rdcache_gen x) (i_rdcache_revoking x) (i_nrpages x) (i_last_rd x) (i_last_wr x) (i_nr_by_mode x) (i_size x) (i_nlink x) (i_rdonly x) (i_dir_complete x).
Definition set_i_auth_cap (v : option Z) (x : ceph_inode_info) : ceph_inode_info :=
  mk_inode (i_ino x) (i_kind x) (i_count x) (i_caps x) v (i_snap_caps x) (i_ceph_flags x) (i_dirty_caps x) (i_flushing_caps x) (i_dirty_item x) (i_flushing_item x) (i_cap_flush_list x) (i_prealloc_cap_flush x) (i_head_snapc x) (i_snap_realm x) (i_cap_snaps x) (i_pin_ref x) (i_rd_ref x) (i_rdcache_ref x) (i_wr_ref x) (i_wb_ref x) (i_wrbuffer_ref x) (i_wrbuffer_ref_head x) (i_fx_ref x) (i_max_size x) (i_wanted_max_size x) (i_requested_max_size x) (i_reported_size x) (i_truncate_pending x) (i_rdcache_gen x) (i_rdcache_revoking x) (i_nrpages x) (i_last_rd x) (i_last_wr x) (i_nr_by_mode x) (i_size x) (i_nlink x) (i_rdonly x) (i_dir_complete x).
Definition set_i_snap_caps (v : Z) (x : ceph_inode_info) : ceph_inode_info :=
  mk_inode (i_ino x) (i_kind x) (i_count x) (i_caps x) (i_auth_cap x) v (i_ceph_flags x) (i_dirty_caps x) (i_flushing_caps x) (i_dirty_item x) (i_flushing_item x) (i_cap_flush_list x) (i_prealloc_cap_flush x) (i_head_snapc x) (i_snap_realm x) (i_cap_snaps x) (i_pin_ref x) (i_rd_ref x) (i_rdcache_ref x) (i_wr_ref x) (i_wb_ref x) (i_wrbuffer_ref x) (i_wrbuffer_ref_head x) (i_fx_ref x) (i_max_size x) (i_wanted_max_size x) (i_requested_max_size x) (i_reported_size x) (i_truncate_pending x) (i_rdcache_gen x) (i_rdcache_revoking x) (i_nrpages x) (i_last_rd x) (i_last_wr x) (i_nr_by_mode x) (i_size x) (i_nlink x) (i_rdonly x) (i_dir_complete x).
Definition set_i_ceph_flags (v : Z) (x : ceph_inode_info) : ceph_inode_info :=
  mk_inode (i_ino x) (i_kind x) (i_count x) (i_caps x) (i_auth_cap x) (i_snap_caps x) v (i_dirty_caps x) (i_flushing_caps x) (i_dirty_item x) (i_flushing_item x) (i_cap_flush_list x) (i_prealloc_cap_flush x) (i_head_snapc x) (i_snap_realm x) (i_cap_snaps x) (i_pin_ref x) (i_rd_ref x) (i_rdcache_ref x) (i_wr_ref x) (i_wb_ref x) (i_wrbuffer_ref x) (i_wrbuffer_ref_head x) (i_fx_ref x) (i_max_size x) (i_wanted_max_size x) (i_requested_max_size x) (i_reported_size x) (i_truncate_pending x) (i_rdcache_gen x) (i_rdcache_revoking x) (i_nrpages x) (i_last_rd x) (i_last_wr x) (i_nr_by_mode x) (i_size x) (i_nlink x) (i_rdonly x) (i_dir_complete x).
Definition set_i_dirty_caps (v : Z) (x : ceph_inode_info) : ceph_inode_info :=
  mk_inode (i_ino x) (i_kind x) (i_count x) (i_caps x) (i_auth_cap x) (i_snap_caps x) (i_ceph_flags x) v (i_flushing_caps x) (i_dirty_item x) (i_flushing_item x) (i_cap_flush_list x) (i_prealloc_cap_flush x) (i_head_snapc x) (i_snap_realm x) (i_cap_snaps x) (i_pin_ref x) (i_rd_ref x) (i_rdcache_ref x) (i_wr_ref x) (i_wb_ref x) (i_wrbuffer_ref x) (i_wrbuffer_ref_head x) (i_fx_ref x) (i_max_size x) (i_wanted_max_size x) (i_requested_max_size x) (i_reported_size x) (i_truncate_pending x) (i_rdcache_gen x) (i_rdcache_revoking x) (i_nrpages x) (i_last_rd x) (i_last_wr x) (i_nr_by_mode x) (i_size x) (i_nlink x) (i_rdonly x) (i_dir_complete x).
Definition set_i_flushing_caps (v : Z) (x : ceph_inode_info) : ceph_inode_info :=
  mk_inode (i_ino x) (i_kind x) (i_count x) (i_caps x) (i_auth_cap x) (i_snap_caps x) (i_ceph_flags x) (i_dirty_caps x) v (i_dirty_item x) (i_flushing_item x) (i_cap_flush_list x) (i_prealloc_cap_flush x) (i_head_snapc x) (i_snap_realm x) (i_cap_snaps x) (i_pin_ref x) (i_rd_ref x) (i_rdcache_ref x) (i_wr_ref x) (i_wb_ref x) (i_wrbuffer_ref x) (i_wrbuffer_ref_head x) (i_fx_ref x) (i_max_size x) (i_wanted_max_size x) (i_requested_max_size x) (i_reported_size x) (i_truncate_pending x) (i_rdcache_gen x) (i_rdcache_revoking x) (i_nrpages x) (i_last_rd x) (i_last_wr x) (i_nr_by_mode x) (i_size x) (i_nlink x) (i_rdonly x) (i_dir_complete x).
Definition set_i_dirty_item (v : bool) (x : ceph_inode_info) : ceph_inode_info :=
  mk_inode (i_ino x) (i_kind x) (i_count x) (i_caps x) (i_auth_cap x) (i_snap_caps x) (i_ceph_flags x) (i_dirty_caps x) (i_flushing_caps x) v (i_flushing_item x) (i_cap_flush_list x) (i_prealloc_cap_flush x) (i_head_snapc x) (i_snap_realm x) (i_cap_snaps x) (i_pin_ref x) (i_rd_ref x) (i_rdcache_ref x) (i_wr_ref x) (i_wb_ref x) (i_wrbuffer_ref x) (i_wrbuffer_ref_head x) (i_fx_ref x) (i_max_size x) (i_wanted_max_size x) (i_requested_max_size x) (i_reported_size x) (i_truncate_pending x) (i_rdcache_gen x) (i_rdcache_revoking x) (i_nrpages x) (i_last_rd x) (i_last_wr x) (i_nr_by_mode x) (i_size x) (i_nlink x) (i_rdonly x) (i_dir_complete x).
Definition set_i_flushing_item (v : bool) (x : ceph_inode_info) : ceph_inode_info :=
  mk_inode (i_ino x) (i_kind x) (i_count x) (i_caps x) (i_auth_cap x) (i_snap_caps x) (i_ceph_flags x) (i_dirty_caps x) (i_flushing_caps x) (i_dirty_item x) v (i_cap_flush_list x) (i_prealloc_cap_flush x) (i_head_snapc x) (i_snap_realm x) (i_cap_snaps x) (i_pin_ref x) (i_rd_ref x) (i_rdcache_ref x) (i_wr_ref x) (i_wb_ref x) (i_wrbuffer_ref x) (i_wrbuffer_ref_head x) (i_fx_ref x) (i_max_size x) (i_wanted_max_size x) (i_requested_max_size x) (i_reported_size x) (i_truncate_pending x) (i_rdcache_gen x) (i_rdcache_revoking x) (i_nrpages x) (i_last_rd x) (i_last_wr x) (i_nr_by_mode x) (i_size x) (i_nlink x) (i_rdonly x) (i_dir_complete x).
Definition set_i_cap_flush_list (v : list handle) (x : ceph_inode_info) : ceph_inode_info :=
  mk_inode (i_ino x) (i_kind x) (i_count x) (i_caps x) (i_auth_cap x) (i_snap_caps x) (i_ceph_flags x) (i_dirty_caps x) (i_flushing_caps x) (i_dirty_item x) (i_flushing_item x) v (i_prealloc_cap_flush x) (i_head_snapc x) (i_snap_realm x) (i_cap_snaps x) (i_pin_ref x) (i_rd_ref x) (i_rdcache_ref x) (i_wr_ref x) (i_wb_ref x) (i_wrbuffer_ref x) (i_wrbuffer_ref_head x) (i_fx_ref x) (i_max_size x) (i_wanted_max_size x) (i_requested_max_size x) (i_reported_size x) (i_truncate_pending x) (i_rdcache_gen x) (i_rdcache_revoking x) (i_nrpages x) (i_last_rd x) (i_last_wr x) (i_nr_by_mode x) (i_size x) (i_nlink x) (i_rdonly x) (i_dir_complete x).
Definition set_i_prealloc_cap_flush (v : option handle) (x : ceph_inode_info) : ceph_inode_info :=
  mk_inode (i_ino x) (i_kind x) (i_count x) (i_caps x) (i_auth_cap x) (i_snap_caps x) (i_ceph_flags x) (i_dirty_caps x) (i_flushing_caps x) (i_dirty_item x) (i_flushing_item x) (i_cap_flush_list x) v (i_head_snapc x) (i_snap_realm x) (i_cap_snaps x) (i_pin_ref x) (i_rd_ref x) (i_rdcache_ref x) (i_wr_ref x) (i_wb_ref x) (i_wrbuffer_ref x) (i_wrbuffer_ref_head x) (i_fx_ref x) (i_max_size x) (i_wanted_max_size x) (i_requested_max_size x) (i_reported_size x) (i_truncate_pending x) (i_rdcache_gen x) (i_rdcache_revoking x) (i_nrpages x) (i_last_rd x) (i_last_wr x) (i_nr_by_mode x) (i_size x) (i_nlink x) (i_rdonly x) (i_dir_complete x).
Definition set_i_head_snapc (v : option Z) (x : ceph_inode_info) : ceph_inode_info :=
  mk_inode (i_ino x) (i_kind x) (i_count x) (i_caps x) (i_auth_cap x) (i_snap_caps x) (i_ceph_flags x) (i_dirty_caps x) (i_flushing_caps x) (i_dirty_item x) (i_flushing_item x) (i_cap_flush_list x) (i_prealloc_cap_flush x) v (i_snap_realm x) (i_cap_snaps x) (i_pin_ref x) (i_rd_ref x) (i_rdcache_ref x) (i_wr_ref x) (i_wb_ref x) (i_wrbuffer_ref x) (i_wrbuffer_ref_head x) (i_fx_ref x) (i_max_size x) (i_wanted_max_size x) (i_requested_max_size x) (i_reported_size x) (i_truncate_pending x) (i_rdcache_gen x) (i_rdcache_revoking x) (i_nrpages x) (i_last_rd x) (i_last_wr x) (i_nr_by_mode x) (i_size x) (i_nlink x) (i_rdonly x) (i_dir_complete x).
Definition set_i_snap_realm (v : option ceph_snap_realm) (x : ceph_inode_info) : ceph_inode_info :=
  mk_inode (i_ino x) (i_kind x) (i_count x) (i_caps x) (i_auth_cap x) (i_snap_caps x) (i_ceph_flags x) (i_dirty_caps x) (i_flushing_caps x) (i_dirty_item x) (i_flushing_item x) (i_cap_flush_list x) (i_prealloc_cap_flush x) (i_head_snapc x) v (i_cap_snaps x) (i_pin_ref x) (i_rd_ref x) (i_rdcache_ref x) (i_wr_ref x) (i_wb_ref x) (i_wrbuffer_ref x) (i_wrbuffer_ref_head x) (i_fx_ref x) (i_max_size x) (i_wanted_max_size x) (i_requested_max_size x) (i_reported_size x) (i_truncate_pending x) (i_rdcache_gen x) (i_rdcache_revoking x) (i_nrpages x) (i_last_rd x) (i_last_wr x) (i_nr_by_mode x) (i_size x) (i_nlink x) (i_rdonly x) (i_dir_complete x).
Definition set_i_cap_snaps (v : list ceph_cap_snap) (x : ceph_inode_info) : ceph_inode_info :=
  mk_inode (i_ino x) (i_kind x) (i_count x) (i_caps x) (i_auth_cap x) (i_snap_caps x) (i_ceph_flags x) (i_dirty_caps x) (i_flushing_caps x) (i_dirty_item x) (i_flushing_item x) (i_cap_flush_list x) (i_prealloc_cap_flush x) (i_head_snapc x) (i_snap_realm x) v (i_pin_ref x) (i_rd_ref x) (i_rdcache_ref x) (i_wr_ref x) (i_wb_ref x) (i_wrbuffer_ref x) (i_wrbuffer_ref_head x) (i_fx_ref x) (i_max_size x) (i_wanted_max_size x) (i_requested_max_size x) (i_reported_size x) (i_truncate_pending x) (i_rdcache_gen x) (i_rdcache_revoking x) (i_nrpages x) (i_last_rd x) (i_last_wr x) (i_nr_by_mode x) (i_size x) (i_nlink x) (i_rdonly x) (i_dir_complete x).
Definition set_i_pin_ref (v : Z) (x : ceph_inode_info) : ceph_inode_info :=
  mk_inode (i_ino x) (i_kind x) (i_count x) (i_caps x) (i_auth_cap x) (i_snap_caps x) (i_ceph_flags x) (i_dirty_caps x) (i_flushing_caps x) (i_dirty_item x) (i_flushing_item x) (i_cap_flush_list x) (i_prealloc_cap_flush x) (i_head_snapc x) (i_snap_realm x) (i_cap_snaps x) v (i_rd_ref x) (i_rdcache_ref x) (i_wr_ref x) (i_wb_ref x) (i_wrbuffer_ref x) (i_wrbuffer_ref_head x) (i_fx_ref x) (i_max_size x) (i_wanted_max_size x) (i_requested_max_size x) (i_reported_size x) (i_truncate_pending x) (i_rdcache_gen x) (i_rdcache_revoking x) (i_nrpages x) (i_last_rd x) (i_last_wr x) (i_nr_by_mode x) (i_size x) (i_nlink x) (i_rdonly x) (i_dir_complete x).
Definition set_i_rd_ref (v : Z) (x : ceph_inode_info) : ceph_inode_info :=
  mk_inode (i_ino x) (i_kind x) (i_count x) (i_caps x) (i_auth_cap x) (i_snap_caps x) (i_ceph_flags x) (i_dirty_caps x) (i_flushing_caps x) (i_dirty_item x) (i_flushing_item x) (i_cap_flush_list x) (i_prealloc_cap_flush x) (i_head_snapc x) (i_snap_realm x) (i_cap_snaps x) (i_pin_ref x) v (i_rdcache_ref x) (i_wr_ref x) (i_wb_ref x) (i_wrbuffer_ref x) (i_wrbuffer_ref_head x) (i_fx_ref x) (i_max_size x) (i_wanted_max_size x) (i_requested_max_size x) (i_reported_size x) (i_truncate_pending x) (i_rdcache_gen x) (i_rdcache_revoking x) (i_nrpages x) (i_last_rd x) (i_last_wr x) (i_nr_by_mode x) (i_size x) (i_nlink x) (i_rdonly x) (i_dir_complete x).
Definition set_i_rdcache_ref (v : Z) (x : ceph_inode_info) : ceph_inode_info :=
  mk_inode (i_ino x) (i_kind x) (i_count x) (i_caps x) (i_auth_cap x) (i_snap_caps x) (i_ceph_flags x) (i_dirty_caps x) (i_flushing_caps x) (i_dirty_item x) (i_flushing_item x) (i_cap_flush_list x) (i_prealloc_cap_flush x) (i_head_snapc x) (i_snap_realm x) (i_cap_snaps x) (i_pin_ref x) (i_rd_ref x) v (i_wr_ref x) (i_wb_ref x) (i_wrbuffer_ref x) (i_wrbuffer_ref_head x) (i_fx_ref x) (i_max_size x) (i_wanted_max_size x) (i_requested_max_size x) (i_reported_size x) (i_truncate_pending x) (i_rdcache_gen x) (i_rdcache_revoking x) (i_nrpages x) (i_last_rd x) (i_last_wr x) (i_nr_by_mode x) (i_size x) (i_nlink x) (i_rdonly x) (i_dir_complete x).
Definition set_i_wr_ref (v : Z) (x : ceph_inode_info) : ceph_inode_info :=
  mk_inode (i_ino x) (i_kind x) (i_count x) (i_caps x) (i_auth_cap x) (i_snap_caps x) (i_ceph_flags x) (i_dirty_caps x) (i_flushing_caps x) (i_dirty_item x) (i_flushing_item x) (i_cap_flush_list x) (i_prealloc_cap_flush x) (i_head_snapc x) (i_snap_realm x) (i_cap_snaps x) (i_pin_ref x) (i_rd_ref x) (i_rdcache_ref x) v (i_wb_ref x) (i_wrbuffer_ref x) (i_wrbuffer_ref_head x) (i_fx_ref x) (i_max_size x) (i_wanted_max_size x) (i_requested_max_size x) (i_reported_size x) (i_truncate_pending x) (i_rdcache_gen x) (i_rdcache_revoking x) (i_nrpages x) (i_last_rd x) (i_last_wr x) (i_nr_by_mode x) (i_size x) (i_nlink x) (i_rdonly x) (i_dir_complete x).
Definition set_i_wb_ref (v : Z) (x : ceph_inode_info) : ceph_inode_info :=
  mk_inode (i_ino x) (i_kind x) (i_count x) (i_caps x) (i_auth_cap x) (i_snap_caps x) (i_ceph_flags x) (i_dirty_caps x) (i_flushing_caps x) (i_dirty_item x) (i_flushing_item x) (i_cap_flush_list x) (i_prealloc_cap_flush x) (i_head_snapc x) (i_snap_realm x) (i_cap_snaps x) (i_pin_ref x) (i_rd_ref x) (i_rdcache_ref x) (i_wr_ref x) v (i_wrbuffer_ref x) (i_wrbuffer_ref_head x) (i_fx_ref x) (i_max_size x) (i_wanted_max_size x) (i_requested_max_size x) (i_reported_size x) (i_truncate_pending x) (i_rdcache_gen x) (i_rdcache_revoking x) (i_nrpages x) (i_last_rd x) (i_last_wr x) (i_nr_by_mode x) (i_size x) (i_nlink x) (i_rdonly x) (i_dir_complete x).
Definition set_i_wrbuffer_ref (v : Z) (x : ceph_inode_info) : ceph_inode_info :=
  mk_inode (i_ino x) (i_kind x) (i_count x) (i_caps x) (i_auth_cap x) (i_snap_caps x) (i_ceph_flags x) (i_dirty_caps x) (i_flushing_caps x) (i_dirty_item x) (i_flushing_item x) (i_cap_flush_list x) (i_prealloc_cap_flush x) (i_head_snapc x) (i_snap_realm x) (i_cap_snaps x) (i_pin_ref x) (i_rd_ref x) (i_rdcache_ref x) (i_wr_ref x) (i_wb_ref x) v (i_wrbuffer_ref_head x) (i_fx_ref x) (i_max_size x) (i_wanted_max_size x) (i_requested_max_size x) (i_reported_size x) (i_truncate_pending x) (i_rdcache_gen x) (i_rdcache_revoking x) (i_nrpages x) (i_last_rd x) (i_last_wr x) (i_nr_by_mode x) (i_size x) (i_nlink x) (i_rdonly x) (i_dir_complete x).
Definition set_i_wrbuffer_ref_head (v : Z) (x : ceph_inode_info) : ceph_inode_info :=
  mk_inode (i_ino x) (i_kind x) (i_count x) (i_caps x) (i_auth_cap x) (i_snap_caps x) (i_ceph_flags x) (i_dirty_caps x) (i_flushing_caps x) (i_dirty_item x) (i_flushing_item x) (i_cap_flush_list x) (i_prealloc_cap_flush x) (i_head_snapc x) (i_snap_realm x) (i_cap_snaps x) (i_pin_ref x) (i_rd_ref x) (i_rdcache_ref x) (i_wr_ref x) (i_wb_ref x) (i_wrbuffer_ref x) v (i_fx_ref x) (i_max_size x) (i_wanted_max_size x) (i_requested_max_size x) (i_reported_size x) (i_truncate_pending x) (i_rdcache_gen x) (i_rdcache_revoking x) (i_nrpages x) (i_last_rd x) (i_last_wr x) (i_nr_by_mode x) (i_size x) (i_nlink x) (i_rdonly x) (i_dir_complete x).
Definition set_i_fx_ref (v : Z) (x : ceph_inode_info) : ceph_inode_info :=
  mk_inode (i_ino x) (i_kind x) (i_count x) (i_caps x) (i_auth_cap x) (i_snap_caps x) (i_ceph_flags x) (i_dirty_caps x) (i_flushing_caps x) (i_dirty_item x) (i_flushing_item x) (i_cap_flush_list x) (i_prealloc_cap_flush x) (i_head_snapc x) (i_snap_realm x) (i_cap_snaps x) (i_pin_ref x) (i_rd_ref x) (i_rdcache_ref x) (i_wr_ref x) (i_wb_ref x) (i_wrbuffer_ref x) (i_wrbuffer_ref_head x) v (i_max_size x) (i_wanted_max_size x) (i_requested_max_size x) (i_reported_size x) (i_truncate_pending x) (i_rdcache_gen x) (i_rdcache_revoking x) (i_nrpages x) (i_last_rd x) (i_last_wr x) (i_nr_by_mode x) (i_size x) (i_nlink x) (i_rdonly x) (i_dir_complete x).
Definition set_i_max_size (v : Z) (x : ceph_inode_info) : ceph_inode_info :=
  mk_inode (i_ino x) (i_kind x) (i_count x) (i_caps x) (i_auth_cap x) (i_snap_caps x) (i_ceph_flags x) (i_dirty_caps x) (i_flushing_caps x) (i_dirty_item x) (i_flushing_item x) (i_cap_flush_list x) (i_prealloc_cap_flush x) (i_head_snapc x) (i_snap_realm x) (i_cap_snaps x) (i_pin_ref x) (i_rd_ref x) (i_rdcache_ref x) (i_wr_ref x) (i_wb_ref x) (i_wrbuffer_ref x) (i_wrbuffer_ref_head x) (i_fx_ref x) v (i_wanted_max_size x) (i_requested_max_size x) (i_reported_size x) (i_truncate_pending x) (i_rdcache_gen x) (i_rdcache_revoking x) (i_nrpages x) (i_last_rd x) (i_last_wr x) (i_nr_by_mode x) (i_size x) (i_nlink x) (i_rdonly x) (i_dir_complete x).
Definition set_i_wanted_max_size (v : Z) (x : ceph_inode_info) : ceph_inode_info :=
  mk_inode (i_ino x) (i_kind x) (i_count x) (i_caps x) (i_auth_cap x) (i_snap_caps x) (i_ceph_flags x) (i_dirty_caps x) (i_flushing_caps x) (i_dirty_item x) (i_flushing_item x) (i_cap_flush_list x) (i_prealloc_cap_flush x) (i_head_snapc x) (i_snap_realm x) (i_cap_snaps x) (i_pin_ref x) (i_rd_ref x) (i_rdcache_ref x) (i_wr_ref x) (i_wb_ref x) (i_wrbuffer_ref x) (i_wrbuffer_ref_head x) (i_fx_ref x) (i_max_size x) v (i_requested_max_size x) (i_reported_size x) (i_truncate_pending x) (i_rdcache_gen x) (i_rdcache_revoking x) (i_nrpages x) (i_last_rd x) (i_last_wr x) (i_nr_by_mode x) (i_size x) (i_nlink x) (i_rdonly x) (i_dir_complete x).
Definition set_i_requested_max_size (v : Z) (x : ceph_inode_info) : ceph_inode_info :=
  mk_inode (i_ino x) (i_kind x) (i_count x) (i_caps x) (i_auth_cap x) (i_snap_caps x) (i_ceph_flags x) (i_dirty_caps x) (i_flushing_caps x) (i_dirty_item x) (i_flushing_item x) (i_cap_flush_list x) (i_prealloc_cap_flush x) (i_head_snapc x) (i_snap_realm x) (i_cap_snaps x) (i_pin_ref x) (i_rd_ref x) (i_rdcache_ref x) (i_wr_ref x) (i_wb_ref x) (i_wrbuffer_ref x) (i_wrbuffer_ref_head x) (i_fx_ref x) (i_max_size x) (i_wanted_max_size x) v (i_reported_size x) (i_truncate_pending x) (i_rdcache_gen x) (i_rdcache_revoking x) (i_nrpages x) (i_last_rd x) (i_last_wr x) (i_nr_by_mode x) (i_size x) (i_nlink x) (i_rdonly x) (i_dir_complete x).
Definition set_i_reported_size (v : Z) (x : ceph_inode_info) : ceph_inode_info :=
  mk_inode (i_ino x) (i_kind x) (i_count x) (i_caps x) (i_auth_cap x) (i_snap_caps x) (i_ceph_flags x) (i_dirty_caps x) (i_flushing_caps x) (i_dirty_item x) (i_flushing_item x) (i_cap_flush_list x) (i_prealloc_cap_flush x) (i_head_snapc x) (i_snap_realm x) (i_cap_snaps x) (i_pin_ref x) (i_rd_ref x) (i_rdcache_ref x) (i_wr_ref x) (i_wb_ref x) (i_wrbuffer_ref x) (i_wrbuffer_ref_head x) (i_fx_ref x) (i_max_size x) (i_wanted_max_size x) (i_requested_max_size x) v (i_truncate_pending x) (i_rdcache_gen x) (i_rdcache_revoking x) (i_nrpages x) (i_last_rd x) (i_last_wr x) (i_nr_by_mode x) (i_size x) (i_nlink x) (i_rdonly x) (i_dir_complete x).
Definition set_i_truncate_pending (v : Z) (x : ceph_inode_info) : ceph_inode_info :=
  mk_inode (i_ino x) (i_kind x) (i_count x) (i_caps x) (i_auth_cap x) (i_snap_caps x) (i_ceph_flags x) (i_dirty_caps x) (i_flushing_caps x) (i_dirty_item x) (i_flushing_item x) (i_cap_flush_list x) (i_prealloc_cap_flush x) (i_head_snapc x) (i_snap_realm x) (i_cap_snaps x) (i_pin_ref x) (i_rd_ref x) (i_rdcache_ref x) (i_wr_ref x) (i_wb_ref x) (i_wrbuffer_ref x) (i_wrbuffer_ref_head x) (i_fx_ref x) (i_max_size x) (i_wanted_max_size x) (i_requested_max_size x) (i_reported_size x) v (i_rdcache_gen x) (i_rdcache_revoking x) (i_nrpages x) (i_last_rd x) (i_last_wr x) (i_nr_by_mode x) (i_size x) (i_nlink x) (i_rdonly x) (i_dir_complete x).
Definition set_i_rdcache_gen (v : Z) (x : ceph_inode_info) : ceph_inode_info :=
  mk_inode (i_ino x) (i_kind x) (i_count x) (i_caps x) (i_auth_cap x) (i_snap_caps x) (i_ceph_flags x) (i_dirty_caps x) (i_flushing_caps x) (i_dirty_item x) (i_flushing_item x) (i_cap_flush_list x) (i_prealloc_cap_flush x) (i_head_snapc x) (i_snap_realm x) (i_cap_snaps x) (i_pin_ref x) (i_rd_ref x) (i_rdcache_ref x) (i_wr_ref x) (i_wb_ref x) (i_wrbuffer_ref x) (i_wrbuffer_ref_head x) (i_fx_ref x) (i_max_size x) (i_wanted_max_size x) (i_requested_max_size x) (i_reported_size x) (i_truncate_pending x) v (i_rdcache_revoking x) (i_nrpages x) (i_last_rd x) (i_last_wr x) (i_nr_by_mode x) (i_size x) (i_nlink x) (i_rdonly x) (i_dir_complete x).
Definition set_i_rdcache_revoking (v : Z) (x : ceph_inode_info) : ceph_inode_info :=
  mk_inode (i_ino x) (i_kind x) (i_count x) (i_caps x) (i_auth_cap x) (i_snap_caps x) (i_ceph_flags x) (i_dirty_caps x) (i_flushing_caps x) (i_dirty_item x) (i_flushing_item x) (i_cap_flush_list x) (i_prealloc_cap_flush x) (i_head_snapc x) (i_snap_realm x) (i_cap_snaps x) (i_pin_ref x) (i_rd_ref x) (i_rdcache_ref x) (i_wr_ref x) (i_wb_ref x) (i_wrbuffer_ref x) (i_wrbuffer_ref_head x) (i_fx_ref x) (i_max_size x) (i_wanted_max_size x) (i_requested_max_size x) (i_reported_size x) (i_truncate_pending x) (i_rdcache_gen x) v (i_nrpages x) (i_last_rd x) (i_last_wr x) (i_nr_by_mode x) (i_size x) (i_nlink x) (i_rdonly x) (i_dir_complete x).
Definition set_i_nrpages (v : Z) (x : ceph_inode_info) : ceph_inode_info :=
  mk_inode (i_ino x) (i_kind x) (i_count x) (i_caps x) (i_auth_cap x) (i_snap_caps x) (i_ceph_flags x) (i_dirty_caps x) (i_flushing_caps x) (i_dirty_item x) (i_flushing_item x) (i_cap_flush_list x) (i_prealloc_cap_flush x) (i_head_snapc x) (i_snap_realm x) (i_cap_snaps x) (i_pin_ref x) (i_rd_ref x) (i_rdcache_ref x) (i_wr_ref x) (i_wb_ref x) (i_wrbuffer_ref x) (i_wrbuffer_ref_head x) (i_fx_ref x) (i_max_size x) (i_wanted_max_size x) (i_requested_max_size x) (i_reported_size x) (i_truncate_pending x) (i_rdcache_gen x) (i_rdcache_revoking x) v (i_last_rd x) (i_last_wr x) (i_nr_by_mode x) (i_size x) (i_nlink x) (i_rdonly x) (i_dir_complete x).
Definition set_i_last_rd (v : Z) (x : ceph_inode_info) : ceph_inode_info :=
  mk_inode (i_ino x) (i_kind x) (i_count x) (i_caps x) (i_auth_cap x) (i_snap_caps x) (i_ceph_flags x) (i_dirty_caps x) (i_flushing_caps x) (i_dirty_item x) (i_flushing_item x) (i_cap_flush_list x) (i_prealloc_cap_flush x) (i_head_snapc x) (i_snap_realm x) (i_cap_snaps x) (i_pin_ref x) (i_rd_ref x) (i_rdcache_ref x) (i_wr_ref x) (i_wb_ref x) (i_wrbuffer_ref x) (i_wrbuffer_ref_head x) (i_fx_ref x) (i_max_size x) (i_wanted_max_size x) (i_requested_max_size x) (i_reported_size x) (i_truncate_pending x) (i_rdcache_gen x) (i_rdcache_revoking x) (i_nrpages x) v (i_last_wr x) (i_nr_by_mode x) (i_size x) (i_nlink x) (i_rdonly x) (i_dir_complete x).
Definition set_i_last_wr (v : Z) (x : ceph_inode_info) : ceph_inode_info :=
  mk_inode (i_ino x) (i_kind x) (i_count x) (i_caps x) (i_auth_cap x) (i_snap_caps x) (i_ceph_flags x) (i_dirty_caps x) (i_flushing_caps x) (i_dirty_item x) (i_flushing_item x) (i_cap_flush_list x) (i_prealloc_cap_flush x) (i_head_snapc x) (i_snap_realm x) (i_cap_snaps x) (i_pin_ref x) (i_rd_ref x) (i_rdcache_ref x) (i_wr_ref x) (i_wb_ref x) (i_wrbuffer_ref x) (i_wrbuffer_ref_head x) (i_fx_ref x) (i_max_size x) (i_wanted_max_size x) (i_requested_max_size x) (i_reported_size x) (i_truncate_pending x) (i_rdcache_gen x) (i_rdcache_revoking x) (i_nrpages x) (i_last_rd x) v (i_nr_by_mode x) (i_size x) (i_nlink x) (i_rdonly x) (i_dir_complete x).
Definition set_i_nr_by_mode (v : list Z) (x : ceph_inode_info) : ceph_inode_info :=
  mk_inode (i_ino x) (i_kind x) (i_count x) (i_caps x) (i_auth_cap x) (i_snap_caps x) (i_ceph_flags x) (i_dirty_caps x) (i_flushing_caps x) (i_dirty_item x) (i_flushing_item x) (i_cap_flush_list x) (i_prealloc_cap_flush x) (i_head_snapc x) (i_snap_realm x) (i_cap_snaps x) (i_pin_ref x) (i_rd_ref x) (i_rdcache_ref x) (i_wr_ref x) (i_wb_ref x) (i_wrbuffer_ref x) (i_wrbuffer_ref_head x) (i_fx_ref x) (i_max_size x) (i_wanted_max_size x) (i_requested_max_size x) (i_reported_size x) (i_truncate_pending x) (i_rdcache_gen x) (i_rdcache_revoking x) (i_nrpages x) (i_last_rd x) (i_last_wr x) v (i_size x) (i_nlink x) (i_rdonly x) (i_dir_complete x).
Definition set_i_size (v : Z) (x : ceph_inode_info) : ceph_inode_info :=
  mk_inode (i_ino x) (i_kind x) (i_count x) (i_caps x) (i_auth_cap x) (i_snap_caps x) (i_ceph_flags x) (i_dirty_caps x) (i_flushing_caps x) (i_dirty_item x) (i_flushing_item x) (i_cap_flush_list x) (i_prealloc_cap_flush x) (i_head_snapc x) (i_snap_realm x) (i_cap_snaps x) (i_pin_ref x) (i_rd_ref x) (i_rdcache_ref x) (i_wr_ref x) (i_wb_ref x) (i_wrbuffer_ref x) (i_wrbuffer_ref_head x) (i_fx_ref x) (i_max_size x) (i_wanted_max_size x) (i_requested_max_size x) (i_reported_size x) (i_truncate_pending x) (i_rdcache_gen x) (i_rdcache_revoking x) (i_nrpages x) (i_last_rd x) (i_last_wr x) (i_nr_by_mode x) v (i_nlink x) (i_rdonly x) (i_dir_complete x).
Definition set_i_nlink (v : Z) (x : ceph_inode_info) : ceph_inode_info :=
  mk_inode (i_ino x) (i_kind x) (i_count x) (i_caps x) (i_auth_cap x) (i_snap_caps x) (i_ceph_flags x) (i_dirty_caps x) (i_flushing_caps x) (i_dirty_item x) (i_flushing_item x) (i_cap_flush_list x) (i_prealloc_cap_flush x) (i_head_snapc x) (i_snap_realm x) (i_cap_snaps x) (i_pin_ref x) (i_rd_ref x) (i_rdcache_ref x) (i_wr_ref x) (i_wb_ref x) (i_wrbuffer_ref x) (i_wrbuffer_ref_head x) (i_fx_ref x) (i_max_size x) (i_wanted_max_size x) (i_requested_max_size x) (i_reported_size x) (i_truncate_pending x) (i_rdcache_gen x) (i_rdcache_revoking x) (i_nrpages x) (i_last_rd x) (i_last_wr x) (i_nr_by_mode x) (i_size x) v (i_rdonly x) (i_dir_complete x).
Definition set_i_rdonly (v : bool) (x : ceph_inode_info) : ceph_inode_info :=
  mk_inode (i_ino x) (i_kind x) (i_count x) (i_caps x) (i_auth_cap x) (i_snap_caps x) (i_ceph_flags x) (i_dirty_caps x) (i_flushing_caps x) (i_dirty_item x) (i_flushing_item x) (i_cap_flush_list x) (i_prealloc_cap_flush x) (i_head_snapc x) (i_snap_realm x) (i_cap_snaps x) (i_pin_ref x) (i_rd_ref x) (i_rdcache_ref x) (i_wr_ref x) (i_wb_ref x) (i_wrbuffer_ref x) (i_wrbuffer_ref_head x) (i_fx_ref x) (i_max_size x) (i_wanted_max_size x) (i_requested_max_size x) (i_reported_size x) (i_truncate_pending x) (i_rdcache_gen x) (i_rdcache_revoking x) (i_nrpages x) (i_last_rd x) (i_last_wr x) (i_nr_by_mode x) (i_size x) (i_nlink x) v (i_dir_complete x).
Definition set_i_dir_complete (v : bool) (x : ceph_inode_info) : ceph_inode_info :=
  mk_inode (i_ino x) (i_kind x) (i_count x) (i_caps x) (i_auth_cap x) (i_snap_caps x) (i_ceph_flags x) (i_dirty_caps x) (i_flushing_caps x) (i_dirty_item x) (i_flushing_item x) (i_cap_flush_list x) (i_prealloc_cap_flush x) (i_head_snapc x) (i_snap_realm x) (i_cap_snaps x) (i_pin_ref x) (i_rd_ref x) (i_rdcache_ref x) (i_wr_ref x) (i_wb_ref x) (i_wrbuffer_ref x) (i_wrbuffer_ref_head x) (i_fx_ref x) (i_max_size x) (i_wanted_max_size x) (i_requested_max_size x) (i_reported_size x) (i_truncate_pending x) (i_rdcache_gen x) (i_rdcache_revoking x) (i_nrpages x) (i_last_rd x) (i_last_wr x) (i_nr_by_mode x) (i_size x) (i_nlink x) (i_rdonly x) v.

(** [struct ceph_mds_session], keyed by [s_mds] in [sessions]. *)
Record ceph_mds_session := mk_session {
  s_cap_gen : Z;  (* u32 *)
  s_cap_ttl : Z;  (* unsigned long *)
  s_readonly : bool;
  s_cap_reconnect : bool;
  s_cap_iterator : option (Z * Z);  (* the cap under iteration, as (ino, mds) *)
  s_cap_dirty : list Z;  (* inode numbers *)
  s_cap_flushing : list Z;  (* inode numbers *)
}.

Definition set_s_cap_gen (v : Z) (x : ceph_mds_session) : ceph_mds_session :=
  mk_session v (s_cap_ttl x) (s_readonly x) (s_cap_reconnect x) (s_cap_iterator x) (s_cap_dirty x) (s_cap_flushing x).
Definition set_s_readonly (v : bool) (x : ceph_mds_session) : ceph_mds_session :=
  mk_session (s_cap_gen x) (s_cap_ttl x) v (s_cap_reconnect x) (s_cap_iterator x) (s_cap_dirty x) (s_cap_flushing x).
Definition set_s_cap_reconnect (v : bool) (x : ceph_mds_session) : ceph_mds_session :=
  mk_session (s_cap_gen x) (s_cap_ttl x) (s_readonly x) v (s_cap_iterator x) (s_cap_dirty x) (s_cap_flushing x).
Definition set_s_cap_iterator (v : option (Z * Z)) (x : ceph_mds_session) : ceph_mds_session :=
  mk_session (s_cap_gen x) (s_cap_ttl x) (s_readonly x) (s_cap_reconnect x) v (s_cap_dirty x) (s_cap_flushing x).
Definition set_s_cap_dirty (v : list Z) (x : ceph_mds_session) : ceph_mds_session :=
  mk_session (s_cap_gen x) (s_cap_ttl x) (s_readonly x) (s_cap_reconnect x) (s_cap_iterator x) v (s_cap_flushing x).
Definition set_s_cap_flushing (v : list Z) (x : ceph_mds_session) : ceph_mds_session :=
  mk_session (s_cap_gen x) (s_cap_ttl x) (s_readonly x) (s_cap_reconnect x) (s_cap_iterator x) (s_cap_dirty x) v.

(** [struct ceph_mds_client], with the store of cap flush records that the lists point into. *)
Record ceph_mds_client := mk_mdsc {
  pool : Pool.t;  (* the caps_*_count counters and caps_list *)
  last_cap_flush_tid : Z;  (* u64 *)
  cap_flush_list : list handle;
  num_cap_flushing : Z;  (* int *)
  flushes : gmap nat Flush.t;  (* the cap flush records *)
  sessions : gmap Z ceph_mds_session;
}.

Definition set_pool (v : Pool.t) (x : ceph_mds_client) : ceph_mds_client :=
  mk_mdsc v (last_cap_flush_tid x) (cap_flush_list x) (num_cap_flushing x) (flushes x) (sessions x).
Definition set_last_cap_flush_tid (v : Z) (x : ceph_mds_client) : ceph_mds_client :=
  mk_mdsc (pool x) v (cap_flush_list x) (num_cap_flushing x) (flushes x) (sessions x).
Definition set_cap_flush_list (v : list handle) (x : ceph_mds_client) : ceph_mds_client :=
  mk_mdsc (pool x) (last_cap_flush_tid x) v (num_cap_flushing x) (flushes x) (sessions x).
Definition set_num_cap_flushing (v : Z) (x : ceph_mds_client) : ceph_mds_client :=
  mk_mdsc (pool x) (last_cap_flush_tid x) (cap_flush_list x) v (flushes x) (sessions x).
Definition set_flushes (v : gmap nat Flush.t) (x : ceph_mds_client) : ceph_mds_client :=
  mk_mdsc (pool x) (last_cap_flush_tid x) (cap_flush_list x) (num_cap_flushing x) v (sessions x).
Definition set_sessions (v : gmap Z ceph_mds_session) (x : ceph_mds_client) : ceph_mds_client :=
  mk_mdsc (pool x) (last_cap_flush_tid x) (cap_flush_list x) (num_cap_flushing x) (flushes x) v.

(** ** The per-inode capability set *)

(** What a call finds around it: the clock and the mount options. *)
Record env := mk_env {
  jiffies : Z;
  caps_wanted_delay_max : Z;
  caps_wanted_delay_min : Z;
  mount_flags : Z;
  mdsc_stopping : bool;
  inode_is_shutdown : bool;   (* ceph_inode_is_shutdown(inode) *)
}.

(** Calls into code outside this file whose effect is not part of the
    state below are recorded in the order they are made. *)
Inductive action :=
  | QueueCapRelease (smds ino cap_id seq issue_seq mseq : Z)
      (* __ceph_queue_cap_release(session, cap) *)
  | FlushSessionCapReleases (smds : Z)
      (* ceph_flush_session_cap_releases(mdsc, session) *)
  | SendCap (smds : Z) (flush_tid oldest_flush_tid : Z) (caps wanted dirty : Z)
      (* __send_cap(&arg, ci) *)
  | SendFlushSnap (smds : Z) (flush_tid oldest_flush_tid : Z)
      (* __send_flush_snap(inode, session, capsnap, mseq, oldest_flush_tid) *)
  | CheckCaps (ino : Z) (flags : Z)
      (* ceph_check_caps(ci, flags), called once the locks are dropped *)
  | QueueWriteback (ino : Z)
  | QueueInvalidate (ino : Z)
  | QueueVmtruncate (ino : Z)
  | InvalidateAliases (ino : Z)  (* invalidate_aliases(inode) *)
  | WakeCapWq (ino : Z)        (* wake_up_all(&ci->i_cap_wq) *)
  | WakeFlushingWq             (* wake_up_all(&mdsc->cap_flushing_wq) *)
  | CloseSessions              (* ceph_mdsc_close_sessions(mdsc) *)
  | CorruptMessage.            (* pr_err("corrupt message"), ceph_msg_dump *)

(** [enum] of the cap operations, include/linux/ceph/ceph_fs.h *)
Inductive cap_op :=
  | CEPH_CAP_OP_GRANT
  | CEPH_CAP_OP_REVOKE
  | CEPH_CAP_OP_TRUNC
  | CEPH_CAP_OP_EXPORT
  | CEPH_CAP_OP_IMPORT
  | CEPH_CAP_OP_FLUSH_ACK
  | CEPH_CAP_OP_FLUSHSNAP_ACK
  | CEPH_CAP_OP_OTHER (op : Z).

Global Instance cap_op_eq_dec : EqDecision cap_op.
Proof. solve_decision. Defined.

Definition deref {A} (o : option A) : res A :=
  match o with Some a => Ok a | None => Oops NullDeref end.

Definition u64_max : Z := 2 ^ 64 - 1.

(** [ffs]: the position of the lowest set bit, counted from 1 *)
Definition ffs (x : Z) : Z :=
  if x =? 0 then 0 else Z.log2 (Z.land x (- x)) + 1.

Section caps.
Context `{!KernelConsts}.

Definition session_of (mdsc : ceph_mds_client) (mds : Z) : res ceph_mds_session :=
  deref (sessions mdsc !! mds).

Definition __get_cap_for_mds (ci : ceph_inode_info) (mds : Z) : option Cap.t :=
  i_caps ci !! mds.

Definition __insert_cap_node (ci : ceph_inode_info) (new : Cap.t)
  : res ceph_inode_info :=
  match i_caps ci !! Cap.mds new with
  | Some _ => Oops DuplicateCapNode
  | None => Ok (set_i_caps (<[Cap.mds new := new]> (i_caps ci)) ci)
  end.

(** A write through a [struct ceph_cap *] that points into [i_caps]. *)
Definition store_cap (cap : Cap.t) (ci : ceph_inode_info) : ceph_inode_info :=
  set_i_caps (<[Cap.mds cap := cap]> (i_caps ci)) ci.

(** [list_del_init(&ci->i_dirty_item)] and
    [list_del_init(&ci->i_flushing_item)]: the inode leaves whichever
    session list holds it. *)
Definition del_dirty_item (ino : Z) (ss : gmap Z ceph_mds_session)
  : gmap Z ceph_mds_session :=
  (fun s => set_s_cap_dirty (filter (fun x => x ≠ ino) (s_cap_dirty s)) s) <$> ss.

Definition del_flushing_item (ino : Z) (ss : gmap Z ceph_mds_session)
  : gmap Z ceph_mds_session :=
  (fun s => set_s_cap_flushing (filter (fun x => x ≠ ino) (s_cap_flushing s)) s) <$> ss.

(** [list_move_tail(&ci->i_flushing_item, &session->s_cap_flushing)] *)
Definition move_tail_flushing (ino smds : Z) (ss : gmap Z ceph_mds_session)
  : res (gmap Z ceph_mds_session) :=
  let ss := del_flushing_item ino ss in
  s ← deref (ss !! smds);
  Ok (<[smds := set_s_cap_flushing (s_cap_flushing s ++ [ino]) s]> ss).

(** [list_move(&ci->i_dirty_item, &session->s_cap_dirty)] and
    [list_add(...)]: to the front. *)
Definition move_dirty (ino smds : Z) (ss : gmap Z ceph_mds_session)
  : res (gmap Z ceph_mds_session) :=
  let ss := del_dirty_item ino ss in
  s ← deref (ss !! smds);
  Ok (<[smds := set_s_cap_dirty (ino :: s_cap_dirty s) s]> ss).

Definition change_auth_cap_ses (mdsc : ceph_mds_client) (ci : ceph_inode_info)
    (smds : Z) : res ceph_mds_client :=
  if negb (i_dirty_item ci) && negb (i_flushing_item ci) then Ok mdsc
  else
    ss ← (if i_dirty_item ci then move_dirty (i_ino ci) smds (sessions mdsc)
          else Ok (sessions mdsc));
    ss ← (if i_flushing_item ci then move_tail_flushing (i_ino ci) smds ss
          else Ok ss);
    Ok (set_sessions ss mdsc).

Definition __cap_is_valid (e : env) (mdsc : ceph_mds_client) (cap : Cap.t)
  : res bool :=
  s ← session_of mdsc (Cap.mds cap);
  let gen := s_cap_gen s in
  let ttl := s_cap_ttl s in
  if bool_decide (Cap.cap_gen cap < gen) || time_after_eq (jiffies e) ttl
  then Ok false else Ok true.

(** [__ceph_caps_issued(ci, &implemented)]: the pair of the return value
    and of [*implemented]. *)
Definition issued_step (e : env) (mdsc : ceph_mds_client) (_ : Z)
    (cap : Cap.t) (acc : res (Z * Z)) : res (Z * Z) :=
  '(have, implemented) ← acc;
  v ← __cap_is_valid e mdsc cap;
  if v : bool then Ok (Z.lor have (Cap.issued cap),
                       Z.lor implemented (Cap.implemented cap))
  else Ok (have, implemented).

Definition __ceph_caps_issued (e : env) (mdsc : ceph_mds_client)
    (ci : ceph_inode_info) : res (Z * Z) :=
  '(have, implemented) ←
    map_fold (issued_step e mdsc) (Ok (i_snap_caps ci, 0)) (i_caps ci);
  match i_auth_cap ci with
  | Some a =>
      cap ← deref (i_caps ci !! a);
      Ok (Z.land have (Z.lor (Z.lnot (Cap.implemented cap)) (Cap.issued cap)),
          implemented)
  | None => Ok (have, implemented)
  end.

Definition __ceph_caps_revoking_other (ci : ceph_inode_info) (ocap : Z)
    (mask : Z) : bool :=
  map_fold (fun (mds : Z) (cap : Cap.t) (acc : bool) =>
              acc || (bool_decide (mds ≠ ocap) &&
                      tst (Z.land (Cap.implemented cap) (Z.lnot (Cap.issued cap))) mask))
           false (i_caps ci).

Definition __ceph_caps_used (ci : ceph_inode_info) : Z :=
  let used := 0 in
  let used := if decide (i_pin_ref ci ≠ 0) then Z.lor used CEPH_CAP_PIN else used in
  let used := if decide (i_rd_ref ci ≠ 0) then Z.lor used CEPH_CAP_FILE_RD else used in
  let used :=
    if bool_decide (i_rdcache_ref ci ≠ 0) ||
       (bool_decide (i_kind ci = S_IFREG) && bool_decide (i_nrpages ci ≠ 0))
    then Z.lor used CEPH_CAP_FILE_CACHE else used in
  let used := if decide (i_wr_ref ci ≠ 0) then Z.lor used CEPH_CAP_FILE_WR else used in
  let used :=
    if bool_decide (i_wb_ref ci ≠ 0) || bool_decide (i_wrbuffer_ref ci ≠ 0)
    then Z.lor used CEPH_CAP_FILE_BUFFER else used in
  let used := if decide (i_fx_ref ci ≠ 0) then Z.lor used CEPH_CAP_FILE_EXCL else used in
  used.

Definition FMODE_WAIT_BIAS : Z := 1000.

Definition nr_by_mode (ci : ceph_inode_info) (shift : Z) : Z :=
  nth (Z.to_nat shift) (i_nr_by_mode ci) 0.

Definition __ceph_caps_file_wanted (e : env) (ci : ceph_inode_info) : Z :=
  let PIN_SHIFT := ffs CEPH_FILE_MODE_PIN in
  let RD_SHIFT := ffs CEPH_FILE_MODE_RD in
  let WR_SHIFT := ffs CEPH_FILE_MODE_WR in
  let LAZY_SHIFT := ffs CEPH_FILE_MODE_LAZY in
  let used_cutoff := wrap_u64 (jiffies e - caps_wanted_delay_max e * HZ) in
  let idle_cutoff := wrap_u64 (jiffies e - caps_wanted_delay_min e * HZ) in
  match i_kind ci with
  | S_IFDIR =>
      let want := 0 in
      let want :=
        if bool_decide (nr_by_mode ci RD_SHIFT > 0) ||
           time_after (i_last_rd ci) used_cutoff
        then Z.lor want CEPH_CAP_ANY_SHARED else want in
      let want :=
        if bool_decide (nr_by_mode ci WR_SHIFT > 0) ||
           time_after (i_last_wr ci) used_cutoff
        then
          let want := Z.lor want (Z.lor CEPH_CAP_ANY_SHARED CEPH_CAP_FILE_EXCL) in
          if tst (mount_flags e) CEPH_MOUNT_OPT_ASYNC_DIROPS
          then Z.lor want CEPH_CAP_ANY_DIR_OPS else want
        else want in
      if bool_decide (want ≠ 0) || bool_decide (nr_by_mode ci PIN_SHIFT > 0)
      then Z.lor want CEPH_CAP_PIN else want
  | _ =>
      let bits := 0 in
      let bits :=
        if decide (nr_by_mode ci RD_SHIFT > 0) then
          if bool_decide (nr_by_mode ci RD_SHIFT >= FMODE_WAIT_BIAS) ||
             time_after (i_last_rd ci) used_cutoff
          then Z.lor bits (Z.shiftl 1 RD_SHIFT) else bits
        else if time_after (i_last_rd ci) idle_cutoff
        then Z.lor bits (Z.shiftl 1 RD_SHIFT) else bits in
      let bits :=
        if decide (nr_by_mode ci WR_SHIFT > 0) then
          if bool_decide (nr_by_mode ci WR_SHIFT >= FMODE_WAIT_BIAS) ||
             time_after (i_last_wr ci) used_cutoff
          then Z.lor bits (Z.shiftl 1 WR_SHIFT) else bits
        else if time_after (i_last_wr ci) idle_cutoff
        then Z.lor bits (Z.shiftl 1 WR_SHIFT) else bits in
      let bits :=
        if tst bits (Z.shiftl CEPH_FILE_MODE_RDWR 1) &&
           bool_decide (nr_by_mode ci LAZY_SHIFT > 0)
        then Z.lor bits (Z.shiftl 1 LAZY_SHIFT) else bits in
      if decide (bits ≠ 0) then ceph_caps_for_mode (Z.shiftr bits 1) else 0
  end.

Definition __ceph_caps_wanted (e : env) (ci : ceph_inode_info) : Z :=
  let w := Z.lor (__ceph_caps_file_wanted e ci) (__ceph_caps_used ci) in
  match i_kind ci with
  | S_IFDIR =>
      if tst w CEPH_CAP_ANY_DIR_OPS then Z.lor w CEPH_CAP_FILE_EXCL else w
  | _ =>
      if tst w CEPH_CAP_FILE_BUFFER then Z.lor w CEPH_CAP_FILE_EXCL else w
  end.

(** fs/ceph/super.h *)
Definition __ceph_caps_dirty (ci : ceph_inode_info) : Z :=
  Z.lor (i_dirty_caps ci) (i_flushing_caps ci).

(** fs/ceph/super.h: [!RB_EMPTY_ROOT(&ci->i_caps)] *)
Definition __ceph_is_any_real_caps (ci : ceph_inode_info) : bool :=
  negb (bool_decide (i_caps ci = ∅)).

(** [__check_cap_issue]: the bump of [i_rdcache_gen] when FILE_CACHE or
    FILE_LAZYIO comes anew, and [__ceph_dir_clear_complete] on a
    directory for which FILE_SHARED comes or goes.  ([i_shared_gen] and
    the cached layout, which the function writes as well, are read
    nowhere in this file and are outside the model.) *)
Definition __check_cap_issue (e : env) (mdsc : ceph_mds_client)
    (ci : ceph_inode_info) (issued : Z) : res ceph_inode_info :=
  '(had, _) ← __ceph_caps_issued e mdsc ci;
  let ci :=
    if bool_decide (i_kind ci = S_IFREG) &&
       tst issued (Z.lor CEPH_CAP_FILE_CACHE CEPH_CAP_FILE_LAZYIO) &&
       negb (tst had (Z.lor CEPH_CAP_FILE_CACHE CEPH_CAP_FILE_LAZYIO))
    then set_i_rdcache_gen (wrap_u32 (i_rdcache_gen ci + 1)) ci
    else ci in
  let ci :=
    if bool_decide (Z.land issued CEPH_CAP_FILE_SHARED ≠
                    Z.land had CEPH_CAP_FILE_SHARED) &&
       bool_decide (i_kind ci = S_IFDIR)
    then set_i_dir_complete false ci
    else ci in
  Ok ci.

(** [ceph_add_cap].  Bit sets are passed as the [int] that has their
    bits.  [new_cap] tells whether [*new_cap] is a cap object
    (false is NULL), [realm] is what [ceph_lookup_snap_realm] finds for
    [realmino].  The result carries [*new_cap] after the call.  The LRU
    list of the session, the cap counters and the delayed-check list are
    outside the model. *)
Definition ceph_add_cap (e : env) (mdsc : ceph_mds_client) (ci : ceph_inode_info)
    (smds : Z) (cap_id issued wanted seq mseq realmino flags : Z)
    (new_cap : bool) (realm : option ceph_snap_realm)
  : res (ceph_mds_client * ceph_inode_info * bool) :=
  s ← session_of mdsc smds;
  let gen := s_cap_gen s in
  '(ci, new_cap, seq, mseq, issued, flags) ←
    match __get_cap_for_mds ci smds with
    | None =>
        _ ← (if new_cap then Ok tt else Oops NullDeref);
        ci ← __insert_cap_node ci (Cap.mk 0 smds 0 0 0 0 0 0 0);
        Ok (ci, false, seq, mseq, issued, flags)
    | Some cap =>
        let cap :=
          if decide (Cap.cap_gen cap < gen)
          then Cap.set_implemented CEPH_CAP_PIN (Cap.set_issued CEPH_CAP_PIN cap)
          else cap in
        let ci := store_cap cap ci in
        if decide (ceph_seq_cmp seq (Cap.seq cap) <= 0) then
          Ok (ci, new_cap, Cap.seq cap, Cap.mseq cap,
              Z.lor issued (Cap.issued cap), Z.lor flags CEPH_CAP_FLAG_AUTH)
        else Ok (ci, new_cap, seq, mseq, issued, flags)
    end;
  let ci :=
    if match i_snap_realm ci with
       | None => true
       | Some r => tst flags CEPH_CAP_FLAG_AUTH &&
                   negb (realmino =? u64_max) && negb (realm_ino r =? realmino)
       end
    then match realm with
         | Some r => set_i_snap_realm (Some r) ci
         | None => ci
         end
    else ci in
  ci ← __check_cap_issue e mdsc ci issued;
  cap ← deref (i_caps ci !! smds);
  '(mdsc, ci, cap) ←
    (if tst flags CEPH_CAP_FLAG_AUTH then
       newer ← match i_auth_cap ci with
               | None => Ok true
               | Some a =>
                   ac ← deref (i_caps ci !! a);
                   Ok (bool_decide (ceph_seq_cmp (Cap.mseq ac) mseq < 0))
               end;
       if newer : bool then
         mdsc ← match i_auth_cap ci with
                | Some a => if decide (a ≠ smds)
                            then change_auth_cap_ses mdsc ci smds else Ok mdsc
                | None => Ok mdsc
                end;
         Ok (mdsc, set_i_auth_cap (Some smds) ci, Cap.set_mds_wanted wanted cap)
       else Ok (mdsc, ci, cap)
     else Ok (mdsc, ci, cap));
  let cap := Cap.set_cap_id cap_id cap in
  let cap := Cap.set_issued issued cap in
  let cap := Cap.set_implemented (Z.lor (Cap.implemented cap) issued) cap in
  let cap :=
    if decide (ceph_seq_cmp mseq (Cap.mseq cap) > 0)
    then Cap.set_mds_wanted wanted cap
    else Cap.set_mds_wanted (Z.lor (Cap.mds_wanted cap) wanted) cap in
  let cap := Cap.set_seq seq cap in
  let cap := Cap.set_issue_seq seq cap in
  let cap := Cap.set_mseq mseq cap in
  let cap := Cap.set_cap_gen gen cap in
  Ok (mdsc, store_cap cap ci, new_cap).

(** [__ceph_remove_cap] of the cap that [mds] keys; [ceph_remove_cap]
    adds a warning only. *)
Definition __ceph_remove_cap (mdsc : ceph_mds_client) (ci : ceph_inode_info)
    (mds : Z) (queue_release : bool)
  : res (ceph_mds_client * ceph_inode_info * list action) :=
  cap ← deref (i_caps ci !! mds);
  s ← session_of mdsc mds;
  let ci := set_i_caps (delete mds (i_caps ci)) ci in
  let ci := if decide (i_auth_cap ci = Some mds)
            then set_i_auth_cap None ci else ci in
  let removed := negb (bool_decide (s_cap_iterator s = Some (i_ino ci, mds))) in
  let queue :=
    queue_release &&
    (negb (s_cap_reconnect s) || bool_decide (Cap.cap_gen cap = s_cap_gen s)) in
  let acts :=
    if queue && removed
    then [QueueCapRelease mds (i_ino ci) (Cap.cap_id cap) (Cap.seq cap)
            (Cap.issue_seq cap) (Cap.mseq cap)]
    else [] in
  let removed := removed && negb queue in
  p ← (if removed then Pool.ceph_put_cap (pool mdsc) else Ok (pool mdsc));
  let mdsc := set_pool p mdsc in
  let ci :=
    if negb (__ceph_is_any_real_caps ci) &&
       bool_decide (i_wr_ref ci = 0) &&
       bool_decide (is_Some (i_snap_realm ci))
    then set_i_snap_realm None ci else ci in
  Ok (mdsc, ci, acts).

(** [__prep_cap] on the cap that [cmds] keys: the new inode state and
    [arg->wake].  The other message arguments are outside the model. *)
Definition __prep_cap (ci : ceph_inode_info) (cmds : Z)
    (used want retain : Z) : res (ceph_inode_info * bool) :=
  cap ← deref (i_caps ci !! cmds);
  let revoking := Z.land (Cap.implemented cap) (Z.lnot (Cap.issued cap)) in
  let retain := Z.land retain (Z.lnot revoking) in
  _ ← BUG_ON (negb (tst retain CEPH_CAP_PIN)) RetainWithoutPin;
  let ci := set_i_ceph_flags (Z.land (i_ceph_flags ci) (Z.lnot CEPH_I_FLUSH)) ci in
  let cap := Cap.set_issued (Z.land (Cap.issued cap) retain) cap in
  let wake := tst (Cap.implemented cap) (Z.lnot (Cap.issued cap)) in
  let cap := Cap.set_implemented
               (Z.land (Cap.implemented cap) (Z.lor (Cap.issued cap) used)) cap in
  let cap := Cap.set_mds_wanted want cap in
  let ci := set_i_reported_size (i_size ci) ci in
  let ci :=
    if decide (i_auth_cap ci = Some cmds) then
      if tst want CEPH_CAP_ANY_FILE_WR
      then set_i_requested_max_size (i_wanted_max_size ci) ci
      else set_i_requested_max_size 0 ci
    else ci in
  Ok (store_cap cap ci, wake).

End caps.

(** ** The flush tracker *)

Section flush.
Context `{!KernelConsts}.

Definition __get_oldest_flush_tid (mdsc : ceph_mds_client) : res Z :=
  match cap_flush_list mdsc with
  | cf :: _ => c ← deref (flushes mdsc !! cf); Ok (Flush.tid c)
  | [] => Ok 0
  end.

(** The entry before [cf] on a list: [None] when [cf] is the first entry
    (its [prev] is the list head).  A node that is not linked points to
    itself, so its [prev] is the node. *)
Fixpoint prev_from (p : handle) (l : list handle) (cf : handle) : handle :=
  match l with
  | [] => cf
  | x :: l => if decide (x = cf) then p else prev_from x l cf
  end.

Definition list_prev (l : list handle) (cf : handle) : option handle :=
  match l with
  | [] => Some cf
  | x :: l => if decide (x = cf) then None else Some (prev_from x l cf)
  end.

(** [list_del_init] of the node of [cf] *)
Definition list_del (cf : handle) (l : list handle) : list handle :=
  filter (fun x => x ≠ cf) l.

(** The common body of [__detach_cap_flush_from_mdsc] and
    [__detach_cap_flush_from_ci], on the list [l]: the store, the list
    and the return value. *)
Definition detach_cap_flush (st : gmap nat Flush.t) (l : list handle)
    (cf : handle) : res (gmap nat Flush.t * list handle * bool) :=
  c ← deref (st !! cf);
  let wake := Flush.wake c in
  '(st, wake) ←
    match list_prev l cf with
    | Some p =>
        if wake then
          pc ← deref (st !! p);
          Ok (<[p := Flush.set_wake true pc]> st, false)
        else Ok (st, wake)
    | None => Ok (st, wake)
    end;
  Ok (st, list_del cf l, wake).

Definition __detach_cap_flush_from_mdsc (mdsc : ceph_mds_client) (cf : handle)
  : res (ceph_mds_client * bool) :=
  '(st, l, wake) ← detach_cap_flush (flushes mdsc) (cap_flush_list mdsc) cf;
  Ok (set_cap_flush_list l (set_flushes st mdsc), wake).

Definition __detach_cap_flush_from_ci (mdsc : ceph_mds_client)
    (ci : ceph_inode_info) (cf : handle)
  : res (ceph_mds_client * ceph_inode_info * bool) :=
  '(st, l, wake) ← detach_cap_flush (flushes mdsc) (i_cap_flush_list ci) cf;
  Ok (set_flushes st mdsc, set_i_cap_flush_list l ci, wake).

(** [ihold] and [iput] on the inode *)
Definition ihold (ci : ceph_inode_info) : ceph_inode_info :=
  set_i_count (wrap_int (i_count ci + 1)) ci.
Definition iput (ci : ceph_inode_info) : ceph_inode_info :=
  set_i_count (wrap_int (i_count ci - 1)) ci.

(** [__ceph_mark_dirty_caps]; [pcf] is [*pcf], the result carries it
    after the call, and the returned dirty flags.  The requeue on the
    delayed-check list is outside the model. *)
Definition __ceph_mark_dirty_caps (mdsc : ceph_mds_client)
    (ci : ceph_inode_info) (mask : Z) (pcf : option handle)
  : res (ceph_mds_client * ceph_inode_info * option handle * Z) :=
  let was := i_dirty_caps ci in
  let dirty := 0 in
  match i_auth_cap ci with
  | None => Ok (mdsc, ci, pcf, 0)
  | Some a =>
      let ci := set_i_dirty_caps (Z.lor (i_dirty_caps ci) mask) ci in
      '(mdsc, ci, pcf, dirty) ←
        (if decide (was = 0) then
           ac ← deref (i_caps ci !! a);
           let session := Cap.mds ac in
           let '(ci, pcf) :=
             (set_i_prealloc_cap_flush pcf ci, i_prealloc_cap_flush ci) in
           ci ← (if i_head_snapc ci is None then
                   r ← deref (i_snap_realm ci);
                   Ok (set_i_head_snapc (cached_context r) ci)
                 else Ok ci);
           _ ← BUG_ON (i_dirty_item ci) DirtyItemLinked;
           s ← session_of mdsc session;
           let mdsc :=
             set_sessions
               (<[session := set_s_cap_dirty (i_ino ci :: s_cap_dirty s) s]>
                  (sessions mdsc)) mdsc in
           let ci := set_i_dirty_item true ci in
           if decide (i_flushing_caps ci = 0)
           then Ok (mdsc, ihold ci, pcf, Z.lor dirty I_DIRTY_SYNC)
           else Ok (mdsc, ci, pcf, dirty)
         else Ok (mdsc, ci, pcf, dirty));
      _ ← BUG_ON (negb (i_dirty_item ci)) DirtyItemUnlinked;
      let dirty :=
        if tst (Z.lor was (i_flushing_caps ci)) CEPH_CAP_FILE_BUFFER &&
           tst mask CEPH_CAP_FILE_BUFFER
        then Z.lor dirty I_DIRTY_DATASYNC else dirty in
      Ok (mdsc, ci, pcf, dirty)
  end.

(** [__mark_caps_flushing] toward the session of rank [session]: the
    returned flush tid and [*oldest_flush_tid]. *)
Definition __mark_caps_flushing (mdsc : ceph_mds_client) (ci : ceph_inode_info)
    (session : Z) (wake : bool)
  : res (ceph_mds_client * ceph_inode_info * Z * Z) :=
  _ ← BUG_ON (bool_decide (i_dirty_caps ci = 0)) NothingDirty;
  _ ← BUG_ON (negb (i_dirty_item ci)) DirtyItemUnlinked;
  _ ← BUG_ON (bool_decide (i_prealloc_cap_flush ci = None)) NoPreallocFlush;
  let flushing := i_dirty_caps ci in
  let ci := set_i_flushing_caps (Z.lor (i_flushing_caps ci) flushing) ci in
  let ci := set_i_dirty_caps 0 ci in
  cf ← deref (i_prealloc_cap_flush ci);
  let ci := set_i_prealloc_cap_flush None ci in
  c ← deref (flushes mdsc !! cf);
  let c := Flush.set_wake wake (Flush.set_caps flushing c) in
  let mdsc := set_sessions (del_dirty_item (i_ino ci) (sessions mdsc)) mdsc in
  let ci := set_i_dirty_item false ci in
  let mdsc := set_last_cap_flush_tid (wrap_u64 (last_cap_flush_tid mdsc + 1)) mdsc in
  let c := Flush.set_tid (last_cap_flush_tid mdsc) c in
  let mdsc := set_flushes (<[cf := c]> (flushes mdsc)) mdsc in
  let mdsc := set_cap_flush_list (cap_flush_list mdsc ++ [cf]) mdsc in
  oldest_flush_tid ← __get_oldest_flush_tid mdsc;
  '(mdsc, ci) ←
    (if i_flushing_item ci then Ok (mdsc, ci)
     else
       s ← session_of mdsc session;
       let mdsc :=
         set_sessions
           (<[session := set_s_cap_flushing (s_cap_flushing s ++ [i_ino ci]) s]>
              (sessions mdsc)) mdsc in
       let mdsc := set_num_cap_flushing (wrap_int (num_cap_flushing mdsc + 1)) mdsc in
       Ok (mdsc, set_i_flushing_item true ci));
  let ci := set_i_cap_flush_list (i_cap_flush_list ci ++ [cf]) ci in
  Ok (mdsc, ci, Flush.tid c, oldest_flush_tid).

(** The state of the first loop of [__ceph_flush_snaps]. *)
Record snaps_st := mk_snaps {
  fs_mdsc : ceph_mds_client;
  fs_ci : ceph_inode_info;
  fs_oldest_flush_tid : Z;
  fs_first_tid : Z;
  fs_last_tid : Z;
}.

(** The loop of [__ceph_flush_snaps] that gives each cap snap that is
    ready its flush tid and links its cap flush on both lists. *)
Fixpoint flush_snaps_assign (session : Z) (l : list ceph_cap_snap)
    (st : snaps_st) : res snaps_st :=
  match l with
  | [] => Ok st
  | capsnap :: l =>
      if bool_decide (cs_dirty_pages capsnap ≠ 0) ||
         bool_decide (cs_writing capsnap ≠ 0)
      then Ok st
      else
        _ ← BUG_ON (negb (cs_need_flush capsnap)) NeedFlushUnset;
        let mdsc := fs_mdsc st in
        let ci := fs_ci st in
        let cf := cs_cap_flush capsnap in
        c ← deref (flushes mdsc !! cf);
        if decide (Flush.tid c > 0) then flush_snaps_assign session l st
        else
          let mdsc := set_last_cap_flush_tid
                        (wrap_u64 (last_cap_flush_tid mdsc + 1)) mdsc in
          let c := Flush.set_tid (last_cap_flush_tid mdsc) c in
          let mdsc := set_flushes (<[cf := c]> (flushes mdsc)) mdsc in
          let mdsc := set_cap_flush_list (cap_flush_list mdsc ++ [cf]) mdsc in
          oldest ← (if decide (fs_oldest_flush_tid st = 0)
                    then __get_oldest_flush_tid mdsc
                    else Ok (fs_oldest_flush_tid st));
          '(mdsc, ci) ←
            (if i_flushing_item ci then Ok (mdsc, ci)
             else
               s ← session_of mdsc session;
               Ok (set_sessions
                     (<[session := set_s_cap_flushing
                                     (s_cap_flushing s ++ [i_ino ci]) s]>
                        (sessions mdsc)) mdsc,
                   set_i_flushing_item true ci));
          let ci := set_i_cap_flush_list (i_cap_flush_list ci ++ [cf]) ci in
          let first_tid := if decide (fs_first_tid st = 1)
                           then Flush.tid c else fs_first_tid st in
          flush_snaps_assign session l
            (mk_snaps mdsc ci oldest first_tid (Flush.tid c))
  end.

(** [__ceph_flush_snaps], up to the loop that sends one FLUSHSNAP message
    for each tid from [first_tid] to [last_tid]: that loop writes no
    modelled state. *)
Definition __ceph_flush_snaps (mdsc : ceph_mds_client) (ci : ceph_inode_info)
    (session : Z) : res snaps_st :=
  st ← flush_snaps_assign session (i_cap_snaps ci) (mk_snaps mdsc ci 0 1 0);
  let ci := fs_ci st in
  let ci := set_i_ceph_flags
              (Z.land (i_ceph_flags ci) (Z.lnot CEPH_I_FLUSH_SNAPS)) ci in
  Ok (mk_snaps (fs_mdsc st) ci (fs_oldest_flush_tid st) (fs_first_tid st)
               (fs_last_tid st)).

(** The state of the loop of [handle_cap_flush_ack] over
    [i_cap_flush_list]. *)
Record ack_st := mk_ack {
  a_mdsc : ceph_mds_client;
  a_ci : ceph_inode_info;
  a_cleaned : Z;
  a_to_remove : list handle;
  a_wake_ci : bool;
}.

Fixpoint ack_scan (flush_tid : Z) (l : list handle) (st : ack_st) : res ack_st :=
  match l with
  | [] => Ok st
  | cf :: l =>
      c ← deref (flushes (a_mdsc st) !! cf);
      let cleaned := if decide (Flush.tid c = flush_tid)
                     then Flush.caps c else a_cleaned st in
      if Flush.is_capsnap c then
        ack_scan flush_tid l
          (mk_ack (a_mdsc st) (a_ci st) cleaned (a_to_remove st) (a_wake_ci st))
      else if decide (Flush.tid c <= flush_tid) then
        '(mdsc, ci, w) ← __detach_cap_flush_from_ci (a_mdsc st) (a_ci st) cf;
        ack_scan flush_tid l
          (mk_ack mdsc ci cleaned (a_to_remove st ++ [cf]) (a_wake_ci st || w))
      else
        let cleaned := Z.land cleaned (Z.lnot (Flush.caps c)) in
        let st := mk_ack (a_mdsc st) (a_ci st) cleaned (a_to_remove st)
                         (a_wake_ci st) in
        if decide (cleaned = 0) then Ok st else ack_scan flush_tid l st
  end.

Fixpoint detach_all_from_mdsc (l : list handle) (mdsc : ceph_mds_client)
    (wake_mdsc : bool) : res (ceph_mds_client * bool) :=
  match l with
  | [] => Ok (mdsc, wake_mdsc)
  | cf :: l =>
      '(mdsc, w) ← __detach_cap_flush_from_mdsc mdsc cf;
      detach_all_from_mdsc l mdsc (wake_mdsc || w)
  end.

(** [ceph_free_cap_flush] of every record on [to_remove] *)
Definition free_cap_flushes (l : list handle) (mdsc : ceph_mds_client)
  : ceph_mds_client :=
  set_flushes (foldr (fun cf st => delete cf st) (flushes mdsc) l) mdsc.

(** What [handle_cap_flush_ack] reports: the two wake-ups and whether it
    dropped the inode reference. *)
Record ack_result := mk_ack_result {
  ar_wake_ci : bool;
  ar_wake_mdsc : bool;
  ar_drop : bool;
}.

Definition handle_cap_flush_ack (mdsc : ceph_mds_client) (ci : ceph_inode_info)
    (flush_tid : Z)
  : res (ceph_mds_client * ceph_inode_info * ack_result) :=
  st ← ack_scan flush_tid (i_cap_flush_list ci) (mk_ack mdsc ci 0 [] false);
  let mdsc := a_mdsc st in
  let ci := a_ci st in
  let cleaned := a_cleaned st in
  let to_remove := a_to_remove st in
  '(mdsc, ci, wake_mdsc, drop) ←
    (if bool_decide (to_remove = []) && bool_decide (cleaned = 0)
     then Ok (mdsc, ci, false, false)
     else
       let ci := set_i_flushing_caps
                   (Z.land (i_flushing_caps ci) (Z.lnot cleaned)) ci in
       '(mdsc, wake_mdsc) ← detach_all_from_mdsc to_remove mdsc false;
       if decide (i_flushing_caps ci = 0) then
         let '(mdsc, ci) :=
           if bool_decide (i_cap_flush_list ci = [])
           then (set_sessions (del_flushing_item (i_ino ci) (sessions mdsc)) mdsc,
                 set_i_flushing_item false ci)
           else (mdsc, ci) in
         let mdsc := set_num_cap_flushing
                       (wrap_int (num_cap_flushing mdsc - 1)) mdsc in
         if decide (i_dirty_caps ci = 0) then
           _ ← BUG_ON (i_dirty_item ci) DirtyItemLinked;
           ci ← (if bool_decide (i_wr_ref ci = 0) &&
                    bool_decide (i_wrbuffer_ref_head ci = 0)
                 then
                   _ ← BUG_ON (bool_decide (i_head_snapc ci = None)) NoHeadSnapc;
                   Ok (set_i_head_snapc None ci)
                 else Ok ci);
           Ok (mdsc, ci, wake_mdsc, true)
         else
           _ ← BUG_ON (negb (i_dirty_item ci)) DirtyItemUnlinked;
           Ok (mdsc, ci, wake_mdsc, false)
       else Ok (mdsc, ci, wake_mdsc, false));
  let mdsc := free_cap_flushes to_remove mdsc in
  let ci := if drop : bool then iput ci else ci in
  Ok (mdsc, ci, mk_ack_result (a_wake_ci st) wake_mdsc drop).

(** The loop of [__kick_flushing_caps] over [i_cap_flush_list]. *)
Fixpoint kick_loop (e : env) (session : Z) (oldest_flush_tid : Z)
    (l : list handle) (mdsc : ceph_mds_client) (ci : ceph_inode_info)
    (first_tid : Z) (acts : list action)
  : res (ceph_inode_info * list action) :=
  match l with
  | [] => Ok (ci, acts)
  | cf :: l =>
      c ← deref (flushes mdsc !! cf);
      if decide (Flush.tid c < first_tid)
      then kick_loop e session oldest_flush_tid l mdsc ci first_tid acts
      else
        match i_auth_cap ci with
        | Some a =>
            if decide (a = session) then
              let first_tid := wrap_u64 (Flush.tid c + 1) in
              if Flush.is_capsnap c then
                kick_loop e session oldest_flush_tid l mdsc ci first_tid
                  (acts ++ [SendFlushSnap a (Flush.tid c) oldest_flush_tid])
              else
                cap ← deref (i_caps ci !! a);
                let want := __ceph_caps_wanted e ci in
                '(ci, _) ← __prep_cap ci a (__ceph_caps_used ci) want
                             (Z.lor (Cap.issued cap) (Cap.implemented cap));
                cap ← deref (i_caps ci !! a);
                kick_loop e session oldest_flush_tid l mdsc ci first_tid
                  (acts ++ [SendCap a (Flush.tid c) oldest_flush_tid
                              (Cap.implemented cap) want (Flush.caps c)])
            else Ok (ci, acts)
        | None => Ok (ci, acts)
        end
  end.

Definition __kick_flushing_caps (e : env) (mdsc : ceph_mds_client)
    (session : Z) (ci : ceph_inode_info) (oldest_flush_tid : Z)
  : res (ceph_inode_info * list action) :=
  if tst (i_ceph_flags ci) CEPH_I_ASYNC_CREATE then Ok (ci, [])
  else
    let ci := set_i_ceph_flags
                (Z.land (i_ceph_flags ci) (Z.lnot CEPH_I_KICK_FLUSH)) ci in
    kick_loop e session oldest_flush_tid (i_cap_flush_list ci) mdsc ci 0 [].

Definition ceph_kick_flushing_inode_caps (e : env) (mdsc : ceph_mds_client)
    (session : Z) (ci : ceph_inode_info)
  : res (ceph_mds_client * ceph_inode_info * list action) :=
  if bool_decide (i_cap_flush_list ci = []) then Ok (mdsc, ci, [])
  else
    a ← deref (i_auth_cap ci);
    ss ← move_tail_flushing (i_ino ci) a (sessions mdsc);
    let mdsc := set_sessions ss mdsc in
    let ci := set_i_flushing_item true ci in
    oldest_flush_tid ← __get_oldest_flush_tid mdsc;
    '(ci, acts) ← __kick_flushing_caps e mdsc session ci oldest_flush_tid;
    Ok (mdsc, ci, acts).

(** [try_nonblocking_invalidate]; [pages_left] is [i_data.nrpages] after
    [invalidate_mapping_pages].  The boolean is the success. *)
Definition try_nonblocking_invalidate (ci : ceph_inode_info) (pages_left : Z)
  : ceph_inode_info * bool :=
  let invalidating_gen := i_rdcache_gen ci in
  let ci := set_i_nrpages pages_left ci in
  if bool_decide (i_nrpages ci = 0) &&
     bool_decide (invalidating_gen = i_rdcache_gen ci)
  then (set_i_rdcache_revoking (wrap_u32 (i_rdcache_gen ci - 1)) ci, true)
  else (ci, false).

End flush.

(** ** The reconciliation engine *)

Section check_caps.
Context `{!KernelConsts}.

Definition __ceph_should_report_size (ci : ceph_inode_info) : bool :=
  let size := i_size ci in
  if tst (i_flushing_caps ci) CEPH_CAP_FILE_WR then false
  else if decide (size >= i_max_size ci) then true
  else if bool_decide (i_max_size ci > i_reported_size ci) &&
          bool_decide (wrap_u64 (Z.shiftl size 1) >=
                       wrap_u64 (i_max_size ci + i_reported_size ci))
  then true
  else false.

(** The caps of an inode in the order of [rb_first] and [rb_next]. *)
Definition mds_le (a b : Z * Cap.t) : Prop := a.1 <= b.1.

Global Instance mds_le_dec : RelDecision mds_le.
Proof. intros a b. unfold mds_le. apply _. Defined.

Definition caps_in_order (ci : ceph_inode_info) : list (Z * Cap.t) :=
  merge_sort mds_le (map_to_list (i_caps ci)).

(** What one iteration of the scan of [ceph_check_caps] decides for a
    cap: [continue], or [goto ack]; the boolean is [queue_writeback]. *)
Definition check_one (e : env) (mdsc : ceph_mds_client) (ci : ceph_inode_info)
    (flags used want retain : Z) (mds : Z) (cap : Cap.t)
  : res (bool * bool) :=
  let is_auth := bool_decide (i_auth_cap ci = Some (Cap.mds cap)) in
  if bool_decide (mds >= Cap.mds cap) ||
     (tst flags CHECK_CAPS_AUTHONLY && negb is_auth)
  then Ok (false, false)
  else
    cap_used ←
      (match i_auth_cap ci with
       | Some a =>
           if is_auth then Ok used
           else ac ← deref (i_caps ci !! a);
                Ok (Z.land used (Z.lnot (Cap.issued ac)))
       | None => Ok used
       end);
    let revoking := Z.land (Cap.implemented cap) (Z.lnot (Cap.issued cap)) in
    let completed := bool_decide (revoking ≠ 0) &&
                     bool_decide (Z.land revoking cap_used = 0) in
    let queue_writeback :=
      bool_decide (revoking ≠ 0) && negb completed &&
      bool_decide (i_kind ci = S_IFREG) &&
      bool_decide (i_wrbuffer_ref ci ≠ 0) &&
      tst revoking CEPH_CAP_FILE_BUFFER in
    if completed ||
       tst flags CHECK_CAPS_FLUSH_FORCE ||
       (is_auth && tst (Cap.issued cap) CEPH_CAP_FILE_WR &&
        ((bool_decide (i_wanted_max_size ci > i_max_size ci) &&
          bool_decide (i_wanted_max_size ci > i_requested_max_size ci)) ||
         __ceph_should_report_size ci)) ||
       (is_auth &&
        ((tst flags CHECK_CAPS_FLUSH && bool_decide (i_dirty_caps ci ≠ 0)) ||
         tst (i_ceph_flags ci) CEPH_I_FLUSH_SNAPS))
    then Ok (true, queue_writeback)
    else
      more ←
        (if tst want (Z.lnot (Cap.mds_wanted cap)) then
           if tst want (Z.lnot (Z.lor (Cap.mds_wanted cap) (Cap.issued cap)))
           then Ok true
           else valid ← __cap_is_valid e mdsc cap; Ok (negb valid)
         else Ok false);
      if more : bool then Ok (true, queue_writeback)
      else Ok (tst (Cap.issued cap) (Z.lnot retain), queue_writeback).

(** The scan: the first cap in order for which the loop body reaches
    [ack], and whether a writeback was asked for on the way. *)
Fixpoint check_scan (e : env) (mdsc : ceph_mds_client) (ci : ceph_inode_info)
    (flags used want retain : Z) (mds : Z) (l : list (Z * Cap.t))
    (queue_writeback : bool) : res (option Cap.t * bool) :=
  match l with
  | [] => Ok (None, queue_writeback)
  | (_, cap) :: l =>
      '(ack, wb) ← check_one e mdsc ci flags used want retain mds cap;
      if ack : bool then Ok (Some cap, queue_writeback || wb)
      else check_scan e mdsc ci flags used want retain mds l
             (queue_writeback || wb)
  end.

(** The state that [ceph_check_caps] carries from one [goto retry] to the
    next. *)
Record check_st := mk_check {
  c_mdsc : ceph_mds_client;
  c_ci : ceph_inode_info;
  c_mds : Z;
  c_tried_invalidate : bool;
  c_queue_invalidate : bool;
  c_queue_writeback : bool;
  c_actions : list action;
}.

(** The body of [ceph_check_caps] from the label [retry], run at most
    [fuel] times. *)
Fixpoint check_caps_retry (fuel : nat) (e : env) (pages_left : Z) (flags : Z)
    (st : check_st) : res check_st :=
  match fuel with
  | O => Oops LoopBound
  | S fuel =>
      let mdsc := c_mdsc st in
      let ci := c_ci st in
      let file_wanted := __ceph_caps_file_wanted e ci in
      let used := __ceph_caps_used ci in
      '(issued, implemented) ← __ceph_caps_issued e mdsc ci;
      let revoking := Z.land implemented (Z.lnot issued) in
      let want := file_wanted in
      let retain := Z.lor file_wanted (Z.lor used CEPH_CAP_PIN) in
      let '(want, retain) :=
        if negb (mdsc_stopping e) && bool_decide (i_nlink ci > 0) then
          if decide (file_wanted ≠ 0) then (want, Z.lor retain CEPH_CAP_ANY)
          else if bool_decide (i_kind ci = S_IFDIR) &&
                  tst issued CEPH_CAP_FILE_SHARED && i_dir_complete ci
          then
            let want :=
              if i_rdonly ci then CEPH_CAP_ANY_SHARED
              else Z.lor want (Z.lor CEPH_CAP_ANY_SHARED CEPH_CAP_FILE_EXCL) in
            (want, Z.lor retain want)
          else
            let retain := Z.lor retain CEPH_CAP_ANY_SHARED in
            (want, if decide (i_max_size ci = 0)
                   then Z.lor retain CEPH_CAP_ANY_RD else retain)
        else (want, retain) in
      if (negb (tst flags CHECK_CAPS_NOINVAL) || mdsc_stopping e) &&
         bool_decide (i_kind ci = S_IFREG) &&
         negb (bool_decide (i_wb_ref ci ≠ 0) || bool_decide (i_wrbuffer_ref ci ≠ 0)) &&
         bool_decide (i_nrpages ci ≠ 0) &&
         tst revoking (Z.lor CEPH_CAP_FILE_CACHE CEPH_CAP_FILE_LAZYIO) &&
         negb (c_tried_invalidate st)
      then
        let '(ci, ok) := try_nonblocking_invalidate ci pages_left in
        let '(ci, queue_invalidate) :=
          if ok : bool then (ci, c_queue_invalidate st)
          else (set_i_rdcache_revoking (i_rdcache_gen ci) ci, true) in
        check_caps_retry fuel e pages_left flags
          (mk_check mdsc ci (c_mds st) true queue_invalidate
                    (c_queue_writeback st) (c_actions st))
      else
        '(found, queue_writeback) ←
          check_scan e mdsc ci flags used want retain (c_mds st)
            (caps_in_order ci) (c_queue_writeback st);
        match found with
        | None =>
            Ok (mk_check mdsc ci (c_mds st) (c_tried_invalidate st)
                         (c_queue_invalidate st) queue_writeback (c_actions st))
        | Some cap =>
            let session := Cap.mds cap in
            let is_auth := bool_decide (i_auth_cap ci = Some (Cap.mds cap)) in
            if is_auth &&
               tst (i_ceph_flags ci) (Z.lor CEPH_I_KICK_FLUSH CEPH_I_FLUSH_SNAPS)
            then
              '(ci, acts1) ←
                (if tst (i_ceph_flags ci) CEPH_I_KICK_FLUSH
                 then __kick_flushing_caps e mdsc session ci 0
                 else Ok (ci, []));
              '(mdsc, ci) ←
                (if tst (i_ceph_flags ci) CEPH_I_FLUSH_SNAPS then
                   r ← __ceph_flush_snaps mdsc ci session;
                   Ok (fs_mdsc r, fs_ci r)
                 else Ok (mdsc, ci));
              check_caps_retry fuel e pages_left flags
                (mk_check mdsc ci (c_mds st) (c_tried_invalidate st)
                          (c_queue_invalidate st) queue_writeback
                          (c_actions st ++ acts1))
            else
              cap_used ←
                (match i_auth_cap ci with
                 | Some a =>
                     if is_auth then Ok used
                     else ac ← deref (i_caps ci !! a);
                          Ok (Z.land used (Z.lnot (Cap.issued ac)))
                 | None => Ok used
                 end);
              '(mdsc, ci, flushing, flush_tid, oldest_flush_tid) ←
                (if is_auth && bool_decide (i_dirty_caps ci ≠ 0) then
                   let flushing := i_dirty_caps ci in
                   '(mdsc, ci, flush_tid, oldest) ←
                     __mark_caps_flushing mdsc ci session false;
                   Ok (mdsc, ci, flushing, flush_tid, oldest)
                 else
                   oldest ← __get_oldest_flush_tid mdsc;
                   Ok (mdsc, ci, 0, 0, oldest));
              '(ci, _) ← __prep_cap ci (Cap.mds cap) cap_used want retain;
              cap' ← deref (i_caps ci !! Cap.mds cap);
              check_caps_retry fuel e pages_left flags
                (mk_check mdsc ci (Cap.mds cap) (c_tried_invalidate st)
                          (c_queue_invalidate st) queue_writeback
                          (c_actions st ++
                           [SendCap session flush_tid oldest_flush_tid
                              (Cap.implemented cap') want flushing]))
        end
  end.

(** [ceph_check_caps]: every pass through [retry] sends to a cap of a
    higher rank than the pass before, but for one pass that invalidates
    and, for each cap, one that kicks or flushes snaps first. *)
Definition ceph_check_caps (e : env) (pages_left : Z) (mdsc : ceph_mds_client)
    (ci : ceph_inode_info) (flags : Z)
  : res (ceph_mds_client * ceph_inode_info * list action) :=
  if tst (i_ceph_flags ci) CEPH_I_ASYNC_CREATE then
    Ok (mdsc,
        set_i_ceph_flags (Z.lor (i_ceph_flags ci) CEPH_I_ASYNC_CHECK_CAPS) ci,
        [])
  else
    let flags := if tst (i_ceph_flags ci) CEPH_I_FLUSH
                 then Z.lor flags CHECK_CAPS_FLUSH else flags in
    st ← check_caps_retry (2 * size (i_caps ci) + 3) e pages_left flags
           (mk_check mdsc ci (-1) false false false []);
    Ok (c_mdsc st, c_ci st,
        c_actions st ++
        (if c_queue_writeback st then [QueueWriteback (i_ino ci)] else []) ++
        (if c_queue_invalidate st then [QueueInvalidate (i_ino ci)] else [])).

(** [ceph_encode_inode_release], as far as it writes the inode; the
    return value tells whether a release record was encoded. *)
Definition ceph_encode_inode_release (e : env) (mdsc : ceph_mds_client)
    (ci : ceph_inode_info) (mds drop unless force : Z)
  : res (ceph_inode_info * Z) :=
  let used := __ceph_caps_used ci in
  let dirty := __ceph_caps_dirty ci in
  let drop := Z.land drop (Z.lnot (Z.lor used dirty)) in
  match __get_cap_for_mds ci mds with
  | None => Ok (ci, 0)
  | Some cap =>
      valid ← __cap_is_valid e mdsc cap;
      if negb valid then Ok (ci, 0)
      else
        let unless := Z.land unless (Cap.issued cap) in
        let drop :=
          if decide (unless ≠ 0) then
            let drop := if tst unless CEPH_CAP_AUTH_EXCL
                        then Z.land drop (Z.lnot CEPH_CAP_AUTH_SHARED) else drop in
            let drop := if tst unless CEPH_CAP_LINK_EXCL
                        then Z.land drop (Z.lnot CEPH_CAP_LINK_SHARED) else drop in
            let drop := if tst unless CEPH_CAP_XATTR_EXCL
                        then Z.land drop (Z.lnot CEPH_CAP_XATTR_SHARED) else drop in
            let drop := if tst unless CEPH_CAP_FILE_EXCL
                        then Z.land drop (Z.lnot CEPH_CAP_FILE_SHARED) else drop in
            drop
          else drop in
        if bool_decide (force ≠ 0) || tst (Cap.issued cap) drop then
          if tst (Cap.issued cap) drop then
            let wanted := __ceph_caps_wanted e ci in
            let cap := Cap.set_issued (Z.land (Cap.issued cap) (Z.lnot drop)) cap in
            let cap := Cap.set_implemented
                         (Z.land (Cap.implemented cap) (Z.lnot drop)) cap in
            let cap := Cap.set_mds_wanted wanted cap in
            let ci := store_cap cap ci in
            let ci :=
              if bool_decide (i_auth_cap ci = Some mds) &&
                 negb (tst wanted CEPH_CAP_ANY_FILE_WR)
              then set_i_requested_max_size 0 ci else ci in
            Ok (ci, 1)
          else Ok (ci, 1)
        else Ok (ci, 0)
  end.

End check_caps.

(** ** The handlers of incoming cap messages *)

(** [struct ceph_mds_cap_peer] *)
Record ceph_mds_cap_peer := mk_peer {
  p_cap_id : Z;     (* u64 *)
  p_issue_seq : Z;  (* u32 *)
  p_mseq : Z;       (* u32 *)
  p_mds : Z;        (* u32 *)
  p_flags : Z;      (* u8 *)
}.

(** [struct ceph_mds_caps], the fixed head of a cap message, with the
    fields the handlers read.  The head ends in a union: [h_size] and
    [h_max_size] belong to its body for the other operations, [h_peer] is
    its body for an export ([(void * )&h->size]). *)
Record ceph_mds_caps := mk_head {
  h_op : cap_op;
  h_ino : Z;
  h_realm : Z;
  h_cap_id : Z;
  h_seq : Z;
  h_issue_seq : Z;
  h_caps : Z;
  h_wanted : Z;
  h_dirty : Z;
  h_migrate_seq : Z;
  h_snap_follows : Z;
  h_snap_trace_len : Z;
  h_nlink : Z;
  h_max_size : Z;
  h_peer : ceph_mds_cap_peer;
}.

(** What a call of [ceph_fill_file_size] leaves in the size fields of
    the inode, and its return value.  The function is defined in
    inode.c: what it stores is for the environment to say. *)
Record file_size := mk_file_size {
  fz_size : Z;              (* i_size_read(inode) *)
  fz_reported_size : Z;     (* ci->i_reported_size *)
  fz_truncate_pending : Z;  (* ci->i_truncate_pending *)
  fz_queue_trunc : bool;    (* the return value *)
}.

Definition ceph_fill_file_size (fill : file_size) (ci : ceph_inode_info)
  : ceph_inode_info * bool :=
  (set_i_truncate_pending (fz_truncate_pending fill)
     (set_i_reported_size (fz_reported_size fill)
        (set_i_size (fz_size fill) ci)),
   fz_queue_trunc fill).

(** What [handle_cap_grant] has decided when it drops [i_ceph_lock]. *)
Record grant_result := mk_grant_result {
  gr_check_caps : Z;
  gr_flags : Z;
  gr_wake : bool;
  gr_writeback : bool;
  gr_queue_trunc : bool;
  gr_queue_invalidate : bool;
  gr_deleted_inode : bool;
  gr_actions : list action;
}.

Section handlers.
Context `{!KernelConsts}.

(** [handle_cap_grant] on the cap that [session] keys, from its entry
    to [spin_unlock(&ci->i_ceph_lock)].  [extra_issued] is
    [extra_info->issued], [pages_left] what the page cache holds after an
    attempt to invalidate it, [layout_changed] whether the layout of the
    message names another pool or pool namespace than the inode's
    ([ci->i_layout.pool_id != old_pool || extra_info->pool_ns != old_ns]),
    [fill] what [ceph_fill_file_size] does.  The mode, the owner, the
    xattrs, the times, the directory statistics, the layout itself and
    the inline data that a grant carries are outside the model. *)
Definition handle_cap_grant_locked (e : env) (mdsc : ceph_mds_client)
    (ci : ceph_inode_info) (session : Z) (grant : ceph_mds_caps)
    (extra_issued : Z) (pages_left : Z) (layout_changed : bool)
    (fill : file_size)
  : res (ceph_mds_client * ceph_inode_info * grant_result) :=
  cap ← deref (i_caps ci !! session);
  s ← session_of mdsc session;
  let seq := h_seq grant in
  let newcaps := wrap_int (h_caps grant) in
  let max_size := h_max_size grant in
  let was_stale := bool_decide (Cap.cap_gen cap < s_cap_gen s) in
  let is_auth := bool_decide (i_auth_cap ci = Some session) in
  let '(ci, queue_invalidate) :=
    if bool_decide (i_kind ci = S_IFREG) &&
       tst (Z.land (Cap.issued cap) (Z.lnot newcaps)) CEPH_CAP_FILE_CACHE &&
       negb (tst newcaps CEPH_CAP_FILE_LAZYIO) &&
       negb (bool_decide (i_wrbuffer_ref ci ≠ 0) || bool_decide (i_wb_ref ci ≠ 0))
    then
      let '(ci, ok) := try_nonblocking_invalidate ci pages_left in
      if ok : bool then (ci, false)
      else if decide (i_rdcache_revoking ci ≠ i_rdcache_gen ci)
      then (set_i_rdcache_revoking (i_rdcache_gen ci) ci, true)
      else (ci, false)
    else (ci, false) in
  let cap :=
    if was_stale
    then Cap.set_implemented CEPH_CAP_PIN (Cap.set_issued CEPH_CAP_PIN cap)
    else cap in
  let '(seq, newcaps) :=
    if decide (ceph_seq_cmp seq (Cap.seq cap) <= 0)
    then (Cap.seq cap, Z.lor newcaps (Cap.issued cap))
    else (seq, newcaps) in
  let cap := Cap.set_seq seq (Cap.set_cap_gen (s_cap_gen s) cap) in
  let ci := store_cap cap ci in
  ci ← __check_cap_issue e mdsc ci newcaps;
  let '(ci, deleted_inode) :=
    if tst newcaps CEPH_CAP_LINK_SHARED &&
       negb (tst extra_issued CEPH_CAP_LINK_EXCL)
    then (set_i_nlink (h_nlink grant) ci, bool_decide (h_nlink grant = 0))
    else (ci, false) in
  let '(ci, queue_trunc) :=
    if tst newcaps (Z.lor CEPH_CAP_ANY_FILE_RD CEPH_CAP_ANY_FILE_WR) then
      let ci :=
        if layout_changed
        then set_i_ceph_flags
               (Z.land (i_ceph_flags ci) (Z.lnot CEPH_I_POOL_PERM)) ci
        else ci in
      ceph_fill_file_size fill ci
    else (ci, false) in
  let '(ci, wake) :=
    if is_auth && tst newcaps CEPH_CAP_ANY_FILE_WR then
      if decide (max_size ≠ i_max_size ci) then
        let ci := set_i_max_size max_size ci in
        let ci :=
          if decide (max_size >= i_wanted_max_size ci)
          then set_i_requested_max_size 0 (set_i_wanted_max_size 0 ci)
          else ci in
        (ci, true)
      else (ci, false)
    else (ci, false) in
  let wanted := __ceph_caps_wanted e ci in
  let used := __ceph_caps_used ci in
  let check_caps :=
    if (was_stale || bool_decide (h_op grant = CEPH_CAP_OP_IMPORT)) &&
       tst wanted (Z.lnot (Z.lor (Cap.mds_wanted cap) newcaps))
    then 1 else 0 in
  let '(cap, check_caps, wake, writeback, revoke_wait) :=
    if tst (Cap.issued cap) (Z.lnot newcaps) then
      let revoking := Z.land (Cap.issued cap) (Z.lnot newcaps) in
      let '(check_caps, writeback, revoke_wait) :=
        if bool_decide (i_kind ci = S_IFREG) &&
           tst (Z.land revoking used) CEPH_CAP_FILE_BUFFER
        then (check_caps, true, true)
        else if queue_invalidate &&
                bool_decide (revoking = CEPH_CAP_FILE_CACHE) &&
                negb (tst newcaps CEPH_CAP_FILE_LAZYIO)
        then (check_caps, false, true)
        else if is_auth then (1, false, false)
        else (2, false, false) in
      let wake := wake || tst (Z.lnot (Cap.issued cap)) newcaps in
      let cap := Cap.set_issued newcaps cap in
      let cap := Cap.set_implemented (Z.lor (Cap.implemented cap) newcaps) cap in
      (cap, check_caps, wake, writeback, revoke_wait)
    else if decide (Cap.issued cap = newcaps) then
      (cap, check_caps, wake, false, false)
    else
      let check_caps :=
        if is_auth && __ceph_caps_revoking_other ci session newcaps
        then 2 else check_caps in
      let cap := Cap.set_issued newcaps cap in
      let cap := Cap.set_implemented (Z.lor (Cap.implemented cap) newcaps) cap in
      (cap, check_caps, true, false, false) in
  _ ← BUG_ON (tst (Cap.issued cap) (Z.lnot (Cap.implemented cap)))
        IssuedNotImplemented;
  let '(cap, flags, check_caps) :=
    if negb revoke_wait && bool_decide (h_op grant = CEPH_CAP_OP_REVOKE)
    then (Cap.set_mds_wanted 0 cap, CHECK_CAPS_FLUSH_FORCE,
          if is_auth then 1 else 2)
    else (cap, 0, check_caps) in
  let ci := store_cap cap ci in
  '(mdsc, ci, wake, acts) ←
    (if bool_decide (h_op grant = CEPH_CAP_OP_IMPORT) && is_auth then
       let wake := wake || tst newcaps (Z.lnot extra_issued) in
       let '(ci, wake) :=
         if bool_decide (i_requested_max_size ci > max_size) ||
            negb (tst (wrap_int (h_wanted grant)) CEPH_CAP_ANY_FILE_WR)
         then (set_i_requested_max_size 0 ci, true)
         else (ci, wake) in
       '(mdsc, ci, acts) ← ceph_kick_flushing_inode_caps e mdsc session ci;
       Ok (mdsc, ci, wake, acts)
     else Ok (mdsc, ci, wake, []));
  Ok (mdsc, ci,
      mk_grant_result check_caps flags wake writeback queue_trunc
        queue_invalidate deleted_inode acts).

(** [handle_cap_grant]: what it does under [i_ceph_lock], the calls it
    makes once the lock is dropped, and the reconciliation it ends
    with. *)
Definition handle_cap_grant (e : env) (mdsc : ceph_mds_client)
    (ci : ceph_inode_info) (session : Z) (grant : ceph_mds_caps)
    (extra_issued : Z) (pages_left : Z) (layout_changed : bool)
    (fill : file_size)
  : res (ceph_mds_client * ceph_inode_info * list action) :=
  '(mdsc, ci, r) ← handle_cap_grant_locked e mdsc ci session grant
                     extra_issued pages_left layout_changed fill;
  let acts :=
    gr_actions r ++
    (if gr_queue_trunc r then [QueueVmtruncate (i_ino ci)] else []) ++
    (if gr_writeback r then [QueueWriteback (i_ino ci)] else []) ++
    (if gr_queue_invalidate r then [QueueInvalidate (i_ino ci)] else []) ++
    (if gr_deleted_inode r then [InvalidateAliases (i_ino ci)] else []) ++
    (if gr_wake r then [WakeCapWq (i_ino ci)] else []) in
  '(mdsc, ci, sent) ←
    (if decide (gr_check_caps r = 1) then
       ceph_check_caps e pages_left mdsc ci
         (Z.lor (gr_flags r) (Z.lor CHECK_CAPS_AUTHONLY CHECK_CAPS_NOINVAL))
     else if decide (gr_check_caps r = 2) then
       ceph_check_caps e pages_left mdsc ci
         (Z.lor (gr_flags r) CHECK_CAPS_NOINVAL)
     else Ok (mdsc, ci, []));
  Ok (mdsc, ci, acts ++ sent).

(** One pass of [handle_cap_export] from the label [retry]: it either
    finishes, or finds that the session of the target has to be opened. *)
Inductive export_step :=
  | ExportDone (mdsc : ceph_mds_client) (ci : ceph_inode_info)
               (acts : list action) (new_cap : bool)
  | ExportOpenTarget.

Definition export_pass (e : env) (mdsc : ceph_mds_client)
    (ci : ceph_inode_info) (mds : Z) (ex_cap_id : Z)
    (t_cap_id t_issue_seq t_mseq target : Z) (tsession : bool)
    (new_cap : bool) (realm : option ceph_snap_realm) : res export_step :=
  match __get_cap_for_mds ci mds with
  | None => Ok (ExportDone mdsc ci [] new_cap)
  | Some cap =>
      if decide (Cap.cap_id cap ≠ ex_cap_id)
      then Ok (ExportDone mdsc ci [] new_cap)
      else if decide (target < 0) then
        '(mdsc, ci, acts) ← __ceph_remove_cap mdsc ci mds false;
        Ok (ExportDone mdsc ci acts new_cap)
      else
        let issued := Cap.issued cap in
        match __get_cap_for_mds ci target with
        | Some tcap =>
            '(mdsc, ci) ←
              (if bool_decide (Cap.cap_id tcap = t_cap_id) &&
                  bool_decide (ceph_seq_cmp (Cap.seq tcap) t_issue_seq < 0)
               then
                 let tcap := Cap.set_cap_id t_cap_id tcap in
                 let tcap := Cap.set_seq (wrap_u32 (t_issue_seq - 1)) tcap in
                 let tcap := Cap.set_issue_seq (wrap_u32 (t_issue_seq - 1)) tcap in
                 let tcap := Cap.set_issued (Z.lor (Cap.issued tcap) issued) tcap in
                 let tcap := Cap.set_implemented
                               (Z.lor (Cap.implemented tcap) issued) tcap in
                 let ci := store_cap tcap ci in
                 if decide (i_auth_cap ci = Some mds) then
                   let ci := set_i_auth_cap (Some target) ci in
                   mdsc ← change_auth_cap_ses mdsc ci target;
                   Ok (mdsc, ci)
                 else Ok (mdsc, ci)
               else Ok (mdsc, ci));
            '(mdsc, ci, acts) ← __ceph_remove_cap mdsc ci mds false;
            Ok (ExportDone mdsc ci acts new_cap)
        | None =>
            if tsession then
              let flag := if decide (i_auth_cap ci = Some mds)
                          then CEPH_CAP_FLAG_AUTH else 0 in
              '(mdsc, ci, new_cap) ←
                ceph_add_cap e mdsc ci target t_cap_id issued 0
                  (wrap_u32 (t_issue_seq - 1)) t_mseq u64_max flag new_cap realm;
              '(mdsc, ci) ←
                (if negb (bool_decide (i_cap_flush_list ci = [])) &&
                    bool_decide (i_auth_cap ci = Some target)
                 then
                   ss ← move_tail_flushing (i_ino ci) target (sessions mdsc);
                   Ok (set_sessions ss mdsc, set_i_flushing_item true ci)
                 else Ok (mdsc, ci));
              '(mdsc, ci, acts) ← __ceph_remove_cap mdsc ci mds false;
              Ok (ExportDone mdsc ci acts new_cap)
            else Ok ExportOpenTarget
        end
  end.

(** [handle_cap_export] of a message from the session of rank [mds].
    [ph] is the peer record, [open_target] what
    [ceph_mdsc_open_export_target_session] returns ([None] for an error
    pointer, else the session as it is registered if the client had
    none for the target), [alloc_ok] the outcome of the allocation in
    [ceph_get_cap(mdsc, NULL)]. *)
Definition handle_cap_export (e : env) (mdsc : ceph_mds_client)
    (ci : ceph_inode_info) (mds : Z) (ex_cap_id : Z)
    (ph : option ceph_mds_cap_peer) (open_target : option ceph_mds_session)
    (alloc_ok : bool) (realm : option ceph_snap_realm)
  : res (ceph_mds_client * ceph_inode_info * list action) :=
  let '(t_cap_id, t_issue_seq, t_mseq, target) :=
    match ph with
    | Some ph => (p_cap_id ph, p_issue_seq ph, p_mseq ph, wrap_int (p_mds ph))
    | None => (0, 0, 0, -1)
    end in
  r ← export_pass e mdsc ci mds ex_cap_id t_cap_id t_issue_seq t_mseq target
        false false realm;
  '(mdsc, ci, acts, new_cap) ←
    match r with
    | ExportDone mdsc ci acts new_cap => Ok (mdsc, ci, acts, new_cap)
    | ExportOpenTarget =>
        '(mdsc, tsession, target, new_cap) ←
          match open_target with
          | Some ts =>
              let mdsc :=
                if sessions mdsc !! target is None
                then set_sessions (<[target := ts]> (sessions mdsc)) mdsc
                else mdsc in
              '(p, _, got) ← Pool.ceph_get_cap (pool mdsc) None alloc_ok;
              Ok (set_pool p mdsc, true, target, got)
          | None => Ok (mdsc, false, -1, false)
          end;
        r ← export_pass e mdsc ci mds ex_cap_id t_cap_id t_issue_seq t_mseq
              target tsession new_cap realm;
        match r with
        | ExportDone mdsc ci acts new_cap => Ok (mdsc, ci, acts, new_cap)
        | ExportOpenTarget => Oops LoopBound
        end
    end;
  p ← (if new_cap : bool then Pool.ceph_put_cap (pool mdsc) else Ok (pool mdsc));
  Ok (set_pool p mdsc, ci, acts).

(** The allocation loop at the head of [handle_cap_import]: as long as the
    inode has no cap for the session and none is at hand, it asks
    [ceph_get_cap(mdsc, NULL)] again.  [allocs] lists the outcomes of the
    successive allocations; the loop does not end while they fail and the
    pool has nothing available. *)
Fixpoint import_get_cap (allocs : list bool) (p : Pool.t) : res Pool.t :=
  match allocs with
  | [] => Oops LoopBound
  | a :: allocs =>
      '(p, _, got) ← Pool.ceph_get_cap p None a;
      if got : bool then Ok p else import_get_cap allocs p
  end.

(** [handle_cap_import]: the result carries [*old_issued]; [*target_cap]
    is the cap that [session] keys. *)
Definition handle_cap_import (e : env) (mdsc : ceph_mds_client)
    (ci : ceph_inode_info) (session : Z) (im : ceph_mds_caps)
    (ph : option ceph_mds_cap_peer) (allocs : list bool)
    (realm : option ceph_snap_realm)
  : res (ceph_mds_client * ceph_inode_info * list action * Z) :=
  let caps := h_caps im in
  let wanted := h_wanted im in
  let seq := h_seq im in
  let mseq := h_migrate_seq im in
  let realmino := h_realm im in
  let cap_id := h_cap_id im in
  let '(p_cap_id, peer, piseq, pmseq) :=
    match ph with
    | Some ph => (p_cap_id ph, wrap_int (p_mds ph), p_issue_seq ph, p_mseq ph)
    | None => (0, -1, 0, 0)
    end in
  '(mdsc, new_cap) ←
    match __get_cap_for_mds ci session with
    | None => p ← import_get_cap allocs (pool mdsc); Ok (set_pool p mdsc, true)
    | Some _ => Ok (mdsc, false)
    end;
  '(_, implemented) ← __ceph_caps_issued e mdsc ci;
  let issued := Z.lor implemented (__ceph_caps_dirty ci) in
  '(mdsc, ci, new_cap) ←
    ceph_add_cap e mdsc ci session cap_id (wrap_int caps) (wrap_int wanted)
      seq mseq realmino CEPH_CAP_FLAG_AUTH new_cap realm;
  '(mdsc, ci, acts) ←
    match (if decide (peer >= 0) then __get_cap_for_mds ci peer else None) with
    | Some ocap =>
        if decide (Cap.cap_id ocap = p_cap_id) then
          __ceph_remove_cap mdsc ci peer
            (match ph with
             | Some ph => tst (p_flags ph) CEPH_CAP_FLAG_RELEASE
             | None => false
             end)
        else Ok (mdsc, ci, [])
    | None => Ok (mdsc, ci, [])
    end;
  Ok (mdsc, ci, acts, issued).

End handlers.

(** ** Taking capability references *)

Section acquire.
Context `{!KernelConsts}.

Definition NON_BLOCKING : Z := Z.shiftl 1 8.
Definition CHECK_FILELOCK : Z := Z.shiftl 1 9.

(** fs/ceph/super.h *)
Definition __ceph_have_pending_cap_snap (ci : ceph_inode_info) : bool :=
  match last (i_cap_snaps ci) with
  | Some capsnap => bool_decide (cs_writing capsnap ≠ 0)
  | None => false
  end.

Definition mds_wanted_step (e : env) (mdsc : ceph_mds_client)
    (ci : ceph_inode_info) (check : bool) (mds : Z) (cap : Cap.t)
    (acc : res Z) : res Z :=
  mds_wanted ← acc;
  v ← (if check then __cap_is_valid e mdsc cap else Ok true);
  if negb v then Ok mds_wanted
  else if decide (i_auth_cap ci = Some mds)
  then Ok (Z.lor mds_wanted (Cap.mds_wanted cap))
  else Ok (Z.lor mds_wanted
             (Z.land (Cap.mds_wanted cap) (Z.lnot CEPH_CAP_ANY_FILE_WR))).

Definition __ceph_caps_mds_wanted (e : env) (mdsc : ceph_mds_client)
    (ci : ceph_inode_info) (check : bool) : res Z :=
  map_fold (mds_wanted_step e mdsc ci check) (Ok 0) (i_caps ci).

Definition ceph_take_cap_refs (ci : ceph_inode_info) (got : Z)
    (snap_rwsem_locked : bool) : res ceph_inode_info :=
  let ci := if tst got CEPH_CAP_PIN
            then set_i_pin_ref (wrap_int (i_pin_ref ci + 1)) ci else ci in
  let ci := if tst got CEPH_CAP_FILE_RD
            then set_i_rd_ref (wrap_int (i_rd_ref ci + 1)) ci else ci in
  let ci := if tst got CEPH_CAP_FILE_CACHE
            then set_i_rdcache_ref (wrap_int (i_rdcache_ref ci + 1)) ci else ci in
  let ci := if tst got CEPH_CAP_FILE_EXCL
            then set_i_fx_ref (wrap_int (i_fx_ref ci + 1)) ci else ci in
  ci ← (if tst got CEPH_CAP_FILE_WR then
          ci ← (if bool_decide (i_wr_ref ci = 0) &&
                   bool_decide (i_head_snapc ci = None)
                then
                  _ ← BUG_ON (negb snap_rwsem_locked) SnapRwsemUnlocked;
                  r ← deref (i_snap_realm ci);
                  Ok (set_i_head_snapc (cached_context r) ci)
                else Ok ci);
          Ok (set_i_wr_ref (wrap_int (i_wr_ref ci + 1)) ci)
        else Ok ci);
  if tst got CEPH_CAP_FILE_BUFFER then
    let ci := if decide (i_wb_ref ci = 0) then ihold ci else ci in
    Ok (set_i_wb_ref (wrap_int (i_wb_ref ci + 1)) ci)
  else Ok ci.

Definition __ceph_touch_fmode (e : env) (ci : ceph_inode_info) (fmode : Z)
  : ceph_inode_info :=
  let now := jiffies e in
  let ci := if tst fmode CEPH_FILE_MODE_RD then set_i_last_rd now ci else ci in
  let ci := if tst fmode CEPH_FILE_MODE_WR then set_i_last_wr now ci else ci in
  ci.

(** One pass of [try_get_cap_refs] from the label [again]: it reaches
    [out_unlock] with a return value and [*got], or it has to sleep on
    [snap_rwsem] and start again. *)
Inductive get_step :=
  | GetOut (ci : ceph_inode_info) (ret : Z) (got : Z)
  | GetAgain (ci : ceph_inode_info).

Definition try_get_cap_refs_pass (e : env) (mdsc : ceph_mds_client)
    (ci : ceph_inode_info) (need want endoff flags got : Z)
    (snap_rwsem_locked trylock : bool) : res get_step :=
  if tst flags CHECK_FILELOCK && tst (i_ceph_flags ci) CEPH_I_ERROR_FILELOCK
  then Ok (GetOut ci (- EIO) got)
  else
    (* finish pending truncate: __ceph_do_pending_vmtruncate returns with
       i_truncate_pending cleared *)
    let '(ci, snap_rwsem_locked) :=
      if decide (i_truncate_pending ci ≠ 0)
      then (set_i_truncate_pending 0 ci, false)
      else (ci, snap_rwsem_locked) in
    '(have, implemented) ← __ceph_caps_issued e mdsc ci;
    if tst (Z.land have need) CEPH_CAP_FILE_WR &&
       bool_decide (endoff >= 0) &&
       bool_decide (endoff > wrap_s64 (i_max_size ci))
    then
      if decide (endoff > i_requested_max_size ci)
      then Ok (GetOut ci (if i_auth_cap ci is Some _ then - EFBIG else - EUCLEAN) got)
      else Ok (GetOut ci 0 got)
    else if tst (Z.land have need) CEPH_CAP_FILE_WR &&
            __ceph_have_pending_cap_snap ci
    then Ok (GetOut ci 0 got)
    else if decide (Z.land have need = need) then
      let not := Z.land want (Z.lnot (Z.land have need)) in
      let revoking := Z.land implemented (Z.lnot have) in
      let exclude := Z.land revoking not in
      if bool_decide (exclude = 0) || negb (tst exclude CEPH_CAP_FILE_BUFFER)
      then
        if negb snap_rwsem_locked && bool_decide (i_head_snapc ci = None) &&
           tst need CEPH_CAP_FILE_WR && negb trylock
        then
          if tst flags NON_BLOCKING then Ok (GetOut ci (- EAGAIN) got)
          else Ok (GetAgain ci)
        else
          let got := if decide (Z.land have want = want)
                     then Z.lor need (Z.land want (Z.lnot exclude))
                     else need in
          ci ← ceph_take_cap_refs ci got true;
          Ok (GetOut ci 1 got)
      else Ok (GetOut ci 0 got)
    else
      session_readonly ←
        (match i_auth_cap ci with
         | Some a =>
             if tst need (Z.lor CEPH_CAP_FILE_WR CEPH_CAP_FILE_EXCL) then
               ac ← deref (i_caps ci !! a);
               s ← session_of mdsc (Cap.mds ac);
               Ok (s_readonly s)
             else Ok false
         | None => Ok false
         end);
      if session_readonly : bool then Ok (GetOut ci (- EROFS) got)
      else if inode_is_shutdown e then Ok (GetOut ci (- ESTALE) got)
      else
        mds_wanted ← __ceph_caps_mds_wanted e mdsc ci false;
        if tst need (Z.lnot mds_wanted) then Ok (GetOut ci (- EUCLEAN) got)
        else Ok (GetOut ci 0 got).

(** [try_get_cap_refs]: the inode, the return value and [*got].
    [trylock] tells whether [down_read_trylock(&mdsc->snap_rwsem)]
    succeeds. *)
Definition try_get_cap_refs (e : env) (mdsc : ceph_mds_client)
    (ci : ceph_inode_info) (need want endoff flags got : Z) (trylock : bool)
  : res (ceph_inode_info * Z * Z) :=
  r ← try_get_cap_refs_pass e mdsc ci need want endoff flags got false trylock;
  '(ci, ret, got) ←
    match r with
    | GetOut ci ret got => Ok (ci, ret, got)
    | GetAgain ci =>
        r ← try_get_cap_refs_pass e mdsc ci need want endoff flags got true
              trylock;
        match r with
        | GetOut ci ret got => Ok (ci, ret, got)
        | GetAgain _ => Oops LoopBound
        end
    end;
  Ok (__ceph_touch_fmode e ci flags, ret, got).

Definition check_max_size (ci : ceph_inode_info) (endoff : Z)
  : ceph_inode_info * list action :=
  let ci :=
    if bool_decide (endoff >= i_max_size ci) &&
       bool_decide (endoff > i_wanted_max_size ci)
    then set_i_wanted_max_size endoff ci else ci in
  let check :=
    match i_auth_cap ci with
    | Some a =>
        match i_caps ci !! a with
        | Some ac =>
            tst (Cap.issued ac) CEPH_CAP_FILE_WR &&
            bool_decide (i_wanted_max_size ci > i_max_size ci) &&
            bool_decide (i_wanted_max_size ci > i_requested_max_size ci)
        | None => false
        end
    | None => false
    end in
  (ci, if check then [CheckCaps (i_ino ci) CHECK_CAPS_AUTHONLY] else []).



End acquire.

(** ** Dispatch of incoming cap messages *)

(** A cap message: the version and tid of its header, and its front
    buffer as the fixed [struct ceph_mds_caps] followed by the bytes
    after it.  [front] is [None] when the buffer is shorter than the
    fixed struct.  [m_import_peer] is the [struct ceph_mds_cap_peer] that
    the bytes of an import carry where the decoder finds it. *)
Record ceph_msg := mk_msg {
  hdr_version : Z;
  hdr_tid : Z;
  front : option (ceph_mds_caps * list Z);
  m_import_peer : ceph_mds_cap_peer;
}.

(** What the environment decides during one [ceph_handle_caps]. *)
Record oracle := mk_oracle {
  o_blocker_ok : bool;      (* ceph_inc_mds_stopping_blocker(mdsc, session) *)
  o_snap_trace_ok : bool;   (* ceph_update_snap_trace(...) == 0 *)
  o_allocs : list bool;     (* outcomes of kmem_cache_alloc, in order *)
  o_open_target : option ceph_mds_session;
                            (* ceph_mdsc_open_export_target_session(...) *)
  o_realm : option ceph_snap_realm;   (* ceph_lookup_snap_realm(mdsc, realmino) *)
  o_pages_left : Z;         (* nrpages after invalidate_mapping_pages *)
  o_layout_changed : bool;  (* the layout of the message names another pool
                               or pool namespace than the inode's *)
  o_fill_file_size : file_size;  (* ceph_fill_file_size(...) *)
}.

(** include/linux/ceph/decode.h *)
Definition get_le (n : nat) (l : list Z) (p : Z) : Z :=
  foldr (fun b acc => b + 256 * acc) 0 (take n (drop (Z.to_nat p) l)).

Definition ceph_has_room (p end_ n : Z) : bool :=
  bool_decide (end_ >= p) && bool_decide (n <= end_ - p).

(** [ceph_decode_32_safe], [ceph_decode_64_safe]: the value and the
    pointer after it, or [None] for [goto bad] *)
Definition decode_safe (n : nat) (l : list Z) (p : Z) : option (Z * Z) :=
  if ceph_has_room p (Z.of_nat (length l)) (Z.of_nat n)
  then Some (get_le n l p, p + Z.of_nat n) else None.

(** [ceph_decode_skip_n], [ceph_decode_need] followed by [p += n] *)
Definition skip_n (l : list Z) (p n : Z) : option Z :=
  if ceph_has_room p (Z.of_nat (length l)) n then Some (p + n) else None.

Section dispatch.
Context `{!KernelConsts}.

(** [parse_fscrypt_fields] without CONFIG_FS_ENCRYPTION *)
Definition parse_fscrypt_fields (l : list Z) (p : Z) : option Z :=
  '(len, p) ← decode_safe 4 l p;
  p ← (if decide (len ≠ 0) then skip_n l p len else Some p);
  '(len, p) ← decode_safe 4 l p;
  if decide (len ≠ 0) then skip_n l p len else Some p.

(** The decoding part of [ceph_handle_caps]: offsets count from the
    first byte after the fixed struct.  The result is [peer], or [None]
    for [goto bad]. *)
Definition decode_caps_tail (msg : ceph_msg) (h : ceph_mds_caps) (l : list Z)
  : option (option ceph_mds_cap_peer) :=
  let msg_version := hdr_version msg in
  let end_ := Z.of_nat (length l) in
  let op := h_op h in
  let p := h_snap_trace_len h in
  p ← (if decide (msg_version >= 2) then
         '(flock_len, p) ← decode_safe 4 l p;
         if decide (p + flock_len > end_) then None else Some (p + flock_len)
       else Some p);
  '(peer, p) ←
    (if decide (msg_version >= 3) then
       if decide (op = CEPH_CAP_OP_IMPORT) then
         if decide (p + sizeof_ceph_mds_cap_peer > end_) then None
         else Some (Some (m_import_peer msg), p + sizeof_ceph_mds_cap_peer)
       else if decide (op = CEPH_CAP_OP_EXPORT)
       then Some (Some (h_peer h), p)
       else Some (None, p)
     else Some (None, p));
  p ← (if decide (msg_version >= 4) then
         '(_, p) ← decode_safe 8 l p;
         '(inline_len, p) ← decode_safe 4 l p;
         if decide (p + inline_len > end_) then None else Some (p + inline_len)
       else Some p);
  p ← (if decide (msg_version >= 5) then
         '(_, p) ← decode_safe 4 l p; Some p
       else Some p);
  p ← (if decide (msg_version >= 8) then
         p ← skip_n l p 8;
         p ← skip_n l p 4;
         p ← skip_n l p 4;
         '(pool_ns_len, p) ← decode_safe 4 l p;
         if decide (pool_ns_len > 0) then skip_n l p pool_ns_len else Some p
       else Some p);
  p ← (if decide (msg_version >= 9) then
         if decide (p + sizeof_ceph_timespec > end_) then None
         else '(_, p) ← decode_safe 8 l (p + sizeof_ceph_timespec); Some p
       else Some p);
  p ← (if decide (msg_version >= 11) then
         p ← skip_n l p 4;
         '(_, p) ← decode_safe 8 l p;
         '(_, p) ← decode_safe 8 l p;
         Some p
       else Some p);
  _ ← (if decide (msg_version >= 12) then parse_fscrypt_fields l p else Some p);
  Some peer.

(** [__ceph_remove_capsnap] of the first cap snap of the list that
    [follows] names, as [handle_cap_flushsnap_ack] finds it. *)
Definition find_capsnap (mdsc : ceph_mds_client) (ci : ceph_inode_info)
    (follows flush_tid : Z) : res (option ceph_cap_snap) :=
  match list_find (fun cs => cs_follows cs = follows) (i_cap_snaps ci) with
  | Some (_, cs) =>
      c ← deref (flushes mdsc !! cs_cap_flush cs);
      if decide (Flush.tid c ≠ flush_tid) then Ok None else Ok (Some cs)
  | None => Ok None
  end.

Definition handle_cap_flushsnap_ack (mdsc : ceph_mds_client)
    (ci : ceph_inode_info) (flush_tid follows : Z)
  : res (ceph_mds_client * ceph_inode_info * list action) :=
  capsnap ← find_capsnap mdsc ci follows flush_tid;
  match capsnap with
  | None => Ok (mdsc, ci, [])
  | Some cs =>
      let cf := cs_cap_flush cs in
      let ci := set_i_cap_snaps
                  (filter (fun x => cs_cap_flush x ≠ cf) (i_cap_snaps ci)) ci in
      '(mdsc, ci, wake_ci) ← __detach_cap_flush_from_ci mdsc ci cf;
      let '(mdsc, ci) :=
        if bool_decide (i_cap_flush_list ci = [])
        then (set_sessions (del_flushing_item (i_ino ci) (sessions mdsc)) mdsc,
              set_i_flushing_item false ci)
        else (mdsc, ci) in
      '(mdsc, wake_mdsc) ← __detach_cap_flush_from_mdsc mdsc cf;
      let mdsc := set_flushes (delete cf (flushes mdsc)) mdsc in
      Ok (mdsc, iput ci,
          (if wake_ci : bool then [WakeCapWq (i_ino ci)] else []) ++
          (if wake_mdsc : bool then [WakeFlushingWq] else []))
  end.

(** [handle_cap_trunc]: the issued set that it computes goes to
    [ceph_fill_file_size], whose return value it returns. *)
Definition handle_cap_trunc (e : env) (mdsc : ceph_mds_client)
    (ci : ceph_inode_info) (fill : file_size) : res (ceph_inode_info * bool) :=
  _ ← __ceph_caps_issued e mdsc ci;
  Ok (ceph_fill_file_size fill ci).

(** The label [flush_cap_releases] of [ceph_handle_caps]. *)
Definition flush_cap_releases (mdsc : ceph_mds_client) (session : Z)
    (h : ceph_mds_caps) (do_cap_release : bool) (alloc_ok : bool)
  : res (ceph_mds_client * list action) :=
  '(mdsc, acts) ←
    (if do_cap_release then
       '(p, _, got) ← Pool.ceph_get_cap (pool mdsc) None alloc_ok;
       _ ← (if got : bool then Ok tt else Oops NullDeref);
       Ok (set_pool p mdsc,
           [QueueCapRelease session (h_ino h) (h_cap_id h) (h_seq h) (h_seq h)
              (h_migrate_seq h)])
     else Ok (mdsc, []));
  Ok (mdsc, acts ++ [FlushSessionCapReleases session]).

Definition put_inode (inodes : gmap Z ceph_inode_info) (ci : ceph_inode_info)
  : gmap Z ceph_inode_info :=
  <[i_ino ci := ci]> inodes.

(** [ceph_handle_caps] for a message on the session of rank [session].
    [inodes] is the inode cache that [ceph_find_inode] searches. *)
Definition ceph_handle_caps (e : env) (o : oracle) (mdsc : ceph_mds_client)
    (inodes : gmap Z ceph_inode_info) (session : Z) (msg : ceph_msg)
  : res (ceph_mds_client * gmap Z ceph_inode_info * list action) :=
  if negb (o_blocker_ok o) then Ok (mdsc, inodes, [])
  else
    match front msg with
    | None => Ok (mdsc, inodes, [CorruptMessage])
    | Some (h, l) =>
        match decode_caps_tail msg h l with
        | None => Ok (mdsc, inodes, [CorruptMessage])
        | Some peer =>
            let op := h_op h in
            match inodes !! h_ino h with
            | None =>
                let do_cap_release :=
                  match op with
                  | CEPH_CAP_OP_IMPORT | CEPH_CAP_OP_REVOKE | CEPH_CAP_OP_GRANT =>
                      true
                  | _ => false
                  end in
                '(mdsc, acts) ← flush_cap_releases mdsc session h do_cap_release
                                  (default false (head (o_allocs o)));
                Ok (mdsc, inodes, acts)
            | Some ci =>
                (* the reference that ceph_find_inode takes *)
                let ci := ihold ci in
                '(mdsc, ci, acts) ←
                  match op with
                  | CEPH_CAP_OP_FLUSHSNAP_ACK =>
                      handle_cap_flushsnap_ack mdsc ci (hdr_tid msg)
                        (h_snap_follows h)
                  | CEPH_CAP_OP_EXPORT =>
                      handle_cap_export e mdsc ci session (h_cap_id h) peer
                        (o_open_target o) (default false (head (o_allocs o)))
                        (o_realm o)
                  | CEPH_CAP_OP_IMPORT =>
                      if bool_decide (h_snap_trace_len h ≠ 0) &&
                         negb (o_snap_trace_ok o)
                      then Ok (mdsc, ci, [CloseSessions])
                      else
                        '(mdsc, ci, acts, old_issued) ←
                          handle_cap_import e mdsc ci session h peer (o_allocs o)
                            (o_realm o);
                        '(mdsc, ci, acts') ←
                          handle_cap_grant e mdsc ci session h old_issued
                            (o_pages_left o) (o_layout_changed o)
                            (o_fill_file_size o);
                        Ok (mdsc, ci, acts ++ acts')
                  | _ =>
                      match __get_cap_for_mds ci session with
                      | None =>
                          let do_cap_release :=
                            match op with
                            | CEPH_CAP_OP_REVOKE | CEPH_CAP_OP_GRANT => true
                            | _ => false
                            end in
                          '(mdsc, acts) ←
                            flush_cap_releases mdsc session h do_cap_release
                              (default false (head (o_allocs o)));
                          Ok (mdsc, ci, acts)
                      | Some cap =>
                          match op with
                          | CEPH_CAP_OP_REVOKE | CEPH_CAP_OP_GRANT =>
                              '(_, implemented) ← __ceph_caps_issued e mdsc ci;
                              let issued :=
                                Z.lor implemented (__ceph_caps_dirty ci) in
                              handle_cap_grant e mdsc ci session h issued
                                (o_pages_left o) (o_layout_changed o)
                                (o_fill_file_size o)
                          | CEPH_CAP_OP_FLUSH_ACK =>
                              '(mdsc, ci, r) ←
                                handle_cap_flush_ack mdsc ci (hdr_tid msg);
                              Ok (mdsc, ci,
                                  (if ar_wake_ci r then [WakeCapWq (i_ino ci)]
                                   else []) ++
                                  (if ar_wake_mdsc r then [WakeFlushingWq]
                                   else []))
                          | CEPH_CAP_OP_TRUNC =>
                              '(ci, queue_trunc) ←
                                handle_cap_trunc e mdsc ci (o_fill_file_size o);
                              Ok (mdsc, ci,
                                  if queue_trunc : bool
                                  then [QueueVmtruncate (i_ino ci)] else [])
                          | _ => Ok (mdsc, ci, [])
                          end
                      end
                  end;
                Ok (mdsc, put_inode inodes (iput ci), acts)
            end
        end
    end.

End dispatch.

(** ** The client as a whole *)

(** The client state that the public entry points act on: the MDS client
    and the inode cache, keyed by inode number. *)
Record world := mk_world {
  w_mdsc : ceph_mds_client;
  w_inodes : gmap Z ceph_inode_info;
}.

(** The public mutations of capability state, each with what the
    environment decides while it runs. *)
Inductive mutation :=
  | AddCap (ino smds cap_id issued wanted seq mseq realmino flags : Z)
           (new_cap : bool) (realm : option ceph_snap_realm)
      (* ceph_add_cap on a cached inode *)
  | HandleCaps (o : oracle) (session : Z) (msg : ceph_msg)
      (* ceph_handle_caps: grant, revoke, export, import, acks *)
  | CheckCapsOf (ino : Z) (pages_left : Z) (flags : Z)
      (* ceph_check_caps *)
  | InodeRelease (ino mds drop unless force : Z).
      (* ceph_encode_inode_release *)

Section world.
Context `{!KernelConsts}.

Definition apply_mutation (e : env) (m : mutation) (w : world) : res world :=
  match m with
  | AddCap ino smds cap_id issued wanted seq mseq realmino flags new_cap realm =>
      ci ← deref (w_inodes w !! ino);
      '(mdsc, ci, _) ← ceph_add_cap e (w_mdsc w) ci smds cap_id issued wanted
                         seq mseq realmino flags new_cap realm;
      Ok (mk_world mdsc (<[ino := ci]> (w_inodes w)))
  | HandleCaps o session msg =>
      '(mdsc, inodes, _) ← ceph_handle_caps e o (w_mdsc w) (w_inodes w)
                             session msg;
      Ok (mk_world mdsc inodes)
  | CheckCapsOf ino pages_left flags =>
      ci ← deref (w_inodes w !! ino);
      '(mdsc, ci, _) ← ceph_check_caps e pages_left (w_mdsc w) ci flags;
      Ok (mk_world mdsc (<[ino := ci]> (w_inodes w)))
  | InodeRelease ino mds drop unless force =>
      ci ← deref (w_inodes w !! ino);
      '(ci, _) ← ceph_encode_inode_release e (w_mdsc w) ci mds drop unless force;
      Ok (mk_world (w_mdsc w) (<[ino := ci]> (w_inodes w)))
  end.

Fixpoint apply_mutations (e : env) (ms : list mutation) (w : world) : res world :=
  match ms with
  | [] => Ok w
  | m :: ms => w ← apply_mutation e m w; apply_mutations e ms w
  end.

End world.

(** ** The properties *)

(** [issued ⊆ implemented]: the negation of the condition of
    [BUG_ON(cap->issued & ~cap->implemented)]. *)
Definition cap_ok (c : Cap.t) : Prop :=
  Z.land (Cap.issued c) (Z.lnot (Cap.implemented c)) = 0.

Definition caps_ok (ci : ceph_inode_info) : Prop :=
  map_Forall (fun _ c => cap_ok c) (i_caps ci).

Definition all_caps_ok (w : world) : Prop :=
  map_Forall (fun _ ci => caps_ok ci) (w_inodes w).

(** [Q] holds of the result of a run that completes, and a run that stops
    does not stop at [BUG_ON(cap->issued & ~cap->implemented)]. *)
Definition holds {A} (Q : A -> Prop) (r : res A) : Prop :=
  match r with
  | Ok a => Q a
  | Oops f => f ≠ IssuedNotImplemented
  end.

(** The same as a statement about bits: every bit of [issued] is a bit of
    [implemented]. *)
Definition bits_subset (a b : Z) : Prop :=
  forall n, Z.testbit a n = true -> Z.testbit b n = true.

Definition issued_within_implemented (w : world) : Prop :=
  forall ino ci mds cap,
    w_inodes w !! ino = Some ci ->
    i_caps ci !! mds = Some cap ->
    bits_subset (Cap.issued cap) (Cap.implemented cap).

Definition inodes_ok (inodes : gmap Z ceph_inode_info) : Prop :=
  map_Forall (fun _ ci => caps_ok ci) inodes.

Definition export_ok (r : export_step) : Prop :=
  match r with
  | ExportDone _ ci _ _ => caps_ok ci
  | ExportOpenTarget => True
  end.

(** ** Concrete states for the examples *)

Module Sample.

Definition env0 : env := mk_env 1000 60 5 0 false false.

(** A session of generation 1 whose caps are valid until jiffies 5000. *)
Definition session0 : ceph_mds_session :=
  mk_session 1 5000 false false None [] [].

Definition pool0 : Pool.t := Pool.mk 4 0 0 4 0 0 4.

(** A client with sessions to the ranks 0 and 1. *)
Definition mdsc0 : ceph_mds_client :=
  mk_mdsc pool0 0 [] 0 ∅ (<[0 := session0]> (<[1 := session0]> ∅)).

Definition realm0 : ceph_snap_realm := mk_realm 1 (Some 7).

(** A regular file as [ceph_alloc_inode] leaves it: no caps, no
    references, nothing dirty. *)
Definition inode0 (ino : Z) : ceph_inode_info :=
  {| i_ino := ino; i_kind := S_IFREG; i_count := 1; i_caps := ∅;
     i_auth_cap := None; i_snap_caps := 0; i_ceph_flags := 0;
     i_dirty_caps := 0; i_flushing_caps := 0;
     i_dirty_item := false; i_flushing_item := false;
     i_cap_flush_list := []; i_prealloc_cap_flush := None;
     i_head_snapc := None; i_snap_realm := None; i_cap_snaps := [];
     i_pin_ref := 0; i_rd_ref := 0; i_rdcache_ref := 0; i_wr_ref := 0;
     i_wb_ref := 0; i_wrbuffer_ref := 0; i_wrbuffer_ref_head := 0;
     i_fx_ref := 0; i_max_size := 0; i_wanted_max_size := 0;
     i_requested_max_size := 0; i_reported_size := 0;
     i_truncate_pending := 0; i_rdcache_gen := 0; i_rdcache_revoking := 0;
     i_nrpages := 0; i_last_rd := 0; i_last_wr := 0;
     i_nr_by_mode := [0; 0; 0; 0; 0]; i_size := 0; i_nlink := 1;
     i_rdonly := false; i_dir_complete := false |}.

(** A cap of the session generation, with [issued] and [implemented]
    as given. *)
Definition cap0 (mds issued implemented : Z) : Cap.t :=
  Cap.mk 10 mds issued implemented 0 1 1 0 1.

(** The inode with one cap, the auth cap, from rank [mds]. *)
Definition inode1 (ino mds issued : Z) : ceph_inode_info :=
  set_i_auth_cap (Some mds)
    (set_i_caps (<[mds := cap0 mds issued issued]> ∅) (inode0 ino)).

Definition peer0 : ceph_mds_cap_peer := mk_peer 0 0 0 (-1) 0.

(** A cap message of the given op for inode [ino]. *)
Definition head0 (op : cap_op) (ino caps seq : Z) : ceph_mds_caps :=
  {| h_op := op; h_ino := ino; h_realm := 1; h_cap_id := 10; h_seq := seq;
     h_issue_seq := seq; h_caps := caps; h_wanted := 0; h_dirty := 0;
     h_migrate_seq := 0; h_snap_follows := 0; h_snap_trace_len := 0;
     h_nlink := 1; h_max_size := 0; h_peer := peer0 |}.

Definition msg0 (op : cap_op) (ino caps seq tid : Z) : ceph_msg :=
  mk_msg 1 tid (Some (head0 op ino caps seq, [])) peer0.

(** What [ceph_fill_file_size] does when the message brings no news of
    the size of an empty file. *)
Definition fill0 : file_size := mk_file_size 0 0 0 false.

Definition oracle0 : oracle :=
  mk_oracle true true [true] (Some session0) (Some realm0) 0 false fill0.

End Sample.

(** ** Properties of the flush tracker *)

(** A record that a FLUSH_ACK of tid [T] answers: not the cap flush of a
    cap snap, and of a tid up to [T]. *)
Definition ackedb (st : gmap nat Flush.t) (T : Z) (cf : handle) : bool :=
  match st !! cf with
  | Some c => negb (Flush.is_capsnap c) && bool_decide (Flush.tid c <= T)
  | None => false
  end.

Definition tid_of (st : gmap nat Flush.t) (cf : handle) : Z :=
  from_option Flush.tid 0 (st !! cf).

(** The records of a list are in the store, in strictly increasing order
    of tid. *)
Definition tid_ordered (st : gmap nat Flush.t) (l : list handle) : Prop :=
  Forall (fun cf => is_Some (st !! cf)) l ∧
  StronglySorted (fun a b => tid_of st a < tid_of st b) l.

(** The last entry of [before] ahead of [cf] that is still on [after];
    [last] is the candidate so far. *)
Fixpoint survivor_before (after before : list handle) (cf : handle)
    (last : option handle) : option handle :=
  match before with
  | [] => last
  | x :: before =>
      if decide (x = cf) then last
      else survivor_before after before cf
             (if bool_decide (x ∈ after) then Some x else last)
  end.

(** The first entry of [before] behind [cf] that is still on [after]. *)
Fixpoint survivor_after (after before : list handle) (cf : handle)
  : option handle :=
  match before with
  | [] => None
  | x :: before =>
      if decide (x = cf)
      then head (filter (fun y => y ∈ after) before)
      else survivor_after after before cf
  end.

Definition wake_set (st : gmap nat Flush.t) (cf : handle) : Prop :=
  exists c, st !! cf = Some c ∧ Flush.wake c = true.

(** The wake of a detached record went to the nearest record that stays
    on the list ahead of it, or, when there is none, to the caller. *)
Definition wake_handed_back (st' : gmap nat Flush.t)
    (before after : list handle) (cf : handle) (w : bool) : Prop :=
  match survivor_before after before cf None with
  | Some p => wake_set st' p
  | None => w = true
  end.

(** The wake of a detached record went to the nearest record that stays
    on the list behind it. *)
Definition wake_forwarded_later (st' : gmap nat Flush.t)
    (before after : list handle) (cf : handle) : Prop :=
  match survivor_after after before cf with
  | Some n => wake_set st' n
  | None => True
  end.

(** The records of the inode that the ack of [T] answers. *)
Definition answered (mdsc : ceph_mds_client) (ci : ceph_inode_info) (T : Z)
    (cf : handle) : Prop :=
  cf ∈ i_cap_flush_list ci ∧ ackedb (flushes mdsc) T cf = true.

(** A run of detach calls on one list, in the order of [rm], as the two
    loops of [handle_cap_flush_ack] make them: the store, the list and
    the accumulated wake. *)
Fixpoint detach_each (rm : list handle) (st : gmap nat Flush.t)
    (l : list handle) (w : bool)
  : res (gmap nat Flush.t * list handle * bool) :=
  match rm with
  | [] => Ok (st, l, w)
  | cf :: rm =>
      '(st, l, w') ← detach_cap_flush st l cf;
      detach_each rm st l (w || w')
  end.

(** Two stores hold the same records but for wake flags that were set. *)
Definition wakes_added (st st' : gmap nat Flush.t) : Prop :=
  forall cf,
    match st !! cf, st' !! cf with
    | Some c, Some c' =>
        Flush.tid c' = Flush.tid c ∧ Flush.caps c' = Flush.caps c ∧
        Flush.is_capsnap c' = Flush.is_capsnap c ∧
        (Flush.wake c = true -> Flush.wake c' = true)
    | None, None => True
    | _, _ => False
    end.

Global Instance answered_dec mdsc ci T cf : Decision (answered mdsc ci T cf).
Proof. unfold answered. apply _. Defined.

(** C3 in the words of the specification: after the ack of tid [T] with
    the acked bits [acked], every record of the inode of a tid up to [T]
    that covers the acked bits is off both lists, and the wake of every
    record that left the list a later record stays on went to the next
    such record. *)
Definition flush_ack_as_stated (mdsc : ceph_mds_client) (ci : ceph_inode_info)
    (T acked : Z) : Prop :=
  forall mdsc' ci' r,
    handle_cap_flush_ack mdsc ci T = Ok (mdsc', ci', r) ->
    (forall cf c,
       cf ∈ i_cap_flush_list ci -> flushes mdsc !! cf = Some c ->
       Flush.tid c <= T -> Z.land acked (Z.lnot (Flush.caps c)) = 0 ->
       (cf ∉ i_cap_flush_list ci') ∧ (cf ∉ cap_flush_list mdsc')) ∧
    (forall cf,
       cf ∈ i_cap_flush_list ci -> cf ∉ i_cap_flush_list ci' ->
       wake_set (flushes mdsc) cf ->
       wake_forwarded_later (flushes mdsc') (i_cap_flush_list ci)
         (i_cap_flush_list ci') cf ∧
       wake_forwarded_later (flushes mdsc') (cap_flush_list mdsc)
         (cap_flush_list mdsc') cf).

(** An inode with three records in flight: the cap flush of a cap snap
    with tid 1, and two flushes of FILE_WR with the tids 2 and 3; a
    waiter has set the wake of the second. *)
Definition ack_mdsc : ceph_mds_client :=
  set_cap_flush_list [1; 2; 3]%nat
    (set_last_cap_flush_tid 3
       (set_num_cap_flushing 1
          (set_flushes
             (<[1%nat := Flush.mk 1 0 true false]>
                (<[2%nat := Flush.mk 2 4096 false true]>
                   (<[3%nat := Flush.mk 3 4096 false false]> ∅)))
             Sample.mdsc0))).

Definition ack_ci : ceph_inode_info :=
  set_i_cap_flush_list [1; 2; 3]%nat
    (set_i_flushing_caps 4096
       (set_i_flushing_item true
          (set_i_cap_snaps [mk_capsnap 1 1 0 0 true]
             (Sample.inode1 5 0 (1 + 4096))))).

(** ** The round trip of C4 *)

(** Dirty the caps [mask] of an inode, start the flush toward the
    session of the auth cap, and handle the FLUSH_ACK for the tid that
    the flush was given.  The result is the final state, the report of
    the ack, the assigned tid, and the inode as it was after the
    dirtying and after the start of the flush. *)
Definition dirty_flush_ack `{!KernelConsts} (mdsc : ceph_mds_client)
    (ci : ceph_inode_info) (mask : Z) (cf : handle) (wake : bool)
  : res (ceph_mds_client * ceph_inode_info * ack_result * Z *
         ceph_inode_info * ceph_inode_info) :=
  '(mdsc1, ci1, _, _) ← __ceph_mark_dirty_caps mdsc ci mask (Some cf);
  a ← deref (i_auth_cap ci1);
  '(mdsc2, ci2, tid, _) ← __mark_caps_flushing mdsc1 ci1 a wake;
  '(mdsc3, ci3, r) ← handle_cap_flush_ack mdsc2 ci2 tid;
  Ok (mdsc3, ci3, r, tid, ci1, ci2).

(** A clean inode: nothing dirty, nothing in flight, on no session
    list. *)
Definition clean_inode (ci : ceph_inode_info) : Prop :=
  i_dirty_caps ci = 0 ∧ i_flushing_caps ci = 0 ∧ i_cap_flush_list ci = [] ∧
  i_dirty_item ci = false ∧ i_flushing_item ci = false.

(** The inode is on no dirty and no flushing list of any session. *)
Definition off_all_lists (mdsc : ceph_mds_client) (ino : Z) : Prop :=
  forall k s, sessions mdsc !! k = Some s ->
    (ino ∉ s_cap_dirty s) ∧ (ino ∉ s_cap_flushing s).

(** A snap context is at hand for [i_head_snapc]. *)
Definition snapc_at_hand (ci : ceph_inode_info) : Prop :=
  match i_head_snapc ci with
  | Some _ => True
  | None => exists r sc, i_snap_realm ci = Some r ∧ cached_context r = Some sc
  end.

(** A clean regular file with an auth cap from rank 0 that issues
    FILE_WR, in a snap realm, and a client that holds the preallocated
    flush record 7. *)
Definition trip_mdsc : ceph_mds_client :=
  set_flushes (<[7%nat := Flush.mk 0 0 false false]> ∅) Sample.mdsc0.

Definition trip_ci : ceph_inode_info :=
  set_i_snap_realm (Some Sample.realm0) (Sample.inode1 5 0 (1 + 4096)).

(** ** Flush creations (C5) *)

(** The two places that create a flush: [__mark_caps_flushing] for the
    dirty caps of an inode, and [__ceph_flush_snaps] for its cap snaps
    that are ready. *)
Inductive creation :=
  | MarkFlushing (ino session : Z) (wake : bool)
  | FlushSnaps (ino session : Z).

Section creations.
Context `{!KernelConsts}.

Definition apply_creation (c : creation) (w : world) : res world :=
  match c with
  | MarkFlushing ino session wake =>
      ci ← deref (w_inodes w !! ino);
      '(mdsc, ci, _, _) ← __mark_caps_flushing (w_mdsc w) ci session wake;
      Ok (mk_world mdsc (<[ino := ci]> (w_inodes w)))
  | FlushSnaps ino session =>
      ci ← deref (w_inodes w !! ino);
      st ← __ceph_flush_snaps (w_mdsc w) ci session;
      Ok (mk_world (fs_mdsc st) (<[ino := fs_ci st]> (w_inodes w)))
  end.

Fixpoint apply_creations (cs : list creation) (w : world) : res world :=
  match cs with
  | [] => Ok w
  | c :: cs => w ← apply_creation c w; apply_creations cs w
  end.

End creations.

(** How many tids a sequence of creations can take at most. *)
Fixpoint budget (w : world) (cs : list creation) : Z :=
  match cs with
  | [] => 0
  | MarkFlushing _ _ _ :: cs => 1 + budget w cs
  | FlushSnaps ino _ :: cs =>
      Z.of_nat (length (from_option i_cap_snaps [] (w_inodes w !! ino)))
      + budget w cs
  end.

(** The state of the flush tracker is well formed: the global list and
    the list of every inode are in tid order and hold tids that the
    counter has handed out; the records of an inode are on the global
    list; and a preallocated record is on no list and belongs to one
    inode only, apart from the records of the cap snaps. *)
Definition flush_wf (w : world) : Prop :=
  let F := flushes (w_mdsc w) in
  let G := cap_flush_list (w_mdsc w) in
  let last := last_cap_flush_tid (w_mdsc w) in
  tid_ordered F G ∧
  (forall cf, cf ∈ G -> 0 < tid_of F cf <= last) ∧
  0 <= last ∧
  (forall ino ci, w_inodes w !! ino = Some ci ->
     tid_ordered F (i_cap_flush_list ci) ∧
     (forall cf, cf ∈ i_cap_flush_list ci -> cf ∈ G) ∧
     (forall cf, i_prealloc_cap_flush ci = Some cf ->
        (cf ∉ G) ∧
        (forall ino' ci', w_inodes w !! ino' = Some ci' ->
           (i_prealloc_cap_flush ci' = Some cf -> ino' = ino) ∧
           (forall cs, cs ∈ i_cap_snaps ci' -> cs_cap_flush cs ≠ cf)))).

(** From [w] to [w']: the counter went up, the lists were appended to,
    the records that were on the global list kept their tids and every
    new one has a tid above the old counter. *)
Definition flush_grows (w w' : world) : Prop :=
  let F := flushes (w_mdsc w) in
  let F' := flushes (w_mdsc w') in
  let G := cap_flush_list (w_mdsc w) in
  let G' := cap_flush_list (w_mdsc w') in
  last_cap_flush_tid (w_mdsc w) <= last_cap_flush_tid (w_mdsc w') ∧
  G `prefix_of` G' ∧
  (forall cf, cf ∈ G -> tid_of F' cf = tid_of F cf) ∧
  (forall cf, cf ∈ G' -> cf ∉ G ->
     last_cap_flush_tid (w_mdsc w) < tid_of F' cf <= last_cap_flush_tid (w_mdsc w')) ∧
  (forall ino,
     match w_inodes w !! ino, w_inodes w' !! ino with
     | Some ci, Some ci' =>
         i_cap_flush_list ci `prefix_of` i_cap_flush_list ci' ∧
         i_cap_snaps ci' = i_cap_snaps ci
     | None, None => True
     | _, _ => False
     end).

(** The oldest outstanding tid: the tid at the head of the global list,
    or 0. *)
Definition oldest_tid (w : world) : Z :=
  match cap_flush_list (w_mdsc w) with
  | cf :: _ => tid_of (flushes (w_mdsc w)) cf
  | [] => 0
  end.

(** An inode with dirty FILE_WR caps, a preallocated flush record (7)
    and one cap snap that is ready (record 8); the cap snap is flushed,
    then the dirty caps. *)
Definition tid_world : world :=
  mk_world
    (set_flushes (<[7%nat := Flush.mk 0 0 false false]>
                    (<[8%nat := Flush.mk 0 0 true false]> ∅)) Sample.mdsc0)
    (<[5 := set_i_cap_snaps [mk_capsnap 8 1 0 0 true]
              (set_i_prealloc_cap_flush (Some 7%nat)
                 (set_i_dirty_item true
                    (set_i_dirty_caps 4096 (Sample.inode1 5 0 (1 + 4096)))))]> ∅).

Definition tid_run : list creation :=
  [FlushSnaps 5 0; MarkFlushing 5 0 false].

(** ** Grants (C6) *)

(** [Q] holds of the result of a run that completes. *)
Definition if_ok {A} (Q : A -> Prop) (r : res A) : Prop :=
  match r with
  | Ok a => Q a
  | Oops _ => True
  end.

(** The run completes, and [Q] holds of its result. *)
Definition returns {A} (Q : A -> Prop) (r : res A) : Prop :=
  match r with
  | Ok a => Q a
  | Oops _ => False
  end.

(** The cap that [session] keys holds the bits [bits] as issued. *)
Definition still_issued (session bits : Z) (ci : ceph_inode_info) : Prop :=
  exists cap', i_caps ci !! session = Some cap' ∧ Cap.mds cap' = session ∧
               bits_subset bits (Cap.issued cap').

(** C6 in the words of the specification: a grant with a seq that is
    not after the recorded seq leaves every bit that was issued. *)
Definition grant_keeps_issued_as_stated `{!KernelConsts} (e : env)
    (mdsc : ceph_mds_client) (ci : ceph_inode_info) (session : Z)
    (grant : ceph_mds_caps) (extra_issued pages_left : Z)
    (layout_changed : bool) (fill : file_size) : Prop :=
  forall cap mdsc' ci' acts,
    i_caps ci !! session = Some cap ->
    ceph_seq_cmp (h_seq grant) (Cap.seq cap) <= 0 ->
    handle_cap_grant e mdsc ci session grant extra_issued pages_left
      layout_changed fill = Ok (mdsc', ci', acts) ->
    still_issued session (Cap.issued cap) ci'.

(** The fields of the inode that neither [handle_cap_grant] nor
    [ceph_check_caps] writes and that decide what is in use, what the
    open files want and whether cap references can be taken. *)
Definition caps_frame (ci ci' : ceph_inode_info) : Prop :=
  i_ino ci' = i_ino ci ∧ i_kind ci' = i_kind ci ∧
  i_auth_cap ci' = i_auth_cap ci ∧ i_snap_caps ci' = i_snap_caps ci ∧
  i_cap_snaps ci' = i_cap_snaps ci ∧ i_head_snapc ci' = i_head_snapc ci ∧
  i_snap_realm ci' = i_snap_realm ci ∧
  i_nr_by_mode ci' = i_nr_by_mode ci ∧
  i_last_rd ci' = i_last_rd ci ∧ i_last_wr ci' = i_last_wr ci ∧
  i_pin_ref ci' = i_pin_ref ci ∧ i_rd_ref ci' = i_rd_ref ci ∧
  i_rdcache_ref ci' = i_rdcache_ref ci ∧ i_wr_ref ci' = i_wr_ref ci ∧
  i_wb_ref ci' = i_wb_ref ci ∧ i_wrbuffer_ref ci' = i_wrbuffer_ref ci ∧
  i_fx_ref ci' = i_fx_ref ci.

(** From [ci] to [ci'] the frame, [i_max_size] and the page count are
    the same; and the caps as well. *)
Definition framed (ci ci' : ceph_inode_info) : Prop :=
  caps_frame ci ci' ∧
  i_max_size ci' = i_max_size ci ∧ i_nrpages ci' = i_nrpages ci.

Definition untouched (ci ci' : ceph_inode_info) : Prop :=
  i_caps ci' = i_caps ci ∧ framed ci ci'.

Section reconciled.
Context `{!KernelConsts}.

(** The caps that no reconciliation gives back: PIN, the caps in use and
    the caps that the open files want.  [retain] of [ceph_check_caps]
    includes them. *)
Definition held_back (e : env) (ci : ceph_inode_info) : Z :=
  Z.lor (__ceph_caps_file_wanted e ci)
    (Z.lor (__ceph_caps_used ci) CEPH_CAP_PIN).

(** From [cap] to [cap'] it is the same cap, with no bit that it did not
    have and with every issued bit of [keep]. *)
Definition same_cap_less (keep : Z) (cap cap' : Cap.t) : Prop :=
  Cap.mds cap' = Cap.mds cap ∧ Cap.cap_id cap' = Cap.cap_id cap ∧
  Cap.seq cap' = Cap.seq cap ∧ Cap.issue_seq cap' = Cap.issue_seq cap ∧
  Cap.mseq cap' = Cap.mseq cap ∧ Cap.cap_gen cap' = Cap.cap_gen cap ∧
  bits_subset (Z.land (Cap.issued cap) keep) (Cap.issued cap') ∧
  bits_subset (Cap.issued cap') (Cap.issued cap) ∧
  bits_subset (Cap.implemented cap') (Cap.implemented cap).

(** What [ceph_check_caps] makes of an inode: the same caps, each with
    what is held back of its issued bits at least; [i_max_size] and the
    frame as they were; nothing new in use. *)
Definition reconciled (e : env) (ci ci' : ceph_inode_info) : Prop :=
  dom (i_caps ci') = dom (i_caps ci) ∧
  caps_frame ci ci' ∧ i_max_size ci' = i_max_size ci ∧
  bits_subset (__ceph_caps_used ci') (__ceph_caps_used ci) ∧
  forall mds cap, i_caps ci !! mds = Some cap ->
    exists cap', i_caps ci' !! mds = Some cap' ∧
                 same_cap_less (held_back e ci') cap cap'.

(** The issued and the implemented bits that [handle_cap_grant] finds on
    [cap]: PIN alone on a cap that is older than its session. *)
Definition grant_had (s : ceph_mds_session) (cap : Cap.t) : Z * Z :=
  if bool_decide (Cap.cap_gen cap < s_cap_gen s)
  then (CEPH_CAP_PIN, CEPH_CAP_PIN)
  else (Cap.issued cap, Cap.implemented cap).

(** [newcaps] as [handle_cap_grant] assigns it to [cap->issued]: the caps
    of the message, merged with the issued caps when the seq of the
    message is not after the seq of the cap. *)
Definition grant_newcaps (s : ceph_mds_session) (cap : Cap.t)
    (grant : ceph_mds_caps) : Z :=
  if decide (ceph_seq_cmp (h_seq grant) (Cap.seq cap) <= 0)
  then Z.lor (wrap_int (h_caps grant)) (grant_had s cap).1
  else wrap_int (h_caps grant).

(** What the part of [handle_cap_grant] under [i_ceph_lock] makes of the
    cap [cap] of the session [s]. *)
Definition granted (s : ceph_mds_session) (cap : Cap.t)
    (grant : ceph_mds_caps) (cap' : Cap.t) : Prop :=
  Cap.mds cap' = Cap.mds cap ∧ Cap.cap_id cap' = Cap.cap_id cap ∧
  Cap.cap_gen cap' = s_cap_gen s ∧
  Cap.seq cap' = (if decide (ceph_seq_cmp (h_seq grant) (Cap.seq cap) <= 0)
                  then Cap.seq cap else h_seq grant) ∧
  Cap.issued cap' = grant_newcaps s cap grant ∧
  bits_subset (Cap.implemented cap')
    (Z.lor (grant_had s cap).2 (grant_newcaps s cap grant)) ∧
  (h_op grant ≠ CEPH_CAP_OP_IMPORT ->
   Cap.implemented cap' = Z.lor (grant_had s cap).2 (grant_newcaps s cap grant)).

(** A grant after which [handle_cap_grant] does not go on to
    [ceph_check_caps]: a GRANT for a cap that is not stale, which takes
    no issued bit away, on an inode where no other cap is revoking a bit
    of it. *)
Definition quiet_grant (ci : ceph_inode_info) (session : Z)
    (s : ceph_mds_session) (cap : Cap.t) (grant : ceph_mds_caps) : Prop :=
  h_op grant = CEPH_CAP_OP_GRANT ∧ ¬ Cap.cap_gen cap < s_cap_gen s ∧
  bits_subset (Cap.issued cap) (grant_newcaps s cap grant) ∧
  __ceph_caps_revoking_other ci session (grant_newcaps s cap grant) = false.

End reconciled.

(** A client whose session to rank 0 is of generation 2, so that the
    caps of generation 1 are stale. *)
Definition stale_mdsc : ceph_mds_client :=
  set_sessions (<[0 := set_s_cap_gen 2 Sample.session0]> (sessions Sample.mdsc0))
    Sample.mdsc0.

(** A file that holds PIN and FILE_WR from its auth rank 0, that was
    last used long ago and that no open file wants. *)
Definition idle_writer_ci : ceph_inode_info :=
  set_i_last_rd (-100000)
    (set_i_last_wr (-100000) (Sample.inode1 5 0 (1 + 4096))).

(** ** Export before import (C7) *)

(** Every cap of the inode is keyed by its own rank, and its session is
    registered. *)
Definition caps_keyed (ci : ceph_inode_info) : Prop :=
  forall k c, i_caps ci !! k = Some c -> Cap.mds c = k.

Definition caps_have_sessions (mdsc : ceph_mds_client) (ci : ceph_inode_info)
  : Prop :=
  forall k c, i_caps ci !! k = Some c -> is_Some (sessions mdsc !! Cap.mds c).

(** What [__cap_is_valid] looks at in a session. *)
Definition sess_view (s : ceph_mds_session) : Z * Z := (s_cap_gen s, s_cap_ttl s).

Definition sess_same (ss ss' : gmap Z ceph_mds_session) : Prop :=
  forall k, sess_view <$> ss' !! k = sess_view <$> ss !! k.

Section export.
Context `{!KernelConsts}.

(** [__cap_is_valid] as a function of the registered sessions. *)
Definition cap_valid_b (e : env) (ss : gmap Z ceph_mds_session) (c : Cap.t)
  : bool :=
  match ss !! Cap.mds c with
  | Some s => negb (bool_decide (Cap.cap_gen c < s_cap_gen s) ||
                    time_after_eq (jiffies e) (s_cap_ttl s))
  | None => false
  end.

(** Bit [n] is issued by the snap caps or by a valid cap. *)
Definition issued_bit (e : env) (ss : gmap Z ceph_mds_session) (snap : Z)
    (caps : gmap Z Cap.t) (n : Z) : Prop :=
  Z.testbit snap n = true ∨
  exists k c, caps !! k = Some c ∧ cap_valid_b e ss c = true ∧
              Z.testbit (Cap.issued c) n = true.


End export.






(** ** Writes beyond the max size (C8) *)

Section max_size.
Context `{!KernelConsts}.

(** C8 in the words of the specification, for its first half: with
    FILE_WR held and needed, an end offset beyond [i_max_size] and
    within [i_requested_max_size] makes the non-blocking attempt return
    the need-larger-max-size code, [-EFBIG]. *)
Definition need_larger_as_stated (e : env) (mdsc : ceph_mds_client)
    (ci : ceph_inode_info) (need want endoff flags got : Z) (trylock : bool)
  : Prop :=
  forall have impl,
    __ceph_caps_issued e mdsc ci = Ok (have, impl) ->
    tst (Z.land have need) CEPH_CAP_FILE_WR = true ->
    0 <= endoff -> endoff > wrap_s64 (i_max_size ci) ->
    endoff <= i_requested_max_size ci ->
    exists ci' got',
      try_get_cap_refs e mdsc ci need want endoff (Z.lor flags NON_BLOCKING)
        got trylock = Ok (ci', - EFBIG, got').

(** What [try_get_cap_refs] returns for an end offset beyond
    [i_max_size]. *)
Definition beyond_max_size_ret (ci : ceph_inode_info) (endoff : Z) : Z :=
  if decide (endoff > i_requested_max_size ci)
  then (if i_auth_cap ci is Some _ then - EFBIG else - EUCLEAN)
  else 0.

(** The inode once [try_get_cap_refs] has let a pending truncation
    finish. *)
Definition truncation_done (ci : ceph_inode_info) : ceph_inode_info :=
  if decide (i_truncate_pending ci ≠ 0) then set_i_truncate_pending 0 ci
  else ci.

(** C8 in the words of the specification, for its second half: after an
    attempt for an end offset beyond [i_max_size] and within
    [i_requested_max_size], and after a message that raises the max size
    to cover the offset was handled, the attempt with the same arguments
    returns 1. *)
Definition retry_as_stated (e : env) (mdsc : ceph_mds_client)
    (ci : ceph_inode_info) (session : Z)
    (need want endoff flags got : Z) (trylock : bool)
    (grant : ceph_mds_caps) (extra_issued pages_left : Z)
    (layout_changed : bool) (fill : file_size) : Prop :=
  forall ci1 ret got1 mdsc2 ci2 acts,
    0 <= endoff -> endoff > wrap_s64 (i_max_size ci) ->
    endoff <= i_requested_max_size ci ->
    try_get_cap_refs e mdsc ci need want endoff flags got trylock
      = Ok (ci1, ret, got1) ->
    endoff <= h_max_size grant ->
    handle_cap_grant e mdsc ci1 session grant extra_issued pages_left
      layout_changed fill = Ok (mdsc2, ci2, acts) ->
    exists ci3 got',
      try_get_cap_refs e mdsc2 ci2 need want endoff flags got trylock
        = Ok (ci3, 1, got').

End max_size.

(** A file open for write whose MDS has granted a max size of 100 and
    has been asked for 200. *)
Definition writer_ci : ceph_inode_info :=
  set_i_head_snapc (Some 7)
    (set_i_requested_max_size 200
       (set_i_wanted_max_size 200
          (set_i_max_size 100 (Sample.inode1 5 0 (1 + 4096))))).

(** The same file, last used long ago, that no open file wants, with
    FILE_BUFFER held as well. *)
Definition unwanted_writer_ci : ceph_inode_info :=
  set_i_last_rd (-100000)
    (set_i_last_wr (-100000)
       (set_i_caps (<[0 := Sample.cap0 0 (1 + 4096 + 8192) (1 + 4096 + 8192)]> ∅)
          writer_ci)).

(** A grant of [pFw] on inode 5 that raises the max size to 300. *)
Definition raise_grant : ceph_mds_caps :=
  {| h_op := CEPH_CAP_OP_GRANT; h_ino := 5; h_realm := 1; h_cap_id := 10;
     h_seq := 2; h_issue_seq := 2; h_caps := 1 + 4096; h_wanted := 0;
     h_dirty := 0; h_migrate_seq := 0; h_snap_follows := 0;
     h_snap_trace_len := 0; h_nlink := 1; h_max_size := 300;
     h_peer := Sample.peer0 |}.

(** ** Messages for an inode that is not cached (C9) *)

Section uncached.
Context `{!KernelConsts}.

(** The release that the label [flush_cap_releases] queues for the cap
    that the message [h] names. *)
Definition queued_release (session : Z) (h : ceph_mds_caps) : action :=
  QueueCapRelease session (h_ino h) (h_cap_id h) (h_seq h) (h_seq h)
    (h_migrate_seq h).



(** A cap object can be had from [ceph_get_cap(mdsc, NULL)]: the
    allocation succeeds, or the pool, whose counters add up, has a
    preallocated cap available. *)
Definition cap_at_hand (o : oracle) (mdsc : ceph_mds_client) : Prop :=
  head (o_allocs o) = Some true ∨
  (Pool.conserved (pool mdsc) ∧ Pool.caps_avail_count (pool mdsc) ≠ 0 ∧
   Pool.caps_list (pool mdsc) ≠ 0%nat).

End uncached.

(** A cap object can be had in the allocation loop of
    [handle_cap_import], where [allocs] lists the outcomes of the
    successive allocations: the counters of the pool add up, and either
    the pool has a preallocated cap available, or it has none and some
    allocation succeeds. *)
Definition import_cap_at_hand (allocs : list bool) (p : Pool.t) : Prop :=
  Pool.conserved p ∧
  ((Pool.caps_avail_count p = 0 ∧ true ∈ allocs) ∨
   (Pool.caps_avail_count p ≠ 0 ∧ Pool.caps_list p ≠ 0%nat ∧ allocs ≠ [])).

(** ** Return values of [ceph_try_get_caps] (C10) *)

Section codes.
Context `{!KernelConsts}.

(** The errno values are positive numbers. *)
Definition errno_positive : Prop :=
  0 < EIO ∧ 0 < EAGAIN ∧ 0 < EFBIG ∧ 0 < EROFS ∧ 0 < ESTALE ∧ 0 < EUCLEAN.






End codes.

(** An inode with FILE_RD issued by its auth cap. *)
Definition reader_ci : ceph_inode_info :=
  set_i_head_snapc (Some 7) (Sample.inode1 5 0 (1 + 2048)).

(** ** Runs *)

(** A run of C1: a grant, a revoke, a reconciliation, a second cap and a
    release on one inode. *)
Definition run1_world : world :=
  mk_world Sample.mdsc0 (<[5 := Sample.inode1 5 0 (1 + 2048)]> ∅).

Definition run1_mutations : list mutation :=
  [ HandleCaps Sample.oracle0 0
      (Sample.msg0 CEPH_CAP_OP_GRANT 5 (1 + 2048 + 4096) 2 0);
    HandleCaps Sample.oracle0 0 (Sample.msg0 CEPH_CAP_OP_REVOKE 5 1 3 0);
    CheckCapsOf 5 0 0;
    AddCap 5 1 11 (1 + 1024) 0 1 0 1 0 true (Some Sample.realm0);
    InodeRelease 5 1 1024 0 0 ].

(** A run of C2: with two caps available, reserve four (two fresh
    allocations), take two of them, give one back, and drop the rest of
    the reservation. *)
Definition run2_pool : Pool.t := Pool.mk 2 0 0 2 0 0 2.

Definition run2_ops : list Pool.op :=
  [ Pool.Reserve (Pool.mk_ctx 0 0) 4 [true; true] 0;
    Pool.Get (Some (Pool.mk_ctx 4 0)) true;
    Pool.Get (Some (Pool.mk_ctx 3 1)) true;
    Pool.Put;
    Pool.Unreserve (Pool.mk_ctx 2 2) ].

(** What the placeholder that [handle_cap_export] adds looks like. *)
Definition placeholder (target issued : Z) (ts : ceph_mds_session)
    (tcap : Cap.t) : Prop :=
  Cap.mds tcap = target ∧ Cap.issued tcap = issued ∧
  Cap.implemented tcap = issued ∧ Cap.cap_gen tcap = s_cap_gen ts.


(** ** The passes of a reconciliation *)

(** [r] is an outcome of the code: a result for which [Q] holds or one of
    its faults, not the iteration bound of a modelled loop. *)
Definition within_bound {A} (Q : A -> Prop) (r : res A) : Prop :=
  match r with
  | Ok a => Q a
  | Oops f => f ≠ LoopBound
  end.

Section passes.
Context `{!KernelConsts}.

(** The passes through [retry] that [ceph_check_caps] can still make from
    the state [st]: the one that invalidates, the one that kicks the
    flushes or flushes the snaps, one for each cap of a higher rank than
    the last one it sent to, and the one that finds nothing left. *)
Definition passes_left (st : check_st) : nat :=
  ((if c_tried_invalidate st then 0 else 1) +
   (if tst (i_ceph_flags (c_ci st))
         (Z.lor CEPH_I_KICK_FLUSH CEPH_I_FLUSH_SNAPS) then 1 else 0) +
   size (filter (fun k : Z => (c_mds st < k)%Z) (dom (i_caps (c_ci st)))) + 1)%nat.

(** From [ci] to [ci']: the same ranks have caps, keyed by their rank, and
    no flag was raised. *)
Definition same_ranks (ci ci' : ceph_inode_info) : Prop :=
  caps_keyed ci' ∧ dom (i_caps ci') = dom (i_caps ci) ∧
  bits_subset (i_ceph_flags ci') (i_ceph_flags ci).

End passes.

(** ** Queries on the caps of an inode *)

Section queries.
Context `{!KernelConsts}.

(** The loop of [__ceph_caps_issued_mask] over the caps that are left,
    [have] being the bits gathered so far.  The calls of [__touch_cap],
    which reorder the LRU list of a session, are outside the model. *)
Fixpoint issued_mask_scan (e : env) (mdsc : ceph_mds_client) (mask have : Z)
    (l : list (Z * Cap.t)) : res bool :=
  match l with
  | [] => Ok false
  | (_, cap) :: l =>
      v ← __cap_is_valid e mdsc cap;
      if negb v then issued_mask_scan e mdsc mask have l
      else if decide (Z.land (Cap.issued cap) mask = mask) then Ok true
      else
        let have := Z.lor have (Cap.issued cap) in
        if decide (Z.land have mask = mask) then Ok true
        else issued_mask_scan e mdsc mask have l
  end.

(** [__ceph_caps_issued_mask(ci, mask, touch)] *)
Definition __ceph_caps_issued_mask (e : env) (mdsc : ceph_mds_client)
    (ci : ceph_inode_info) (mask : Z) : res bool :=
  let have := i_snap_caps ci in
  if decide (Z.land have mask = mask) then Ok true
  else issued_mask_scan e mdsc mask have (caps_in_order ci).

(** [__ceph_caps_issued_other(ci, ocap)], [ocap] being the cap that the
    rank [ocap] keys. *)
Definition issued_other_step (e : env) (mdsc : ceph_mds_client) (ocap : Z)
    (mds : Z) (cap : Cap.t) (acc : res Z) : res Z :=
  have ← acc;
  if decide (mds = ocap) then Ok have
  else
    v ← __cap_is_valid e mdsc cap;
    if v : bool then Ok (Z.lor have (Cap.issued cap)) else Ok have.

Definition __ceph_caps_issued_other (e : env) (mdsc : ceph_mds_client)
    (ci : ceph_inode_info) (ocap : Z) : res Z :=
  map_fold (issued_other_step e mdsc ocap) (Ok (i_snap_caps ci)) (i_caps ci).

End queries.

(** The bits of [mask] from position 0 on are among the bits that
    [has] holds. *)
Definition covers (has : Z -> Prop) (mask : Z) : Prop :=
  forall n, 0 <= n -> Z.testbit mask n = true -> has n.

(** ** Caps in use across a reconciliation *)

Section in_use.
Context `{!KernelConsts}.

(** From [ci] to [ci']: every cap is still there, it has no issued bit it
    did not have, and it has kept every issued bit that is in use in
    [ci']. *)
Definition kept_in_use (ci ci' : ceph_inode_info) : Prop :=
  forall mds cap, i_caps ci !! mds = Some cap ->
    exists cap', i_caps ci' !! mds = Some cap' ∧
      bits_subset (Z.land (Cap.issued cap) (__ceph_caps_used ci'))
        (Cap.issued cap') ∧
      bits_subset (Cap.issued cap') (Cap.issued cap).

(** One step of a reconciliation: the caps stay keyed by their rank, no
    bit comes into use, and the bits in use are kept. *)
Definition check_step (ci ci' : ceph_inode_info) : Prop :=
  caps_keyed ci' ∧
  bits_subset (__ceph_caps_used ci') (__ceph_caps_used ci) ∧
  kept_in_use ci ci'.

End in_use.

(** A file that is being read, with pin, FILE_CACHE and FILE_RD from
    the auth rank 0, that no open file wants any more. *)
Definition idle_reader_ci : ceph_inode_info :=
  set_i_max_size 100
    (set_i_rd_ref 1
       (set_i_last_rd (-100000)
          (set_i_last_wr (-100000) (Sample.inode1 5 0 (1 + 1024 + 2048))))).

(** ** Dirty inodes *)

(** The file of [trip_ci] with FILE_WR dirty: it is on the dirty list
    of the session of rank 0 and holds the preallocated flush record 7. *)
Definition dirty_ci : ceph_inode_info :=
  set_i_prealloc_cap_flush (Some 7%nat)
    (set_i_dirty_item true (set_i_dirty_caps 4096 trip_ci)).

Definition dirty_mdsc : ceph_mds_client :=
  set_sessions
    (<[0 := set_s_cap_dirty [5] Sample.session0]> (sessions trip_mdsc))
    trip_mdsc.

(** ** Waiting for a flush *)

(** [caps_are_flushed(inode, flush_tid)] *)
Definition caps_are_flushed (mdsc : ceph_mds_client) (ci : ceph_inode_info)
    (flush_tid : Z) : res bool :=
  match i_cap_flush_list ci with
  | [] => Ok true
  | cf :: _ =>
      c ← deref (flushes mdsc !! cf);
      if decide (Flush.tid c <= flush_tid) then Ok false else Ok true
  end.

(** No cap flush of a cap snap of the inode has a tid up to [T]. *)
Definition no_capsnap_upto (mdsc : ceph_mds_client) (ci : ceph_inode_info)
    (T : Z) : Prop :=
  forall cf c, cf ∈ i_cap_flush_list ci -> flushes mdsc !! cf = Some c ->
               Flush.is_capsnap c = true -> T < Flush.tid c.

(** An inode with two flushes of FILE_WR in flight, of the tids 2 and 3;
    a waiter has set the wake of the first. *)
Definition flushed_mdsc : ceph_mds_client :=
  set_cap_flush_list [2; 3]%nat
    (set_last_cap_flush_tid 3
       (set_num_cap_flushing 1
          (set_flushes
             (<[2%nat := Flush.mk 2 4096 false true]>
                (<[3%nat := Flush.mk 3 4096 false false]> ∅))
             Sample.mdsc0))).

Definition flushed_ci : ceph_inode_info :=
  set_i_cap_flush_list [2; 3]%nat
    (set_i_flushing_caps 4096
       (set_i_flushing_item true (Sample.inode1 5 0 (1 + 4096)))).

(** ** Open file modes *)

(** [int bits = (fmode << 1) | 1] *)
Definition fmode_bits (fmode : Z) : Z := Z.lor (wrap_int (Z.shiftl fmode 1)) 1.

(** The loop of [ceph_get_fmode] from index [i] on, over what is left of
    [i_nr_by_mode]: the counters and [already_opened]. *)
Fixpoint get_fmode_loop (bits count : Z) (i : nat) (l : list Z)
    (already_opened : bool) : list Z * bool :=
  match l with
  | [] => ([], already_opened)
  | x :: l =>
      let already_opened :=
        if bool_decide (i ≠ 0%nat) && bool_decide (x ≠ 0) then true
        else already_opened in
      let x := if tst bits (Z.shiftl 1 (Z.of_nat i))
               then wrap_int (x + count) else x in
      let '(l, already_opened) :=
        get_fmode_loop bits count (S i) l already_opened in
      (x :: l, already_opened)
  end.

(** [ceph_get_fmode]: the inode, whether [metric.opened_files] is
    incremented, and whether [metric.opened_inodes] is. *)
Definition ceph_get_fmode (ci : ceph_inode_info) (fmode count : Z)
  : ceph_inode_info * bool * bool :=
  let bits := fmode_bits fmode in
  let '(l, already_opened) :=
    get_fmode_loop bits count 0 (i_nr_by_mode ci) false in
  (set_i_nr_by_mode l ci, bool_decide (count = 1), negb already_opened).

(** The loop of [ceph_put_fmode]; [None] is the [BUG_ON] of a counter
    below [count]. *)
Fixpoint put_fmode_loop (bits count : Z) (i : nat) (l : list Z)
    (is_closed : bool) : option (list Z * bool) :=
  match l with
  | [] => Some ([], is_closed)
  | x :: l =>
      x ← (if tst bits (Z.shiftl 1 (Z.of_nat i)) then
             if decide (x < count) then None else Some (wrap_int (x - count))
           else Some x);
      let is_closed :=
        if bool_decide (i ≠ 0%nat) && bool_decide (x ≠ 0) then false
        else is_closed in
      '(l, is_closed) ← put_fmode_loop bits count (S i) l is_closed;
      Some (x :: l, is_closed)
  end.

(** [ceph_put_fmode]: the inode, whether [metric.opened_files] is
    decremented, and whether [metric.opened_inodes] is. *)
Definition ceph_put_fmode (ci : ceph_inode_info) (fmode count : Z)
  : option (ceph_inode_info * bool * bool) :=
  let bits := fmode_bits fmode in
  '(l, is_closed) ← put_fmode_loop bits count 0 (i_nr_by_mode ci) true;
  Some (set_i_nr_by_mode l ci, bool_decide (count = 1), is_closed).

(** The counters of open files by mode are counts, and each has room
    for [count] more. *)
Definition modes_in_range (count : Z) (l : list Z) : Prop :=
  Forall (fun x => 0 <= x ∧ x + count < 2147483648) l.

(** ** Resending the flushes of an inode *)




(** ** The pool and its free list *)

(** The pool as the allocator keeps it: no counter is negative, the
    counters add up within the range of [int], and [caps_list] links the
    caps that are reserved or available. *)
Definition pool_wf (p : Pool.t) : Prop :=
  0 <= Pool.caps_use_count p ∧ 0 <= Pool.caps_reserve_count p ∧
  0 <= Pool.caps_avail_count p ∧
  Pool.caps_total_count p =
    Pool.caps_use_count p + Pool.caps_reserve_count p + Pool.caps_avail_count p ∧
  Pool.caps_total_count p < 2147483648 ∧
  Z.of_nat (Pool.caps_list p) =
    Pool.caps_reserve_count p + Pool.caps_avail_count p.


(** ** Dropping references on caps *)

Inductive put_cap_refs_mode := PUT_CAP_REFS_SYNC | PUT_CAP_REFS_ASYNC.

(** What stops [__ceph_put_cap_refs]. *)
Inductive put_bug :=
  | PutNoHeadSnapc     (* BUG_ON(!ci->i_head_snapc) *)
  | PutCapSnapTid      (* BUG_ON(capsnap->cap_flush.tid > 0) *)
  | PutNoFlushRecord.  (* the store has no record for capsnap->cap_flush *)

(** The call that [__ceph_put_cap_refs] makes once [i_ceph_lock] is
    dropped. *)
Inductive put_call :=
  | PutCheckCaps       (* ceph_check_caps(ci, 0) *)
  | PutFlushSnaps      (* ceph_flush_snaps(ci, NULL) *)
  | PutQueueCheckCaps  (* ceph_queue_check_caps(inode) *)
  | PutQueueFlushSnaps (* ceph_queue_flush_snaps(inode) *)
  | PutNoCall.

(** [__ceph_put_cap_refs] at its end: the inode when [i_ceph_lock] is
    dropped, the call that follows, whether [i_cap_wq] is woken, and the
    number of [iput(inode)] that end the function; [pr_last] is the local
    [last]. *)
Record put_refs := mk_put_refs {
  pr_ci : ceph_inode_info;
  pr_call : put_call;
  pr_wake : bool;
  pr_put : Z;
  pr_last : Z;
}.

Section put_refs.
Context `{!KernelConsts}.

(** [ceph_try_drop_cap_snap(ci, capsnap)]; the cap snap is known on the
    list by its embedded [cap_flush]. *)
Definition ceph_try_drop_cap_snap (mdsc : ceph_mds_client)
    (ci : ceph_inode_info) (capsnap : ceph_cap_snap)
  : put_bug + (ceph_inode_info * bool) :=
  if negb (cs_need_flush capsnap) && bool_decide (cs_writing capsnap = 0) &&
     bool_decide (cs_dirty_pages capsnap = 0)
  then
    match flushes mdsc !! cs_cap_flush capsnap with
    | None => inl PutNoFlushRecord
    | Some c =>
        if decide (Flush.tid c > 0) then inl PutCapSnapTid
        else
          let is_last :=
            bool_decide (cs_cap_flush <$> last (i_cap_snaps ci)
                         = Some (cs_cap_flush capsnap)) in
          let ci := if negb is_last
                    then set_i_ceph_flags
                           (Z.lor (i_ceph_flags ci) CEPH_I_FLUSH_SNAPS) ci
                    else ci in
          let ci := set_i_cap_snaps
                      (filter (fun x => cs_cap_flush x ≠ cs_cap_flush capsnap)
                         (i_cap_snaps ci)) ci in
          inr (ci, true)
    end
  else inr (ci, false).

(** [__ceph_put_cap_refs(ci, had, mode)].  [finish] is
    [__ceph_finish_cap_snap(ci, capsnap)] of fs/ceph/snap.c: the inode it
    leaves and its return value. *)
Definition __ceph_put_cap_refs (mdsc : ceph_mds_client)
    (finish : ceph_inode_info -> ceph_cap_snap -> ceph_inode_info * bool)
    (ci : ceph_inode_info) (had : Z) (mode : put_cap_refs_mode)
  : put_bug + put_refs :=
  let ci := if tst had CEPH_CAP_PIN
            then set_i_pin_ref (wrap_int (i_pin_ref ci - 1)) ci else ci in
  let ci := if tst had CEPH_CAP_FILE_RD
            then set_i_rd_ref (wrap_int (i_rd_ref ci - 1)) ci else ci in
  let last := if tst had CEPH_CAP_FILE_RD && bool_decide (i_rd_ref ci = 0)
              then 1 else 0 in
  let ci := if tst had CEPH_CAP_FILE_CACHE
            then set_i_rdcache_ref (wrap_int (i_rdcache_ref ci - 1)) ci
            else ci in
  let last := if tst had CEPH_CAP_FILE_CACHE &&
                 bool_decide (i_rdcache_ref ci = 0)
              then last + 1 else last in
  let ci := if tst had CEPH_CAP_FILE_EXCL
            then set_i_fx_ref (wrap_int (i_fx_ref ci - 1)) ci else ci in
  let last := if tst had CEPH_CAP_FILE_EXCL && bool_decide (i_fx_ref ci = 0)
              then last + 1 else last in
  let ci := if tst had CEPH_CAP_FILE_BUFFER
            then set_i_wb_ref (wrap_int (i_wb_ref ci - 1)) ci else ci in
  let wb_last := tst had CEPH_CAP_FILE_BUFFER && bool_decide (i_wb_ref ci = 0) in
  let last := if wb_last then last + 1 else last in
  let put := if wb_last then 1 else 0 in
  let ci := if tst had CEPH_CAP_FILE_WR
            then set_i_wr_ref (wrap_int (i_wr_ref ci - 1)) ci else ci in
  let wr_last := tst had CEPH_CAP_FILE_WR && bool_decide (i_wr_ref ci = 0) in
  let last := if wr_last then last + 1 else last in
  let check_flushsnaps := wb_last || wr_last in
  let drop_snapc :=
    wr_last && bool_decide (i_wrbuffer_ref_head ci = 0) &&
    bool_decide (i_dirty_caps ci = 0) && bool_decide (i_flushing_caps ci = 0) in
  if drop_snapc && bool_decide (i_head_snapc ci = None)
  then inl PutNoHeadSnapc
  else
    let ci := if drop_snapc then set_i_head_snapc None ci else ci in
    let ci := if wr_last && negb (__ceph_is_any_real_caps ci) &&
                 bool_decide (is_Some (i_snap_realm ci))
              then set_i_snap_realm None ci else ci in
    match
      (if check_flushsnaps && __ceph_have_pending_cap_snap ci then
         match list.last (i_cap_snaps ci) with
         | Some capsnap =>
             let capsnap := set_cs_writing 0 capsnap in
             let ci := set_i_cap_snaps
                         (alter (set_cs_writing 0)
                            (pred (length (i_cap_snaps ci))) (i_cap_snaps ci))
                         ci in
             match ceph_try_drop_cap_snap mdsc ci capsnap with
             | inl b => inl b
             | inr (ci, true) => inr (ci, put + 1, 0, true)
             | inr (ci, false) =>
                 let '(ci, r) := finish ci capsnap in
                 inr (ci, put, if r : bool then 1 else 0, true)
             end
         | None => inr (ci, put, 0, false)
         end
       else inr (ci, put, 0, false))
    with
    | inl b => inl b
    | inr (ci, put, flushsnaps, wake) =>
        let call :=
          match mode with
          | PUT_CAP_REFS_SYNC =>
              if decide (last ≠ 0) then PutCheckCaps
              else if decide (flushsnaps ≠ 0) then PutFlushSnaps
              else PutNoCall
          | PUT_CAP_REFS_ASYNC =>
              if decide (last ≠ 0) then PutQueueCheckCaps
              else if decide (flushsnaps ≠ 0) then PutQueueFlushSnaps
              else PutNoCall
          end in
        inr (mk_put_refs ci call wake put last)
    end.

Definition ceph_put_cap_refs (mdsc : ceph_mds_client)
    (finish : ceph_inode_info -> ceph_cap_snap -> ceph_inode_info * bool)
    (ci : ceph_inode_info) (had : Z) : put_bug + put_refs :=
  __ceph_put_cap_refs mdsc finish ci had PUT_CAP_REFS_SYNC.

Definition ceph_put_cap_refs_async (mdsc : ceph_mds_client)
    (finish : ceph_inode_info -> ceph_cap_snap -> ceph_inode_info * bool)
    (ci : ceph_inode_info) (had : Z) : put_bug + put_refs :=
  __ceph_put_cap_refs mdsc finish ci had PUT_CAP_REFS_ASYNC.

End put_refs.

(** The counters of the inode are counts that can be bumped. *)
Definition refs_in_range (ci : ceph_inode_info) : Prop :=
  0 <= i_pin_ref ci < 2147483647 ∧ 0 <= i_rd_ref ci < 2147483647 ∧
  0 <= i_rdcache_ref ci < 2147483647 ∧ 0 <= i_fx_ref ci < 2147483647 ∧
  0 <= i_wr_ref ci < 2147483647 ∧ 0 <= i_wb_ref ci < 2147483647 ∧
  0 <= i_count ci < 2147483647.

(** What the counting of references reads besides the counters. *)
Definition refs_frame (ci : ceph_inode_info)
  : Z * list ceph_cap_snap * option Z :=
  (i_count ci, i_cap_snaps ci, i_head_snapc ci).

(** A file with a reader: FILE_RD is referenced once, FILE_WR and
    FILE_BUFFER are not. *)
Definition reading_ci : ceph_inode_info :=
  set_i_rd_ref 1
    (set_i_snap_realm (Some Sample.realm0) (Sample.inode1 5 0 (1 + 2048))).

(** ** References on caps *)

(** The counters that [ceph_take_cap_refs] bumps. *)
Definition cap_refs (ci : ceph_inode_info) : Z * Z * Z * Z * Z * Z :=
  (i_pin_ref ci, i_rd_ref ci, i_rdcache_ref ci, i_fx_ref ci, i_wr_ref ci,
   i_wb_ref ci).

(** ** Acks of snap flushes *)

(** An inode with two cap snaps being flushed: the one that follows
    snap 8 with the tid 4, the one that follows snap 9 with the tid 5. *)
Definition snapack_mdsc : ceph_mds_client :=
  set_cap_flush_list [1; 2]%nat
    (set_last_cap_flush_tid 5
       (set_flushes
          (<[1%nat := Flush.mk 4 0 true false]>
             (<[2%nat := Flush.mk 5 0 true false]> ∅))
          Sample.mdsc0)).

Definition snapack_ci : ceph_inode_info :=
  set_i_cap_snaps [mk_capsnap 1 8 0 0 true; mk_capsnap 2 9 0 0 true]
    (set_i_cap_flush_list [1; 2]%nat
       (set_i_flushing_item true (set_i_count 3 (Sample.inode1 5 0 1)))).

(** ** Readable cap strings *)

From Stdlib Require Import Ascii.

(** include/linux/ceph/ceph_fs.h: the generic cap bits and the shifts of
    the cap groups, which [ceph_cap_string] reads. *)
Class CapGroupConsts := {
  CEPH_CAP_GSHARED : Z;
  CEPH_CAP_GEXCL : Z;
  CEPH_CAP_GCACHE : Z;
  CEPH_CAP_GRD : Z;
  CEPH_CAP_GWR : Z;
  CEPH_CAP_GBUFFER : Z;
  CEPH_CAP_GWREXTEND : Z;
  CEPH_CAP_GLAZYIO : Z;
  CEPH_CAP_SAUTH : Z;
  CEPH_CAP_SLINK : Z;
  CEPH_CAP_SXATTR : Z;
  CEPH_CAP_SFILE : Z;
}.

(** The values of the Linux headers. *)
Definition linux_cap_groups : CapGroupConsts := {|
  CEPH_CAP_GSHARED := 1;
  CEPH_CAP_GEXCL := 2;
  CEPH_CAP_GCACHE := 4;
  CEPH_CAP_GRD := 8;
  CEPH_CAP_GWR := 16;
  CEPH_CAP_GBUFFER := 32;
  CEPH_CAP_GWREXTEND := 64;
  CEPH_CAP_GLAZYIO := 128;
  CEPH_CAP_SAUTH := 2;
  CEPH_CAP_SLINK := 4;
  CEPH_CAP_SXATTR := 6;
  CEPH_CAP_SFILE := 8;
|}.

Definition MAX_CAP_STR : Z := 20.

(** The size of one buffer of [cap_str]. *)
Definition CAP_STR_SIZE : Z := 40.

Section cap_string.
Context `{!KernelConsts, !CapGroupConsts}.

(** [gcap_string(s, c)]: the characters it writes from [s] on. *)
Definition gcap_string (c : Z) : list ascii :=
  (if tst c CEPH_CAP_GSHARED then ["s"%char] else []) ++
  (if tst c CEPH_CAP_GEXCL then ["x"%char] else []) ++
  (if tst c CEPH_CAP_GCACHE then ["c"%char] else []) ++
  (if tst c CEPH_CAP_GRD then ["r"%char] else []) ++
  (if tst c CEPH_CAP_GWR then ["w"%char] else []) ++
  (if tst c CEPH_CAP_GBUFFER then ["b"%char] else []) ++
  (if tst c CEPH_CAP_GWREXTEND then ["a"%char] else []) ++
  (if tst c CEPH_CAP_GLAZYIO then ["l"%char] else []).

(** One cap group of [ceph_cap_string]: its letter and its bits. *)
Definition cap_group (letter : ascii) (c : Z) : list ascii :=
  if decide (c ≠ 0) then letter :: gcap_string c else [].

(** [ceph_cap_string(caps)] with [last_cap_str] at [last]: the new
    [last_cap_str], the index of the buffer that is written, and the
    characters written before the terminating NUL. *)
Definition ceph_cap_string (last : Z) (caps : Z) : Z * Z * list ascii :=
  let i := last in
  let last := wrap_int (last + 1) in
  let last := if decide (last = MAX_CAP_STR) then 0 else last in
  let s :=
    (if tst caps CEPH_CAP_PIN then ["p"%char] else []) ++
    cap_group "A" (Z.land (Z.shiftr caps CEPH_CAP_SAUTH) 3) ++
    cap_group "L" (Z.land (Z.shiftr caps CEPH_CAP_SLINK) 3) ++
    cap_group "X" (Z.land (Z.shiftr caps CEPH_CAP_SXATTR) 3) ++
    cap_group "F" (Z.shiftr caps CEPH_CAP_SFILE) in
  let s := if decide (s = []) then ["-"%char] else s in
  (last, i, s).

End cap_string.

(** ** Facts on wrapped arithmetic *)

#[global] Arguments wrap_int : simpl never.
#[global] Arguments wrap_u32 : simpl never.
#[global] Arguments wrap_u64 : simpl never.

Lemma wrap_int_congr a b : (a - b) mod 2 ^ 32 = 0 -> wrap_int a = wrap_int b.
Proof.
  unfold wrap_int. intros H.
  assert (E : (a + 2 ^ 31) mod 2 ^ 32 = (b + 2 ^ 31) mod 2 ^ 32).
  { change (2 ^ 32) with 4294967296 in *. change (2 ^ 31) with 2147483648.
    Z.div_mod_to_equations. lia. }
  now rewrite E.
Qed.

Lemma wrap_int_diff a : (wrap_int a - a) mod 2 ^ 32 = 0.
Proof.
  unfold wrap_int. change (2 ^ 32) with 4294967296.
  change (2 ^ 31) with 2147483648. Z.div_mod_to_equations. lia.
Qed.

Lemma wrap_int_add_l a b : wrap_int (wrap_int a + b) = wrap_int (a + b).
Proof.
  apply wrap_int_congr. pose proof (wrap_int_diff a) as H.
  replace (wrap_int a + b - (a + b)) with (wrap_int a - a) by lia. exact H.
Qed.

Lemma wrap_int_add_r a b : wrap_int (a + wrap_int b) = wrap_int (a + b).
Proof. rewrite (Z.add_comm a), wrap_int_add_l. f_equal. lia. Qed.

Lemma wrap_int_sub_l a b : wrap_int (wrap_int a - b) = wrap_int (a - b).
Proof. unfold Z.sub. apply wrap_int_add_l. Qed.

Lemma wrap_int_small a : in_int a -> wrap_int a = a.
Proof.
  unfold in_int, wrap_int. change (2 ^ 32) with 4294967296.
  change (2 ^ 31) with 2147483648. intros H.
  rewrite Z.mod_small by lia. lia.
Qed.

Lemma wrap_int_range a : in_int (wrap_int a).
Proof.
  unfold in_int, wrap_int. change (2 ^ 32) with 4294967296.
  change (2 ^ 31) with 2147483648.
  pose proof (Z.mod_pos_bound (a + 2147483648) 4294967296). lia.
Qed.

Ltac unwrap :=
  rewrite ?wrap_int_add_l, ?wrap_int_add_r, ?wrap_int_sub_l.

(** ** The reservation pool keeps its counters conserved *)

Module PoolFacts.
Import Pool.

Lemma wrap_int_ex a : exists k, wrap_int a = a + k * 4294967296.
Proof.
  exists (- ((a + 2147483648) / 4294967296)). unfold wrap_int.
  change (2 ^ 32) with 4294967296. change (2 ^ 31) with 2147483648.
  Z.div_mod_to_equations. lia.
Qed.

Lemma wrap_int_bounds a : -2147483648 <= wrap_int a < 2147483648.
Proof. apply (wrap_int_range a). Qed.

(** Replace every wrapped term by a variable with its range and its
    congruence, so that [lia] can finish. *)
Ltac elim_wrap1 t :=
  let k := fresh "k" in
  let E := fresh "E" in
  let R := fresh "R" in
  destruct (wrap_int_ex t) as [k E];
  pose proof (wrap_int_bounds t) as R;
  let w := fresh "w" in
  set (w := wrap_int t) in *; clearbody w.

Ltac elim_wrap :=
  repeat match goal with
    | |- context [wrap_int ?t] => elim_wrap1 t
    | H : context [wrap_int ?t] |- _ => elim_wrap1 t
    end.

Ltac wrap_lia := unfold add, sub in *; cbn in *; elim_wrap; lia.

Lemma conservedb_true p : conservedb p = true <-> conserved p.
Proof. unfold conservedb, conserved. apply Z.eqb_eq. Qed.

Lemma sound_bind {A B} (Q : B -> Prop) (m : res A) (k : A -> res B) :
  sound (fun a => sound Q (k a)) m -> sound Q (m ≫= k).
Proof. destruct m; simpl; auto. Qed.

Lemma sound_mono {A} (P Q : A -> Prop) (r : res A) :
  (forall a, P a -> Q a) -> sound P r -> sound Q r.
Proof. destruct r; simpl; auto. Qed.

(** A conservation check passes on a conserved pool. *)
Lemma check_passes {B} (Q : B -> Prop) p (k : res B) :
  conserved p -> sound Q k ->
  sound Q (BUG_ON (negb (conservedb p)) ConservationViolated ≫= fun _ => k).
Proof.
  intros Hc Hk. apply conservedb_true in Hc. rewrite Hc. exact Hk.
Qed.

Lemma bug_on_other {B} (Q : B -> Prop) c f (k : res B) :
  f ≠ ConservationViolated -> f ≠ LoopBound ->
  (c = false -> sound Q k) -> sound Q (BUG_ON c f ≫= fun _ => k).
Proof. intros ? ? Hk. destruct c; simpl; auto. Qed.

Lemma take_from_list_sound n p (Q : t -> Prop) :
  (forall l, Q (set_list l p)) -> sound Q (take_from_list n p).
Proof.
  intros H. unfold take_from_list. case_decide; simpl; [split; discriminate | apply H].
Qed.

Lemma conserved_set_list l p : conserved (set_list l p) <-> conserved p.
Proof. reflexivity. Qed.

Lemma unreserve_sound p nr :
  conserved p -> sound conserved (__ceph_unreserve_caps p nr).
Proof.
  intros Hc. unfold __ceph_unreserve_caps. case_decide; [exact Hc|].
  apply bug_on_other; [discriminate..|]. intros _.
  apply sound_bind. case_decide.
  - apply take_from_list_sound. intros l. apply check_passes; [|simpl].
    all: unfold conserved, sum3 in *; destruct p; wrap_lia.
  - simpl. apply check_passes; [|simpl].
    all: unfold conserved, sum3 in *; destruct p; wrap_lia.
Qed.

Lemma put_sound p : conserved p -> sound conserved (ceph_put_cap p).
Proof.
  intros Hc. unfold ceph_put_cap. case_decide.
  - apply check_passes; [|simpl].
    all: unfold conserved, sum3 in *; destruct p; wrap_lia.
  - apply check_passes; [|simpl].
    all: unfold conserved, sum3 in *; destruct p; wrap_lia.
Qed.

Lemma get_sound p ctx alloc_ok :
  conserved p ->
  sound (fun r => conserved r.1.1) (ceph_get_cap p ctx alloc_ok).
Proof.
  intros Hc. unfold ceph_get_cap. destruct ctx as [c|].
  - do 3 (apply bug_on_other; [discriminate..|]; intros _).
    apply sound_bind, take_from_list_sound. intros l.
    apply check_passes; [|simpl].
    all: unfold conserved, sum3 in *; destruct p; wrap_lia.
  - destruct alloc_ok; simpl.
    + unfold conserved, sum3 in *; destruct p; wrap_lia.
    + case_decide; [|exact Hc].
      apply bug_on_other; [discriminate..|]; intros _.
      apply sound_bind, take_from_list_sound. intros l.
      apply check_passes; [|simpl].
      all: unfold conserved, sum3 in *; destruct p; wrap_lia.
Qed.

Lemma trim_puts_sound n p : conserved p -> sound conserved (trim_puts n p).
Proof.
  revert p. induction n as [|n IH]; intros p Hc; simpl; [exact Hc|].
  apply sound_bind. eapply sound_mono; [|apply put_sound, Hc].
  intros p' Hp'. apply IH, Hp'.
Qed.

Section with_consts.
Context `{!KernelConsts}.

Lemma reserve_loop_sound fuel allocs trimmed_caps need s :
  conserved (l_pool s) ->
  (length allocs + (if l_trimmed s then 1 else 2) <= fuel)%nat ->
  sound (fun r => conserved (l_pool r.1))
        (reserve_loop fuel allocs trimmed_caps need s).
Proof.
  revert allocs s. induction fuel as [|fuel IH]; intros allocs s Hc Hf.
  - destruct (l_trimmed s); lia.
  - simpl. case_decide; [|exact Hc].
    destruct allocs as [|[|] allocs]; simpl in *.
    + destruct (l_trimmed s) eqn:Ht; simpl; [exact Hc|].
      apply sound_bind. eapply sound_mono; [|apply trim_puts_sound, Hc].
      intros p' Hp'. apply IH; [|simpl; case_decide; simpl; lia].
      case_decide; simpl; [|exact Hp'].
      unfold conserved, sum3 in *; destruct p'; wrap_lia.
    + apply IH; [exact Hc|]. simpl. lia.
    + destruct (l_trimmed s) eqn:Ht; simpl; [exact Hc|].
      apply sound_bind. eapply sound_mono; [|apply trim_puts_sound, Hc].
      intros p' Hp'. apply IH; [|simpl; case_decide; simpl; lia].
      case_decide; simpl; [|exact Hp'].
      unfold conserved, sum3 in *; destruct p'; wrap_lia.
Qed.

Lemma reserve_sound p ctx need allocs trimmed_caps :
  conserved p ->
  sound (fun r => conserved r.1.1)
        (ceph_reserve_caps p ctx need allocs trimmed_caps).
Proof.
  intros Hc. unfold ceph_reserve_caps.
  apply check_passes.
  { case_decide; unfold conserved, sum3 in *; destruct p; wrap_lia. }
  apply sound_bind. eapply sound_mono; [|apply reserve_loop_sound].
  - intros [s err] Hs. simpl in Hs.
    assert (Hsum : conserved
      (set_list (fun l => (l + Z.to_nat (l_alloc s))%nat)
         (set_reserve (add (l_alloc s))
            (set_total (add (l_alloc s)) (l_pool s))))).
    { unfold conserved, sum3 in *; destruct (l_pool s); wrap_lia. }
    destruct (decide (err = 0)) as [He|He];
      destruct (decide (err ≠ 0)) as [Hn|Hn]; try contradiction; cbv iota.
    + apply bug_on_other; [discriminate..|]. intros _.
      apply check_passes; [exact Hsum|]. exact Hsum.
    + apply check_passes; [exact Hsum|].
      apply sound_bind. eapply sound_mono; [|apply unreserve_sound, Hsum]. auto.
  - simpl. case_decide; unfold conserved, sum3 in *; destruct p; wrap_lia.
  - simpl. lia.
Qed.

Lemma unreserve_caps_sound p ctx :
  conserved p -> sound (fun r => conserved r.1.1) (ceph_unreserve_caps p ctx).
Proof.
  intros Hc. unfold ceph_unreserve_caps. case_decide; [exact Hc|].
  apply sound_bind. eapply sound_mono; [|apply unreserve_sound, Hc]. auto.
Qed.

Lemma run_op_sound o p : conserved p -> sound conserved (run_op o p).
Proof.
  intros Hc. destruct o; simpl.
  - apply sound_bind. eapply sound_mono; [|apply reserve_sound, Hc].
    intros [[? ?] ?]; auto.
  - apply sound_bind. eapply sound_mono; [|apply unreserve_caps_sound, Hc].
    intros [[? ?] ?]; auto.
  - apply sound_bind. eapply sound_mono; [|apply get_sound, Hc].
    intros [[? ?] ?]; auto.
  - apply put_sound, Hc.
Qed.

Lemma conserved_no_wrap p :
  conserved p ->
  in_int (caps_use_count p + caps_reserve_count p + caps_avail_count p) ->
  conserved_exact p.
Proof.
  unfold conserved, conserved_exact, sum3. intros -> Hr.
  rewrite wrap_int_add_l. apply wrap_int_small, Hr.
Qed.

(** C2: after every sequence of allocator operations (reserve, unreserve,
    get, put, under any outcome of the allocations and of trimming) started
    from a pool whose counters satisfy total == used + reserved + available,
    no conservation check fires and the counters satisfy the equation
    again; when the sum does not leave the range of [int], the equation
    holds over the integers. *)
Theorem pool_conservation (os : list op) (p : t) :
  conserved p ->
  sound (fun p' =>
           conserved p' ∧
           (in_int (caps_use_count p' + caps_reserve_count p' + caps_avail_count p') ->
            conserved_exact p'))
        (run_ops os p).
Proof.
  revert p. induction os as [|o os IH]; intros p Hc; simpl.
  - split; [exact Hc | apply conserved_no_wrap, Hc].
  - apply sound_bind. eapply sound_mono; [|apply run_op_sound, Hc].
    intros p' Hp'. apply IH, Hp'.
Qed.

End with_consts.

Lemma pool_conservation_witness :
  exists p',
    run_ops (H := linux_consts) run2_ops run2_pool = Ok p' /\
    conserved_exact p'.
Proof.
  assert (H0 : conserved run2_pool) by (vm_compute; reflexivity).
  pose proof (pool_conservation (H := linux_consts) run2_ops run2_pool H0)
    as Hrun.
  destruct (run_ops run2_ops run2_pool) as [p'|f] eqn:E.
  - exists p'. split; [reflexivity|].
    destruct Hrun as [_ Hexact]. apply Hexact.
    vm_compute in E. injection E as <-. unfold in_int. simpl. lia.
  - exfalso. vm_compute in E. discriminate E.
Defined.

End PoolFacts.

(** ** issued ⊆ implemented is an invariant *)

Module CapsFacts.

(** Bitwise goals, bit by bit. *)
Ltac bit_specs :=
  repeat first [ rewrite Z.land_spec | rewrite Z.lor_spec
               | rewrite Z.lnot_spec by assumption | rewrite Z.bits_0 ].

Ltac bit_specs_in H :=
  repeat first [ rewrite Z.land_spec in H | rewrite Z.lor_spec in H
               | rewrite Z.lnot_spec in H by assumption
               | rewrite Z.bits_0 in H ].

Ltac bitblast :=
  apply Z.bits_inj'; intros ?k ?Hk;
  repeat match goal with
    | H : @eq Z _ 0 |- _ =>
        match goal with
        | Hk : 0 <= ?k |- _ =>
            apply (f_equal (fun x => Z.testbit x k)) in H; cbv beta in H;
            bit_specs_in H
        end
    end;
  bit_specs;
  repeat match goal with
    | |- context [Z.testbit ?a ?k] => destruct (Z.testbit a k)
    | H : context [Z.testbit ?a ?k] |- _ => destruct (Z.testbit a k)
    end;
  simpl in *; congruence.

Lemma tst_false a b : tst a b = false <-> Z.land a b = 0.
Proof.
  unfold tst. rewrite negb_false_iff. apply Z.eqb_eq.
Qed.

Lemma tst_true a b : tst a b = true <-> Z.land a b ≠ 0.
Proof.
  unfold tst. rewrite negb_true_iff. apply Z.eqb_neq.
Qed.

Lemma ok_same a : Z.land a (Z.lnot a) = 0.
Proof. bitblast. Qed.

Lemma ok_assign impl n : Z.land n (Z.lnot (Z.lor impl n)) = 0.
Proof. bitblast. Qed.

Lemma ok_merge i m x :
  Z.land i (Z.lnot m) = 0 -> Z.land (Z.lor i x) (Z.lnot (Z.lor m x)) = 0.
Proof. intros H. bitblast. Qed.

Lemma ok_prep i m retain used :
  Z.land i (Z.lnot m) = 0 ->
  Z.land (Z.land i retain)
         (Z.lnot (Z.land m (Z.lor (Z.land i retain) used))) = 0.
Proof. intros H. bitblast. Qed.

Lemma ok_drop i m d :
  Z.land i (Z.lnot m) = 0 ->
  Z.land (Z.land i (Z.lnot d)) (Z.lnot (Z.land m (Z.lnot d))) = 0.
Proof. intros H. bitblast. Qed.

(** *** The calculus of [holds] *)

Lemma holds_bind {A B} (Q : B -> Prop) (m : res A) (k : A -> res B) :
  holds (fun a => holds Q (k a)) m -> holds Q (m ≫= k).
Proof. destruct m; simpl; auto. Qed.

Lemma holds_mono {A} (P Q : A -> Prop) (r : res A) :
  (forall a, P a -> Q a) -> holds P r -> holds Q r.
Proof. destruct r; simpl; auto. Qed.

Lemma holds_deref {A B} (Q : B -> Prop) (o : option A) (k : A -> res B) :
  (forall a, o = Some a -> holds Q (k a)) -> holds Q (deref o ≫= k).
Proof. destruct o; simpl; [auto | discriminate]. Qed.

Lemma holds_bug_on {B} (Q : B -> Prop) c f (k : res B) :
  f ≠ IssuedNotImplemented ->
  (c = false -> holds Q k) -> holds Q (BUG_ON c f ≫= fun _ => k).
Proof. intros ? Hk. destruct c; simpl; auto. Qed.

Lemma holds_true {A} (r : res A) :
  (forall f, r = Oops f -> f ≠ IssuedNotImplemented) -> holds (fun _ => True) r.
Proof. destruct r; simpl; auto. Qed.

(** A pool operation never stops at the issued/implemented check. *)
Lemma holds_put_cap {B} (Q : B -> Prop) p (k : Pool.t -> res B) :
  (forall p', holds Q (k p')) -> holds Q (Pool.ceph_put_cap p ≫= k).
Proof.
  intros Hk. unfold Pool.ceph_put_cap.
  destruct (BUG_ON _ _) eqn:E; simpl.
  - apply Hk.
  - unfold BUG_ON in E. destruct (negb _); inversion E. discriminate.
Qed.

Lemma get_cap_fault p ctx a f :
  Pool.ceph_get_cap p ctx a = Oops f -> f ≠ IssuedNotImplemented.
Proof.
  unfold Pool.ceph_get_cap, Pool.take_from_list, BUG_ON.
  intros H Hf. subst f.
  repeat (first [ discriminate
                | match type of H with
                  | context [match ?x with _ => _ end] => destruct x; simpl in H
                  end ]).
Qed.

Lemma holds_get_cap {B} (Q : B -> Prop) p ctx a
    (k : Pool.t * option Pool.ceph_cap_reservation * bool -> res B) :
  (forall r, holds Q (k r)) -> holds Q (Pool.ceph_get_cap p ctx a ≫= k).
Proof.
  intros Hk. destruct (Pool.ceph_get_cap p ctx a) eqn:E; simpl.
  - apply Hk.
  - eapply get_cap_fault, E.
Qed.

Section with_consts.
Context `{!KernelConsts}.

Lemma caps_ok_store cap ci : cap_ok cap -> caps_ok ci -> caps_ok (store_cap cap ci).
Proof. intros Hc Hi. unfold caps_ok, store_cap. simpl. by apply map_Forall_insert_2. Qed.

Lemma caps_ok_lookup ci mds cap : caps_ok ci -> i_caps ci !! mds = Some cap -> cap_ok cap.
Proof. intros Hi Hl. exact (map_Forall_lookup_1 _ _ _ _ Hi Hl). Qed.

Lemma caps_ok_same ci ci' : i_caps ci' = i_caps ci -> caps_ok ci -> caps_ok ci'.
Proof. unfold caps_ok. by intros ->. Qed.

Lemma cap_ok_pin cap :
  cap_ok (Cap.set_implemented CEPH_CAP_PIN (Cap.set_issued CEPH_CAP_PIN cap)).
Proof. unfold cap_ok. simpl. apply ok_same. Qed.

Lemma cap_is_valid_fault e mdsc cap f :
  __cap_is_valid e mdsc cap = Oops f -> f = NullDeref.
Proof.
  unfold __cap_is_valid, session_of.
  destruct (sessions mdsc !! _); simpl; [|congruence].
  destruct (_ || _); discriminate.
Qed.

Lemma caps_issued_fault e mdsc ci f :
  __ceph_caps_issued e mdsc ci = Oops f -> f = NullDeref.
Proof.
  unfold __ceph_caps_issued.
  assert (Hfold : forall f, map_fold (issued_step e mdsc) (Ok (i_snap_caps ci, 0))
                              (i_caps ci) = Oops f -> f = NullDeref).
  { apply (map_fold_weak_ind (fun r _ => forall f, r = Oops f -> f = NullDeref));
      [discriminate|].
    intros i x m r _ IH f'. unfold issued_step.
    destruct r as [[? ?]|f'']; simpl; [|intros [= <-]; by apply IH].
    destruct (__cap_is_valid e mdsc x) as [[|]|f''] eqn:E; simpl; try discriminate.
    intros [= <-]. eapply cap_is_valid_fault, E. }
  destruct (map_fold _ _ _) as [[? ?]|f'] eqn:Ef; simpl.
  - destruct (i_auth_cap ci); [|discriminate].
    destruct (i_caps ci !! _); simpl; [discriminate|congruence].
  - intros [= <-]. by apply Hfold.
Qed.

Lemma holds_caps_issued {B} (Q : B -> Prop) e mdsc ci (k : Z * Z -> res B) :
  (forall r, holds Q (k r)) -> holds Q (__ceph_caps_issued e mdsc ci ≫= k).
Proof.
  intros Hk. destruct (__ceph_caps_issued e mdsc ci) eqn:E; simpl; [apply Hk|].
  apply caps_issued_fault in E. by subst.
Qed.

Lemma check_cap_issue_caps e mdsc ci issued (Q : ceph_inode_info -> Prop) :
  (forall ci', i_caps ci' = i_caps ci -> i_auth_cap ci' = i_auth_cap ci -> Q ci') ->
  holds Q (__check_cap_issue e mdsc ci issued).
Proof.
  intros HQ. unfold __check_cap_issue.
  apply holds_caps_issued. intros [had ?].
  simpl. apply HQ; by repeat case_match.
Qed.

Lemma change_auth_cap_ses_fault mdsc ci smds f :
  change_auth_cap_ses mdsc ci smds = Oops f -> f = NullDeref.
Proof.
  unfold change_auth_cap_ses, move_dirty, move_tail_flushing.
  destruct (_ && _); [discriminate|].
  destruct (i_dirty_item ci); simpl.
  - destruct (del_dirty_item _ _ !! smds); simpl; [|congruence].
    destruct (i_flushing_item ci); simpl; [|discriminate].
    destruct (del_flushing_item _ _ !! smds); simpl; [discriminate|congruence].
  - destruct (i_flushing_item ci); simpl; [|discriminate].
    destruct (del_flushing_item _ _ !! smds); simpl; [discriminate|congruence].
Qed.

Lemma holds_change_auth {B} (Q : B -> Prop) mdsc ci smds (k : _ -> res B) :
  (forall m, holds Q (k m)) -> holds Q (change_auth_cap_ses mdsc ci smds ≫= k).
Proof.
  intros Hk. destruct (change_auth_cap_ses mdsc ci smds) eqn:E; simpl; [apply Hk|].
  apply change_auth_cap_ses_fault in E. by subst.
Qed.

(** [ceph_add_cap] keeps the invariant. *)
Lemma add_cap_caps_ok e mdsc ci smds cap_id issued wanted seq mseq realmino
    flags new_cap realm :
  caps_ok ci ->
  holds (fun r => caps_ok r.1.2)
        (ceph_add_cap e mdsc ci smds cap_id issued wanted seq mseq realmino
           flags new_cap realm).
Proof.
  intros Hok. unfold ceph_add_cap, session_of.
  apply holds_deref. intros s _.
  apply holds_bind.
  assert (Hblock : holds (fun r => caps_ok r.1.1.1.1.1)
    (match __get_cap_for_mds ci smds with
     | Some cap =>
         let cap0 :=
           if decide (Cap.cap_gen cap < s_cap_gen s)
           then Cap.set_implemented CEPH_CAP_PIN (Cap.set_issued CEPH_CAP_PIN cap)
           else cap in
         let ci0 := store_cap cap0 ci in
         if decide (ceph_seq_cmp seq (Cap.seq cap0) <= 0)
         then Ok (ci0, new_cap, Cap.seq cap0, Cap.mseq cap0,
                  Z.lor issued (Cap.issued cap0), Z.lor flags CEPH_CAP_FLAG_AUTH)
         else Ok (ci0, new_cap, seq, mseq, issued, flags)
     | None =>
         (if new_cap then Ok () else Oops NullDeref) ≫= fun _ =>
         __insert_cap_node ci (Cap.mk 0 smds 0 0 0 0 0 0 0) ≫= fun ci0 =>
         Ok (ci0, false, seq, mseq, issued, flags)
     end)).
  { unfold __get_cap_for_mds. destruct (i_caps ci !! smds) as [cap|] eqn:Hl.
    - cbv zeta.
      destruct (decide (Cap.cap_gen cap < s_cap_gen s)) as [Hs|Hs];
        match goal with
        | |- context [decide (ceph_seq_cmp ?a ?b <= 0)] =>
            destruct (decide (ceph_seq_cmp a b <= 0))
        end; simpl; apply caps_ok_store; auto using cap_ok_pin;
        eapply caps_ok_lookup; eauto.
    - destruct new_cap; simpl; [|discriminate].
      unfold __insert_cap_node. simpl. rewrite Hl. simpl.
      apply map_Forall_insert_2; [|exact Hok]. unfold cap_ok. simpl. reflexivity. }
  eapply holds_mono; [|exact Hblock].
  intros [[[[[ci1 nc] seq1] mseq1] issued1] flags1] Hci1. simpl in Hci1.
  match goal with
  | |- context [__check_cap_issue e mdsc ?c issued1] =>
      assert (Hc2 : i_caps c = i_caps ci1 /\ caps_ok c)
  end.
  { destruct (match i_snap_realm ci1 with Some _ => _ | None => _ end);
      [destruct realm|]; simpl; auto. }
  destruct Hc2 as [_ Hc2].
  apply holds_bind, check_cap_issue_caps. intros ci3 Hci3 _.
  apply holds_deref. intros cap Hcap.
  apply holds_bind.
  assert (Hauth : holds (fun r => caps_ok r.1.2)
    (if tst flags1 CEPH_CAP_FLAG_AUTH
     then
       match i_auth_cap ci3 with
       | Some a =>
           deref (i_caps ci3 !! a) ≫= fun ac =>
           Ok (bool_decide (ceph_seq_cmp (Cap.mseq ac) mseq1 < 0))
       | None => Ok true
       end ≫= fun newer : bool =>
       if newer
       then
         match i_auth_cap ci3 with
         | Some a => if decide (a ≠ smds)
                     then change_auth_cap_ses mdsc ci3 smds else Ok mdsc
         | None => Ok mdsc
         end ≫= fun mdsc0 =>
         Ok (mdsc0, set_i_auth_cap (Some smds) ci3, Cap.set_mds_wanted wanted cap)
       else Ok (mdsc, ci3, cap)
     else Ok (mdsc, ci3, cap))).
  { assert (Hok3 : caps_ok ci3) by (eapply caps_ok_same; eauto).
    destruct (tst flags1 CEPH_CAP_FLAG_AUTH); [|exact Hok3].
    apply holds_bind.
    assert (Hrest : forall newer : bool, holds (fun r => caps_ok r.1.2)
      (if newer
       then
         match i_auth_cap ci3 with
         | Some a => if decide (a ≠ smds)
                     then change_auth_cap_ses mdsc ci3 smds else Ok mdsc
         | None => Ok mdsc
         end ≫= fun mdsc0 =>
         Ok (mdsc0, set_i_auth_cap (Some smds) ci3, Cap.set_mds_wanted wanted cap)
       else Ok (mdsc, ci3, cap))).
    { intros [|]; [|exact Hok3].
      destruct (i_auth_cap ci3); [case_decide|]; simpl; try exact Hok3.
      apply holds_change_auth. intros; exact Hok3. }
    destruct (i_auth_cap ci3); simpl; [|apply (Hrest true)].
    apply holds_deref. intros; apply Hrest. }
  eapply holds_mono; [|exact Hauth].
  intros [[mdsc4 ci4] cap4] Hci4. simpl in Hci4. simpl.
  apply caps_ok_store; [|exact Hci4].
  unfold cap_ok. case_decide; simpl; apply ok_assign.
Qed.

Lemma caps_ok_delete ci ci' mds :
  i_caps ci' = delete mds (i_caps ci) -> caps_ok ci -> caps_ok ci'.
Proof. unfold caps_ok. intros -> Hok. by apply map_Forall_delete. Qed.

Lemma remove_cap_caps_ok mdsc ci mds queue_release :
  caps_ok ci ->
  holds (fun r => caps_ok r.1.2) (__ceph_remove_cap mdsc ci mds queue_release).
Proof.
  intros Hok. unfold __ceph_remove_cap, session_of.
  apply holds_deref. intros cap _. apply holds_deref. intros s _.
  cbv zeta.
  match goal with
  | |- holds _ ((if ?c then _ else _) ≫= _) => destruct c
  end.
  - apply holds_put_cap. intros p'. simpl.
    eapply caps_ok_delete; [|exact Hok].
    destruct (_ && _); destruct (decide _); reflexivity.
  - simpl. eapply caps_ok_delete; [|exact Hok].
    destruct (_ && _); destruct (decide _); reflexivity.
Qed.

Lemma prep_cap_caps_ok ci cmds used want retain :
  caps_ok ci ->
  holds (fun r => caps_ok r.1) (__prep_cap ci cmds used want retain).
Proof.
  intros Hok. unfold __prep_cap.
  apply holds_deref. intros cap Hcap.
  apply holds_bug_on; [discriminate|]. intros _. simpl.
  pose proof (caps_ok_lookup _ _ _ Hok Hcap) as Hc. unfold cap_ok in Hc.
  assert (Hnew : cap_ok
    (Cap.set_mds_wanted want
       (Cap.set_implemented
          (Z.land (Cap.implemented cap)
             (Z.lor (Z.land (Cap.issued cap)
                       (Z.land retain
                          (Z.lnot (Z.land (Cap.implemented cap)
                                     (Z.lnot (Cap.issued cap))))))
                    used))
          (Cap.set_issued
             (Z.land (Cap.issued cap)
                (Z.land retain
                   (Z.lnot (Z.land (Cap.implemented cap)
                              (Z.lnot (Cap.issued cap)))))) cap)))).
  { unfold cap_ok. simpl. by apply ok_prep. }
  case_decide; [destruct (tst want _)|]; apply caps_ok_store; auto.
Qed.

Lemma holds_prep_cap {B} (Q : B -> Prop) ci cmds used want retain
    (k : ceph_inode_info * bool -> res B) :
  caps_ok ci ->
  (forall r, caps_ok r.1 -> holds Q (k r)) ->
  holds Q (__prep_cap ci cmds used want retain ≫= k).
Proof.
  intros Hok Hk. apply holds_bind.
  eapply holds_mono; [|by apply prep_cap_caps_ok]. auto.
Qed.

Lemma kick_loop_caps_ok e session oldest l mdsc ci first_tid acts :
  caps_ok ci ->
  holds (fun r => caps_ok r.1)
        (kick_loop e session oldest l mdsc ci first_tid acts).
Proof.
  revert ci first_tid acts.
  induction l as [|cf l IH]; intros ci first_tid acts Hok; simpl; [exact Hok|].
  apply holds_deref. intros c _.
  case_decide; [by apply IH|].
  destruct (i_auth_cap ci) as [a|]; [|exact Hok].
  case_decide; [|exact Hok].
  destruct (Flush.is_capsnap c); [by apply IH|].
  apply holds_deref. intros cap _.
  apply holds_prep_cap; [exact Hok|]. intros [ci' w] Hok'.
  apply holds_deref. intros cap' _. by apply IH.
Qed.

Lemma kick_flushing_caps_ok e mdsc session ci oldest :
  caps_ok ci ->
  holds (fun r => caps_ok r.1) (__kick_flushing_caps e mdsc session ci oldest).
Proof.
  intros Hok. unfold __kick_flushing_caps.
  destruct (tst _ _); [exact Hok|]. by apply kick_loop_caps_ok.
Qed.

Lemma oldest_flush_tid_fault mdsc f :
  __get_oldest_flush_tid mdsc = Oops f -> f = NullDeref.
Proof.
  unfold __get_oldest_flush_tid. destruct (cap_flush_list mdsc); [discriminate|].
  destruct (flushes mdsc !! _); simpl; [discriminate|congruence].
Qed.

Lemma holds_oldest {B} (Q : B -> Prop) mdsc (k : Z -> res B) :
  (forall t, holds Q (k t)) -> holds Q (__get_oldest_flush_tid mdsc ≫= k).
Proof.
  intros Hk. destruct (__get_oldest_flush_tid mdsc) eqn:E; simpl; [apply Hk|].
  apply oldest_flush_tid_fault in E. by subst.
Qed.

Lemma kick_flushing_inode_caps_ok e mdsc session ci :
  caps_ok ci ->
  holds (fun r => caps_ok r.1.2) (ceph_kick_flushing_inode_caps e mdsc session ci).
Proof.
  intros Hok. unfold ceph_kick_flushing_inode_caps, move_tail_flushing.
  destruct (bool_decide _); [exact Hok|].
  apply holds_deref. intros a _. apply holds_bind, holds_deref. intros s _. simpl.
  apply holds_oldest. intros t. apply holds_bind.
  eapply holds_mono; [|apply kick_flushing_caps_ok; exact Hok].
  intros [ci' acts] Hok'. exact Hok'.
Qed.

End with_consts.

End CapsFacts.

Module GrantFacts.
Import CapsFacts.

Section with_consts.
Context `{!KernelConsts}.

Lemma grant_locked_caps_ok e mdsc ci session grant extra_issued pages_left
    layout_changed fill :
  caps_ok ci ->
  holds (fun r => caps_ok r.1.2)
        (handle_cap_grant_locked e mdsc ci session grant extra_issued
           pages_left layout_changed fill).
Proof.
  intros Hok. unfold handle_cap_grant_locked, session_of.
  apply holds_deref. intros cap Hcap. apply holds_deref. intros s _.
  cbv zeta.
  set (cap1 := if bool_decide (Cap.cap_gen cap < s_cap_gen s) then _ else cap).
  assert (Hcap1 : cap_ok cap1).
  { subst cap1. destruct (bool_decide _); [apply cap_ok_pin|].
    eapply caps_ok_lookup; eauto. }
  clearbody cap1.
  match goal with
  | |- holds _ (match ?E with _ => _ end) => destruct E as [ci1 qi] eqn:HE1
  end.
  assert (Hci1 : i_caps ci1 = i_caps ci).
  { revert HE1. unfold try_nonblocking_invalidate.
    repeat case_match; intros [= <- <-]; simplify_eq; reflexivity. }
  clear HE1.
  match goal with
  | |- holds _ (match ?E with _ => _ end) => destruct E as [seq1 newcaps1] eqn:HE2
  end.
  clear HE2.
  set (cap2 := Cap.set_seq seq1 (Cap.set_cap_gen (s_cap_gen s) cap1)).
  assert (Hcap2 : cap_ok cap2) by exact Hcap1.
  clearbody cap2.
  apply holds_bind, check_cap_issue_caps. intros ci2 Hci2 _.
  assert (Hok2 : caps_ok ci2).
  { eapply caps_ok_same; [exact Hci2|]. apply caps_ok_store; [exact Hcap2|].
    eapply caps_ok_same; eauto. }
  clear Hci2.
  match goal with
  | |- holds _ (match ?E with _ => _ end) => destruct E as [ci2a del] eqn:HE2a
  end.
  assert (Hok2a : caps_ok ci2a).
  { revert HE2a. repeat case_match; intros [= <- <-]; exact Hok2. }
  clear HE2a.
  match goal with
  | |- holds _ (match ?E with _ => _ end) => destruct E as [ci2b qt] eqn:HE2b
  end.
  assert (Hok2b : caps_ok ci2b).
  { revert HE2b. unfold ceph_fill_file_size.
    repeat case_match; intros [= <- <-]; exact Hok2a. }
  clear HE2b.
  match goal with
  | |- holds _ (match ?E with _ => _ end) => destruct E as [ci3 wake] eqn:HE3
  end.
  assert (Hok3 : caps_ok ci3).
  { revert HE3. repeat case_match; intros [= <- <-]; exact Hok2b. }
  clear HE3.
  match goal with
  | |- holds _ (match ?E with _ => _ end) =>
      destruct E as [[[[cap3 check_caps] wake3] writeback] revoke_wait] eqn:HE4
  end.
  assert (Hcap3 : cap_ok cap3).
  { revert HE4. repeat case_match; intros [= <- <- <- <- <-]; simplify_eq;
      first [ exact Hcap2 | unfold cap_ok; simpl; apply ok_assign ]. }
  clear HE4.
  assert (Hpass : tst (Cap.issued cap3) (Z.lnot (Cap.implemented cap3)) = false)
    by (by apply tst_false).
  rewrite Hpass. simpl (BUG_ON false _ ≫= _).
  match goal with
  | |- holds _ (match ?E with _ => _ end) =>
      destruct E as [[cap4 flags4] check_caps4] eqn:HE5
  end.
  assert (Hcap4 : cap_ok cap4).
  { revert HE5. repeat case_match; intros [= <- <- <-]; exact Hcap3. }
  clear HE5.
  assert (Hok4 : caps_ok (store_cap cap4 ci3)) by (by apply caps_ok_store).
  apply holds_bind.
  destruct (_ && _); [|exact Hok4].
  match goal with
  | |- holds _ (match ?E with _ => _ end) => destruct E as [ci5 wake5] eqn:HE6
  end.
  assert (Hok5 : caps_ok ci5).
  { revert HE6. repeat case_match; intros [= <- <-]; exact Hok4. }
  apply holds_bind.
  eapply holds_mono; [|apply kick_flushing_inode_caps_ok; exact Hok5].
  intros [[m' ci'] acts] Hok'. exact Hok'.
Qed.


Ltac head_destruct :=
  match goal with
  | |- holds _ (match ?E with _ => _ end) => destruct E eqn:?
  | |- holds _ ((match ?E with _ => _ end) ≫= _) => destruct E eqn:?
  end.

Lemma detach_fault st l cf f : detach_cap_flush st l cf = Oops f -> f = NullDeref.
Proof.
  unfold detach_cap_flush.
  destruct (st !! cf) as [c|]; simpl; [|congruence].
  destruct (list_prev l cf) as [p|]; [|discriminate].
  destruct (Flush.wake c); [|discriminate].
  destruct (st !! p); simpl; [discriminate|congruence].
Qed.

Lemma detach_from_ci_caps_ok mdsc ci cf :
  caps_ok ci -> holds (fun r => caps_ok r.1.2) (__detach_cap_flush_from_ci mdsc ci cf).
Proof.
  intros Hok. unfold __detach_cap_flush_from_ci.
  destruct (detach_cap_flush _ _ _) as [[[st l] w]|f] eqn:E; simpl; [exact Hok|].
  apply detach_fault in E. by subst.
Qed.

Lemma detach_from_mdsc_fault mdsc cf f :
  __detach_cap_flush_from_mdsc mdsc cf = Oops f -> f = NullDeref.
Proof.
  unfold __detach_cap_flush_from_mdsc.
  destruct (detach_cap_flush _ _ _) as [[[st l] w]|f'] eqn:E; simpl; [discriminate|].
  intros [= <-]. by apply detach_fault in E.
Qed.

Lemma detach_all_fault l mdsc w f :
  detach_all_from_mdsc l mdsc w = Oops f -> f = NullDeref.
Proof.
  revert mdsc w. induction l as [|cf l IH]; intros mdsc w; simpl; [discriminate|].
  destruct (__detach_cap_flush_from_mdsc mdsc cf) as [[m' w']|f'] eqn:E; simpl.
  - apply IH.
  - intros [= <-]. by apply detach_from_mdsc_fault in E.
Qed.

Lemma ack_scan_caps_ok flush_tid l st :
  caps_ok (a_ci st) ->
  holds (fun st' => caps_ok (a_ci st')) (ack_scan flush_tid l st).
Proof.
  revert st. induction l as [|cf l IH]; intros st Hok; simpl; [exact Hok|].
  apply holds_deref. intros c _.
  destruct (Flush.is_capsnap c); [by apply IH|].
  case_decide.
  - apply holds_bind. eapply holds_mono; [|by apply detach_from_ci_caps_ok].
    intros [[m' ci'] w] Hok'. by apply IH.
  - case_decide; [exact Hok|]. by apply IH.
Qed.

Lemma flush_ack_caps_ok mdsc ci flush_tid :
  caps_ok ci ->
  holds (fun r => caps_ok r.1.2) (handle_cap_flush_ack mdsc ci flush_tid).
Proof.
  intros Hok. unfold handle_cap_flush_ack.
  apply holds_bind. eapply holds_mono; [|by apply (ack_scan_caps_ok _ _ (mk_ack mdsc ci 0 [] false))].
  intros st Hst. cbv zeta.
  apply holds_bind.
  assert (Hfin : forall m c (w d : bool), caps_ok c ->
            holds (fun r => caps_ok r.1.2)
              (Ok (free_cap_flushes (a_to_remove st) m,
                   (if d then iput c else c),
                   mk_ack_result (a_wake_ci st) w d))).
  { intros m c w [|] Hc; exact Hc. }
  destruct (_ && _); [by apply Hfin|].
  destruct (detach_all_from_mdsc _ _ _) as [[m' w']|f] eqn:E; simpl;
    [|apply detach_all_fault in E; by subst].
  case_decide; [|by apply Hfin].
  destruct (bool_decide (i_cap_flush_list _ = [])).
  - case_decide.
    + apply holds_bug_on; [discriminate|]. intros _.
      apply holds_bind. destruct (_ && _).
      * apply holds_bug_on; [discriminate|]. intros _. by apply Hfin.
      * by apply Hfin.
    + apply holds_bug_on; [discriminate|]. intros _. by apply Hfin.
  - case_decide.
    + apply holds_bug_on; [discriminate|]. intros _.
      apply holds_bind. destruct (_ && _).
      * apply holds_bug_on; [discriminate|]. intros _. by apply Hfin.
      * by apply Hfin.
    + apply holds_bug_on; [discriminate|]. intros _. by apply Hfin.
Qed.

Lemma flushsnap_ack_caps_ok mdsc ci flush_tid follows :
  caps_ok ci ->
  holds (fun r => caps_ok r.1.2)
        (handle_cap_flushsnap_ack mdsc ci flush_tid follows).
Proof.
  intros Hok. unfold handle_cap_flushsnap_ack, find_capsnap.
  apply holds_bind.
  assert (Hrest : forall capsnap : option ceph_cap_snap,
    holds (fun r => caps_ok r.1.2)
      match capsnap with
      | Some cs =>
          let cf := cs_cap_flush cs in
          let ci0 := set_i_cap_snaps
                       (filter (fun x => cs_cap_flush x ≠ cf) (i_cap_snaps ci)) ci in
          __detach_cap_flush_from_ci mdsc ci0 cf ≫= fun '(mdsc0, ci1, wake_ci) =>
          let '(mdsc1, ci2) :=
            if bool_decide (i_cap_flush_list ci1 = [])
            then (set_sessions (del_flushing_item (i_ino ci1) (sessions mdsc0)) mdsc0,
                  set_i_flushing_item false ci1)
            else (mdsc0, ci1) in
          __detach_cap_flush_from_mdsc mdsc1 cf ≫= fun '(mdsc2, wake_mdsc) =>
          let mdsc3 := set_flushes (delete cf (flushes mdsc2)) mdsc2 in
          Ok (mdsc3, iput ci2,
              (if wake_ci : bool then [WakeCapWq (i_ino ci2)] else []) ++
              (if wake_mdsc : bool then [WakeFlushingWq] else []))
      | None => Ok (mdsc, ci, [])
      end).
  { intros [cs|]; [|exact Hok]. cbv zeta.
    apply holds_bind.
    eapply holds_mono; [|apply detach_from_ci_caps_ok; exact Hok].
    intros [[m1 c1] w1] Hc1. simpl in Hc1.
    destruct (bool_decide _);
      (destruct (__detach_cap_flush_from_mdsc _ _) as [[m2 w2]|f] eqn:E; simpl;
       [exact Hc1 | apply detach_from_mdsc_fault in E; by subst]). }
  destruct (list_find _ _) as [[? cs]|]; [|apply (Hrest None)].
  apply holds_deref. intros c _.
  case_decide; [apply (Hrest None) | apply (Hrest (Some cs))].
Qed.

End with_consts.
End GrantFacts.

(** * The invariant across export, import and the dispatcher *)
Module HandlerFacts.
Import CapsFacts GrantFacts.

Section with_consts.
Context `{!KernelConsts}.

Lemma holds_remove_then {B} (Q : B -> Prop) mdsc ci mds qr
    (k : ceph_mds_client * ceph_inode_info * list action -> res B) :
  caps_ok ci ->
  (forall r, caps_ok r.1.2 -> holds Q (k r)) ->
  holds Q (__ceph_remove_cap mdsc ci mds qr ≫= k).
Proof.
  intros Hok Hk. apply holds_bind.
  eapply holds_mono; [|by apply remove_cap_caps_ok]. exact Hk.
Qed.

Lemma move_tail_flushing_fault ino smds ss f :
  move_tail_flushing ino smds ss = Oops f -> f = NullDeref.
Proof.
  unfold move_tail_flushing.
  destruct (_ !! smds); simpl; [discriminate|congruence].
Qed.

Lemma export_pass_caps_ok e mdsc ci mds ex_cap_id t_cap_id t_issue_seq t_mseq
    target tsession new_cap realm :
  caps_ok ci ->
  holds export_ok
    (export_pass e mdsc ci mds ex_cap_id t_cap_id t_issue_seq t_mseq target
       tsession new_cap realm).
Proof.
  intros Hok. unfold export_pass, __get_cap_for_mds.
  destruct (i_caps ci !! mds) as [cap|] eqn:Hcap; [|exact Hok].
  pose proof (caps_ok_lookup _ _ _ Hok Hcap) as Hc.
  case_decide; [exact Hok|].
  case_decide.
  { apply holds_remove_then; [exact Hok|]. intros [[m c] a] H'. exact H'. }
  destruct (i_caps ci !! target) as [tcap|] eqn:Htcap.
  - pose proof (caps_ok_lookup _ _ _ Hok Htcap) as Ht.
    apply holds_bind.
    assert (Hmerge : caps_ok (store_cap
              (Cap.set_implemented (Z.lor (Cap.implemented tcap) (Cap.issued cap))
                 (Cap.set_issued (Z.lor (Cap.issued tcap) (Cap.issued cap))
                    (Cap.set_issue_seq (wrap_u32 (t_issue_seq - 1))
                       (Cap.set_seq (wrap_u32 (t_issue_seq - 1))
                          (Cap.set_cap_id t_cap_id tcap))))) ci)).
    { apply caps_ok_store; [|exact Hok]. unfold cap_ok. simpl.
      by apply ok_merge. }
    destruct (_ && _); cbv zeta.
    + case_decide.
      * apply holds_change_auth. intros m.
        apply holds_remove_then; [exact Hmerge|]. intros [[? ?] ?] H'. exact H'.
      * apply holds_remove_then; [exact Hmerge|]. intros [[? ?] ?] H'. exact H'.
    + apply holds_remove_then; [exact Hok|]. intros [[? ?] ?] H'. exact H'.
  - destruct tsession; [|exact I]. cbv zeta.
    apply holds_bind.
    eapply holds_mono; [|by apply add_cap_caps_ok].
    intros [[m1 c1] nc] Hc1. simpl in Hc1.
    apply holds_bind.
    destruct (_ && _).
    + destruct (move_tail_flushing _ _ _) as [ss|f] eqn:E; simpl.
      * apply holds_remove_then; [exact Hc1|]. intros [[? ?] ?] H'. exact H'.
      * apply move_tail_flushing_fault in E. by subst.
    + apply holds_remove_then; [exact Hc1|]. intros [[? ?] ?] H'. exact H'.
Qed.

(** [handle_cap_export] keeps the invariant. *)
Lemma export_caps_ok e mdsc ci mds ex_cap_id ph open_target alloc_ok realm :
  caps_ok ci ->
  holds (fun r => caps_ok r.1.2)
    (handle_cap_export e mdsc ci mds ex_cap_id ph open_target alloc_ok realm).
Proof.
  intros Hok. unfold handle_cap_export.
  destruct (match ph with Some _ => _ | None => _ end) as [[[t_cap_id t_issue_seq] t_mseq] target].
  apply holds_bind.
  eapply holds_mono; [|by apply export_pass_caps_ok].
  intros r Hr. apply holds_bind.
  assert (Hfin : forall m c (a : list action) (nc : bool), caps_ok c ->
    holds (fun r => caps_ok r.1.2)
      ((if nc then Pool.ceph_put_cap (pool m) else Ok (pool m)) ≫= fun p =>
       Ok (set_pool p m, c, a))).
  { intros m c a [|] Hc; [|exact Hc]. apply holds_put_cap. intros p'. exact Hc. }
  destruct r as [m c a nc|]; [by apply Hfin|].
  assert (Hpass2 : forall m ts tg nc,
    (ts = false -> tg < 0) ->
    holds (fun r => caps_ok r.1.1.2)
      (export_pass e m ci mds ex_cap_id t_cap_id t_issue_seq t_mseq tg ts nc realm
       ≫= fun r => match r with
                   | ExportDone m c a nc => Ok (m, c, a, nc)
                   | ExportOpenTarget => Oops LoopBound
                   end)).
  { intros m ts tg nc Hts. apply holds_bind.
    eapply holds_mono; [|by apply export_pass_caps_ok].
    intros [m' c a nc'|] Hr'; [exact Hr'|]. simpl. discriminate. }
  eapply holds_mono with (P := fun r => caps_ok r.1.1.2).
  { intros [[[m c] a] nc] Hc. by apply Hfin. }
  destruct open_target as [ts|].
  - apply holds_bind. apply holds_get_cap. intros [[p ?] got]. simpl.
    apply Hpass2. discriminate.
  - simpl. apply (Hpass2 mdsc false (-1) false). lia.
Qed.

Lemma import_get_cap_fault allocs p f :
  import_get_cap allocs p = Oops f -> f ≠ IssuedNotImplemented.
Proof.
  revert p. induction allocs as [|a l IH]; intros p; [by intros [= <-]|].
  cbn [import_get_cap].
  destruct (Pool.ceph_get_cap p None a) as [[[p' ?] got]|f'] eqn:E; simpl.
  - destruct got; simpl; [intros E'; discriminate E'|apply IH].
  - intros [= <-]. eapply get_cap_fault, E.
Qed.

(** [handle_cap_import] keeps the invariant. *)
Lemma import_caps_ok e mdsc ci session im ph allocs realm :
  caps_ok ci ->
  holds (fun r => caps_ok r.1.1.2)
    (handle_cap_import e mdsc ci session im ph allocs realm).
Proof.
  intros Hok. unfold handle_cap_import. cbv zeta.
  destruct (match ph with Some _ => _ | None => _ end) as [[[pcid peer] piseq] pmseq].
  apply holds_bind.
  eapply holds_mono with (P := fun _ => True).
  2:{ apply holds_true. intros f.
      destruct (__get_cap_for_mds ci session); [intros E'; discriminate E'|].
      destruct (import_get_cap _ _) eqn:E; simpl; [intros E'; discriminate E'|].
      intros [= <-]. eapply import_get_cap_fault, E. }
  intros [m nc] _. apply holds_caps_issued. intros [? impl].
  apply holds_bind. eapply holds_mono; [|by apply add_cap_caps_ok].
  intros [[m1 c1] nc1] Hc1. simpl in Hc1.
  apply holds_bind.
  destruct (if decide (peer >= 0) then _ else _) as [ocap|]; [|exact Hc1].
  case_decide; [|exact Hc1].
  eapply holds_mono; [|by apply remove_cap_caps_ok].
  intros [[? ?] ?] H'. exact H'.
Qed.

(** One step through straight-line code that leaves the caps alone. *)
Ltac hstep :=
  match goal with
  | |- holds _ (Ok _) => simpl
  | |- holds _ (Oops _) => simpl; discriminate
  | |- holds _ (deref _ ≫= _) => apply holds_deref; intros ? ?
  | |- holds _ (session_of _ _ ≫= _) => unfold session_of
  | |- holds _ (BUG_ON _ _ ≫= _) => apply holds_bug_on; [discriminate|intros ?]
  | |- holds _ (__get_oldest_flush_tid _ ≫= _) => apply holds_oldest; intros ?
  | |- holds _ (Pool.ceph_put_cap _ ≫= _) => apply holds_put_cap; intros ?
  | |- holds _ (Pool.ceph_get_cap _ _ _ ≫= _) => apply holds_get_cap; intros [[? ?] ?]
  | |- holds _ (__ceph_caps_issued _ _ _ ≫= _) => apply holds_caps_issued; intros [? ?]
  | |- holds _ ((if ?c then _ else _) ≫= _) => destruct c
  | |- holds _ (if ?c then _ else _) => destruct c
  | |- holds _ (match ?c with Some _ => _ | None => _ end ≫= _) => destruct c
  | |- holds _ (match ?c with Some _ => _ | None => _ end) => destruct c
  | |- holds _ (Ok _ ≫= _) => simpl
  | |- holds _ (Oops _ ≫= _) => simpl; discriminate
  | |- holds _ ((_ ≫= _) ≫= _) => apply holds_bind
  | |- holds _ (let '(_, _) := ?c in _) => destruct c
  end.

Lemma mark_caps_flushing_caps_ok mdsc ci session wake :
  caps_ok ci ->
  holds (fun r => caps_ok r.1.1.2) (__mark_caps_flushing mdsc ci session wake).
Proof.
  intros Hok. unfold __mark_caps_flushing. cbv zeta.
  repeat hstep; exact Hok.
Qed.

Lemma flush_snaps_assign_caps_ok session l st :
  caps_ok (fs_ci st) ->
  holds (fun st' => caps_ok (fs_ci st')) (flush_snaps_assign session l st).
Proof.
  revert st. induction l as [|cs l IH]; intros st Hok; [exact Hok|].
  cbn [flush_snaps_assign]. cbv zeta.
  destruct (_ || _); [exact Hok|].
  do 2 hstep. case_decide; [by apply IH|].
  repeat first [ apply IH; exact Hok | hstep ].
Qed.

Lemma flush_snaps_caps_ok mdsc ci session :
  caps_ok ci ->
  holds (fun st' => caps_ok (fs_ci st')) (__ceph_flush_snaps mdsc ci session).
Proof.
  intros Hok. unfold __ceph_flush_snaps. apply holds_bind.
  eapply holds_mono; [|by apply (flush_snaps_assign_caps_ok _ _ (mk_snaps mdsc ci 0 1 0))].
  intros st Hst. cbv zeta. repeat hstep; exact Hst.
Qed.

Lemma check_one_fault e mdsc ci flags used want retain mds cap f :
  check_one e mdsc ci flags used want retain mds cap = Oops f ->
  f ≠ IssuedNotImplemented.
Proof.
  intros E.
  assert (Hh : holds (fun _ => True)
                 (check_one e mdsc ci flags used want retain mds cap)).
  { unfold check_one. cbv zeta.
    destruct (_ || _); [exact I|].
    apply holds_bind.
    eapply holds_mono with (P := fun _ => True); [|repeat hstep; exact I].
    intros cu _.
    destruct (_ || _); [exact I|].
    apply holds_bind.
    eapply holds_mono with (P := fun _ => True).
    { intros [|] _; exact I. }
    destruct (tst want _); [|exact I].
    destruct (tst want _); [exact I|].
    destruct (__cap_is_valid e mdsc cap) eqn:Ev; simpl; [exact I|].
    apply cap_is_valid_fault in Ev. by subst. }
  rewrite E in Hh. exact Hh.
Qed.

Lemma check_scan_fault e mdsc ci flags used want retain mds l wb f :
  check_scan e mdsc ci flags used want retain mds l wb = Oops f ->
  f ≠ IssuedNotImplemented.
Proof.
  revert wb. induction l as [|[k cap] l IH]; intros wb; [intros E; discriminate E|].
  cbn [check_scan].
  destruct (check_one e mdsc ci flags used want retain mds cap) as [[ack w]|f'] eqn:E;
    simpl.
  - destruct ack; [intros E'; discriminate E'|apply IH].
  - intros [= <-]. eapply check_one_fault, E.
Qed.

Lemma try_nonblocking_invalidate_caps ci pages_left :
  i_caps (try_nonblocking_invalidate ci pages_left).1 = i_caps ci.
Proof. unfold try_nonblocking_invalidate. cbv zeta. by destruct (_ && _). Qed.

Lemma check_caps_retry_caps_ok fuel e pages_left flags st :
  caps_ok (c_ci st) ->
  holds (fun st' => caps_ok (c_ci st'))
        (check_caps_retry fuel e pages_left flags st).
Proof.
  revert st. induction fuel as [|fuel IH]; intros st Hok; [simpl; discriminate|].
  cbn [check_caps_retry]. cbv zeta.
  apply holds_caps_issued. intros [issued implemented].
  match goal with
  | |- holds _ (let '(_, _) := ?c in _) => destruct c as [want retain]
  end.
  match goal with
  | |- holds _ (if ?c then _ else _) => destruct c
  end.
  - pose proof (try_nonblocking_invalidate_caps (c_ci st) pages_left) as Hinv.
    destruct (try_nonblocking_invalidate _ _) as [ci1 ok]. simpl in Hinv.
    destruct ok; apply IH; simpl; eapply caps_ok_same; eauto.
  - destruct (check_scan _ _ _ _ _ _ _ _ _ _) as [[found wb]|f] eqn:Es; simpl;
      [|eapply check_scan_fault, Es].
    destruct found as [cap|]; [|exact Hok].
    match goal with
    | |- holds _ (if ?c then _ else _) => destruct c
    end.
    + apply holds_bind.
      eapply holds_mono with (P := fun r => caps_ok r.1).
      2:{ destruct (tst _ CEPH_I_KICK_FLUSH); [|exact Hok].
          by apply kick_flushing_caps_ok. }
      intros [ci1 acts1] Hci1. simpl in Hci1.
      apply holds_bind.
      eapply holds_mono with (P := fun r => caps_ok r.2).
      { intros [m2 ci2] Hci2. by apply IH. }
      destruct (tst _ CEPH_I_FLUSH_SNAPS); [|exact Hci1].
      apply holds_bind.
      eapply holds_mono; [|by apply flush_snaps_caps_ok]. auto.
    + apply holds_bind.
      eapply holds_mono with (P := fun _ => True); [|repeat hstep; exact I].
      intros cap_used _.
      apply holds_bind.
      eapply holds_mono with (P := fun r => caps_ok r.1.1.1.2).
      2:{ match goal with
          | |- holds _ (if ?c then _ else _) => destruct c
          end.
          - cbv zeta. apply holds_bind.
            eapply holds_mono; [|by apply mark_caps_flushing_caps_ok].
            intros [[[? ?] ?] ?] H'. exact H'.
          - apply holds_oldest. intros t. exact Hok. }
      intros [[[[m2 ci2] fl] ftid] old] Hci2. simpl in Hci2.
      apply holds_prep_cap; [exact Hci2|]. intros [ci3 ?] Hci3.
      apply holds_deref. intros cap' _. by apply IH.
Qed.

(** [ceph_check_caps] keeps the invariant. *)
Lemma check_caps_caps_ok e pages_left mdsc ci flags :
  caps_ok ci ->
  holds (fun r => caps_ok r.1.2) (ceph_check_caps e pages_left mdsc ci flags).
Proof.
  intros Hok. unfold ceph_check_caps.
  destruct (tst _ CEPH_I_ASYNC_CREATE); [exact Hok|]. cbv zeta.
  apply holds_bind.
  eapply holds_mono; [|by apply check_caps_retry_caps_ok]. auto.
Qed.

(** [handle_cap_grant], with the reconciliation it ends in, keeps the
    invariant. *)
Lemma grant_caps_ok e mdsc ci session grant extra_issued pages_left
    layout_changed fill :
  caps_ok ci ->
  holds (fun r => caps_ok r.1.2)
        (handle_cap_grant e mdsc ci session grant extra_issued pages_left
           layout_changed fill).
Proof.
  intros Hok. unfold handle_cap_grant. apply holds_bind.
  eapply holds_mono;
    [|apply grant_locked_caps_ok with (fill := fill); exact Hok].
  intros [[m c] r] Hc. simpl in Hc. apply holds_bind.
  destruct (decide (gr_check_caps r = 1)).
  { eapply holds_mono; [|by apply check_caps_caps_ok].
    intros [[? ?] ?] H'. exact H'. }
  destruct (decide (gr_check_caps r = 2)); [|exact Hc].
  eapply holds_mono; [|by apply check_caps_caps_ok].
  intros [[? ?] ?] H'. exact H'.
Qed.

(** [ceph_encode_inode_release] keeps the invariant. *)
Lemma inode_release_caps_ok e mdsc ci mds drop unless force :
  caps_ok ci ->
  holds (fun r => caps_ok r.1)
        (ceph_encode_inode_release e mdsc ci mds drop unless force).
Proof.
  intros Hok. unfold ceph_encode_inode_release, __get_cap_for_mds. cbv zeta.
  destruct (i_caps ci !! mds) as [cap|] eqn:Hcap; [|exact Hok].
  pose proof (caps_ok_lookup _ _ _ Hok Hcap) as Hc.
  destruct (__cap_is_valid e mdsc cap) as [valid|f] eqn:Ev; simpl;
    [|apply cap_is_valid_fault in Ev; by subst].
  destruct valid; simpl; [|exact Hok].
  match goal with
  | |- holds _ (if _ || tst _ ?x then _ else _) => generalize x
  end.
  intros d.
  destruct (_ || _); [|exact Hok].
  destruct (tst _ d); [|exact Hok].
  assert (Hs : caps_ok (store_cap
            (Cap.set_mds_wanted (__ceph_caps_wanted e ci)
               (Cap.set_implemented (Z.land (Cap.implemented cap) (Z.lnot d))
                  (Cap.set_issued (Z.land (Cap.issued cap) (Z.lnot d)) cap))) ci)).
  { apply caps_ok_store; [|exact Hok]. unfold cap_ok. simpl. by apply ok_drop. }
  destruct (_ && _); exact Hs.
Qed.

Lemma flush_cap_releases_holds {B} (Q : B -> Prop) mdsc session h rel a
    (k : ceph_mds_client * list action -> res B) :
  (forall r, holds Q (k r)) ->
  holds Q (flush_cap_releases mdsc session h rel a ≫= k).
Proof.
  intros Hk. unfold flush_cap_releases.
  apply holds_bind. apply holds_bind.
  destruct rel; [|apply Hk].
  apply holds_get_cap. intros [[p ?] got]. destruct got; simpl; [apply Hk|discriminate].
Qed.

(** [ceph_handle_caps] keeps the invariant on every inode of the cache. *)
Lemma handle_caps_inodes_ok e o mdsc inodes session msg :
  inodes_ok inodes ->
  holds (fun r => inodes_ok r.1.2) (ceph_handle_caps e o mdsc inodes session msg).
Proof.
  intros Hall. unfold ceph_handle_caps.
  destruct (negb _); [exact Hall|].
  destruct (front msg) as [[h l]|]; [|exact Hall].
  destruct (decode_caps_tail msg h l) as [peer|]; [|exact Hall].
  cbv zeta.
  destruct (inodes !! h_ino h) as [ci|] eqn:Hci.
  { assert (Hok : caps_ok (ihold ci)) by exact (Hall _ _ Hci).
    apply holds_bind.
    eapply holds_mono with (P := fun r => caps_ok r.1.2).
    { intros [[m c] a] Hc. simpl in *.
      apply map_Forall_insert_2; [exact Hc|exact Hall]. }
    assert (Hgrant : forall m c x, caps_ok c ->
      holds (fun r => caps_ok r.1.2)
        (handle_cap_grant e m c session h x (o_pages_left o)
           (o_layout_changed o) (o_fill_file_size o))).
    { intros m c x Hc. by apply grant_caps_ok. }
    assert (Hother : forall rel : bool,
      holds (fun r => caps_ok r.1.2)
        (match __get_cap_for_mds (ihold ci) session with
         | None =>
             flush_cap_releases mdsc session h rel
               (default false (head (o_allocs o))) ≫= fun '(m, a) =>
             Ok (m, ihold ci, a)
         | Some _ => Ok (mdsc, ihold ci, [])
         end)).
    { intros rel. destruct (__get_cap_for_mds _ _); [exact Hok|].
      apply flush_cap_releases_holds. intros [? ?]. exact Hok. }
    destruct (h_op h) eqn:Hop.
    - (* grant *)
      destruct (__get_cap_for_mds _ _).
      + apply holds_caps_issued. intros [? impl]. cbv zeta.
        by apply Hgrant.
      + apply flush_cap_releases_holds. intros [? ?]. exact Hok.
    - (* revoke *)
      destruct (__get_cap_for_mds _ _).
      + apply holds_caps_issued. intros [? impl]. cbv zeta.
        by apply Hgrant.
      + apply flush_cap_releases_holds. intros [? ?]. exact Hok.
    - (* trunc *)
      destruct (__get_cap_for_mds _ _).
      + unfold handle_cap_trunc. apply holds_bind.
        apply holds_caps_issued. intros [? ?]. exact Hok.
      + apply flush_cap_releases_holds. intros [? ?]. exact Hok.
    - (* export *)
      by apply export_caps_ok.
    - (* import *)
      destruct (_ && _); [exact Hok|].
      apply holds_bind.
      eapply holds_mono; [|by apply import_caps_ok].
      intros [[[m c] a] old] Hc. simpl in Hc. apply holds_bind.
      eapply holds_mono; [|by apply Hgrant].
      intros [[? ?] ?] H'. exact H'.
    - (* flush ack *)
      destruct (__get_cap_for_mds _ _).
      + apply holds_bind. eapply holds_mono; [|by apply flush_ack_caps_ok].
        intros [[? ?] ?] H'. exact H'.
      + apply flush_cap_releases_holds. intros [? ?]. exact Hok.
    - (* flushsnap ack *)
      by apply flushsnap_ack_caps_ok.
    - apply Hother. }
  apply flush_cap_releases_holds. intros [? ?]. exact Hall.
Qed.

Lemma apply_mutation_ok e m w :
  all_caps_ok w -> holds all_caps_ok (apply_mutation e m w).
Proof.
  intros Hw. destruct m; cbn [apply_mutation].
  - apply holds_deref. intros ci Hci. apply holds_bind.
    eapply holds_mono; [|apply add_cap_caps_ok; exact (Hw _ _ Hci)].
    intros [[m c] a] Hc. simpl in *.
    apply map_Forall_insert_2; [exact Hc|exact Hw].
  - apply holds_bind.
    eapply holds_mono; [|apply handle_caps_inodes_ok; exact Hw].
    intros [[m i] a] Hi. exact Hi.
  - apply holds_deref. intros ci Hci. apply holds_bind.
    eapply holds_mono; [|apply check_caps_caps_ok; exact (Hw _ _ Hci)].
    intros [[m c] a] Hc. simpl in *.
    apply map_Forall_insert_2; [exact Hc|exact Hw].
  - apply holds_deref. intros ci Hci. apply holds_bind.
    eapply holds_mono; [|apply inode_release_caps_ok; exact (Hw _ _ Hci)].
    intros [c a] Hc. simpl in *.
    apply map_Forall_insert_2; [exact Hc|exact Hw].
Qed.

End with_consts.
End HandlerFacts.

(** * The issued/implemented invariant of the whole client *)
Module Invariant.
Import CapsFacts GrantFacts HandlerFacts.

Lemma cap_ok_bits c :
  cap_ok c <-> bits_subset (Cap.issued c) (Cap.implemented c).
Proof.
  unfold cap_ok, bits_subset. split.
  - intros H n Hn.
    destruct (Z.neg_nonneg_cases n) as [Hneg|Hpos].
    { rewrite Z.testbit_neg_r in Hn by exact Hneg. discriminate Hn. }
    apply (f_equal (fun z => Z.testbit z n)) in H.
    rewrite Z.land_spec, Z.lnot_spec, Z.bits_0, Hn in H by exact Hpos.
    by destruct (Z.testbit (Cap.implemented c) n).
  - intros H. apply Z.bits_inj'. intros n Hn.
    rewrite Z.land_spec, Z.lnot_spec, Z.bits_0 by exact Hn.
    specialize (H n).
    destruct (Z.testbit (Cap.issued c) n); [|reflexivity].
    by rewrite H.
Qed.

Lemma all_caps_ok_bits w : all_caps_ok w <-> issued_within_implemented w.
Proof.
  unfold all_caps_ok, issued_within_implemented, caps_ok. split.
  - intros H ino ci mds cap Hci Hcap. apply cap_ok_bits.
    exact (H _ _ Hci _ _ Hcap).
  - intros H ino ci Hci mds cap Hcap. apply cap_ok_bits. eauto.
Qed.

Section with_consts.
Context `{!KernelConsts}.

Lemma apply_mutations_ok e ms w :
  all_caps_ok w -> holds all_caps_ok (apply_mutations e ms w).
Proof.
  revert w. induction ms as [|m ms IH]; intros w Hw; [exact Hw|].
  cbn [apply_mutations]. apply holds_bind.
  eapply holds_mono; [|by apply apply_mutation_ok]. exact IH.
Qed.

(** C1.  Start from a client in which every cap of every cached inode
    has its issued bits among its implemented bits, and run any sequence
    of the public mutations of capability state: [ceph_add_cap],
    [ceph_handle_caps] (grant, revoke, export, import, the acks) with
    the [ceph_check_caps] calls it asks for, [ceph_check_caps], and
    [ceph_encode_inode_release].  If the run completes, every cap of
    every inode again has [issued] within [implemented]; and if it
    stops, it does not stop at [BUG_ON(cap->issued & ~cap->implemented)].
    Since the sequence is arbitrary, this is the state after each
    mutation. *)
Theorem issued_subset_implemented e (ms : list mutation) (w : world) :
  issued_within_implemented w ->
  holds issued_within_implemented (apply_mutations e ms w).
Proof.
  intros Hw. apply all_caps_ok_bits in Hw.
  eapply holds_mono; [|by apply apply_mutations_ok].
  intros w'. apply all_caps_ok_bits.
Qed.

End with_consts.

Lemma issued_subset_implemented_witness :
  exists w',
    apply_mutations (H := linux_consts) Sample.env0 run1_mutations run1_world
      = Ok w' /\
    issued_within_implemented w'.
Proof.
  assert (H0 : issued_within_implemented run1_world).
  { apply all_caps_ok_bits. unfold all_caps_ok, run1_world. simpl.
    apply map_Forall_insert_2; [|apply map_Forall_empty].
    unfold caps_ok, Sample.inode1. simpl.
    apply map_Forall_insert_2; [|apply map_Forall_empty].
    vm_compute. reflexivity. }
  pose proof (issued_subset_implemented (H := linux_consts) Sample.env0
                run1_mutations run1_world H0) as Hrun.
  destruct (apply_mutations Sample.env0 run1_mutations run1_world)
    as [w'|f] eqn:E.
  - exists w'. split; [reflexivity|exact Hrun].
  - exfalso. vm_compute in E. discriminate E.
Defined.

End Invariant.

(** * The flush tracker *)
Module FlushFacts.

Lemma filter_all (P : handle -> Prop) `{!forall x, Decision (P x)}
    (l : list handle) :
  (forall x, x ∈ l -> P x) -> filter P l = l.
Proof.
  induction l as [|x l IH]; intros Hall; [done|].
  rewrite filter_cons_True by (apply Hall; left).
  f_equal. apply IH. intros y Hy. apply Hall. by right.
Qed.

Lemma filter_ext_in (P Q : handle -> Prop)
    `{!forall x, Decision (P x), !forall x, Decision (Q x)} (l : list handle) :
  (forall x, x ∈ l -> (P x <-> Q x)) -> filter P l = filter Q l.
Proof.
  induction l as [|x l IH]; intros Hall; [done|].
  assert (IH' : filter P l = filter Q l).
  { apply IH. intros y Hy. apply Hall. by right. }
  assert (Hx : P x <-> Q x) by (apply Hall; left).
  destruct (decide (P x)) as [Hp|Hp].
  - rewrite !filter_cons_True by tauto. by rewrite IH'.
  - rewrite !filter_cons_False by tauto. done.
Qed.

Lemma wakes_added_refl st : wakes_added st st.
Proof. intros cf. destruct (st !! cf); auto. Qed.

Lemma wakes_added_trans st1 st2 st3 :
  wakes_added st1 st2 -> wakes_added st2 st3 -> wakes_added st1 st3.
Proof.
  intros H12 H23 cf. specialize (H12 cf). specialize (H23 cf).
  destruct (st1 !! cf), (st2 !! cf), (st3 !! cf); try done.
  destruct H12 as (?&?&?&?), H23 as (?&?&?&?). repeat split; try congruence. auto.
Qed.

Lemma wakes_added_set st p pc :
  st !! p = Some pc -> wakes_added st (<[p := Flush.set_wake true pc]> st).
Proof.
  intros Hp cf. destruct (decide (p = cf)) as [->|Hne].
  - rewrite lookup_insert_eq, Hp. simpl. auto.
  - rewrite lookup_insert_ne by exact Hne. destruct (st !! cf); auto.
Qed.

Lemma wakes_added_wake_set st st' cf :
  wakes_added st st' -> wake_set st cf -> wake_set st' cf.
Proof.
  intros H (c & Hc & Hw). specialize (H cf). rewrite Hc in H.
  destruct (st' !! cf) as [c'|] eqn:Hc'; [|done]. exists c'. split; [done|].
  by apply H.
Qed.

Lemma wakes_added_acked st st' T cf :
  wakes_added st st' -> ackedb st' T cf = ackedb st T cf.
Proof.
  intros H. specialize (H cf). unfold ackedb.
  destruct (st !! cf), (st' !! cf); try done.
  destruct H as (-> & _ & -> & _). reflexivity.
Qed.

Lemma wakes_added_tid st st' cf :
  wakes_added st st' -> tid_of st' cf = tid_of st cf.
Proof.
  intros H. specialize (H cf). unfold tid_of.
  destruct (st !! cf), (st' !! cf); try done. simpl. by destruct H as (-> & _).
Qed.

(** What one detach call does. *)
Lemma detach_cap_flush_spec st l cf st' l' w :
  detach_cap_flush st l cf = Ok (st', l', w) ->
  l' = list_del cf l ∧ wakes_added st st' ∧
  exists c, st !! cf = Some c ∧
    (Flush.wake c = true ->
     match list_prev l cf with
     | Some p => wake_set st' p
     | None => w = true
     end).
Proof.
  unfold detach_cap_flush. destruct (st !! cf) as [c|] eqn:Hc; simpl; [|done].
  destruct (list_prev l cf) as [p|].
  - destruct (Flush.wake c) eqn:Hw.
    + destruct (st !! p) as [pc|] eqn:Hp; simpl; [|done].
      intros [= <- <- <-]. split; [done|]. split; [by apply wakes_added_set|].
      exists c. split; [done|]. intros _. exists (Flush.set_wake true pc).
      by rewrite lookup_insert_eq.
    + simpl. intros [= <- <- <-]. split; [done|].
      split; [apply wakes_added_refl|]. exists c. split; [done|]. congruence.
  - simpl. intros [= <- <- <-]. split; [done|].
    split; [apply wakes_added_refl|]. exists c. split; done.
Qed.

Lemma last_cons_default (x : handle) la :
  last (x :: la) = Some (default x (last la)).
Proof.
  revert x. induction la as [|y la IH]; intros x; [done|].
  rewrite last_cons_cons, IH. reflexivity.
Qed.

Lemma prev_from_decomp p la cf lb :
  cf ∉ la -> prev_from p (la ++ cf :: lb) cf = default p (last la).
Proof.
  revert p. induction la as [|x la IH]; intros p Hnin; simpl.
  - by rewrite decide_True.
  - apply not_elem_of_cons in Hnin as [Hne Hnin].
    rewrite decide_False by congruence. rewrite IH by done.
    by rewrite last_cons_default.
Qed.

Lemma list_prev_decomp la cf lb :
  cf ∉ la -> list_prev (la ++ cf :: lb) cf = last la.
Proof.
  destruct la as [|x la]; intros Hnin; simpl.
  - by rewrite decide_True.
  - apply not_elem_of_cons in Hnin as [Hne Hnin].
    rewrite decide_False by congruence. rewrite prev_from_decomp by done.
    by rewrite last_cons_default.
Qed.

Lemma survivor_before_decomp after la cf lb o :
  cf ∉ la -> (forall x, x ∈ la -> x ∈ after) ->
  survivor_before after (la ++ cf :: lb) cf o =
  match last la with Some p => Some p | None => o end.
Proof.
  revert o. induction la as [|x la IH]; intros o Hnin Hin; simpl.
  - by rewrite decide_True.
  - apply not_elem_of_cons in Hnin as [Hne Hnin].
    rewrite decide_False by congruence.
    rewrite bool_decide_eq_true_2 by (apply Hin; left).
    rewrite IH; [|done|intros y Hy; apply Hin; by right].
    rewrite last_cons_default. by destruct (last la).
Qed.

Lemma survivor_before_del after before x cf o :
  x ∉ after -> x ≠ cf ->
  survivor_before after (list_del x before) cf o =
  survivor_before after before cf o.
Proof.
  intros Hx Hne. unfold list_del. revert o.
  induction before as [|y l IH]; intros o; [done|].
  rewrite filter_cons. destruct (decide (y ≠ x)) as [Hy|Hy].
  - simpl. destruct (decide (y = cf)); [done|]. apply IH.
  - apply dec_stable in Hy. subst y. simpl.
    rewrite decide_False by done.
    rewrite bool_decide_eq_false_2 by done. apply IH.
Qed.

Lemma survivor_before_in after before cf p :
  survivor_before after before cf None = Some p -> p ∈ after.
Proof.
  assert (H : forall o, (forall q, o = Some q -> q ∈ after) ->
                        survivor_before after before cf o = Some p -> p ∈ after).
  { induction before as [|x l IH]; intros o Ho; simpl; [apply Ho|].
    destruct (decide (x = cf)); [apply Ho|].
    apply IH. intros q. case_bool_decide; [|apply Ho]. by intros [= <-]. }
  apply H. done.
Qed.

Lemma list_del_decomp la cf lb :
  cf ∉ la -> cf ∉ lb -> list_del cf (la ++ cf :: lb) = la ++ lb.
Proof.
  intros Ha Hb. unfold list_del.
  rewrite filter_app, filter_cons, decide_False by (intros H; by apply H).
  f_equal; apply filter_all; intros y Hy ->; done.
Qed.

(** A run of detach calls over a sub-list [rm] of the list, in the order
    of the list. *)
Lemma detach_each_spec rm : forall st l w st' l' w',
  NoDup l -> sublist rm l ->
  detach_each rm st l w = Ok (st', l', w') ->
  l' = filter (fun x => x ∉ rm) l ∧ wakes_added st st' ∧
  (w = true -> w' = true) ∧
  forall cf, cf ∈ rm -> wake_set st cf -> wake_handed_back st' l l' cf w'.
Proof.
  induction rm as [|cf rm IH]; intros st l w st' l' w' Hnd Hsub.
  - simpl. intros [= <- <- <-]. repeat split.
    + symmetry. apply filter_all. intros x _. apply not_elem_of_nil.
    + apply wakes_added_refl.
    + done.
    + intros cf Hcf. by apply elem_of_nil in Hcf.
  - apply sublist_cons_l in Hsub as (la & lb & -> & Hsub).
    apply NoDup_app in Hnd as (Hla & Hdisj & Hcons).
    apply NoDup_cons in Hcons as [Hcf_lb Hlb].
    assert (Hcf_la : cf ∉ la) by (intros Hin; apply (Hdisj _ Hin); left).
    assert (Hrm_lb : forall x, x ∈ rm -> x ∈ lb).
    { intros x Hx. eapply elem_of_sublist; eauto. }
    assert (Hla_rm : forall x, x ∈ la -> x ∉ rm).
    { intros x Hx Hr. apply (Hdisj _ Hx). right. by apply Hrm_lb. }
    cbn [detach_each].
    destruct (detach_cap_flush st (la ++ cf :: lb) cf) as [[[st1 l1] w1]|f] eqn:Ed;
      simpl; [|done].
    apply detach_cap_flush_spec in Ed as (Hl1 & Hadd1 & c & Hc & Hwake).
    rewrite list_del_decomp in Hl1 by done. subst l1.
    rewrite list_prev_decomp in Hwake by done.
    intros Erest.
    apply IH in Erest as (Hl' & Hadd2 & Hw & Hback).
    2:{ apply NoDup_app. split; [done|]. split; [|done].
        intros x Hx Hx'. apply (Hdisj _ Hx). by right. }
    2:{ by apply sublist_inserts_l. }
    assert (Hfinal : l' = filter (fun x => x ∉ cf :: rm) (la ++ cf :: lb)).
    { rewrite Hl', !filter_app, filter_cons_False by (intros Hn; apply Hn; left).
      f_equal; apply filter_ext_in; intros x Hx; rewrite not_elem_of_cons;
        split; [|tauto| |tauto]; intros Hn; (split; [|done]); intros ->; done. }
    assert (Hcf_l' : cf ∉ l').
    { rewrite Hl'. intros [_ Hin]%list_elem_of_filter.
      apply elem_of_app in Hin as [?|?]; done. }
    repeat split.
    + exact Hfinal.
    + by eapply wakes_added_trans.
    + intros ->. by apply Hw.
    + intros cf0 Hcf0 Hset.
      apply elem_of_cons in Hcf0 as [->|Hcf0].
      * unfold wake_handed_back.
        rewrite survivor_before_decomp; [|done|].
        2:{ intros x Hx. rewrite Hl'. apply list_elem_of_filter.
            split; [by apply Hla_rm|]. apply elem_of_app. by left. }
        destruct Hset as (c0 & Hc0 & Hw0). rewrite Hc in Hc0.
        injection Hc0 as <-. specialize (Hwake Hw0).
        destruct (last la) as [p|].
        -- by eapply wakes_added_wake_set.
        -- apply Hw. subst w1. by destruct w.
      * assert (Hne : cf ≠ cf0) by (intros ->; by apply Hcf_lb, Hrm_lb).
        specialize (Hback cf0 Hcf0 (wakes_added_wake_set _ _ _ Hadd1 Hset)).
        unfold wake_handed_back in *.
        rewrite <- (list_del_decomp la cf lb) in Hback by done.
        by rewrite survivor_before_del in Hback.
Qed.

Lemma wake_handed_back_mono st1 st2 before after cf w :
  (forall p, p ∈ after -> wake_set st1 p -> wake_set st2 p) ->
  wake_handed_back st1 before after cf w ->
  wake_handed_back st2 before after cf w.
Proof.
  unfold wake_handed_back.
  destruct (survivor_before after before cf None) as [p|] eqn:E; [|done].
  intros H. apply H. by eapply survivor_before_in.
Qed.

Lemma sorted_NoDup st (l : list handle) :
  StronglySorted (fun a b => tid_of st a < tid_of st b) l -> NoDup l.
Proof.
  induction 1 as [|x l Hs IH Hall]; constructor; [|done].
  intros Hin. rewrite Forall_forall in Hall. specialize (Hall _ Hin). lia.
Qed.

Lemma lookup_foldr_delete (st : gmap nat Flush.t) (rm : list handle) p :
  p ∉ rm -> foldr (fun cf st => delete cf st) st rm !! p = st !! p.
Proof.
  induction rm as [|x rm IH]; intros Hp; [done|]. simpl.
  apply not_elem_of_cons in Hp as [Hne Hp].
  rewrite lookup_delete_ne by done. by apply IH.
Qed.

Lemma list_eq_nil_filter_none (P : handle -> Prop) `{!forall x, Decision (P x)}
    (l : list handle) :
  (forall x, x ∈ l -> P x -> False) -> filter P l = [].
Proof.
  induction l as [|x l IH]; intros Hall; [done|].
  rewrite filter_cons_False by (intros Hp; eapply Hall; [left|done]).
  apply IH. intros y Hy. apply Hall. by right.
Qed.

Lemma set_flushes_twice a b m : set_flushes a (set_flushes b m) = set_flushes a m.
Proof. by destruct m. Qed.

Lemma set_flush_list_twice a b ci :
  set_i_cap_flush_list a (set_i_cap_flush_list b ci) = set_i_cap_flush_list a ci.
Proof. by destruct ci. Qed.

Lemma set_flushes_same m : set_flushes (flushes m) m = m.
Proof. by destruct m. Qed.

Lemma set_flush_list_same ci : set_i_cap_flush_list (i_cap_flush_list ci) ci = ci.
Proof. by destruct ci. Qed.

(** The scan of [handle_cap_flush_ack] over a tid-ordered list is a run
    of detach calls over the records that the ack answers. *)
Lemma ack_scan_spec S0 T l : forall st st',
  StronglySorted (fun a b => tid_of S0 a < tid_of S0 b) l ->
  wakes_added S0 (flushes (a_mdsc st)) ->
  ack_scan T l st = Ok st' ->
  detach_each (filter (fun cf => ackedb S0 T cf = true) l)
    (flushes (a_mdsc st)) (i_cap_flush_list (a_ci st)) (a_wake_ci st)
    = Ok (flushes (a_mdsc st'), i_cap_flush_list (a_ci st'), a_wake_ci st') ∧
  a_to_remove st' =
    a_to_remove st ++ filter (fun cf => ackedb S0 T cf = true) l ∧
  a_mdsc st' = set_flushes (flushes (a_mdsc st')) (a_mdsc st) ∧
  a_ci st' = set_i_cap_flush_list (i_cap_flush_list (a_ci st')) (a_ci st).
Proof.
  induction l as [|cf l IH]; intros st st' Hsorted Hadd.
  - simpl. intros [= <-]. rewrite app_nil_r, set_flushes_same, set_flush_list_same.
    done.
  - apply StronglySorted_inv in Hsorted as [Hsorted Hhead].
    cbn [ack_scan].
    destruct (flushes (a_mdsc st) !! cf) as [c|] eqn:Hc; simpl; [|done].
    assert (Hacked : ackedb S0 T cf =
                     negb (Flush.is_capsnap c) && bool_decide (Flush.tid c <= T)).
    { rewrite <- (wakes_added_acked _ _ T cf Hadd). unfold ackedb. by rewrite Hc. }
    assert (Htid : tid_of S0 cf = Flush.tid c).
    { rewrite <- (wakes_added_tid _ _ cf Hadd). unfold tid_of. by rewrite Hc. }
    destruct (Flush.is_capsnap c) eqn:Hsnap.
    { intros Hrest. apply IH in Hrest; [|done|done]. simpl in Hrest.
      rewrite filter_cons_False by (rewrite Hacked; done). exact Hrest. }
    match goal with
    | |- (if ?d then _ else _) = _ -> _ => destruct d as [Hle|Hle]
    end.
    { destruct (__detach_cap_flush_from_ci _ _ _) as [[[m1 ci1] w1]|f] eqn:Ed;
        simpl; [|done].
      unfold __detach_cap_flush_from_ci in Ed.
      destruct (detach_cap_flush _ _ _) as [[[st1 l1] w1']|f] eqn:Ed'; simpl in Ed;
        [|done].
      injection Ed as <- <- <-.
      intros Hrest. apply IH in Hrest; [|done|]; simpl in Hrest.
      2:{ simpl. eapply wakes_added_trans; [exact Hadd|].
          by apply detach_cap_flush_spec in Ed' as (_ & ? & _). }
      rewrite filter_cons_True
        by (rewrite Hacked; apply andb_true_intro; split;
            [reflexivity|by apply bool_decide_eq_true_2]).
      cbn [detach_each]. rewrite Ed'. simpl.
      destruct Hrest as (Hrun & Hrm & Hm & Hci).
      rewrite set_flushes_twice in Hm. rewrite set_flush_list_twice in Hci.
      rewrite <- app_assoc in Hrm. done. }
    assert (Hnot : ackedb S0 T cf = false).
    { rewrite Hacked. apply andb_false_iff. right.
      by apply bool_decide_eq_false_2. }
    rewrite filter_cons_False by (rewrite Hnot; done).
    match goal with
    | |- (if ?d then _ else _) = _ -> _ => destruct d as [Hclean|Hclean]
    end.
    { intros [= <-]. simpl.
      assert (Hnone : filter (fun cf => ackedb S0 T cf = true) l = []).
      { apply list_eq_nil_filter_none. intros x Hx Hax.
        rewrite Forall_forall in Hhead. specialize (Hhead _ Hx).
        unfold ackedb in Hax. unfold tid_of in Hhead at 2.
        destruct (S0 !! x) as [cx|]; [|done]. simpl in Hhead.
        apply andb_true_iff in Hax as [_ Hax]. apply bool_decide_eq_true in Hax.
        lia. }
      rewrite Hnone, app_nil_r, set_flushes_same, set_flush_list_same. done. }
    intros Hrest. apply IH in Hrest; [|done|done]. exact Hrest.
Qed.

Lemma detach_all_is_each rm : forall m w m2 w2,
  detach_all_from_mdsc rm m w = Ok (m2, w2) ->
  detach_each rm (flushes m) (cap_flush_list m) w
    = Ok (flushes m2, cap_flush_list m2, w2).
Proof.
  induction rm as [|cf rm IH]; intros m w m2 w2.
  - simpl. by intros [= <- <-].
  - cbn [detach_all_from_mdsc detach_each]. unfold __detach_cap_flush_from_mdsc.
    destruct (detach_cap_flush _ _ _) as [[[st1 l1] w1]|f]; simpl; [|done].
    intros Hrest. apply IH in Hrest. destruct m. exact Hrest.
Qed.

(** What a completed [handle_cap_flush_ack] did to the two lists and to
    the store of records. *)
Lemma flush_ack_inv mdsc ci T mdsc' ci' r :
  handle_cap_flush_ack mdsc ci T = Ok (mdsc', ci', r) ->
  exists st1 m2 w2,
    ack_scan T (i_cap_flush_list ci) (mk_ack mdsc ci 0 [] false) = Ok st1 ∧
    detach_all_from_mdsc (a_to_remove st1) (a_mdsc st1) false = Ok (m2, w2) ∧
    flushes mdsc' = foldr (fun cf st => delete cf st) (flushes m2) (a_to_remove st1) ∧
    cap_flush_list mdsc' = cap_flush_list m2 ∧
    i_cap_flush_list ci' = i_cap_flush_list (a_ci st1) ∧
    ar_wake_ci r = a_wake_ci st1 ∧ ar_wake_mdsc r = w2.
Proof.
  unfold handle_cap_flush_ack.
  destruct (ack_scan _ _ _) as [st1|f] eqn:Escan; simpl; [|done].
  destruct (bool_decide (a_to_remove st1 = []) && bool_decide (a_cleaned st1 = 0))
    eqn:Eempty; simpl.
  - apply andb_true_iff in Eempty as [Eempty _].
    apply bool_decide_eq_true in Eempty.
    intros [= <- <- <-]. exists st1, (a_mdsc st1), false.
    rewrite Eempty. simpl. done.
  - destruct (detach_all_from_mdsc _ _ _) as [[m2 w2]|f] eqn:Eall; simpl; [|done].
    intros H. exists st1, m2, w2.
    repeat match type of H with
           | context [BUG_ON ?c _] => destruct c; simpl in H
           | context [if ?c then _ else _] => destruct c; simpl in H
           end; simplify_eq/=; done.
Qed.

(** C3, amended.  A FLUSH_ACK of tid [T] for an inode whose flush list is
    in tid order and is a sub-list of the global list: when the handler
    completes, the records that left the per-inode list are those that
    are not cap-snap records and have tid up to [T], the same records
    left the global list, and the wake of such a record was handed to
    the nearest record that stays AHEAD of it on the list (an earlier
    record), or, when none stays ahead of it, to the caller, who wakes
    the waiters at once. *)
Theorem flush_ack_detaches mdsc ci T mdsc' ci' r :
  tid_ordered (flushes mdsc) (i_cap_flush_list ci) ->
  NoDup (cap_flush_list mdsc) ->
  sublist (i_cap_flush_list ci) (cap_flush_list mdsc) ->
  handle_cap_flush_ack mdsc ci T = Ok (mdsc', ci', r) ->
  i_cap_flush_list ci' =
    filter (fun cf => ackedb (flushes mdsc) T cf = false) (i_cap_flush_list ci) ∧
  cap_flush_list mdsc' =
    filter (fun cf => ¬ answered mdsc ci T cf) (cap_flush_list mdsc) ∧
  forall cf, answered mdsc ci T cf -> wake_set (flushes mdsc) cf ->
    wake_handed_back (flushes mdsc') (i_cap_flush_list ci)
      (i_cap_flush_list ci') cf (ar_wake_ci r) ∧
    wake_handed_back (flushes mdsc') (cap_flush_list mdsc)
      (cap_flush_list mdsc') cf (ar_wake_mdsc r).
Proof.
  intros [_ Hsorted] Hnd Hsub Hrun.
  apply flush_ack_inv in Hrun
    as (st1 & m2 & w2 & Hscan & Hall & Hst' & Hg' & Hl' & Hwci & Hwm).
  apply (ack_scan_spec (flushes mdsc)) in Hscan
    as (Hrun1 & Hrm & Hm1 & _); [|done|apply wakes_added_refl].
  simpl in Hrun1, Hrm, Hm1.
  set (R := filter (fun cf => ackedb (flushes mdsc) T cf = true)
                   (i_cap_flush_list ci)) in *.
  assert (HR : forall x, x ∈ R <-> answered mdsc ci T x).
  { intros x. unfold R, answered. rewrite list_elem_of_filter. tauto. }
  apply detach_each_spec in Hrun1 as (Hl1 & Hadd1 & _ & Hback1);
    [|by eapply sorted_NoDup|apply sublist_filter].
  rewrite Hrm in Hall. apply detach_all_is_each in Hall.
  rewrite Hm1 in Hall. simpl in Hall.
  apply detach_each_spec in Hall as (Hg2 & Hadd2 & _ & Hback2);
    [|done|by etrans; [apply sublist_filter|]].
  assert (Hkeep : forall p, p ∉ R ->
            wake_set (flushes m2) p -> wake_set (flushes mdsc') p).
  { intros p Hp (c & Hc & Hw). exists c. split; [|done].
    rewrite Hst', Hrm. by rewrite lookup_foldr_delete. }
  split; [|split].
  - rewrite Hl', Hl1. apply filter_ext_in. intros x Hx.
    rewrite HR. unfold answered.
    destruct (ackedb (flushes mdsc) T x); split; try done.
    + intros Hn. exfalso. by apply Hn.
    + by intros _ [_ ?].
  - rewrite Hg', Hg2. apply list_filter_iff. intros x. by rewrite HR.
  - intros cf Hcf Hset. apply HR in Hcf. split.
    + rewrite Hl', Hwci.
      eapply wake_handed_back_mono; [|by apply Hback1].
      intros p Hp Hset1. apply Hkeep.
      * rewrite Hl1 in Hp. by apply list_elem_of_filter in Hp as [? _].
      * by eapply wakes_added_wake_set.
    + rewrite Hg', Hwm.
      eapply wake_handed_back_mono;
        [|apply Hback2; [done|by eapply wakes_added_wake_set]].
      intros p Hp Hset2. apply Hkeep; [|done].
      rewrite Hg2 in Hp. by apply list_elem_of_filter in Hp as [? _].
Qed.

End FlushFacts.

Module FlushRuns.
Import FlushFacts.

(** The ack of tid 2: the second record leaves both lists, records 1
    and 3 stay; the wake went to record 1, the cap snap ahead of it, and
    not to record 3 behind it, and the ack itself wakes nobody. *)
Lemma flush_ack_wake_goes_back :
  ¬ flush_ack_as_stated ack_mdsc ack_ci 2 4096.
Proof.
  intros Hclaim.
  destruct (handle_cap_flush_ack ack_mdsc ack_ci 2) as [[[m c] r]|f] eqn:E;
    [|vm_compute in E; discriminate E].
  destruct (Hclaim m c r E) as [_ Hwake].
  assert (El : i_cap_flush_list c = [1; 3]%nat).
  { vm_compute in E. by injection E as <- <- <-. }
  assert (Est : flushes m !! 3%nat = Some (Flush.mk 3 4096 false false)).
  { vm_compute in E. by injection E as <- <- <-. }
  destruct (Hwake 2%nat) as [Hlater _].
  - vm_compute. apply list_elem_of_In. simpl. tauto.
  - rewrite El. intros Hin. apply list_elem_of_In in Hin. simpl in Hin.
    intuition discriminate.
  - exists (Flush.mk 2 4096 false true). split; reflexivity.
  - unfold wake_forwarded_later in Hlater. rewrite El in Hlater.
    vm_compute in Hlater. destruct Hlater as (c3 & Hc3 & Hw3).
    change (flushes m !! 3%nat = Some c3) in Hc3.
    rewrite Est in Hc3. injection Hc3 as <-. discriminate Hw3.
Qed.

Lemma flush_ack_detaches_witness :
  exists mdsc' ci' r,
    handle_cap_flush_ack ack_mdsc ack_ci 2 = Ok (mdsc', ci', r) ∧
    i_cap_flush_list ci' = [1; 3]%nat ∧
    cap_flush_list mdsc' = [1; 3]%nat ∧
    wake_set (flushes mdsc') 1%nat.
Proof.
  destruct (handle_cap_flush_ack ack_mdsc ack_ci 2) as [[[m c] r]|f] eqn:E;
    [|vm_compute in E; discriminate E].
  exists m, c, r. split; [reflexivity|].
  assert (Hord : tid_ordered (flushes ack_mdsc) (i_cap_flush_list ack_ci)).
  { split.
    - repeat constructor; by eexists.
    - repeat constructor; vm_compute; reflexivity. }
  assert (Hnd : NoDup (cap_flush_list ack_mdsc)).
  { apply NoDup_ListNoDup. repeat constructor; simpl; intuition discriminate. }
  assert (Hsub : sublist (i_cap_flush_list ack_ci) (cap_flush_list ack_mdsc)).
  { reflexivity. }
  destruct (flush_ack_detaches ack_mdsc ack_ci 2 m c r Hord Hnd Hsub E)
    as (Hl & Hg & Hwake).
  split; [rewrite Hl; vm_compute; reflexivity|].
  split; [rewrite Hg; vm_compute; reflexivity|].
  destruct (Hwake 2%nat) as [Hback _].
  - split; [|reflexivity]. apply list_elem_of_In. simpl. tauto.
  - exists (Flush.mk 2 4096 false true). split; reflexivity.
  - unfold wake_handed_back in Hback. rewrite Hl in Hback.
    vm_compute in Hback. exact Hback.
Defined.

End FlushRuns.

(** * The round trip from dirty to clean *)
Module RoundTrip.
Import FlushFacts.

Section with_consts.
Context `{!KernelConsts}.

(** The first dirtying of a clean inode. *)
Lemma mark_dirty_clean mdsc ci mask cf a ac s :
  clean_inode ci -> snapc_at_hand ci ->
  i_auth_cap ci = Some a -> i_caps ci !! a = Some ac -> Cap.mds ac = a ->
  sessions mdsc !! a = Some s ->
  exists mdsc1 ci1 dirty,
    __ceph_mark_dirty_caps mdsc ci mask (Some cf)
      = Ok (mdsc1, ci1, i_prealloc_cap_flush ci, dirty) ∧
    i_count ci1 = wrap_int (i_count ci + 1) ∧
    i_dirty_caps ci1 = mask ∧ i_flushing_caps ci1 = 0 ∧
    i_dirty_item ci1 = true ∧ i_flushing_item ci1 = false ∧
    i_prealloc_cap_flush ci1 = Some cf ∧ i_cap_flush_list ci1 = [] ∧
    i_auth_cap ci1 = Some a ∧ is_Some (i_head_snapc ci1) ∧
    i_ino ci1 = i_ino ci ∧ i_dirty_caps ci1 = mask ∧
    flushes mdsc1 = flushes mdsc ∧ cap_flush_list mdsc1 = cap_flush_list mdsc ∧
    last_cap_flush_tid mdsc1 = last_cap_flush_tid mdsc ∧
    is_Some (sessions mdsc1 !! a).
Proof.
  intros (Hd & Hf & Hl & Hdi & Hfi) Hsc Ha Hac Hmds Hs.
  unfold __ceph_mark_dirty_caps, session_of. rewrite Ha. cbv zeta.
  rewrite Hd. rewrite (decide_True (P := (0 = 0))) by done.
  simpl. rewrite Hac. simpl.
  unfold snapc_at_hand in Hsc.
  destruct (i_head_snapc ci) as [sc|] eqn:Hh.
  - simpl. rewrite Hdi. simpl. rewrite Hmds, Hs. simpl. rewrite Hf.
    rewrite (decide_True (P := (0 = 0))) by done. simpl.
    eexists _, _, _. split; [reflexivity|]. simpl.
    rewrite lookup_insert_eq, Hh. repeat split; eauto.
  - destruct Hsc as (r & sc & Hr & Hcc). rewrite Hr. simpl.
    rewrite Hdi. simpl. rewrite Hmds, Hs. simpl. rewrite Hf.
    rewrite (decide_True (P := (0 = 0))) by done. simpl.
    eexists _, _, _. split; [reflexivity|]. simpl.
    rewrite lookup_insert_eq, Hcc. repeat split; eauto.
Qed.

Lemma oldest_flush_tid_ok mdsc :
  Forall (fun x => is_Some (flushes mdsc !! x)) (cap_flush_list mdsc) ->
  exists t, __get_oldest_flush_tid mdsc = Ok t.
Proof.
  unfold __get_oldest_flush_tid. destruct (cap_flush_list mdsc) as [|x l]; [by eexists|].
  intros [[c Hc] _]%Forall_cons. rewrite Hc. by eexists.
Qed.

Lemma not_in_del_dirty ino ss k s :
  del_dirty_item ino ss !! k = Some s -> ino ∉ s_cap_dirty s.
Proof.
  unfold del_dirty_item. rewrite lookup_fmap.
  destruct (ss !! k) as [s0|]; simpl; [|done]. intros [= <-]. simpl.
  intros [Hne _]%list_elem_of_filter. by apply Hne.
Qed.

Lemma not_in_del_flushing ino ss k s :
  del_flushing_item ino ss !! k = Some s -> ino ∉ s_cap_flushing s.
Proof.
  unfold del_flushing_item. rewrite lookup_fmap.
  destruct (ss !! k) as [s0|]; simpl; [|done]. intros [= <-]. simpl.
  intros [Hne _]%list_elem_of_filter. by apply Hne.
Qed.

Lemma del_flushing_keeps_dirty ino ss k s :
  del_flushing_item ino ss !! k = Some s ->
  exists s0, ss !! k = Some s0 ∧ s_cap_dirty s = s_cap_dirty s0.
Proof.
  unfold del_flushing_item. rewrite lookup_fmap.
  destruct (ss !! k) as [s0|]; simpl; [|done]. intros [= <-]. by exists s0.
Qed.

(** The start of the flush of an inode that has dirty caps and nothing
    in flight. *)
Lemma mark_flushing_first mdsc ci a cf c0 wake :
  i_dirty_caps ci ≠ 0 -> i_dirty_item ci = true ->
  i_flushing_caps ci = 0 -> i_flushing_item ci = false ->
  i_cap_flush_list ci = [] ->
  i_prealloc_cap_flush ci = Some cf -> flushes mdsc !! cf = Some c0 ->
  Forall (fun x => is_Some (flushes mdsc !! x)) (cap_flush_list mdsc) ->
  is_Some (sessions mdsc !! a) ->
  exists mdsc2 ci2 oldest,
    let tid := wrap_u64 (last_cap_flush_tid mdsc + 1) in
    __mark_caps_flushing mdsc ci a wake = Ok (mdsc2, ci2, tid, oldest) ∧
    i_dirty_caps ci2 = 0 ∧ i_flushing_caps ci2 = i_dirty_caps ci ∧
    i_dirty_item ci2 = false ∧ i_flushing_item ci2 = true ∧
    i_cap_flush_list ci2 = [cf] ∧ i_count ci2 = i_count ci ∧
    i_head_snapc ci2 = i_head_snapc ci ∧ i_ino ci2 = i_ino ci ∧
    flushes mdsc2 =
      <[cf := Flush.mk tid (i_dirty_caps ci) (Flush.is_capsnap c0) wake]>
        (flushes mdsc) ∧
    cap_flush_list mdsc2 = cap_flush_list mdsc ++ [cf] ∧
    (forall k s, sessions mdsc2 !! k = Some s -> i_ino ci ∉ s_cap_dirty s).
Proof.
  intros Hd Hdi Hf Hfi Hl Hp Hc0 Hall [s Hs].
  unfold __mark_caps_flushing, session_of. cbv zeta.
  rewrite (bool_decide_eq_false_2 (i_dirty_caps ci = 0)) by done.
  rewrite Hdi, Hp. simpl. rewrite Hp. simpl.
  rewrite Hc0. simpl.
  match goal with
  | |- context [__get_oldest_flush_tid ?m] =>
      destruct (oldest_flush_tid_ok m) as [t Ht]
  end.
  { simpl. apply Forall_app. split.
    - eapply Forall_impl; [exact Hall|]. intros x [c Hc]. simpl in *.
      destruct (decide (cf = x)) as [->|Hne];
        [rewrite lookup_insert_eq|rewrite lookup_insert_ne by done]; eauto.
    - repeat constructor. rewrite lookup_insert_eq. eauto. }
  rewrite Ht. simpl. rewrite Hfi. simpl.
  assert (Hs' : exists s', del_dirty_item (i_ino ci) (sessions mdsc) !! a = Some s').
  { unfold del_dirty_item. rewrite lookup_fmap, Hs. simpl. eauto. }
  destruct Hs' as [s' Hs']. rewrite Hs'. simpl.
  eexists _, _, _. split; [reflexivity|]. simpl.
  rewrite Hf, Hl. simpl. repeat split; try done.
  intros k sk. destruct (decide (a = k)) as [->|Hne].
  - rewrite lookup_insert_eq. intros [= <-]. simpl.
    by eapply not_in_del_dirty.
  - rewrite lookup_insert_ne by done. apply not_in_del_dirty.
Qed.

Lemma prev_from_in p l cf : prev_from p l cf ∈ p :: cf :: l.
Proof.
  revert p. induction l as [|x l IH]; intros p; simpl.
  - right. left.
  - destruct (decide (x = cf)); [left|].
    specialize (IH x). apply elem_of_cons in IH as [->|IH].
    + right. right. left.
    + apply elem_of_cons in IH as [->|IH]; [right; left|].
      right. right. by right.
Qed.

Lemma list_prev_in l cf p : list_prev l cf = Some p -> p ∈ cf :: l.
Proof.
  destruct l as [|x l]; simpl.
  - intros [= <-]. left.
  - destruct (decide (x = cf)); [done|]. intros [= <-].
    pose proof (prev_from_in x l cf) as Hin.
    apply elem_of_cons in Hin as [->|Hin]; [right; left|].
    apply elem_of_cons in Hin as [->|Hin]; [left|]. right. by right.
Qed.

Lemma list_del_sole cf : list_del cf [cf] = [].
Proof.
  unfold list_del. by rewrite filter_cons_False by (intros Hn; by apply Hn).
Qed.

Lemma wakes_added_lookup st st' cf c :
  wakes_added st st' -> st !! cf = Some c ->
  exists c', st' !! cf = Some c' ∧ Flush.tid c' = Flush.tid c.
Proof.
  intros Hadd Hc. specialize (Hadd cf). rewrite Hc in Hadd.
  destruct (st' !! cf) as [c'|]; [|done]. exists c'. split; [done|]. apply Hadd.
Qed.

(** A detach call completes when the records of the list are in the
    store. *)
Lemma detach_ok st l cf c :
  st !! cf = Some c ->
  Forall (fun x => is_Some (st !! x)) l ->
  exists st' w,
    detach_cap_flush st l cf = Ok (st', list_del cf l, w) ∧
    wakes_added st st' ∧
    (list_prev l cf = None -> w = Flush.wake c).
Proof.
  intros Hc Hall. unfold detach_cap_flush. rewrite Hc. simpl.
  destruct (list_prev l cf) as [p|] eqn:Hp.
  - destruct (Flush.wake c); simpl.
    + assert (Hpin : is_Some (st !! p)).
      { apply list_prev_in in Hp. apply elem_of_cons in Hp as [->|Hp]; [eauto|].
        rewrite Forall_forall in Hall. by apply Hall. }
      destruct Hpin as [pc Hpc]. rewrite Hpc. simpl.
      eexists _, _. split; [reflexivity|]. split; [|done].
      by apply wakes_added_set.
    + eexists _, _. split; [reflexivity|]. split; [|done].
      apply wakes_added_refl.
  - simpl. eexists _, _. split; [reflexivity|]. split; [|done].
    apply wakes_added_refl.
Qed.

(** The FLUSH_ACK for the only record of an inode that has nothing
    dirty. *)
Lemma ack_sole_record mdsc ci cf c :
  i_cap_flush_list ci = [cf] -> flushes mdsc !! cf = Some c ->
  Flush.is_capsnap c = false -> i_flushing_caps ci = Flush.caps c ->
  i_dirty_caps ci = 0 -> i_dirty_item ci = false ->
  is_Some (i_head_snapc ci) ->
  Forall (fun x => is_Some (flushes mdsc !! x)) (cap_flush_list mdsc) ->
  exists mdsc3 ci3 r,
    handle_cap_flush_ack mdsc ci (Flush.tid c) = Ok (mdsc3, ci3, r) ∧
    i_dirty_caps ci3 = 0 ∧ i_flushing_caps ci3 = 0 ∧
    i_dirty_item ci3 = false ∧ i_flushing_item ci3 = false ∧
    i_cap_flush_list ci3 = [] ∧ ar_drop r = true ∧
    i_count ci3 = wrap_int (i_count ci - 1) ∧
    cap_flush_list mdsc3 = list_del cf (cap_flush_list mdsc) ∧
    flushes mdsc3 !! cf = None ∧
    (forall k s, sessions mdsc3 !! k = Some s ->
       (i_ino ci ∉ s_cap_flushing s) ∧
       exists s0, sessions mdsc !! k = Some s0 ∧ s_cap_dirty s = s_cap_dirty s0).
Proof.
  intros Hl Hc Hsnap Hfl Hd Hdi [sc Hsc] Hall.
  unfold handle_cap_flush_ack. rewrite Hl. cbn [ack_scan]. simpl.
  rewrite Hc. simpl. rewrite Hsnap.
  rewrite (decide_True (P := (Flush.tid c <= Flush.tid c))) by lia.
  unfold __detach_cap_flush_from_ci.
  destruct (detach_ok (flushes mdsc) [cf] cf c Hc) as (st1 & w1 & Hdet1 & Hadd1 & _).
  { repeat constructor. eauto. }
  rewrite Hl, Hdet1, list_del_sole. simpl.
  unfold __detach_cap_flush_from_mdsc. simpl.
  destruct (wakes_added_lookup _ _ _ _ Hadd1 Hc) as (c1 & Hc1 & _).
  destruct (detach_ok st1 (cap_flush_list mdsc) cf c1 Hc1)
    as (st2 & w2 & Hdet2 & Hadd2 & _).
  { eapply Forall_impl; [exact Hall|]. intros x [cx Hx]. simpl in *.
    destruct (wakes_added_lookup _ _ _ _ Hadd1 Hx) as (? & ? & _). eauto. }
  rewrite Hdet2. simpl.
  rewrite (decide_True (P := (Flush.tid c = Flush.tid c))) by done.
  rewrite Hfl, CapsFacts.ok_same. simpl. rewrite Hd, Hdi. simpl.
  destruct (bool_decide (i_wr_ref ci = 0) && bool_decide (i_wrbuffer_ref_head ci = 0)).
  - rewrite Hsc. simpl. eexists _, _, _. split; [reflexivity|]. simpl.
    repeat split; try done.
    + by rewrite lookup_delete_eq.
    + by eapply not_in_del_flushing.
    + by eapply del_flushing_keeps_dirty.
  - simpl. eexists _, _, _. split; [reflexivity|]. simpl.
    repeat split; try done.
    + by rewrite lookup_delete_eq.
    + by eapply not_in_del_flushing.
    + by eapply del_flushing_keeps_dirty.
Qed.

(** C4.  On a clean inode that has an auth cap, a session for it, a
    snap context at hand and a preallocated flush record: the first
    dirtying takes one reference on the inode, the start of the flush
    takes none, and the FLUSH_ACK for the tid that the flush was given
    leaves [i_dirty_caps] and [i_flushing_caps] empty, the inode on no
    dirty or flushing list of any session, its flush list empty and the
    record off the global list, and drops the reference once, so that
    the count is what it was. *)
Theorem dirty_flush_ack_round_trip mdsc ci mask cf c0 a ac s wake :
  clean_inode ci -> snapc_at_hand ci ->
  i_auth_cap ci = Some a -> i_caps ci !! a = Some ac -> Cap.mds ac = a ->
  sessions mdsc !! a = Some s ->
  mask ≠ 0 ->
  flushes mdsc !! cf = Some c0 -> Flush.is_capsnap c0 = false ->
  Forall (fun x => is_Some (flushes mdsc !! x)) (cap_flush_list mdsc) ->
  in_int (i_count ci) -> in_int (i_count ci + 1) ->
  exists mdsc3 ci3 r tid ci1 ci2,
    dirty_flush_ack mdsc ci mask cf wake = Ok (mdsc3, ci3, r, tid, ci1, ci2) ∧
    i_count ci1 = i_count ci + 1 ∧ i_count ci2 = i_count ci + 1 ∧
    i_dirty_caps ci1 = mask ∧ i_flushing_caps ci2 = mask ∧
    tid = wrap_u64 (last_cap_flush_tid mdsc + 1) ∧
    i_dirty_caps ci3 = 0 ∧ i_flushing_caps ci3 = 0 ∧
    i_dirty_item ci3 = false ∧ i_flushing_item ci3 = false ∧
    i_cap_flush_list ci3 = [] ∧ (cf ∉ cap_flush_list mdsc3) ∧
    off_all_lists mdsc3 (i_ino ci) ∧
    ar_drop r = true ∧ i_count ci3 = i_count ci.
Proof.
  intros Hclean Hsc Ha Hac Hmds Hs Hmask Hc0 Hsnap Hall Hcnt Hcnt1.
  destruct (mark_dirty_clean mdsc ci mask cf a ac s Hclean Hsc Ha Hac Hmds Hs)
    as (mdsc1 & ci1 & dirty & E1 & Hc1 & Hd1 & Hf1 & Hdi1 & Hfi1 & Hp1 & Hl1 &
        Ha1 & Hh1 & Hino1 & _ & Hst1 & Hg1 & Htid1 & Hs1).
  destruct (mark_flushing_first mdsc1 ci1 a cf c0 wake)
    as (mdsc2 & ci2 & oldest & E2 & Hd2 & Hf2 & Hdi2 & Hfi2 & Hl2 & Hc2 & Hh2 &
        Hino2 & Hst2 & Hg2 & Hdirty2); try done.
  { by rewrite Hd1. }
  { by rewrite Hst1. }
  { by rewrite Hst1, Hg1. }
  simpl in E2.
  set (tid := wrap_u64 (last_cap_flush_tid mdsc1 + 1)) in *.
  set (c := Flush.mk tid (i_dirty_caps ci1) (Flush.is_capsnap c0) wake).
  destruct (ack_sole_record mdsc2 ci2 cf c)
    as (mdsc3 & ci3 & r & E3 & Hd3 & Hf3 & Hdi3 & Hfi3 & Hl3 & Hdrop & Hc3 &
        Hg3 & _ & Hss3); try done.
  { rewrite Hst2. by rewrite lookup_insert_eq. }
  { by rewrite Hh2. }
  { rewrite Hst2, Hg2. apply Forall_app. split.
    - rewrite Hst1, Hg1. eapply Forall_impl; [exact Hall|]. intros x [cx Hx].
      simpl. destruct (decide (cf = x)) as [->|Hne];
        [rewrite lookup_insert_eq|rewrite lookup_insert_ne by done]; eauto.
    - repeat constructor. rewrite lookup_insert_eq. eauto. }
  exists mdsc3, ci3, r, tid, ci1, ci2.
  unfold dirty_flush_ack. rewrite E1. simpl. rewrite Ha1. simpl.
  rewrite E2. simpl. change (Flush.tid c) with tid in E3. rewrite E3. simpl.
  assert (Hone : i_count ci1 = i_count ci + 1).
  { rewrite Hc1. by apply wrap_int_small. }
  assert (Hoff : off_all_lists mdsc3 (i_ino ci)).
  { intros k sk Hk. destruct (Hss3 k sk Hk) as [Hnf (s1 & Hs1' & Heq)].
    rewrite Hino2, Hino1 in Hnf. split; [|exact Hnf].
    rewrite Heq, <- Hino1. by eapply Hdirty2. }
  assert (Hgone : cf ∉ cap_flush_list mdsc3).
  { rewrite Hg3. unfold list_del. intros [Hne _]%list_elem_of_filter.
    by apply Hne. }
  assert (Hback : i_count ci3 = i_count ci).
  { rewrite Hc3, Hc2, Hone. replace (i_count ci + 1 - 1) with (i_count ci) by lia.
    by apply wrap_int_small. }
  split_and!; try done.
  - congruence.
  - congruence.
  - unfold tid. by rewrite Htid1.
Qed.

End with_consts.

Lemma dirty_flush_ack_round_trip_witness :
  exists mdsc3 ci3 r tid ci1 ci2,
    dirty_flush_ack (H := linux_consts) trip_mdsc trip_ci 4096 7%nat false
      = Ok (mdsc3, ci3, r, tid, ci1, ci2) ∧
    i_count ci1 = 2 ∧ i_count ci2 = 2 ∧ tid = 1 ∧
    i_dirty_caps ci3 = 0 ∧ i_flushing_caps ci3 = 0 ∧
    ar_drop r = true ∧ i_count ci3 = 1.
Proof.
  destruct (dirty_flush_ack_round_trip (H := linux_consts) trip_mdsc trip_ci
              4096 7%nat (Flush.mk 0 0 false false) 0
              (Sample.cap0 0 (1 + 4096) (1 + 4096)) Sample.session0 false)
    as (mdsc3 & ci3 & r & tid & ci1 & ci2 & E & H1 & H2 & _ & _ & Ht & Hd & Hf &
        _ & _ & _ & _ & _ & Hdrop & Hc).
  - repeat split; reflexivity.
  - exists Sample.realm0, 7. split; reflexivity.
  - reflexivity.
  - reflexivity.
  - reflexivity.
  - reflexivity.
  - discriminate.
  - reflexivity.
  - reflexivity.
  - constructor.
  - vm_compute. split; [discriminate|reflexivity].
  - vm_compute. split; [discriminate|reflexivity].
  - exists mdsc3, ci3, r, tid, ci1, ci2.
    split; [exact E|]. split; [exact H1|]. split; [exact H2|].
    split; [exact Ht|]. split; [exact Hd|]. split; [exact Hf|].
    split; [exact Hdrop|exact Hc].
Defined.

End RoundTrip.

(** * Flush tids *)
Module TidFacts.
Import FlushFacts.

Lemma wrap_u64_small z : 0 <= z < 2 ^ 64 -> wrap_u64 z = z.
Proof. intros Hz. unfold wrap_u64. by apply Z.mod_small. Qed.

Lemma tid_of_insert_eq F h c : tid_of (<[h := c]> F) h = Flush.tid c.
Proof. unfold tid_of. by rewrite lookup_insert_eq. Qed.

Lemma tid_of_insert_ne F h c x : h ≠ x -> tid_of (<[h := c]> F) x = tid_of F x.
Proof. intros Hne. unfold tid_of. by rewrite lookup_insert_ne. Qed.

Lemma sorted_ext (R R' : handle -> handle -> Prop) (l : list handle) :
  (forall x y, x ∈ l -> y ∈ l -> R x y -> R' x y) ->
  StronglySorted R l -> StronglySorted R' l.
Proof.
  intros Hext Hs. induction Hs as [|x l Hs IH Hall]; constructor.
  - apply IH. intros a b Ha Hb. apply Hext; by right.
  - rewrite Forall_forall in *. intros y Hy. apply Hext; [left|by right|by apply Hall].
Qed.

Lemma sorted_snoc (R : handle -> handle -> Prop) (l : list handle) h :
  StronglySorted R l -> (forall x, x ∈ l -> R x h) -> StronglySorted R (l ++ [h]).
Proof.
  intros Hs Hall. induction Hs as [|x l Hs IH Hx]; simpl.
  - repeat constructor.
  - constructor.
    + apply IH. intros y Hy. apply Hall. by right.
    + apply Forall_app. split; [done|]. repeat constructor. apply Hall. left.
Qed.

Lemma tid_ordered_insert_other F l h c :
  tid_ordered F l -> h ∉ l -> tid_ordered (<[h := c]> F) l.
Proof.
  intros [Hin Hs] Hh. split.
  - rewrite Forall_forall in *. intros x Hx.
    rewrite lookup_insert_ne by (intros ->; done). by apply Hin.
  - eapply sorted_ext; [|exact Hs]. intros x y Hx Hy.
    rewrite !tid_of_insert_ne by (intros ->; done). done.
Qed.

Lemma tid_ordered_snoc F l h c :
  tid_ordered F l -> h ∉ l ->
  (forall x, x ∈ l -> tid_of F x < Flush.tid c) ->
  tid_ordered (<[h := c]> F) (l ++ [h]).
Proof.
  intros Hord Hh Hlt.
  destruct (tid_ordered_insert_other F l h c Hord Hh) as [Hin Hs]. split.
  - apply Forall_app. split; [done|]. repeat constructor.
    rewrite lookup_insert_eq. eauto.
  - apply sorted_snoc; [done|]. intros x Hx.
    rewrite tid_of_insert_eq, tid_of_insert_ne by (intros ->; done).
    by apply Hlt.
Qed.

Lemma flush_grows_refl w : flush_grows w w.
Proof.
  unfold flush_grows. split_and!; try done.
  intros ino. by destruct (w_inodes w !! ino).
Qed.

Lemma flush_grows_trans w1 w2 w3 :
  flush_grows w1 w2 -> flush_grows w2 w3 -> flush_grows w1 w3.
Proof.
  intros (Hl1 & Hp1 & Hs1 & Hn1 & Hi1) (Hl2 & Hp2 & Hs2 & Hn2 & Hi2).
  unfold flush_grows. split_and!.
  - lia.
  - by etrans.
  - intros cf Hcf. rewrite Hs2; [by apply Hs1|].
    destruct Hp1 as [k ->]. apply elem_of_app. by left.
  - intros cf Hcf Hncf.
    destruct (decide (cf ∈ cap_flush_list (w_mdsc w2))) as [Hin|Hnin].
    + rewrite Hs2 by done. specialize (Hn1 cf Hin Hncf). lia.
    + specialize (Hn2 cf Hcf Hnin). lia.
  - intros ino. specialize (Hi1 ino). specialize (Hi2 ino).
    destruct (w_inodes w1 !! ino), (w_inodes w2 !! ino), (w_inodes w3 !! ino);
      try done.
    destruct Hi1 as [Ha Hb], Hi2 as [Hc Hd]. split; [by etrans|congruence].
Qed.

(** One record more: [h], which is on no list and is no other inode's
    preallocated record, gets the next tid and goes to the tail of the
    global list and of the list of inode [ino]. *)
Lemma append_wf w ino ci ci' mdsc' h c' :
  flush_wf w -> w_inodes w !! ino = Some ci ->
  h ∉ cap_flush_list (w_mdsc w) ->
  (forall ino' ci'', w_inodes w !! ino' = Some ci'' ->
     i_prealloc_cap_flush ci'' = Some h ->
     ino' = ino ∧ i_prealloc_cap_flush ci' = None) ->
  last_cap_flush_tid (w_mdsc w) + 1 < 2 ^ 64 ->
  flushes mdsc' = <[h := c']> (flushes (w_mdsc w)) ->
  Flush.tid c' = last_cap_flush_tid (w_mdsc w) + 1 ->
  cap_flush_list mdsc' = cap_flush_list (w_mdsc w) ++ [h] ->
  last_cap_flush_tid mdsc' = last_cap_flush_tid (w_mdsc w) + 1 ->
  i_cap_flush_list ci' = i_cap_flush_list ci ++ [h] ->
  i_cap_snaps ci' = i_cap_snaps ci ->
  (i_prealloc_cap_flush ci' = i_prealloc_cap_flush ci ∨
   i_prealloc_cap_flush ci' = None) ->
  flush_wf (mk_world mdsc' (<[ino := ci']> (w_inodes w))) ∧
  flush_grows w (mk_world mdsc' (<[ino := ci']> (w_inodes w))).
Proof.
  intros (HG & Hbound & Hlast & Hino) Hci HhG Hpre Hwrap HF Htid HG' Hlast' HL' Hsnaps Hp'.
  assert (HhL : forall i c, w_inodes w !! i = Some c -> h ∉ i_cap_flush_list c).
  { intros i c Hc Hin. apply HhG. by apply (Hino i c Hc). }
  assert (Hltall : forall x, x ∈ cap_flush_list (w_mdsc w) ->
                     tid_of (flushes (w_mdsc w)) x < Flush.tid c').
  { intros x Hx. specialize (Hbound x Hx). lia. }
  split.
  - unfold flush_wf. simpl. rewrite HF, HG', Hlast'. split_and!.
    + by apply tid_ordered_snoc.
    + intros cf [Hcf| ->%list_elem_of_singleton]%elem_of_app.
      * rewrite tid_of_insert_ne by (intros ->; done).
        specialize (Hbound cf Hcf). lia.
      * rewrite tid_of_insert_eq. lia.
    + lia.
    + intros i c Hc.
      assert (Hpre_ok : forall cf ci0, w_inodes w !! i = Some ci0 ->
                i_prealloc_cap_flush c = Some cf ->
                i_prealloc_cap_flush ci0 = Some cf ->
                i_cap_snaps c = i_cap_snaps ci0 ->
                (i = ino -> i_prealloc_cap_flush ci' = Some cf) ->
                (cf ∉ cap_flush_list (w_mdsc w) ++ [h]) ∧
                (forall ino' ci'0,
                   <[ino:=ci']> (w_inodes w) !! ino' = Some ci'0 ->
                   (i_prealloc_cap_flush ci'0 = Some cf -> ino' = i) ∧
                   (forall cs, cs ∈ i_cap_snaps ci'0 -> cs_cap_flush cs ≠ cf))).
      { intros cf ci0 Hci0 Hpc Hpc0 Hsn Hself.
        destruct (Hino i ci0 Hci0) as (_ & _ & HP).
        destruct (HP cf Hpc0) as [HcfG Huniq]. split.
        - intros [?| ->%list_elem_of_singleton]%elem_of_app; [done|].
          destruct (Hpre i ci0 Hci0 Hpc0) as [-> Hnone].
          rewrite Hself in Hnone by done. done.
        - intros ino' ci'0. destruct (decide (ino = ino')) as [<-|Hne].
          + rewrite lookup_insert_eq. intros [= <-]. split.
            * intros Hpci'. destruct Hp' as [Heq|Hnone]; [|congruence].
              rewrite Heq in Hpci'.
              by destruct (Huniq ino ci Hci) as [Hu _]; apply Hu.
            * rewrite Hsnaps. by destruct (Huniq ino ci Hci) as [_ Hu].
          + rewrite lookup_insert_ne by done. intros Hc'. by apply Huniq. }
      destruct (decide (ino = i)) as [<-|Hne].
      * rewrite lookup_insert_eq in Hc. injection Hc as <-.
        destruct (Hino ino ci Hci) as (HLord & HLG & HP).
        rewrite HL'. split_and!.
        -- apply tid_ordered_snoc; [done|by eapply HhL|].
           intros x Hx. apply Hltall. by apply HLG.
        -- intros cf [Hcf| ->%list_elem_of_singleton]%elem_of_app;
             apply elem_of_app; [left; by apply HLG|right; left].
        -- intros cf Hpc.
           assert (Hold : i_prealloc_cap_flush ci = Some cf).
           { destruct Hp' as [Heq|Hnone]; congruence. }
           by apply (Hpre_ok cf ci).
      * rewrite lookup_insert_ne in Hc by done.
        destruct (Hino i c Hc) as (HLord & HLG & HP). split_and!.
        -- apply tid_ordered_insert_other; [done|by eapply HhL].
        -- intros cf Hcf. apply elem_of_app. left. by apply HLG.
        -- intros cf Hpc. apply (Hpre_ok cf c); try done.
  - unfold flush_grows. simpl. rewrite HF, HG', Hlast'. split_and!.
    + lia.
    + by apply prefix_app_r.
    + intros cf Hcf. by rewrite tid_of_insert_ne by (intros ->; done).
    + intros cf [Hcf| ->%list_elem_of_singleton]%elem_of_app Hn; [done|].
      rewrite tid_of_insert_eq. lia.
    + intros i. destruct (decide (ino = i)) as [<-|Hne].
      * rewrite lookup_insert_eq, Hci, HL'. split; [by apply prefix_app_r|done].
      * rewrite lookup_insert_ne by done. by destruct (w_inodes w !! i).
Qed.

(** What a completed [__mark_caps_flushing] did to the flush tracker. *)
Lemma mark_caps_flushing_inv mdsc ci session wake mdsc2 ci2 tid oldest :
  __mark_caps_flushing mdsc ci session wake = Ok (mdsc2, ci2, tid, oldest) ->
  exists cf c,
    i_prealloc_cap_flush ci = Some cf ∧ flushes mdsc !! cf = Some c ∧
    tid = wrap_u64 (last_cap_flush_tid mdsc + 1) ∧
    flushes mdsc2 =
      <[cf := Flush.set_tid tid
                (Flush.set_wake wake (Flush.set_caps (i_dirty_caps ci) c))]>
        (flushes mdsc) ∧
    cap_flush_list mdsc2 = cap_flush_list mdsc ++ [cf] ∧
    last_cap_flush_tid mdsc2 = tid ∧
    i_cap_flush_list ci2 = i_cap_flush_list ci ++ [cf] ∧
    i_cap_snaps ci2 = i_cap_snaps ci ∧
    i_prealloc_cap_flush ci2 = None.
Proof.
  unfold __mark_caps_flushing, session_of. cbv zeta.
  destruct (bool_decide (i_dirty_caps ci = 0)); simpl; [done|].
  destruct (negb (i_dirty_item ci)); simpl; [done|].
  destruct (i_prealloc_cap_flush ci) as [cf|] eqn:Hp; simpl; [|done].
  destruct (flushes mdsc !! cf) as [c|] eqn:Hc; simpl; [|done].
  destruct (__get_oldest_flush_tid _) as [t|]; simpl; [|done].
  destruct (i_flushing_item ci); simpl.
  - intros [= <- <- <- <-]. exists cf, c. simpl. split_and!; done.
  - destruct (del_dirty_item _ _ !! session); simpl; [|done].
    intros [= <- <- <- <-]. exists cf, c. simpl. split_and!; done.
Qed.

(** A write to an inode that leaves its flush list, its preallocated
    record and its cap snaps alone. *)
Lemma update_wf w ino ci ci' :
  flush_wf w -> w_inodes w !! ino = Some ci ->
  i_cap_flush_list ci' = i_cap_flush_list ci ->
  i_cap_snaps ci' = i_cap_snaps ci ->
  i_prealloc_cap_flush ci' = i_prealloc_cap_flush ci ->
  flush_wf (mk_world (w_mdsc w) (<[ino := ci']> (w_inodes w))) ∧
  flush_grows w (mk_world (w_mdsc w) (<[ino := ci']> (w_inodes w))).
Proof.
  intros (HG & Hbound & Hlast & Hino) Hci HL Hsn Hp. split.
  - unfold flush_wf. simpl. split_and!; try done.
    intros i c Hc.
    assert (Hold : exists c0, w_inodes w !! i = Some c0 ∧
              i_cap_flush_list c = i_cap_flush_list c0 ∧
              i_cap_snaps c = i_cap_snaps c0 ∧
              i_prealloc_cap_flush c = i_prealloc_cap_flush c0).
    { destruct (decide (ino = i)) as [<-|Hne].
      - rewrite lookup_insert_eq in Hc. injection Hc as <-. by exists ci.
      - rewrite lookup_insert_ne in Hc by done. by exists c. }
    destruct Hold as (c0 & Hc0 & -> & _ & Hpc).
    destruct (Hino i c0 Hc0) as (HLord & HLG & HP). split_and!; try done.
    intros cf Hcf. rewrite Hpc in Hcf. destruct (HP cf Hcf) as [HcfG Huniq].
    split; [done|]. intros ino' ci'0 Hc'.
    destruct (decide (ino = ino')) as [<-|Hne].
    + rewrite lookup_insert_eq in Hc'. injection Hc' as <-.
      rewrite Hp, Hsn. by apply Huniq.
    + rewrite lookup_insert_ne in Hc' by done. by apply Huniq.
  - unfold flush_grows. simpl. split_and!; try done.
    intros i. destruct (decide (ino = i)) as [<-|Hne].
    + rewrite lookup_insert_eq, Hci, HL. done.
    + rewrite lookup_insert_ne by done. by destruct (w_inodes w !! i).
Qed.

Lemma budget_grows w w' cs : flush_grows w w' -> budget w' cs = budget w cs.
Proof.
  intros (_ & _ & _ & _ & Hi). induction cs as [|[ino s wk|ino s] cs IH]; simpl.
  - done.
  - by rewrite IH.
  - rewrite IH. f_equal. specialize (Hi ino).
    destruct (w_inodes w !! ino), (w_inodes w' !! ino); try done. simpl.
    destruct Hi as [_ ->]. done.
Qed.

Lemma budget_nonneg w cs : 0 <= budget w cs.
Proof. induction cs as [|[ino s wk|ino s] cs IH]; simpl; lia. Qed.

Lemma oldest_tid_grows w w' :
  flush_wf w' -> flush_grows w w' -> oldest_tid w <= oldest_tid w'.
Proof.
  intros (_ & Hbound & _) (_ & [k Hk] & Hsame & _). unfold oldest_tid.
  destruct (cap_flush_list (w_mdsc w)) as [|x l] eqn:HG.
  - destruct (cap_flush_list (w_mdsc w')) as [|y l']; [done|].
    specialize (Hbound y). simpl in Hbound.
    assert (Hy : y ∈ y :: l') by left. specialize (Hbound Hy). lia.
  - rewrite Hk. simpl. rewrite Hsame; [done|left].
Qed.

Lemma oldest_tid_read w :
  flush_wf w -> __get_oldest_flush_tid (w_mdsc w) = Ok (oldest_tid w).
Proof.
  intros ([Hin _] & _). unfold __get_oldest_flush_tid, oldest_tid, tid_of.
  destruct (cap_flush_list (w_mdsc w)) as [|x l]; [done|].
  apply Forall_cons in Hin as [[c Hc] _]. by rewrite Hc.
Qed.

Section with_consts.
Context `{!KernelConsts}.

Lemma mark_flushing_step w ino session wake w' :
  flush_wf w ->
  last_cap_flush_tid (w_mdsc w) + 1 < 2 ^ 64 ->
  apply_creation (MarkFlushing ino session wake) w = Ok w' ->
  flush_wf w' ∧ flush_grows w w' ∧
  last_cap_flush_tid (w_mdsc w') <= last_cap_flush_tid (w_mdsc w) + 1.
Proof.
  intros Hwf Hwrap. cbn [apply_creation].
  destruct (w_inodes w !! ino) as [ci|] eqn:Hci; simpl; [|done].
  destruct (__mark_caps_flushing _ _ _ _) as [[[[m2 ci2] tid] old]|] eqn:E;
    simpl; [|done].
  intros [= <-].
  apply mark_caps_flushing_inv in E
    as (cf & c & Hp & Hc & Htid & HF & HG & Hlast & HL & Hsn & Hp2).
  pose proof Hwf as (_ & _ & Hlast0 & Hino).
  rewrite wrap_u64_small in Htid by lia. subst tid.
  destruct (Hino ino ci Hci) as (_ & _ & HP).
  destruct (HP cf Hp) as [HcfG Huniq].
  assert (Hpre : forall ino' ci'', w_inodes w !! ino' = Some ci'' ->
            i_prealloc_cap_flush ci'' = Some cf ->
            ino' = ino ∧ i_prealloc_cap_flush ci2 = None).
  { intros ino' ci'' Hc'' Hp''. split; [|done]. by apply (Huniq ino' ci''). }
  destruct (append_wf w ino ci ci2 m2 cf _ Hwf Hci HcfG Hpre Hwrap HF)
    as [Hwf' Hgrows]; try done.
  - by right.
  - split; [done|]. split; [done|]. simpl. lia.
Qed.

(** The loop of [__ceph_flush_snaps] over the cap snaps of inode [ino]. *)
Lemma flush_snaps_assign_step inodes ino session l : forall st st',
  flush_wf (mk_world (fs_mdsc st) (<[ino := fs_ci st]> inodes)) ->
  (forall cs, cs ∈ l -> cs ∈ i_cap_snaps (fs_ci st)) ->
  last_cap_flush_tid (fs_mdsc st) + Z.of_nat (length l) < 2 ^ 64 ->
  flush_snaps_assign session l st = Ok st' ->
  flush_wf (mk_world (fs_mdsc st') (<[ino := fs_ci st']> inodes)) ∧
  flush_grows (mk_world (fs_mdsc st) (<[ino := fs_ci st]> inodes))
              (mk_world (fs_mdsc st') (<[ino := fs_ci st']> inodes)) ∧
  last_cap_flush_tid (fs_mdsc st')
    <= last_cap_flush_tid (fs_mdsc st) + Z.of_nat (length l).
Proof.
  induction l as [|cs l IH]; intros st st' Hwf Hsub Hwrap.
  - simpl. intros [= <-]. split; [done|]. split; [apply flush_grows_refl|]. lia.
  - cbn [flush_snaps_assign]. cbv zeta.
    rewrite length_cons, Nat2Z.inj_succ in *.
    destruct (_ || _).
    { intros [= <-]. split; [done|]. split; [apply flush_grows_refl|]. lia. }
    destruct (negb (cs_need_flush cs)); simpl; [done|].
    destruct (flushes (fs_mdsc st) !! cs_cap_flush cs) as [c|] eqn:Hc; simpl; [|done].
    assert (Hsub' : forall x, x ∈ l -> x ∈ i_cap_snaps (fs_ci st)).
    { intros x Hx. apply Hsub. by right. }
    destruct (decide (Flush.tid c > 0)) as [Hpos|Hpos].
    { intros Hrest. apply IH in Hrest as (? & ? & ?); [|done|done|lia].
      split; [done|]. split; [done|]. lia. }
    pose proof Hwf as (_ & Hbound & Hlast0 & Hino). simpl in Hbound, Hlast0, Hino.
    rewrite wrap_u64_small by lia.
    match goal with
    | |- ?oldest ≫= _ = _ -> _ => destruct oldest as [old|]; simpl; [|done]
    end.
    match goal with
    | |- ?items ≫= _ = _ -> _ =>
        destruct items as [[m1 ci1]|] eqn:Eitems; simpl; [|done]
    end.
    assert (Hm1 :
      flushes m1 = <[cs_cap_flush cs :=
                       Flush.set_tid (last_cap_flush_tid (fs_mdsc st) + 1) c]>
                     (flushes (fs_mdsc st)) ∧
      cap_flush_list m1 = cap_flush_list (fs_mdsc st) ++ [cs_cap_flush cs] ∧
      last_cap_flush_tid m1 = last_cap_flush_tid (fs_mdsc st) + 1 ∧
      i_cap_flush_list ci1 = i_cap_flush_list (fs_ci st) ∧
      i_cap_snaps ci1 = i_cap_snaps (fs_ci st) ∧
      i_prealloc_cap_flush ci1 = i_prealloc_cap_flush (fs_ci st)).
    { revert Eitems. unfold session_of.
      destruct (i_flushing_item (fs_ci st)); simpl.
      - by intros [= <- <-].
      - destruct (_ !! session); simpl; [|done]. by intros [= <- <-]. }
    destruct Hm1 as (HF & HG & Hl1 & HL & Hsn & Hp).
    intros Hrest.
    set (ci2 := set_i_cap_flush_list
                  (i_cap_flush_list ci1 ++ [cs_cap_flush cs]) ci1) in *.
    assert (HhG : cs_cap_flush cs ∉ cap_flush_list (fs_mdsc st)).
    { intros Hin. specialize (Hbound _ Hin). unfold tid_of in Hbound.
      rewrite Hc in Hbound. simpl in Hbound. lia. }
    assert (Hpre : forall ino' ci'',
              <[ino:=fs_ci st]> inodes !! ino' = Some ci'' ->
              i_prealloc_cap_flush ci'' = Some (cs_cap_flush cs) ->
              ino' = ino ∧ i_prealloc_cap_flush ci2 = None).
    { intros ino' ci'' Hc'' Hp''. exfalso.
      destruct (Hino ino' ci'' Hc'') as (_ & _ & HP).
      destruct (HP _ Hp'') as [_ Huniq].
      destruct (Huniq ino (fs_ci st)) as [_ Hsnap]; [by rewrite lookup_insert_eq|].
      apply (Hsnap cs); [|done]. apply Hsub. left. }
    destruct (append_wf (mk_world (fs_mdsc st) (<[ino := fs_ci st]> inodes))
                ino (fs_ci st) ci2 m1 (cs_cap_flush cs)
                (Flush.set_tid (last_cap_flush_tid (fs_mdsc st) + 1) c) Hwf)
      as [Hwf1 Hgrows1]; simpl; try done.
    { by rewrite lookup_insert_eq. }
    { lia. }
    { unfold ci2. simpl. by rewrite HL. }
    { left. done. }
    cbn [w_inodes] in Hwf1, Hgrows1.
    rewrite insert_insert_eq in Hwf1, Hgrows1.
    apply IH in Hrest as (Hwf2 & Hgrows2 & Hl2); simpl; [|done| |lia].
    2:{ intros x Hx. unfold ci2. simpl. rewrite Hsn. by apply Hsub'. }
    simpl in Hl2. split; [done|]. split; [by eapply flush_grows_trans|]. lia.
Qed.

Lemma flush_snaps_step w ino session w' :
  flush_wf w ->
  last_cap_flush_tid (w_mdsc w) + budget w [FlushSnaps ino session] < 2 ^ 64 ->
  apply_creation (FlushSnaps ino session) w = Ok w' ->
  flush_wf w' ∧ flush_grows w w' ∧
  last_cap_flush_tid (w_mdsc w')
    <= last_cap_flush_tid (w_mdsc w) + budget w [FlushSnaps ino session].
Proof.
  intros Hwf Hwrap. cbn [apply_creation budget] in *.
  destruct (w_inodes w !! ino) as [ci|] eqn:Hci; simpl in *; [|done].
  unfold __ceph_flush_snaps.
  destruct (flush_snaps_assign _ _ _) as [st|] eqn:E; simpl; [|done].
  intros [= <-]. simpl.
  assert (Hw : w = mk_world (w_mdsc w) (<[ino := ci]> (w_inodes w))).
  { rewrite insert_id by done. by destruct w. }
  apply (flush_snaps_assign_step (w_inodes w) ino) in E
    as (Hwf1 & Hgrows1 & Hl1); simpl; [| |done|lia].
  2:{ by rewrite <- Hw. }
  simpl in Hwf1, Hgrows1, Hl1. rewrite <- Hw in Hgrows1.
  match goal with
  | |- flush_wf (mk_world _ (<[ino := ?c]> _)) ∧ _ =>
      destruct (update_wf _ ino (fs_ci st) c Hwf1) as [Hwf2 Hgrows2];
        try done
  end.
  { simpl. by rewrite lookup_insert_eq. }
  simpl in Hwf2, Hgrows2. rewrite insert_insert_eq in Hwf2, Hgrows2.
  split; [done|]. split; [by eapply flush_grows_trans|]. lia.
Qed.

Lemma apply_creations_wf cs : forall w w',
  flush_wf w ->
  last_cap_flush_tid (w_mdsc w) + budget w cs < 2 ^ 64 ->
  apply_creations cs w = Ok w' ->
  flush_wf w' ∧ flush_grows w w'.
Proof.
  induction cs as [|c cs IH]; intros w w' Hwf Hwrap.
  - simpl. intros [= <-]. split; [done|apply flush_grows_refl].
  - cbn [apply_creations].
    destruct (apply_creation c w) as [w1|] eqn:E1; simpl; [|done].
    intros Hrest.
    assert (Hstep : flush_wf w1 ∧ flush_grows w w1 ∧
              last_cap_flush_tid (w_mdsc w1) + budget w cs
                <= last_cap_flush_tid (w_mdsc w) + budget w (c :: cs)).
    { pose proof (budget_nonneg w cs) as Hnn.
      destruct c as [ino s wk|ino s].
      - apply mark_flushing_step in E1 as (? & ? & ?); [|done|simpl in Hwrap; lia].
        split; [done|]. split; [done|]. simpl. lia.
      - apply flush_snaps_step in E1 as (? & ? & ?); [|done|simpl in *; lia].
        split; [done|]. split; [done|]. simpl in *. lia. }
    destruct Hstep as (Hwf1 & Hgrows1 & Hl1).
    apply IH in Hrest as [Hwf' Hgrows']; [|done|].
    + split; [done|]. by eapply flush_grows_trans.
    + rewrite (budget_grows w w1) by done. lia.
Qed.

(** C5.  From a well-formed flush tracker, and as long as the 64-bit
    counter does not wrap, any sequence of flush creations that
    completes leaves the global list and the list of every inode in
    strictly increasing order of tid; the lists only grew at their tails;
    every record that was appended has a tid above the counter as it was
    and up to the counter as it is, the tids of the older records being
    what they were; and the oldest outstanding tid, which
    [__get_oldest_flush_tid] reads at the head of the global list (0 for
    an empty list), did not go down. *)
Theorem flush_tids_increase (cs : list creation) (w w' : world) :
  flush_wf w ->
  last_cap_flush_tid (w_mdsc w) + budget w cs < 2 ^ 64 ->
  apply_creations cs w = Ok w' ->
  flush_wf w' ∧ flush_grows w w' ∧
  __get_oldest_flush_tid (w_mdsc w) = Ok (oldest_tid w) ∧
  __get_oldest_flush_tid (w_mdsc w') = Ok (oldest_tid w') ∧
  oldest_tid w <= oldest_tid w'.
Proof.
  intros Hwf Hwrap Hrun.
  destruct (apply_creations_wf cs w w' Hwf Hwrap Hrun) as [Hwf' Hgrows].
  split_and!; try done.
  - by apply oldest_tid_read.
  - by apply oldest_tid_read.
  - by apply oldest_tid_grows.
Qed.

End with_consts.

Lemma tid_world_wf : flush_wf tid_world.
Proof.
  unfold flush_wf. simpl. split_and!.
  - split; constructor.
  - intros cf Hcf. by apply elem_of_nil in Hcf.
  - done.
  - intros ino ci [<- <-]%lookup_singleton_Some. simpl. split_and!.
    + split; constructor.
    + intros cf Hcf. by apply elem_of_nil in Hcf.
    + intros cf [= <-]. split; [apply not_elem_of_nil|].
      intros ino' ci' [<- <-]%lookup_singleton_Some. simpl. split; [done|].
      intros cs ->%list_elem_of_singleton. simpl. discriminate.
Qed.

Lemma flush_tids_increase_witness :
  exists w',
    apply_creations (H := linux_consts) tid_run tid_world = Ok w' ∧
    flush_wf w' ∧
    cap_flush_list (w_mdsc w') = [8; 7]%nat ∧
    oldest_tid tid_world = 0 ∧ oldest_tid w' = 1.
Proof.
  destruct (apply_creations (H := linux_consts) tid_run tid_world)
    as [w'|f] eqn:E; [|exfalso; vm_compute in E; discriminate E].
  exists w'. split; [reflexivity|].
  assert (Hwrap : last_cap_flush_tid (w_mdsc tid_world) + budget tid_world tid_run
                  < 2 ^ 64) by (vm_compute; reflexivity).
  destruct (flush_tids_increase (H := linux_consts) tid_run tid_world w'
              tid_world_wf Hwrap E) as (Hwf' & _ & _ & _ & _).
  split; [exact Hwf'|].
  vm_compute in E. injection E as <-. repeat split; reflexivity.
Defined.

End TidFacts.

(** * Steps of the handlers *)
Module GrantSteps.
Import CapsFacts.

Lemma if_ok_bind {A B} (Q : B -> Prop) (m : res A) (k : A -> res B) :
  if_ok (fun a => if_ok Q (k a)) m -> if_ok Q (m ≫= k).
Proof. destruct m; simpl; auto. Qed.

Lemma if_ok_mono {A} (P Q : A -> Prop) (r : res A) :
  (forall a, P a -> Q a) -> if_ok P r -> if_ok Q r.
Proof. destruct r; simpl; auto. Qed.

Lemma if_ok_deref {A B} (Q : B -> Prop) (o : option A) (k : A -> res B) :
  (forall a, o = Some a -> if_ok Q (k a)) -> if_ok Q (deref o ≫= k).
Proof. destruct o; simpl; auto. Qed.

Lemma if_ok_run {A} (Q : A -> Prop) (r : res A) a : if_ok Q r -> r = Ok a -> Q a.
Proof. by intros H ->. Qed.

Lemma returns_bind {A B} (Q : B -> Prop) (m : res A) (k : A -> res B) :
  returns (fun a => returns Q (k a)) m -> returns Q (m ≫= k).
Proof. destruct m; simpl; auto. Qed.

Lemma returns_mono {A} (P Q : A -> Prop) (r : res A) :
  (forall a, P a -> Q a) -> returns P r -> returns Q r.
Proof. destruct r; simpl; auto. Qed.

Lemma returns_if_ok {A} (P Q : A -> Prop) (r : res A) :
  if_ok Q r -> returns P r -> returns (fun a => P a ∧ Q a) r.
Proof. destruct r; simpl; auto. Qed.

Lemma returns_run {A} (Q : A -> Prop) (r : res A) :
  returns Q r -> exists a, r = Ok a ∧ Q a.
Proof. destruct r; simpl; [eauto|done]. Qed.

Lemma returns_deref {A B} (Q : B -> Prop) (o : option A) (k : A -> res B) :
  is_Some o -> (forall a, o = Some a -> returns Q (k a)) ->
  returns Q (deref o ≫= k).
Proof. intros [a ->] H. simpl. by apply H. Qed.

Lemma kept_by_retain i m :
  Z.land i (Z.land (Z.lor i m) (Z.lnot (Z.land m (Z.lnot i)))) = i.
Proof. bitblast. Qed.

Lemma bits_subset_lor n i : bits_subset i (Z.lor n i).
Proof.
  intros k Hk. destruct (Z.neg_nonneg_cases k) as [Hneg|Hpos].
  - rewrite Z.testbit_neg_r in Hk by done. discriminate Hk.
  - rewrite Z.lor_spec, Hk. apply orb_true_r.
Qed.

Lemma tst_lor_l a b c : tst a c = true -> tst (Z.lor a b) c = true.
Proof.
  rewrite !tst_true. intros Ha Hab. apply Ha. bitblast.
Qed.

Lemma bits_subset_trans a b c :
  bits_subset a b -> bits_subset b c -> bits_subset a c.
Proof. unfold bits_subset. auto. Qed.

Lemma bits_subset_lor_l a b : bits_subset a (Z.lor a b).
Proof.
  intros k Hk. destruct (Z.neg_nonneg_cases k) as [Hneg|Hpos].
  - rewrite Z.testbit_neg_r in Hk by done. discriminate Hk.
  - by rewrite Z.lor_spec, Hk.
Qed.

Lemma bits_subset_of_land a b : Z.land a b = a -> bits_subset a b.
Proof.
  intros Hab n Hn. rewrite <- Hab in Hn. rewrite Z.land_spec in Hn.
  by apply andb_true_iff in Hn as [_ ?].
Qed.

Lemma bits_subset_tst a b : bits_subset a b <-> tst a (Z.lnot b) = false.
Proof.
  rewrite tst_false. split.
  - intros Hs. apply Z.bits_inj'. intros n Hn.
    rewrite Z.land_spec, Z.lnot_spec, Z.bits_0 by done.
    destruct (Z.testbit a n) eqn:Ha; [|done]. by rewrite (Hs n Ha).
  - intros Hz n Hn. destruct (Z.neg_nonneg_cases n) as [Hneg|Hpos].
    { rewrite Z.testbit_neg_r in Hn by done. discriminate Hn. }
    pose proof (f_equal (fun z => Z.testbit z n) Hz) as Hb. simpl in Hb.
    rewrite Z.land_spec, Z.lnot_spec, Z.bits_0, Hn in Hb by done.
    by destruct (Z.testbit b n).
Qed.

Section with_consts.
Context `{!KernelConsts}.

Lemma still_issued_same session bits ci ci' :
  i_caps ci' = i_caps ci -> still_issued session bits ci ->
  still_issued session bits ci'.
Proof. unfold still_issued. by intros ->. Qed.

Lemma still_issued_store session bits cap ci :
  Cap.mds cap = session -> bits_subset bits (Cap.issued cap) ->
  still_issued session bits (store_cap cap ci).
Proof.
  intros Hm Hb. exists cap. unfold store_cap. simpl.
  rewrite Hm, lookup_insert_eq. done.
Qed.

(** A [__prep_cap] that retains all that the cap holds keeps its issued
    bits. *)
Lemma prep_cap_keeps session bits ci cap used want :
  i_caps ci !! session = Some cap -> Cap.mds cap = session ->
  bits_subset bits (Cap.issued cap) ->
  if_ok (fun r => still_issued session bits r.1)
    (__prep_cap ci session used want
       (Z.lor (Cap.issued cap) (Cap.implemented cap))).
Proof.
  intros Hcap Hm Hb. unfold __prep_cap. rewrite Hcap. simpl.
  destruct (negb _); simpl; [done|].
  apply still_issued_store; [done|]. simpl.
  by rewrite kept_by_retain.
Qed.

Lemma kick_loop_keeps session bits e oldest l mdsc : forall ci first_tid acts,
  still_issued session bits ci ->
  if_ok (fun r => still_issued session bits r.1)
    (kick_loop e session oldest l mdsc ci first_tid acts).
Proof.
  induction l as [|cf l IH]; intros ci first_tid acts Hi; simpl; [done|].
  apply if_ok_deref. intros c _.
  case_decide; [by apply IH|].
  destruct (i_auth_cap ci) as [a|]; [|done].
  case_decide as Ha; [|done]. subst a.
  destruct (Flush.is_capsnap c); [by apply IH|].
  apply if_ok_deref. intros cap Hcap.
  destruct Hi as (cap' & Hcap' & Hm & Hb). rewrite Hcap in Hcap'.
  injection Hcap' as ->.
  apply if_ok_bind. eapply if_ok_mono; [|by apply prep_cap_keeps].
  intros [ci1 w] Hi1. apply if_ok_deref. intros ? _. by apply IH.
Qed.

Lemma kick_inode_keeps session bits e mdsc ci :
  still_issued session bits ci ->
  if_ok (fun r => still_issued session bits r.1.2)
    (ceph_kick_flushing_inode_caps e mdsc session ci).
Proof.
  intros Hi. unfold ceph_kick_flushing_inode_caps.
  destruct (bool_decide _); [done|].
  apply if_ok_deref. intros a _.
  apply if_ok_bind. destruct (move_tail_flushing _ _ _); simpl; [|done].
  apply if_ok_bind. destruct (__get_oldest_flush_tid _); simpl; [|done].
  apply if_ok_bind. unfold __kick_flushing_caps.
  destruct (tst _ _); simpl; [done|].
  eapply if_ok_mono; [|apply kick_loop_keeps; exact Hi].
  by intros [? ?].
Qed.

(** A merge with an old seq in [ceph_add_cap], which an import goes
    through, keeps the issued bits. *)
Lemma add_cap_keeps e mdsc ci session cap_id issued wanted seq mseq realmino
    flags new_cap realm cap s :
  i_caps ci !! session = Some cap -> Cap.mds cap = session ->
  sessions mdsc !! session = Some s ->
  ¬ Cap.cap_gen cap < s_cap_gen s ->
  ceph_seq_cmp seq (Cap.seq cap) <= 0 ->
  if_ok (fun r => still_issued session (Cap.issued cap) r.1.2)
    (ceph_add_cap e mdsc ci session cap_id issued wanted seq mseq realmino
       flags new_cap realm).
Proof.
  intros Hcap Hm Hs Hfresh Hseq.
  unfold ceph_add_cap, session_of, __get_cap_for_mds. rewrite Hs, Hcap. simpl.
  rewrite (decide_False (P := Cap.cap_gen cap < s_cap_gen s)) by done.
  rewrite decide_True by done. simpl.
  set (issued1 := Z.lor issued (Cap.issued cap)).
  match goal with
  | |- if_ok _ (__check_cap_issue _ _ ?c _ ≫= _) =>
      assert (Hc : i_caps c = <[session := cap]> (i_caps ci));
        [|generalize dependent c; intros ci1 Hci1]
  end.
  { unfold store_cap. rewrite Hm.
    destruct (match i_snap_realm _ with Some _ => _ | None => _ end);
      [destruct realm|]; reflexivity. }
  apply if_ok_bind.
  assert (Hchk : if_ok (fun c => i_caps c = i_caps ci1)
                   (__check_cap_issue e mdsc ci1 issued1)).
  { unfold __check_cap_issue. apply if_ok_bind.
    destruct (__ceph_caps_issued _ _ _) as [[? ?]|]; simpl; [|done].
    by repeat case_match. }
  eapply if_ok_mono; [|exact Hchk]. intros ci2 Hci2.
  rewrite Hci2, Hci1, lookup_insert_eq. simpl.
  apply if_ok_bind.
  match goal with
  | |- if_ok _ ?X =>
      assert (Hauth : if_ok (fun r => Cap.mds r.2 = session) X)
  end.
  { destruct (tst _ _); [|done].
    apply if_ok_bind.
    match goal with
    | |- if_ok _ ?Y => destruct Y as [[|]|]; simpl; try done
    end.
    apply if_ok_bind.
    match goal with
    | |- if_ok _ ?Y => destruct Y; simpl; try done
    end. }
  eapply if_ok_mono; [|exact Hauth].
  intros [[m3 ci3] cap3] Hm3. simpl in Hm3.
  apply still_issued_store.
  - by destruct (decide _).
  - destruct (decide _); simpl; apply bits_subset_lor.
Qed.

End with_consts.

End GrantSteps.

(** * Export ahead of the import *)
Module ExportFacts.
Import CapsFacts GrantSteps.

Section with_consts.
Context `{!KernelConsts}.

Lemma cap_is_valid_read e mdsc c :
  is_Some (sessions mdsc !! Cap.mds c) ->
  __cap_is_valid e mdsc c = Ok (cap_valid_b e (sessions mdsc) c).
Proof.
  intros [s Hs]. unfold __cap_is_valid, session_of, cap_valid_b. rewrite Hs. simpl.
  by destruct (_ || _).
Qed.

Lemma cap_valid_same e ss ss' c :
  sess_same ss ss' -> cap_valid_b e ss' c = cap_valid_b e ss c.
Proof.
  intros Hsame. specialize (Hsame (Cap.mds c)). unfold cap_valid_b.
  destruct (ss !! Cap.mds c), (ss' !! Cap.mds c); simpl in Hsame; try done.
  unfold sess_view in Hsame. by injection Hsame as -> ->.
Qed.

(** The loop of [__ceph_caps_issued]. *)
Lemma fold_issued e mdsc h0 i0 (caps : gmap Z Cap.t) :
  (forall k c, caps !! k = Some c -> is_Some (sessions mdsc !! Cap.mds c)) ->
  exists have impl,
    map_fold (issued_step e mdsc) (Ok (h0, i0)) caps = Ok (have, impl) ∧
    forall n, 0 <= n ->
      (Z.testbit have n = true <-> issued_bit e (sessions mdsc) h0 caps n).
Proof.
  apply (map_fold_weak_ind
    (fun r (m : gmap Z Cap.t) =>
       (forall k c, m !! k = Some c -> is_Some (sessions mdsc !! Cap.mds c)) ->
       exists have impl, r = Ok (have, impl) ∧
         forall n, 0 <= n ->
           (Z.testbit have n = true <-> issued_bit e (sessions mdsc) h0 m n))).
  - intros _. exists h0, i0. split; [done|]. intros n Hn. unfold issued_bit.
    split; [by left|]. intros [?|(k & c & Hc & _)]; [done|].
    by rewrite lookup_empty in Hc.
  - intros k c m r Hk IH Hall.
    destruct IH as (have & impl & -> & Hbits).
    { intros k' c' Hc'. apply (Hall k'). rewrite lookup_insert_ne; [done|].
      intros ->. by rewrite Hk in Hc'. }
    unfold issued_step. simpl.
    rewrite cap_is_valid_read by (apply (Hall k); by rewrite lookup_insert_eq).
    simpl. destruct (cap_valid_b e (sessions mdsc) c) eqn:Hv.
    + eexists _, _. split; [done|]. intros n Hn.
      rewrite Z.lor_spec, orb_true_iff, Hbits by done. unfold issued_bit. split.
      * intros [[?|(k' & c' & Hc' & ? & ?)]|Hc].
        -- by left.
        -- right. exists k', c'. split; [|done].
           rewrite lookup_insert_ne; [done|]. intros ->. by rewrite Hk in Hc'.
        -- right. exists k, c. by rewrite lookup_insert_eq.
      * intros [?|(k' & c' & Hc' & Hv' & Hb')]; [left; by left|].
        destruct (decide (k = k')) as [<-|Hne].
        -- rewrite lookup_insert_eq in Hc'. injection Hc' as <-. by right.
        -- rewrite lookup_insert_ne in Hc' by done. left. right. eauto.
    + eexists _, _. split; [done|]. intros n Hn.
      rewrite Hbits by done. unfold issued_bit. split.
      * intros [?|(k' & c' & Hc' & ? & ?)]; [by left|].
        right. exists k', c'. split; [|done].
        rewrite lookup_insert_ne; [done|]. intros ->. by rewrite Hk in Hc'.
      * intros [?|(k' & c' & Hc' & Hv' & Hb')]; [by left|].
        destruct (decide (k = k')) as [<-|Hne].
        -- rewrite lookup_insert_eq in Hc'. injection Hc' as <-. congruence.
        -- rewrite lookup_insert_ne in Hc' by done. right. eauto.
Qed.

Lemma sess_same_refl ss : sess_same ss ss.
Proof. by intros k. Qed.

Lemma sess_same_trans ss1 ss2 ss3 :
  sess_same ss1 ss2 -> sess_same ss2 ss3 -> sess_same ss1 ss3.
Proof. intros H12 H23 k. by rewrite H23, H12. Qed.

Lemma sess_same_del_dirty ino ss : sess_same ss (del_dirty_item ino ss).
Proof.
  intros k. unfold del_dirty_item. rewrite lookup_fmap. by destruct (ss !! k).
Qed.

Lemma sess_same_del_flushing ino ss : sess_same ss (del_flushing_item ino ss).
Proof.
  intros k. unfold del_flushing_item. rewrite lookup_fmap. by destruct (ss !! k).
Qed.

Lemma sess_same_insert ss k s s' :
  ss !! k = Some s -> sess_view s' = sess_view s -> sess_same ss (<[k := s']> ss).
Proof.
  intros Hs Hv k'. destruct (decide (k = k')) as [<-|Hne].
  - rewrite lookup_insert_eq, Hs. simpl. by rewrite Hv.
  - by rewrite lookup_insert_ne.
Qed.

Lemma move_tail_flushing_same ino smds ss :
  if_ok (fun ss' => sess_same ss ss') (move_tail_flushing ino smds ss).
Proof.
  unfold move_tail_flushing.
  destruct (del_flushing_item ino ss !! smds) as [s|] eqn:Hs; simpl; [|done].
  eapply sess_same_trans; [apply sess_same_del_flushing|].
  by eapply sess_same_insert.
Qed.

Lemma move_dirty_same ino smds ss :
  if_ok (fun ss' => sess_same ss ss') (move_dirty ino smds ss).
Proof.
  unfold move_dirty.
  destruct (del_dirty_item ino ss !! smds) as [s|] eqn:Hs; simpl; [|done].
  eapply sess_same_trans; [apply sess_same_del_dirty|].
  by eapply sess_same_insert.
Qed.

Lemma change_auth_cap_ses_same mdsc ci smds :
  if_ok (fun m => sess_same (sessions mdsc) (sessions m))
    (change_auth_cap_ses mdsc ci smds).
Proof.
  unfold change_auth_cap_ses. destruct (_ && _); [apply sess_same_refl|].
  apply if_ok_bind.
  eapply if_ok_mono with (P := fun ss1 => sess_same (sessions mdsc) ss1).
  2:{ destruct (i_dirty_item ci); [apply move_dirty_same|apply sess_same_refl]. }
  intros ss1 H1. apply if_ok_bind.
  eapply if_ok_mono with (P := fun ss2 => sess_same ss1 ss2).
  2:{ destruct (i_flushing_item ci);
        [apply move_tail_flushing_same|apply sess_same_refl]. }
  intros ss2 H2. simpl. by eapply sess_same_trans.
Qed.

Lemma check_cap_issue_same e mdsc ci issued :
  if_ok (fun c => i_caps c = i_caps ci ∧ i_snap_caps c = i_snap_caps ci ∧
                  i_auth_cap c = i_auth_cap ci ∧
                  i_cap_flush_list c = i_cap_flush_list ci ∧ i_ino c = i_ino ci)
    (__check_cap_issue e mdsc ci issued).
Proof.
  unfold __check_cap_issue. apply if_ok_bind.
  destruct (__ceph_caps_issued _ _ _) as [[? ?]|]; simpl; [|done].
  by repeat case_match.
Qed.

Lemma add_placeholder e mdsc ci target cap_id issued seq mseq flag new_cap
    realm ts wanted realmino :
  i_caps ci !! target = None -> sessions mdsc !! target = Some ts ->
  if_ok (fun r =>
           (exists tcap, i_caps r.1.2 = <[target := tcap]> (i_caps ci) ∧
                         placeholder target issued ts tcap) ∧
           i_snap_caps r.1.2 = i_snap_caps ci ∧
           sess_same (sessions mdsc) (sessions r.1.1) ∧
           (i_auth_cap r.1.2 = i_auth_cap ci ∨
            (tst flag CEPH_CAP_FLAG_AUTH = true ∧
             i_auth_cap r.1.2 = Some target)))
    (ceph_add_cap e mdsc ci target cap_id issued wanted seq mseq realmino flag
       new_cap realm).
Proof.
  intros Hnone Hts. unfold ceph_add_cap, session_of, __get_cap_for_mds.
  rewrite Hts, Hnone. simpl.
  destruct new_cap; simpl; [|done].
  unfold __insert_cap_node. simpl. rewrite Hnone. simpl.
  set (c0 := Cap.mk 0 target 0 0 0 0 0 0 0).
  match goal with
  | |- if_ok _ (__check_cap_issue _ _ ?c _ ≫= _) =>
      assert (Hc : i_caps c = <[target := c0]> (i_caps ci) ∧
                   i_snap_caps c = i_snap_caps ci ∧
                   i_auth_cap c = i_auth_cap ci);
        [|generalize dependent c; intros ci1 (Hcaps1 & Hsnap1 & Hauth1)]
  end.
  { destruct (match i_snap_realm _ with Some _ => _ | None => _ end);
      [destruct realm|]; done. }
  apply if_ok_bind. eapply if_ok_mono; [|apply check_cap_issue_same].
  intros ci2 (Hcaps2 & Hsnap2 & Hauth2 & _).
  rewrite Hcaps2, Hcaps1, lookup_insert_eq. simpl.
  apply if_ok_bind.
  match goal with
  | |- if_ok _ ?X =>
      assert (Hauth : if_ok (fun r =>
                sess_same (sessions mdsc) (sessions r.1.1) ∧
                i_caps r.1.2 = i_caps ci2 ∧ i_snap_caps r.1.2 = i_snap_caps ci2 ∧
                Cap.mds r.2 = target ∧ Cap.implemented r.2 = 0 ∧
                (i_auth_cap r.1.2 = i_auth_cap ci2 ∨
                 (tst flag CEPH_CAP_FLAG_AUTH = true ∧
                  i_auth_cap r.1.2 = Some target))) X)
  end.
  { destruct (tst flag CEPH_CAP_FLAG_AUTH) eqn:Hflag.
    2:{ simpl. split_and!; first [done | apply sess_same_refl | by left]. }
    apply if_ok_bind.
    match goal with
    | |- if_ok _ ?Y => destruct Y as [[|]|]; simpl; try done
    end.
    2:{ split_and!; first [done | apply sess_same_refl | by left]. }
    apply if_ok_bind.
    eapply if_ok_mono with (P := fun m => sess_same (sessions mdsc) (sessions m)).
    { intros m Hm. simpl. split_and!; first [done | by right]. }
    destruct (i_auth_cap ci2) as [a|]; [|apply sess_same_refl].
    case_decide; [apply change_auth_cap_ses_same|apply sess_same_refl]. }
  eapply if_ok_mono; [|exact Hauth].
  intros [[m3 ci3] cap3] (Hs3 & Hcaps3 & Hsnap3 & Hm3 & Hi3 & Ha3). simpl in *.
  split_and!.
  - eexists. split.
    + unfold store_cap. simpl.
      replace (Cap.mds _) with target by (by destruct (decide _)).
      rewrite Hcaps3, Hcaps2, Hcaps1, insert_insert_eq. reflexivity.
    + unfold placeholder. destruct (decide _); simpl; rewrite Hi3; done.
  - congruence.
  - done.
  - destruct Ha3 as [Ha3|Ha3]; [left; congruence|by right].
Qed.


Lemma export_first_pass e mdsc ci mds cap t_cap_id t_issue_seq t_mseq target
    nc realm :
  i_caps ci !! mds = Some cap -> 0 <= target -> i_caps ci !! target = None ->
  export_pass e mdsc ci mds (Cap.cap_id cap) t_cap_id t_issue_seq t_mseq target
    false nc realm = Ok ExportOpenTarget.
Proof.
  intros Hcap Htarget Hnone. unfold export_pass, __get_cap_for_mds.
  rewrite Hcap. case_decide; [done|]. case_decide; [lia|]. by rewrite Hnone.
Qed.


(** ** The handler completes *)

Lemma sess_same_some ss ss' k :
  sess_same ss ss' -> is_Some (ss !! k) -> is_Some (ss' !! k).
Proof.
  intros Hsame [s Hs]. specialize (Hsame k). rewrite Hs in Hsame.
  destruct (ss' !! k); [eauto|done].
Qed.

Lemma move_tail_flushing_runs ino smds ss :
  is_Some (ss !! smds) ->
  returns (fun _ => True) (move_tail_flushing ino smds ss).
Proof.
  intros Hs. unfold move_tail_flushing.
  apply (sess_same_some _ _ _ (sess_same_del_flushing ino ss)) in Hs.
  by destruct Hs as [s ->].
Qed.

Lemma move_dirty_runs ino smds ss :
  is_Some (ss !! smds) -> returns (fun _ => True) (move_dirty ino smds ss).
Proof.
  intros Hs. unfold move_dirty.
  apply (sess_same_some _ _ _ (sess_same_del_dirty ino ss)) in Hs.
  by destruct Hs as [s ->].
Qed.

Lemma change_auth_cap_ses_runs mdsc ci smds :
  is_Some (sessions mdsc !! smds) ->
  returns (fun m => pool m = pool mdsc) (change_auth_cap_ses mdsc ci smds).
Proof.
  intros Hs. unfold change_auth_cap_ses. destruct (_ && _); [done|].
  apply returns_bind.
  eapply returns_mono
    with (P := fun ss1 => True ∧ sess_same (sessions mdsc) ss1).
  2:{ apply returns_if_ok.
      - destruct (i_dirty_item ci); [apply move_dirty_same|apply sess_same_refl].
      - destruct (i_dirty_item ci); [by apply move_dirty_runs|done]. }
  intros ss1 [_ H1]. apply returns_bind.
  eapply returns_mono with (P := fun _ => True); [done|].
  destruct (i_flushing_item ci); [|done].
  apply move_tail_flushing_runs. by eapply sess_same_some.
Qed.

Lemma caps_issued_runs e mdsc ci :
  caps_have_sessions mdsc ci ->
  (forall a, i_auth_cap ci = Some a -> is_Some (i_caps ci !! a)) ->
  returns (fun _ => True) (__ceph_caps_issued e mdsc ci).
Proof.
  intros Hsess Hauth.
  destruct (fold_issued e mdsc (i_snap_caps ci) 0 (i_caps ci) Hsess)
    as (h & i & Hf & _).
  unfold __ceph_caps_issued. rewrite Hf. simpl.
  destruct (i_auth_cap ci) as [a|]; [|done].
  by destruct (Hauth a eq_refl) as [c ->].
Qed.

Lemma check_cap_issue_runs e mdsc ci issued :
  caps_have_sessions mdsc ci ->
  (forall a, i_auth_cap ci = Some a -> is_Some (i_caps ci !! a)) ->
  returns (fun _ => True) (__check_cap_issue e mdsc ci issued).
Proof.
  intros Hsess Hauth. unfold __check_cap_issue. apply returns_bind.
  eapply returns_mono; [|by apply caps_issued_runs].
  by intros [h i] _.
Qed.

Lemma put_cap_runs p :
  Pool.conserved p -> returns Pool.conserved (Pool.ceph_put_cap p).
Proof.
  intros Hp. pose proof (PoolFacts.put_sound p Hp) as Hs.
  destruct (Pool.ceph_put_cap p) as [p'|f] eqn:E; [exact Hs|].
  destruct Hs as [Hs _]. exfalso. apply Hs.
  unfold Pool.ceph_put_cap, BUG_ON in E.
  case_decide; destruct (negb _); simpl in E; congruence.
Qed.

Lemma get_cap_runs p alloc_ok :
  Pool.conserved p ->
  alloc_ok = true ∨
  (Pool.caps_avail_count p ≠ 0 ∧ Pool.caps_list p ≠ 0%nat) ->
  returns (fun r => Pool.conserved r.1.1 ∧ r.2 = true)
    (Pool.ceph_get_cap p None alloc_ok).
Proof.
  intros Hp Hal. pose proof (PoolFacts.get_sound p None alloc_ok Hp) as Hs.
  destruct (Pool.ceph_get_cap p None alloc_ok) as [[[p' c] got]|f] eqn:E.
  - simpl in *. split; [done|].
    unfold Pool.ceph_get_cap, BUG_ON, Pool.take_from_list in E.
    destruct alloc_ok; [congruence|].
    destruct Hal as [?|[Ha Hl]]; [done|].
    rewrite decide_True in E by done.
    repeat case_match; simpl in E; try by simplify_eq.
    destruct (negb _); simpl in E; by simplify_eq.
  - exfalso. unfold Pool.ceph_get_cap, BUG_ON, Pool.take_from_list in E.
    destruct alloc_ok; [congruence|].
    destruct Hal as [?|[Ha Hl]]; [done|].
    rewrite decide_True in E by done.
    rewrite bool_decide_eq_false_2 in E by done. simpl in E.
    rewrite decide_False in E by (simpl; lia). simpl in E.
    destruct Hs as [Hs _]. apply Hs.
    destruct (negb _); simpl in E; congruence.
Qed.

Lemma add_placeholder_runs e mdsc ci target cap_id issued seq mseq flag realm
    ts wanted realmino :
  caps_have_sessions mdsc ci ->
  (forall a, i_auth_cap ci = Some a -> is_Some (i_caps ci !! a)) ->
  i_caps ci !! target = None -> sessions mdsc !! target = Some ts ->
  returns (fun r => pool r.1.1 = pool mdsc)
    (ceph_add_cap e mdsc ci target cap_id issued wanted seq mseq realmino flag
       true realm).
Proof.
  intros Hsess Hauth Hnone Hts. unfold ceph_add_cap, session_of, __get_cap_for_mds.
  rewrite Hts, Hnone. simpl.
  unfold __insert_cap_node. simpl. rewrite Hnone. simpl.
  set (c0 := Cap.mk 0 target 0 0 0 0 0 0 0).
  match goal with
  | |- returns _ (__check_cap_issue _ _ ?c _ ≫= _) =>
      assert (Hc : i_caps c = <[target := c0]> (i_caps ci) ∧
                   i_auth_cap c = i_auth_cap ci);
        [|generalize dependent c; intros ci1 (Hcaps1 & Hauth1)]
  end.
  { destruct (match i_snap_realm _ with Some _ => _ | None => _ end);
      [destruct realm|]; done. }
  apply returns_bind.
  eapply returns_mono; [|apply returns_if_ok;
                          [apply check_cap_issue_same|apply check_cap_issue_runs]].
  2:{ intros k c. rewrite Hcaps1. intros [[<- <-]|[_ Hc]]%lookup_insert_Some.
      - simpl. by rewrite Hts.
      - by eapply Hsess. }
  2:{ intros a Ha. rewrite Hcaps1. rewrite Hauth1 in Ha.
      destruct (Hauth a Ha) as [ca Hca]. exists ca.
      rewrite lookup_insert_ne; [done|]. intros <-. congruence. }
  intros ci2 (_ & Hcaps2 & _ & Hauth2 & _). simpl.
  rewrite Hcaps2, Hcaps1, lookup_insert_eq. simpl.
  apply returns_bind.
  match goal with
  | |- returns _ ?X =>
      assert (Hstep : returns (fun r => pool r.1.1 = pool mdsc) X)
  end.
  { destruct (tst flag CEPH_CAP_FLAG_AUTH); [|done].
    apply returns_bind. rewrite Hauth2, Hauth1.
    destruct (i_auth_cap ci) as [a|] eqn:Ha.
    - destruct (Hauth a eq_refl) as [ca Hca].
      assert (Hne : target ≠ a) by (intros <-; congruence).
      rewrite lookup_insert_ne, Hca by done. simpl.
      destruct (bool_decide _); [|done].
      apply returns_bind. case_decide; [|done].
      eapply returns_mono; [|apply change_auth_cap_ses_runs; by rewrite Hts].
      by intros m Hm.
    - simpl. done. }
  eapply returns_mono; [|exact Hstep].
  by intros [[m3 ci3] cap3] Hp.
Qed.

Lemma remove_runs mdsc ci mds qr :
  is_Some (i_caps ci !! mds) -> is_Some (sessions mdsc !! mds) ->
  Pool.conserved (pool mdsc) ->
  returns (fun r => Pool.conserved (pool r.1.1))
    (__ceph_remove_cap mdsc ci mds qr).
Proof.
  intros [c Hc] [s Hs] Hp. unfold __ceph_remove_cap, session_of.
  rewrite Hc, Hs. simpl. apply returns_bind.
  eapply returns_mono with (P := Pool.conserved); [by intros p' Hp'|].
  destruct (_ && _); [by apply put_cap_runs|done].
Qed.







End with_consts.




End ExportFacts.
(** * What a grant and the reconciliation after it leave of the caps *)
Module Reconcile.
Import CapsFacts GrantSteps ExportFacts.

Ltac rstep :=
  match goal with
  | |- if_ok _ (Ok _) => simpl
  | |- if_ok _ (Oops _) => exact I
  | |- if_ok _ (deref _ ≫= _) => apply if_ok_deref; intros ? ?
  | |- if_ok _ (session_of _ _ ≫= _) => unfold session_of
  | |- if_ok _ (BUG_ON ?c _ ≫= _) => unfold BUG_ON; destruct c
  | |- if_ok _ (__get_oldest_flush_tid ?m ≫= _) =>
      destruct (__get_oldest_flush_tid m)
  | |- if_ok _ ((if ?c then _ else _) ≫= _) => destruct c
  | |- if_ok _ (if ?c then _ else _) => destruct c
  | |- if_ok _ (Ok _ ≫= _) => simpl
  | |- if_ok _ (Oops _ ≫= _) => exact I
  | |- if_ok _ ((_ ≫= _) ≫= _) => apply if_ok_bind
  | |- if_ok _ (let '(_, _) := ?c in _) => destruct c
  end.

Lemma bits_subset_self a : bits_subset a a.
Proof. by intros ?. Qed.

Lemma bits_subset_land_keep a k : bits_subset (Z.land a k) a.
Proof.
  intros n. rewrite Z.land_spec. by intros [? _]%andb_true_iff.
Qed.

Lemma caps_frame_refl ci : caps_frame ci ci.
Proof. unfold caps_frame. done. Qed.

Lemma caps_frame_trans a b c : caps_frame a b -> caps_frame b c -> caps_frame a c.
Proof.
  unfold caps_frame.
  intros (?&?&?&?&?&?&?&?&?&?&?&?&?&?&?&?&?) (?&?&?&?&?&?&?&?&?&?&?&?&?&?&?&?&?).
  split_and!; congruence.
Qed.

Lemma framed_refl ci : framed ci ci.
Proof. unfold framed. split; [apply caps_frame_refl|done]. Qed.

Lemma framed_trans a b c : framed a b -> framed b c -> framed a c.
Proof.
  intros (?&?&?) (?&?&?). unfold framed.
  split; [by eapply caps_frame_trans|]. split; congruence.
Qed.

Lemma untouched_refl ci : untouched ci ci.
Proof. unfold untouched. by split_and!. Qed.

Lemma untouched_trans a b c : untouched a b -> untouched b c -> untouched a c.
Proof.
  intros (?&?) (?&?). split; [congruence|by eapply framed_trans].
Qed.

Section with_consts.
Context `{!KernelConsts}.

Lemma file_wanted_frame e ci ci' :
  caps_frame ci ci' ->
  __ceph_caps_file_wanted e ci' = __ceph_caps_file_wanted e ci.
Proof.
  intros (_&Hk&_&_&_&_&_&Hn&Hr&Hw&_).
  unfold __ceph_caps_file_wanted, nr_by_mode. by rewrite Hk, Hn, Hr, Hw.
Qed.

Lemma used_untouched ci ci' :
  untouched ci ci' -> __ceph_caps_used ci' = __ceph_caps_used ci.
Proof.
  intros (_ & (_&Hk&_&_&_&_&_&_&_&_&H1&H2&H3&H4&H5&H6&H7) & _ & Hp).
  unfold __ceph_caps_used. by rewrite Hk, Hp, H1, H2, H3, H4, H5, H6, H7.
Qed.

Lemma held_back_untouched e ci ci' :
  untouched ci ci' -> held_back e ci' = held_back e ci.
Proof.
  intros Hu. unfold held_back.
  rewrite (used_untouched _ _ Hu). by rewrite (file_wanted_frame e ci ci') by apply Hu.
Qed.

Lemma held_back_less e ci ci' :
  caps_frame ci ci' ->
  bits_subset (__ceph_caps_used ci') (__ceph_caps_used ci) ->
  bits_subset (held_back e ci') (held_back e ci).
Proof.
  intros Hf Hu n. unfold held_back. rewrite (file_wanted_frame e ci ci' Hf).
  destruct (Z.neg_nonneg_cases n) as [Hneg|Hpos].
  { rewrite Z.testbit_neg_r by done. discriminate. }
  rewrite !Z.lor_spec, !orb_true_iff.
  intros [?|[?|?]]; auto.
Qed.

Lemma same_cap_less_refl keep cap : same_cap_less keep cap cap.
Proof.
  unfold same_cap_less. do 6 (split; [done|]).
  split; [apply bits_subset_land_keep|]. split; apply bits_subset_self.
Qed.

Lemma same_cap_less_trans keep1 keep2 a b c :
  bits_subset keep2 keep1 ->
  same_cap_less keep1 a b -> same_cap_less keep2 b c -> same_cap_less keep2 a c.
Proof.
  intros Hk (?&?&?&?&?&?&Hk1&Hi1&Hm1) (?&?&?&?&?&?&Hk2&Hi2&Hm2).
  unfold same_cap_less. do 6 (split; [congruence|]).
  split; [|split].
  - intros n Hn. rewrite Z.land_spec in Hn.
    apply andb_true_iff in Hn as [Hi Hkeep]. apply Hk2.
    rewrite Z.land_spec, Hkeep, andb_true_r. apply Hk1.
    by rewrite Z.land_spec, Hi, (Hk n Hkeep).
  - by eapply bits_subset_trans.
  - by eapply bits_subset_trans.
Qed.

Lemma reconciled_refl e ci : reconciled e ci ci.
Proof.
  split; [done|]. split; [apply caps_frame_refl|]. split; [done|].
  split; [apply bits_subset_self|].
  intros mds cap Hcap. exists cap. split; [done|]. apply same_cap_less_refl.
Qed.

Lemma reconciled_trans e a b c :
  reconciled e a b -> reconciled e b c -> reconciled e a c.
Proof.
  intros (Hd1 & Hf1 & Hm1 & Hu1 & Hc1) (Hd2 & Hf2 & Hm2 & Hu2 & Hc2).
  split; [congruence|]. split; [by eapply caps_frame_trans|].
  split; [congruence|]. split; [by eapply bits_subset_trans|].
  intros mds cap Hcap.
  destruct (Hc1 mds cap Hcap) as (cap1 & Hcap1 & Hs1).
  destruct (Hc2 mds cap1 Hcap1) as (cap2 & Hcap2 & Hs2).
  exists cap2. split; [done|].
  eapply same_cap_less_trans; [|exact Hs1|exact Hs2].
  by apply held_back_less.
Qed.

Lemma reconciled_same e ci ci' :
  i_caps ci' = i_caps ci -> caps_frame ci ci' ->
  i_max_size ci' = i_max_size ci ->
  bits_subset (__ceph_caps_used ci') (__ceph_caps_used ci) ->
  reconciled e ci ci'.
Proof.
  intros Hc Hf Hm Hu. unfold reconciled. rewrite Hc.
  split; [done|]. split; [done|]. split; [done|]. split; [done|].
  intros mds cap Hcap. exists cap. split; [done|]. apply same_cap_less_refl.
Qed.

Lemma reconciled_untouched e ci ci' : untouched ci ci' -> reconciled e ci ci'.
Proof.
  intros Hu. pose proof (used_untouched _ _ Hu) as Hused.
  destruct Hu as (?&?&?&?).
  apply reconciled_same; try done. rewrite Hused. apply bits_subset_self.
Qed.

Lemma reconciled_keyed e ci ci' :
  caps_keyed ci -> reconciled e ci ci' -> caps_keyed ci'.
Proof.
  intros Hkey (Hd & _ & _ & _ & Hc) k c' Hc'.
  assert (Hin : k ∈ dom (i_caps ci)) by (rewrite <- Hd; by eapply elem_of_dom_2).
  apply elem_of_dom in Hin as [c Hcap].
  destruct (Hc k c Hcap) as (c'' & Hc'' & Hm & _).
  rewrite Hc' in Hc''. injection Hc'' as <-. rewrite Hm. by eapply Hkey.
Qed.

(** [__prep_cap] keeps the issued bits that it is told to retain. *)
Lemma prep_cap_reconciled e ci mds cap_used want retain :
  caps_keyed ci ->
  (forall cap, i_caps ci !! mds = Some cap ->
     bits_subset (Z.land (Cap.issued cap) (held_back e ci)) retain) ->
  if_ok (fun r => reconciled e ci r.1)
    (__prep_cap ci mds cap_used want retain).
Proof.
  intros Hkey Hret. unfold __prep_cap.
  destruct (i_caps ci !! mds) as [cap|] eqn:Hcap; simpl; [|done].
  unfold BUG_ON. destruct (negb _); simpl; [done|].
  pose proof (Hkey _ _ Hcap) as Hm. specialize (Hret cap eq_refl).
  match goal with
  | |- reconciled _ _ (store_cap ?c ?i) =>
      set (cap' := c);
      assert (Hi : untouched ci i)
        by (unfold untouched, framed, caps_frame; by repeat case_match);
      generalize dependent i; intros ci1 Hu1
  end.
  assert (Hm' : Cap.mds cap' = mds) by done.
  pose proof (held_back_untouched e _ _ Hu1) as Hheld.
  pose proof (used_untouched _ _ Hu1) as Hused.
  destruct Hu1 as (Hcaps1 & Hf1 & Hmax1 & Hp1).
  assert (Hheld' : held_back e (store_cap cap' ci1) = held_back e ci).
  { rewrite <- Hheld. reflexivity. }
  split; [|split; [|split; [|split]]].
  - unfold store_cap. simpl. rewrite ?Hm', ?Hm, Hcaps1, dom_insert_L.
    apply subseteq_union_1_L, singleton_subseteq_l. by eapply elem_of_dom_2.
  - exact Hf1.
  - exact Hmax1.
  - change (__ceph_caps_used (store_cap cap' ci1)) with (__ceph_caps_used ci1).
    rewrite Hused. apply bits_subset_self.
  - intros k c Hc. rewrite Hheld'. unfold store_cap. simpl.
    rewrite ?Hm', ?Hm, Hcaps1. destruct (decide (k = mds)) as [->|Hne].
    + rewrite lookup_insert_eq. rewrite Hcap in Hc. injection Hc as <-.
      eexists. split; [done|]. subst cap'. unfold same_cap_less. simpl.
      do 6 (split; [done|]). split; [|split].
      * intros j Hj. pose proof (Hret j Hj) as Hr.
        rewrite Z.land_spec in Hj. apply andb_true_iff in Hj as [Hi _].
        destruct (Z.neg_nonneg_cases j) as [Hneg|Hpos].
        { rewrite Z.testbit_neg_r in Hi by done. discriminate Hi. }
        rewrite !Z.land_spec, Z.lnot_spec, Z.land_spec, Z.lnot_spec by done.
        rewrite Hi, Hr. simpl. by rewrite andb_false_r.
      * apply bits_subset_land_keep.
      * apply bits_subset_land_keep.
    + rewrite lookup_insert_ne by done. exists c. split; [done|].
      apply same_cap_less_refl.
Qed.

Lemma kick_loop_reconciled e session oldest mdsc l : forall ci first_tid acts,
  caps_keyed ci ->
  if_ok (fun r => reconciled e ci r.1)
    (kick_loop e session oldest l mdsc ci first_tid acts).
Proof.
  induction l as [|cf l IH]; intros ci first_tid acts Hkey; simpl;
    [by apply reconciled_refl|].
  apply if_ok_deref. intros c _.
  case_decide; [by apply IH|].
  destruct (i_auth_cap ci) as [a|]; [|by apply reconciled_refl].
  case_decide as Ha; [|by apply reconciled_refl]. subst a.
  destruct (Flush.is_capsnap c); [by apply IH|].
  apply if_ok_deref. intros cap Hcap.
  apply if_ok_bind.
  eapply if_ok_mono; [|apply (prep_cap_reconciled e); [done|]].
  - intros [ci1 w] Hs1. simpl in Hs1. apply if_ok_deref. intros ? _.
    eapply if_ok_mono; [|apply IH; by eapply reconciled_keyed].
    intros r Hr. eapply reconciled_trans; eauto.
  - intros cap0 Hcap0. rewrite Hcap in Hcap0. injection Hcap0 as <-.
    intros k. rewrite Z.land_spec, Z.lor_spec.
    intros [-> _]%andb_true_iff. done.
Qed.

Lemma kick_flushing_reconciled e mdsc session ci oldest :
  caps_keyed ci ->
  if_ok (fun r => reconciled e ci r.1)
    (__kick_flushing_caps e mdsc session ci oldest).
Proof.
  intros Hkey. unfold __kick_flushing_caps.
  destruct (tst _ _); [by apply reconciled_refl|]. cbv zeta.
  eapply if_ok_mono; [|apply kick_loop_reconciled].
  - intros r Hr. eapply reconciled_trans; [|exact Hr].
    apply reconciled_untouched. unfold untouched, framed, caps_frame. done.
  - done.
Qed.

Lemma flush_snaps_assign_untouched session l : forall st,
  if_ok (fun st' => untouched (fs_ci st) (fs_ci st') ∧
                    sess_same (sessions (fs_mdsc st)) (sessions (fs_mdsc st')))
    (flush_snaps_assign session l st).
Proof.
  induction l as [|cs l IH]; intros st;
    [split; [apply untouched_refl|apply sess_same_refl]|].
  cbn [flush_snaps_assign]. cbv zeta.
  destruct (_ || _); [split; [apply untouched_refl|apply sess_same_refl]|].
  unfold BUG_ON. destruct (negb _); simpl; [done|].
  apply if_ok_deref. intros c _.
  case_decide; [by apply IH|].
  apply if_ok_bind.
  match goal with
  | |- if_ok _ ?X => destruct X as [oldest|]; simpl; [|done]
  end.
  apply if_ok_bind.
  destruct (i_flushing_item (fs_ci st)); simpl.
  - eapply if_ok_mono; [|apply IH]. simpl. intros st' [Hu Hs]. split.
    + eapply untouched_trans; [|exact Hu]. unfold untouched, framed, caps_frame. done.
    + exact Hs.
  - unfold session_of. simpl.
    destruct (sessions (fs_mdsc st) !! session) as [s|] eqn:Hs; simpl; [|done].
    eapply if_ok_mono; [|apply IH]. simpl. intros st' [Hu Hs']. split.
    + eapply untouched_trans; [|exact Hu]. unfold untouched, framed, caps_frame. done.
    + eapply sess_same_trans; [|exact Hs']. by eapply sess_same_insert.
Qed.

Lemma flush_snaps_untouched mdsc ci session :
  if_ok (fun st' => untouched ci (fs_ci st') ∧
                    sess_same (sessions mdsc) (sessions (fs_mdsc st')))
    (__ceph_flush_snaps mdsc ci session).
Proof.
  unfold __ceph_flush_snaps. apply if_ok_bind.
  eapply if_ok_mono;
    [|apply (flush_snaps_assign_untouched session _ (mk_snaps mdsc ci 0 1 0))].
  intros st [Hu Hs]. simpl in *. split; [|exact Hs].
  eapply untouched_trans; [exact Hu|]. unfold untouched, framed, caps_frame. done.
Qed.

Lemma mark_caps_flushing_untouched mdsc ci session wake :
  if_ok (fun r => untouched ci r.1.1.2 ∧
                  sess_same (sessions mdsc) (sessions r.1.1.1))
    (__mark_caps_flushing mdsc ci session wake).
Proof.
  unfold __mark_caps_flushing. cbv zeta.
  repeat rstep. all: split; [unfold untouched, framed, caps_frame; done|].
  - apply sess_same_del_dirty.
  - eapply sess_same_trans; [apply sess_same_del_dirty|].
    by eapply sess_same_insert.
Qed.

Lemma invalidate_reconciled e ci pages_left :
  bool_decide (i_kind ci = S_IFREG) = true ->
  bool_decide (i_nrpages ci ≠ 0) = true ->
  reconciled e ci (try_nonblocking_invalidate ci pages_left).1.
Proof.
  intros Hreg Hpages. unfold try_nonblocking_invalidate. cbv zeta.
  assert (Hu : bits_subset (__ceph_caps_used (set_i_nrpages pages_left ci))
                 (__ceph_caps_used ci)).
  { unfold __ceph_caps_used. simpl. rewrite Hreg, Hpages. simpl.
    rewrite orb_true_r. intros k.
    repeat case_match; rewrite ?Z.lor_spec, ?orb_true_iff; tauto. }
  destruct (_ && _); simpl; apply reconciled_same; try done;
    unfold caps_frame; done.
Qed.

Lemma scan_found e mdsc ci flags used want retain mds l : forall wb cap wb',
  check_scan e mdsc ci flags used want retain mds l wb = Ok (Some cap, wb') ->
  exists k, (k, cap) ∈ l.
Proof.
  induction l as [|[k c] l IH]; intros wb cap wb'; [done|].
  cbn [check_scan].
  destruct (check_one _ _ _ _ _ _ _ _ _) as [[ack w]|]; simpl; [|done].
  destruct ack.
  - intros [= <- <-]. exists k. left.
  - intros Hrun. apply IH in Hrun as [k' Hk']. exists k'. by right.
Qed.

Lemma in_order_lookup ci k c :
  (k, c) ∈ caps_in_order ci -> i_caps ci !! k = Some c.
Proof.
  unfold caps_in_order. rewrite merge_sort_Permutation.
  apply elem_of_map_to_list.
Qed.

(** Every pass of [ceph_check_caps] leaves to each cap what is held
    back, and the sessions their generation and their time to live. *)
Lemma check_caps_retry_reconciled fuel e pages_left flags : forall st,
  caps_keyed (c_ci st) ->
  if_ok (fun st' => reconciled e (c_ci st) (c_ci st') ∧
                    sess_same (sessions (c_mdsc st)) (sessions (c_mdsc st')))
    (check_caps_retry fuel e pages_left flags st).
Proof.
  induction fuel as [|fuel IH]; intros st Hkey; [done|].
  cbn [check_caps_retry]. cbv zeta.
  apply if_ok_bind.
  destruct (__ceph_caps_issued e (c_mdsc st) (c_ci st))
    as [[issued implemented]|]; simpl; [|done].
  match goal with
  | |- if_ok _ (let '(_, _) := ?c in _) => destruct c as [want retain] eqn:Hwr
  end.
  assert (Hretain : bits_subset (held_back e (c_ci st)) retain).
  { revert Hwr. unfold held_back.
    repeat case_match; intros [= <- <-]; intros k Hk;
      rewrite ?Z.lor_spec in *; rewrite ?orb_true_iff in *; tauto. }
  clear Hwr.
  match goal with
  | |- if_ok _ (if ?c then _ else _) => destruct c eqn:Hinv
  end.
  - repeat (apply andb_true_iff in Hinv as [Hinv ?]).
    pose proof (invalidate_reconciled e (c_ci st) pages_left) as Hr.
    destruct (try_nonblocking_invalidate _ _) as [ci1 ok]. simpl in Hr.
    specialize (Hr ltac:(done) ltac:(done)).
    pose proof (reconciled_keyed e _ _ Hkey Hr) as Hkey1.
    destruct ok.
    + eapply if_ok_mono; [|apply IH; exact Hkey1].
      intros st' [Hs Hss]. simpl in Hs, Hss. split; [|exact Hss].
      eapply reconciled_trans; [exact Hr|exact Hs].
    + eapply if_ok_mono;
        [|apply IH; simpl; unfold caps_keyed; simpl; exact Hkey1].
      intros st' [Hs Hss]. simpl in Hs, Hss. split; [|exact Hss].
      eapply reconciled_trans; [exact Hr|].
      eapply reconciled_trans; [|exact Hs].
      apply reconciled_untouched. unfold untouched, framed, caps_frame. done.
  - clear Hinv. apply if_ok_bind.
    destruct (check_scan _ _ _ _ _ _ _ _ _ _) as [[found wb]|] eqn:Es; simpl;
      [|done].
    destruct found as [cap|];
      [|split; [apply reconciled_refl|apply sess_same_refl]].
    apply scan_found in Es as [k Hin].
    apply in_order_lookup in Hin.
    pose proof (Hkey _ _ Hin) as Hm. subst k.
    match goal with
    | |- if_ok _ (if ?c then _ else _) => destruct c
    end.
    + apply if_ok_bind.
      eapply if_ok_mono with (P := fun r => reconciled e (c_ci st) r.1).
      2:{ destruct (tst _ CEPH_I_KICK_FLUSH); [|by apply reconciled_refl].
          by apply kick_flushing_reconciled. }
      intros [ci1 acts1] Hs1. simpl in Hs1.
      apply if_ok_bind.
      eapply if_ok_mono
        with (P := fun r => reconciled e (c_ci st) r.2 ∧
                            sess_same (sessions (c_mdsc st)) (sessions r.1)).
      { intros [m2 ci2] [Hs2 Hss2]. simpl in Hs2, Hss2.
        eapply if_ok_mono; [|apply IH; simpl; by eapply reconciled_keyed].
        intros st' [Hs' Hss']. simpl in Hs', Hss'. split.
        - eapply reconciled_trans; eauto.
        - eapply sess_same_trans; eauto. }
      destruct (tst _ CEPH_I_FLUSH_SNAPS);
        [|split; [exact Hs1|apply sess_same_refl]].
      apply if_ok_bind.
      eapply if_ok_mono; [|apply flush_snaps_untouched].
      intros st' [Hu Hss]. simpl. split; [|exact Hss].
      eapply reconciled_trans; [exact Hs1|]. by apply reconciled_untouched.
    + apply if_ok_bind.
      match goal with
      | |- if_ok _ ?X =>
          eapply if_ok_mono with (P := fun _ => True);
            [|destruct X; exact I]
      end.
      intros cap_used _.
      apply if_ok_bind.
      eapply if_ok_mono
        with (P := fun r => untouched (c_ci st) r.1.1.1.2 ∧
                            sess_same (sessions (c_mdsc st))
                              (sessions r.1.1.1.1)).
      2:{ match goal with
          | |- if_ok _ (if ?c then _ else _) => destruct c
          end.
          - cbv zeta. apply if_ok_bind.
            eapply if_ok_mono; [|apply mark_caps_flushing_untouched].
            intros [[[? ?] ?] ?] H'. exact H'.
          - destruct (__get_oldest_flush_tid _); simpl; [|done].
            split; [apply untouched_refl|apply sess_same_refl]. }
      intros [[[[m2 ci2] fl] ftid] old] [Hu2 Hss2]. simpl in Hu2, Hss2.
      pose proof (reconciled_untouched e _ _ Hu2) as Hr2.
      pose proof (reconciled_keyed e _ _ Hkey Hr2) as Hkey2.
      apply if_ok_bind.
      eapply if_ok_mono; [|apply (prep_cap_reconciled e); [exact Hkey2|]].
      * intros [ci3 w] Hs3. simpl in Hs3.
        apply if_ok_deref. intros cap' _.
        eapply if_ok_mono; [|apply IH; simpl; by eapply reconciled_keyed].
        intros st' [Hs' Hss']. simpl in Hs', Hss'. split.
        -- eapply reconciled_trans; [|exact Hs'].
           eapply reconciled_trans; [exact Hr2|exact Hs3].
        -- eapply sess_same_trans; eauto.
      * intros cap0 _ j. rewrite Z.land_spec.
        rewrite (held_back_untouched e _ _ Hu2).
        intros [_ Hj]%andb_true_iff. by apply Hretain.
Qed.

(** [ceph_check_caps] leaves every cap what is held back of its issued
    bits, and the sessions their generation and their time to live. *)
Lemma check_caps_reconciled e pages_left mdsc ci flags :
  caps_keyed ci ->
  if_ok (fun r => reconciled e ci r.1.2 ∧
                  sess_same (sessions mdsc) (sessions r.1.1))
    (ceph_check_caps e pages_left mdsc ci flags).
Proof.
  intros Hkey. unfold ceph_check_caps.
  destruct (tst _ CEPH_I_ASYNC_CREATE).
  - split; [|apply sess_same_refl].
    apply reconciled_untouched. unfold untouched, framed, caps_frame. done.
  - cbv zeta. apply if_ok_bind.
    eapply if_ok_mono;
      [|apply (check_caps_retry_reconciled _ e pages_left _
                 (mk_check mdsc ci (-1) false false false []) Hkey)].
    intros st' H'. exact H'.
Qed.

(** [__ceph_caps_revoking_other] looks at the caps of the other ranks
    only. *)
Lemma revoking_other_spec ci ocap mask :
  __ceph_caps_revoking_other ci ocap mask = true <->
  exists k c, i_caps ci !! k = Some c ∧ k ≠ ocap ∧
    tst (Z.land (Cap.implemented c) (Z.lnot (Cap.issued c))) mask = true.
Proof.
  unfold __ceph_caps_revoking_other.
  apply (map_fold_weak_ind
    (fun (r : bool) (m : gmap Z Cap.t) =>
       r = true <->
       exists k c, m !! k = Some c ∧ k ≠ ocap ∧
         tst (Z.land (Cap.implemented c) (Z.lnot (Cap.issued c))) mask = true)).
  - split; [done|]. intros (k & c & Hc & _). by rewrite lookup_empty in Hc.
  - intros k c m r Hk IH. rewrite orb_true_iff, andb_true_iff, IH.
    rewrite bool_decide_eq_true. split.
    + intros [(k' & c' & Hc' & ? & ?)|[? ?]].
      * exists k', c'. split; [|done]. rewrite lookup_insert_ne; [done|].
        intros ->. by rewrite Hk in Hc'.
      * exists k, c. by rewrite lookup_insert_eq.
    + intros (k' & c' & Hc' & Hne & Ht).
      destruct (decide (k = k')) as [<-|Hkk].
      * rewrite lookup_insert_eq in Hc'. injection Hc' as <-. by right.
      * rewrite lookup_insert_ne in Hc' by done. left. eauto.
Qed.

Lemma revoking_other_insert ci ci' ocap cap' mask :
  i_caps ci' = <[ocap := cap']> (i_caps ci) ->
  __ceph_caps_revoking_other ci' ocap mask
  = __ceph_caps_revoking_other ci ocap mask.
Proof.
  intros Hc. apply eq_true_iff_eq. rewrite !revoking_other_spec, Hc.
  split; intros (k & c & Hk & Hne & Ht); exists k, c.
  - by rewrite lookup_insert_ne in Hk.
  - by rewrite lookup_insert_ne.
Qed.

(** A [__prep_cap] that retains all that the cap holds leaves it its
    issued bits. *)
Lemma prep_cap_all ci session cap used want :
  i_caps ci !! session = Some cap -> Cap.mds cap = session ->
  if_ok (fun r =>
           framed ci r.1 ∧
           exists cap', i_caps r.1 = <[session := cap']> (i_caps ci) ∧
             Cap.issued cap' = Cap.issued cap ∧
             same_cap_less (Cap.issued cap) cap cap')
    (__prep_cap ci session used want
       (Z.lor (Cap.issued cap) (Cap.implemented cap))).
Proof.
  intros Hcap Hm. unfold __prep_cap. rewrite Hcap. simpl.
  destruct (negb _); simpl; [done|].
  split; [unfold framed, caps_frame; repeat case_match; by simpl|].
  eexists. split; [unfold store_cap; simpl; rewrite Hm; by repeat case_match|].
  simpl. rewrite kept_by_retain. split; [done|].
  unfold same_cap_less. simpl. do 6 (split; [done|]).
  split; [apply bits_subset_land_keep|].
  split; [apply bits_subset_self|apply bits_subset_land_keep].
Qed.

Lemma kick_loop_all e session oldest mdsc l : forall ci first_tid acts cap,
  i_caps ci !! session = Some cap -> Cap.mds cap = session ->
  if_ok (fun r =>
           framed ci r.1 ∧
           exists cap', i_caps r.1 = <[session := cap']> (i_caps ci) ∧
             Cap.issued cap' = Cap.issued cap ∧
             same_cap_less (Cap.issued cap) cap cap')
    (kick_loop e session oldest l mdsc ci first_tid acts).
Proof.
  assert (Hbase : forall ci cap,
            i_caps ci !! session = Some cap ->
            framed ci ci ∧
            exists cap', i_caps ci = <[session := cap']> (i_caps ci) ∧
              Cap.issued cap' = Cap.issued cap ∧
              same_cap_less (Cap.issued cap) cap cap').
  { intros ci cap Hcap. split; [apply framed_refl|]. exists cap.
    split; [by rewrite insert_id|]. split; [done|apply same_cap_less_refl]. }
  induction l as [|cf l IH]; intros ci first_tid acts cap Hcap Hm; simpl;
    [by apply Hbase|].
  apply if_ok_deref. intros c _.
  case_decide; [by apply IH|].
  destruct (i_auth_cap ci) as [a|]; [|by apply Hbase].
  case_decide as Ha; [|by apply Hbase]. subst a.
  destruct (Flush.is_capsnap c); [by apply IH|].
  rewrite Hcap. simpl.
  apply if_ok_bind.
  eapply if_ok_mono; [|by apply prep_cap_all].
  intros [ci1 w] (Hf1 & cap1 & Hc1 & Hi1 & Hs1). simpl in Hf1, Hc1.
  apply if_ok_deref. intros ? _.
  assert (Hcap1 : i_caps ci1 !! session = Some cap1)
    by (rewrite Hc1; apply lookup_insert_eq).
  assert (Hm1 : Cap.mds cap1 = session).
  { destruct Hs1 as (-> & _). done. }
  eapply if_ok_mono; [|apply (IH _ _ _ cap1); done].
  intros r (Hf2 & cap2 & Hc2 & Hi2 & Hs2).
  split; [by eapply framed_trans|]. exists cap2.
  split; [by rewrite Hc2, Hc1, insert_insert_eq|].
  split; [congruence|].
  eapply same_cap_less_trans; [|exact Hs1|by rewrite <- Hi1].
  apply bits_subset_self.
Qed.

Lemma kick_inode_all e mdsc session ci cap :
  i_caps ci !! session = Some cap -> Cap.mds cap = session ->
  if_ok (fun r =>
           sess_same (sessions mdsc) (sessions r.1.1) ∧
           framed ci r.1.2 ∧
           exists cap', i_caps r.1.2 = <[session := cap']> (i_caps ci) ∧
             Cap.issued cap' = Cap.issued cap ∧
             same_cap_less (Cap.issued cap) cap cap')
    (ceph_kick_flushing_inode_caps e mdsc session ci).
Proof.
  intros Hcap Hm.
  assert (Hbase : forall c : ceph_inode_info,
            i_caps c = i_caps ci -> framed ci c ->
            framed ci c ∧
            exists cap', i_caps c = <[session := cap']> (i_caps ci) ∧
              Cap.issued cap' = Cap.issued cap ∧
              same_cap_less (Cap.issued cap) cap cap').
  { intros c Hc Hf. split; [done|]. exists cap.
    split; [by rewrite Hc, insert_id|]. split; [done|apply same_cap_less_refl]. }
  unfold ceph_kick_flushing_inode_caps.
  destruct (bool_decide _);
    [split; [apply sess_same_refl|apply Hbase; [done|apply framed_refl]]|].
  apply if_ok_deref. intros a _.
  apply if_ok_bind.
  eapply if_ok_mono; [|apply move_tail_flushing_same].
  intros ss Hss. apply if_ok_bind.
  destruct (__get_oldest_flush_tid _); simpl; [|done].
  apply if_ok_bind. unfold __kick_flushing_caps.
  destruct (tst _ _); simpl.
  { split; [exact Hss|].
    apply (Hbase (set_i_flushing_item true ci)); [reflexivity|].
    unfold framed, caps_frame. done. }
  eapply if_ok_mono; [|apply (kick_loop_all _ _ _ _ _ _ _ _ cap); done].
  intros [c acts] (Hf & cap' & Hc & Hi & Hs'). simpl in Hf, Hc |- *.
  split; [exact Hss|]. split; [|by exists cap'].
  eapply framed_trans; [|exact Hf]. unfold framed, caps_frame. done.
Qed.

Lemma check_cap_issue_untouched e mdsc ci issued :
  if_ok (fun c => untouched ci c) (__check_cap_issue e mdsc ci issued).
Proof.
  unfold __check_cap_issue. apply if_ok_bind.
  destruct (__ceph_caps_issued _ _ _) as [[? ?]|]; simpl; [|done].
  unfold untouched, framed, caps_frame. by repeat case_match.
Qed.

Lemma grant_locked_effect e mdsc ci session grant extra_issued pages_left
    layout_changed fill cap s :
  i_caps ci !! session = Some cap -> Cap.mds cap = session ->
  sessions mdsc !! session = Some s ->
  if_ok (fun r =>
           sess_same (sessions mdsc) (sessions r.1.1) ∧
           (h_op grant ≠ CEPH_CAP_OP_IMPORT -> r.1.1 = mdsc) ∧
           caps_frame ci r.1.2 ∧
           (exists cap', i_caps r.1.2 = <[session := cap']> (i_caps ci) ∧
                         granted s cap grant cap') ∧
           (i_auth_cap ci = Some session ->
            tst (grant_newcaps s cap grant) CEPH_CAP_ANY_FILE_WR = true ->
            i_max_size r.1.2 = h_max_size grant) ∧
           (quiet_grant ci session s cap grant -> gr_check_caps r.2 = 0))
    (handle_cap_grant_locked e mdsc ci session grant extra_issued pages_left
       layout_changed fill).
Proof.
  intros Hcap Hm Hs.
  unfold handle_cap_grant_locked, session_of. rewrite Hcap, Hs. simpl.
  cbv zeta.
  set (stale := bool_decide (Cap.cap_gen cap < s_cap_gen s)).
  set (auth := bool_decide (i_auth_cap ci = Some session)).
  set (cap1 := if stale then _ else cap).
  assert (Hcap1 : Cap.mds cap1 = session ∧ Cap.cap_id cap1 = Cap.cap_id cap ∧
                  Cap.seq cap1 = Cap.seq cap ∧
                  Cap.issued cap1 = (grant_had s cap).1 ∧
                  Cap.implemented cap1 = (grant_had s cap).2).
  { subst cap1. unfold grant_had. fold stale. by destruct stale. }
  clearbody cap1. destruct Hcap1 as (Hm1 & Hid1 & Hseq1 & Hi1 & Himpl1).
  match goal with
  | |- if_ok _ (match ?E with _ => _ end) => destruct E as [ci1 qi] eqn:HE1
  end.
  assert (Hci1 : i_caps ci1 = i_caps ci ∧ caps_frame ci ci1 ∧
                 i_max_size ci1 = i_max_size ci).
  { revert HE1. unfold try_nonblocking_invalidate, caps_frame.
    repeat case_match; intros [= <- <-]; simplify_eq; done. }
  clear HE1. destruct Hci1 as (Hcaps1 & Hfr1 & Hmax1).
  rewrite Hseq1.
  match goal with
  | |- if_ok _ (match ?E with _ => _ end) => destruct E as [seq1 newcaps1] eqn:HE2
  end.
  assert (Hnew : newcaps1 = grant_newcaps s cap grant ∧
                 seq1 = (if decide (ceph_seq_cmp (h_seq grant) (Cap.seq cap) <= 0)
                         then Cap.seq cap else h_seq grant)).
  { revert HE2. unfold grant_newcaps. rewrite Hi1.
    case_match; by intros [= <- <-]. }
  clear HE2. destruct Hnew as [Hnew Hseq].
  set (cap2 := Cap.set_seq seq1 (Cap.set_cap_gen (s_cap_gen s) cap1)).
  apply if_ok_bind. eapply if_ok_mono; [|apply check_cap_issue_untouched].
  intros ci2 (Hcaps2 & Hfr2 & Hmax2 & _).
  assert (Hci2 : i_caps ci2 = <[session := cap2]> (i_caps ci) ∧
                 caps_frame ci ci2 ∧ i_max_size ci2 = i_max_size ci).
  { rewrite Hcaps2, Hmax2. unfold store_cap. simpl. rewrite Hm1, Hcaps1.
    split; [done|]. split; [|done].
    eapply caps_frame_trans; [exact Hfr1|].
    eapply caps_frame_trans; [|exact Hfr2]. unfold caps_frame. done. }
  clear Hcaps2 Hfr2 Hmax2. destruct Hci2 as (Hcaps2 & Hfr2 & Hmax2).
  match goal with
  | |- if_ok _ (match ?E with _ => _ end) => destruct E as [ci2a del] eqn:HE2a
  end.
  assert (Hci2a : i_caps ci2a = i_caps ci2 ∧ caps_frame ci2 ci2a ∧
                  i_max_size ci2a = i_max_size ci2).
  { revert HE2a. unfold caps_frame.
    repeat case_match; intros [= <- <-]; done. }
  clear HE2a. destruct Hci2a as (Hcaps2a & Hfr2a & Hmax2a).
  match goal with
  | |- if_ok _ (match ?E with _ => _ end) => destruct E as [ci2b qt] eqn:HE2b
  end.
  assert (Hci2b : i_caps ci2b = i_caps ci2a ∧ caps_frame ci2a ci2b ∧
                  i_max_size ci2b = i_max_size ci2a).
  { revert HE2b. unfold ceph_fill_file_size, caps_frame.
    repeat case_match; intros [= <- <-]; done. }
  clear HE2b. destruct Hci2b as (Hcaps2b & Hfr2b & Hmax2b).
  match goal with
  | |- if_ok _ (match ?E with _ => _ end) => destruct E as [ci3 wake] eqn:HE3
  end.
  assert (Hci3 : i_caps ci3 = i_caps ci2b ∧ caps_frame ci2b ci3 ∧
                 (auth = true -> tst newcaps1 CEPH_CAP_ANY_FILE_WR = true ->
                  i_max_size ci3 = h_max_size grant)).
  { revert HE3. unfold caps_frame.
    repeat case_match; intros [= <- <-]; simplify_eq; simpl;
      split_and!; try done; intros; try congruence.
    all: try (symmetry; by apply dec_stable).
    all: match goal with
         | H1 : ?a && ?b = false, H2 : ?a = true, H3 : ?b = true |- _ =>
             rewrite H2, H3 in H1; discriminate H1
         end. }
  clear HE3. destruct Hci3 as (Hcaps3 & Hfr3 & Hmax3).
  assert (Hc3 : i_caps ci3 = <[session := cap2]> (i_caps ci))
    by congruence.
  assert (Hf3 : caps_frame ci ci3).
  { eapply caps_frame_trans; [exact Hfr2|].
    eapply caps_frame_trans; [exact Hfr2a|].
    eapply caps_frame_trans; [exact Hfr2b|exact Hfr3]. }
  clear Hcaps3 Hfr3 Hcaps2b Hfr2b Hmax2b Hcaps2a Hfr2a Hmax2a Hcaps2 Hfr2 Hmax2.
  clear Hcaps1 Hfr1 Hmax1.
  match goal with
  | |- if_ok _ (match ?E with _ => _ end) =>
      destruct E as [[[[cap3 cc] wake3] wb] rw] eqn:HE4
  end.
  assert (Hcap3 : Cap.mds cap3 = session ∧ Cap.cap_id cap3 = Cap.cap_id cap ∧
                  Cap.cap_gen cap3 = s_cap_gen s ∧ Cap.seq cap3 = seq1 ∧
                  Cap.issued cap3 = newcaps1 ∧
                  (Cap.implemented cap3 = Z.lor (Cap.implemented cap1) newcaps1 ∨
                   Cap.implemented cap3 = Cap.implemented cap1) ∧
                  (quiet_grant ci session s cap grant -> cc = 0)).
  { assert (Hq : quiet_grant ci session s cap grant ->
                 stale = false ∧ h_op grant = CEPH_CAP_OP_GRANT ∧
                 tst (Cap.issued cap1) (Z.lnot newcaps1) = false ∧
                 __ceph_caps_revoking_other ci3 session newcaps1 = false).
    { intros (Hop & Hfresh & Hsub & Hrev).
      assert (Hst : stale = false) by (by apply bool_decide_eq_false_2).
      split; [done|]. split; [done|]. split.
      - apply bits_subset_tst. rewrite Hi1, Hnew. unfold grant_had.
        fold stale. by rewrite Hst.
      - rewrite (revoking_other_insert ci ci3 session cap2) by done.
        by rewrite Hnew. }
    revert HE4.
    repeat case_match; intros [= <- <- <- <- <-]; simplify_eq; simpl;
      (split; [done|]); (split; [done|]); (split; [done|]); (split; [done|]);
      (split; [done|]); (split; [by auto|]);
      intros Hquiet; destruct (Hq Hquiet) as (Hst & Hop & Hno & Hrev);
      try congruence;
      repeat match goal with
             | H : _ && _ = true |- _ => apply andb_true_iff in H as [? ?]
             | H : _ || _ = true |- _ => apply orb_true_iff in H as [?|?]
             | H : bool_decide _ = true |- _ => apply bool_decide_eq_true in H
             end; congruence. }
  clear HE4. destruct Hcap3 as (Hm3 & Hid3 & Hgen3 & Hseq3 & Hi3 & Himpl3 & Hcc).
  apply if_ok_bind. unfold BUG_ON.
  destruct (tst (Cap.issued cap3) (Z.lnot (Cap.implemented cap3))) eqn:Hbug;
    simpl; [done|].
  apply bits_subset_tst in Hbug.
  assert (Himpl3' : Cap.implemented cap3 = Z.lor (Cap.implemented cap1) newcaps1).
  { destruct Himpl3 as [?|Heq]; [done|]. rewrite Heq.
    rewrite Heq, Hi3 in Hbug. symmetry. apply Z.bits_inj'. intros n Hn.
    rewrite Z.lor_spec. pose proof (Hbug n) as Hb.
    destruct (Z.testbit newcaps1 n); [|apply orb_false_r].
    by rewrite Hb. }
  clear Himpl3 Hbug.
  match goal with
  | |- if_ok _ (match ?E with _ => _ end) =>
      destruct E as [[cap4 flags4] cc4] eqn:HE5
  end.
  assert (Hcap4 : Cap.mds cap4 = session ∧ Cap.cap_id cap4 = Cap.cap_id cap ∧
                  Cap.cap_gen cap4 = s_cap_gen s ∧ Cap.seq cap4 = seq1 ∧
                  Cap.issued cap4 = newcaps1 ∧
                  Cap.implemented cap4 = Z.lor (Cap.implemented cap1) newcaps1 ∧
                  (quiet_grant ci session s cap grant -> cc4 = 0)).
  { revert HE5.
    destruct (negb rw && bool_decide (h_op grant = CEPH_CAP_OP_REVOKE)) eqn:Hrv;
      intros [= <- <- <-]; simpl; split_and!; try done.
    intros (Hop & _). apply andb_true_iff in Hrv as [_ Hrv].
    apply bool_decide_eq_true in Hrv. congruence. }
  clear HE5 Hm3 Hid3 Hgen3 Hseq3 Hi3 Himpl3' Hcc.
  destruct Hcap4 as (Hm4 & Hid4 & Hgen4 & Hseq4 & Hi4 & Himpl4 & Hcc4).
  assert (Hgranted : forall c : Cap.t,
            Cap.issued c = Cap.issued cap4 ->
            same_cap_less (Cap.issued cap4) cap4 c ->
            (h_op grant ≠ CEPH_CAP_OP_IMPORT -> c = cap4) ->
            granted s cap grant c).
  { intros c Hic (Hmc & Hidc & Hseqc & _ & _ & Hgenc & _ & _ & Himplc) Hsame.
    unfold granted.
    split; [congruence|]. split; [congruence|]. split; [congruence|].
    split; [congruence|]. split; [congruence|]. split.
    - rewrite <- Hnew, <- Himpl1, <- Himpl4. exact Himplc.
    - intros Hop. rewrite (Hsame Hop). congruence. }
  apply if_ok_bind.
  destruct (bool_decide (h_op grant = CEPH_CAP_OP_IMPORT)) eqn:Himp; simpl.
  - destruct auth eqn:Hauth; simpl.
    + match goal with
      | |- if_ok _ (match ?E with _ => _ end) =>
          destruct E as [ci5 wake5] eqn:HE6
      end.
      assert (Hci5 : i_caps ci5 = <[session := cap4]> (i_caps ci) ∧
                     caps_frame ci ci5 ∧ i_max_size ci5 = i_max_size ci3).
      { revert HE6. unfold store_cap.
        destruct (_ || _); intros [= <- <-]; simpl;
          rewrite Hm4, Hc3, insert_insert_eq;
          (split; [done|]); (split; [|done]);
          (eapply caps_frame_trans; [exact Hf3|]); unfold caps_frame; done. }
      clear HE6. destruct Hci5 as (Hc5 & Hf5 & Hmax5).
      apply if_ok_bind.
      eapply if_ok_mono; [|apply (kick_inode_all _ _ _ _ cap4)].
      * intros [[m6 ci6] acts] (Hss & (Hf6 & Hmax6 & _) & c6 & Hc6 & Hi6 & Hs6).
        simpl in *.
        split; [done|]. split; [intros Hop; apply bool_decide_eq_true in Himp; done|].
        split; [by eapply caps_frame_trans|]. split.
        { exists c6. split; [by rewrite Hc6, Hc5, insert_insert_eq|].
          apply Hgranted; [done|done|].
          intros Hop. apply bool_decide_eq_true in Himp. done. }
        split; [|exact Hcc4].
        intros Ha Hwr. rewrite Hmax6, Hmax5. apply Hmax3; [done|by rewrite Hnew].
      * rewrite Hc5. apply lookup_insert_eq.
      * exact Hm4.
    + split; [apply sess_same_refl|]. split; [done|].
      split; [eapply caps_frame_trans; [exact Hf3|]; unfold caps_frame; done|].
      split.
      { exists cap4. split; [unfold store_cap; simpl;
                             by rewrite Hm4, Hc3, insert_insert_eq|].
        apply Hgranted; [done|apply same_cap_less_refl|done]. }
      split; [|exact Hcc4].
      intros Ha. exfalso. subst auth.
      by rewrite bool_decide_eq_true_2 in Hauth.
  - split; [apply sess_same_refl|]. split; [done|].
    split; [eapply caps_frame_trans; [exact Hf3|]; unfold caps_frame; done|].
    split.
    { exists cap4. split; [unfold store_cap; simpl;
                           by rewrite Hm4, Hc3, insert_insert_eq|].
      apply Hgranted; [done|apply same_cap_less_refl|done]. }
    split; [|exact Hcc4].
    intros Ha Hwr. apply Hmax3; [|by rewrite Hnew].
    subst auth. by apply bool_decide_eq_true_2.
Qed.

(** [handle_cap_grant] as a whole: what it makes of the cap under
    [i_ceph_lock], and then what the reconciliation leaves of it. *)
Lemma grant_effect e mdsc ci session grant extra_issued pages_left
    layout_changed fill cap s :
  caps_keyed ci -> i_caps ci !! session = Some cap ->
  sessions mdsc !! session = Some s ->
  if_ok (fun r =>
           sess_same (sessions mdsc) (sessions r.1.1) ∧
           exists ci1 cap1,
             caps_frame ci ci1 ∧
             i_caps ci1 = <[session := cap1]> (i_caps ci) ∧
             granted s cap grant cap1 ∧
             (i_auth_cap ci = Some session ->
              tst (grant_newcaps s cap grant) CEPH_CAP_ANY_FILE_WR = true ->
              i_max_size ci1 = h_max_size grant) ∧
             reconciled e ci1 r.1.2 ∧
             (quiet_grant ci session s cap grant ->
              r.1.2 = ci1 ∧ r.1.1 = mdsc))
    (handle_cap_grant e mdsc ci session grant extra_issued pages_left
       layout_changed fill).
Proof.
  intros Hkey Hcap Hs. pose proof (Hkey _ _ Hcap) as Hm.
  unfold handle_cap_grant. apply if_ok_bind.
  eapply if_ok_mono; [|by apply grant_locked_effect].
  intros [[m1 c1] r] (Hss & Hsame & Hf & (cap1 & Hc1 & Hg) & Hmax & Hq).
  simpl in Hss, Hsame, Hf, Hc1, Hmax, Hq.
  assert (Hkey1 : caps_keyed c1).
  { intros k c. rewrite Hc1. rewrite lookup_insert_Some.
    intros [[<- <-]|[_ Hc]]; [|by eapply Hkey].
    destruct Hg as (-> & _). done. }
  assert (Hdone : forall m c (a : list action),
            reconciled e c1 c -> sess_same (sessions m1) (sessions m) ->
            (quiet_grant ci session s cap grant -> c = c1 ∧ m = m1) ->
            sess_same (sessions mdsc) (sessions m) ∧
            exists ci1 cap1,
              caps_frame ci ci1 ∧
              i_caps ci1 = <[session := cap1]> (i_caps ci) ∧
              granted s cap grant cap1 ∧
              (i_auth_cap ci = Some session ->
               tst (grant_newcaps s cap grant) CEPH_CAP_ANY_FILE_WR = true ->
               i_max_size ci1 = h_max_size grant) ∧
              reconciled e ci1 c ∧
              (quiet_grant ci session s cap grant -> c = ci1 ∧ m = mdsc)).
  { intros m c a Hr Hss' Hquiet. split; [by eapply sess_same_trans|].
    exists c1, cap1. do 4 (split; [done|]). split; [done|].
    intros Hqg. destruct (Hquiet Hqg) as [-> ->]. split; [done|].
    apply Hsame. destruct Hqg as (-> & _). done. }
  apply if_ok_bind.
  destruct (decide (gr_check_caps r = 1)) as [H1|H1].
  { eapply if_ok_mono; [|by apply (check_caps_reconciled e)].
    intros [[m c] a] [Hr Hss']. simpl in Hr, Hss' |- *.
    apply (Hdone m c a); [done|done|].
    intros Hqg. rewrite (Hq Hqg) in H1. done. }
  destruct (decide (gr_check_caps r = 2)) as [H2|H2].
  { eapply if_ok_mono; [|by apply (check_caps_reconciled e)].
    intros [[m c] a] [Hr Hss']. simpl in Hr, Hss' |- *.
    apply (Hdone m c a); [done|done|].
    intros Hqg. rewrite (Hq Hqg) in H2. done. }
  simpl. apply (Hdone m1 c1 []); [apply reconciled_refl|apply sess_same_refl|done].
Qed.

End with_consts.
End Reconcile.
(** * Messages for inodes that are not cached *)
Module Uncached.
Import GrantSteps ExportFacts.

Section with_consts.
Context `{!KernelConsts}.

(** The label [flush_cap_releases] with [do_cap_release] unset. *)
Lemma flush_releases_quiet mdsc session h alloc_ok :
  flush_cap_releases mdsc session h false alloc_ok
  = Ok (mdsc, [FlushSessionCapReleases session]).
Proof. reflexivity. Qed.

(** With [do_cap_release] set and a cap object to be had. *)
Lemma flush_releases_queued o mdsc session h :
  cap_at_hand o mdsc ->
  exists mdsc',
    flush_cap_releases mdsc session h true (default false (head (o_allocs o)))
    = Ok (mdsc', [queued_release session h; FlushSessionCapReleases session]) ∧
    sessions mdsc' = sessions mdsc.
Proof.
  intros Hcap. unfold flush_cap_releases.
  destruct (default false (head (o_allocs o))) eqn:Ha.
  { simpl. eexists. split; [reflexivity|done]. }
  destruct Hcap as [Hh|(Hp & Hav & Hl)]; [by rewrite Hh in Ha|].
  destruct (returns_run _ _ (get_cap_runs (pool mdsc) false Hp
                               (or_intror (conj Hav Hl))))
    as ([[p c] got] & -> & _ & Hgot).
  simpl in Hgot. subst got. simpl. eexists. split; [reflexivity|done].
Qed.

(** With [do_cap_release] set, a failed allocation and nothing
    available. *)
Lemma flush_releases_null o mdsc session h :
  head (o_allocs o) ≠ Some true -> Pool.caps_avail_count (pool mdsc) = 0 ->
  flush_cap_releases mdsc session h true (default false (head (o_allocs o)))
  = Oops NullDeref.
Proof.
  intros Hh Hav. unfold flush_cap_releases, Pool.ceph_get_cap.
  destruct (head (o_allocs o)) as [[]|]; [done| |];
    simpl; by rewrite decide_False by (by intros ?).
Qed.


End with_consts.



End Uncached.

(** * Return values of the non-blocking acquisition *)
Module Codes.

Section with_consts.
Context `{!KernelConsts}.











End with_consts.



End Codes.

(** * The allocator, one operation at a time *)
Module PoolOps.
Import Pool PoolFacts.

Lemma wrap_int_id z : -2147483648 <= z < 2147483648 -> wrap_int z = z.
Proof. intros Hz. apply wrap_int_small. unfold in_int. simpl. lia. Qed.

Lemma conservedb_exact p :
  pool_wf p -> conservedb p = true.
Proof.
  intros (Hu & Hr & Ha & Hsum & Hlt & _). unfold conservedb, sum3.
  rewrite (wrap_int_id (caps_use_count p + caps_reserve_count p)) by lia.
  rewrite wrap_int_id by lia. apply Z.eqb_eq. lia.
Qed.

Ltac unwrap_all :=
  repeat match goal with
         | |- context [wrap_int ?t] => rewrite (wrap_int_id t) by lia
         end.

Ltac pool_fields :=
  unfold pool_wf, set_total, set_use, set_reserve, set_avail, set_list,
    add, sub in *; cbn [caps_total_count caps_use_count caps_reserve_count
                        caps_avail_count caps_min_count caps_use_max
                        caps_list] in *.

(** [ceph_put_cap] of a cap in use: the use count goes down by one; the
    cap is freed when enough caps are available, and goes back to the
    free list otherwise. *)
Lemma put_cap_post p :
  pool_wf p -> 0 < caps_use_count p ->
  exists p', ceph_put_cap p = Ok p' ∧ pool_wf p' ∧
    caps_use_count p' = caps_use_count p - 1 ∧
    caps_reserve_count p' = caps_reserve_count p ∧
    (if decide (caps_avail_count p >=
                wrap_int (caps_reserve_count p + caps_min_count p))
     then caps_avail_count p' = caps_avail_count p ∧
          caps_total_count p' = caps_total_count p - 1
     else caps_avail_count p' = caps_avail_count p + 1 ∧
          caps_total_count p' = caps_total_count p).
Proof.
  intros Hwf Hpos. unfold ceph_put_cap. cbv zeta.
  destruct Hwf as (Hu & Hr & Ha & Hsum & Hlt & Hl).
  set (p1 := set_use (sub 1) p).
  assert (Hp1 : caps_avail_count p1 = caps_avail_count p ∧
                caps_reserve_count p1 = caps_reserve_count p ∧
                caps_min_count p1 = caps_min_count p) by done.
  destruct Hp1 as (-> & -> & ->).
  case_decide.
  - assert (Hwf' : pool_wf (set_total (sub 1) p1)).
    { subst p1. pool_fields. rewrite !wrap_int_id by lia. lia. }
    rewrite (conservedb_exact _ Hwf'). simpl. eexists. split; [done|].
    split; [done|]. subst p1. pool_fields. rewrite !wrap_int_id by lia. lia.
  - assert (Hwf' : pool_wf (set_list S (set_avail (add 1) p1))).
    { subst p1. pool_fields. rewrite !wrap_int_id by lia. lia. }
    rewrite (conservedb_exact _ Hwf'). simpl. eexists. split; [done|].
    split; [done|]. subst p1. pool_fields. rewrite !wrap_int_id by lia. lia.
Qed.

Lemma trim_puts_post n p :
  pool_wf p -> Z.of_nat n <= caps_use_count p ->
  exists p', trim_puts n p = Ok p' ∧ pool_wf p' ∧
    caps_use_count p' = caps_use_count p - Z.of_nat n ∧
    caps_reserve_count p' = caps_reserve_count p ∧
    caps_total_count p' <= caps_total_count p.
Proof.
  revert p. induction n as [|n IH]; intros p Hwf Hn.
  - exists p. simpl. split_and!; try done; lia.
  - destruct (put_cap_post p Hwf) as (p1 & Hput & Hwf1 & Hu1 & Hr1 & Hrest);
      [lia|].
    assert (Hn1 : Z.of_nat n <= caps_use_count p1) by lia.
    destruct (IH p1 Hwf1 Hn1) as (p2 & Htrim & Hwf2 & Hu2 & Hr2 & Ht2).
    exists p2. cbn [trim_puts]. rewrite Hput. cbn [mbind res_bind].
    split_and!; [done|done|lia|congruence|case_decide; lia].
Qed.

(** What [__ceph_unreserve_caps] does to the counters. *)
Lemma unreserve_post p nr :
  pool_wf p -> 0 <= nr <= caps_reserve_count p ->
  exists p', __ceph_unreserve_caps p nr = Ok p' ∧ pool_wf p' ∧
    caps_use_count p' = caps_use_count p ∧
    caps_reserve_count p' = caps_reserve_count p - nr ∧
    (if decide (caps_avail_count p >=
                wrap_int (caps_reserve_count p - nr + caps_min_count p))
     then caps_avail_count p' = caps_avail_count p ∧
          caps_total_count p' = caps_total_count p - nr
     else caps_avail_count p' = caps_avail_count p + nr ∧
          caps_total_count p' = caps_total_count p).
Proof.
  intros Hwf Hnr. unfold __ceph_unreserve_caps.
  pose proof Hwf as (Hu & Hr & Ha & Hsum & Hlt & Hl).
  case_decide as Hz.
  { exists p. subst nr. rewrite Z.sub_0_r.
    split_and!; try done; try lia. case_decide; lia. }
  rewrite bool_decide_eq_false_2 by lia. cbn [BUG_ON mbind res_bind]. cbv zeta.
  set (p1 := set_reserve (sub nr) p).
  assert (Hp1 : caps_avail_count p1 = caps_avail_count p ∧
                caps_reserve_count p1 = caps_reserve_count p - nr ∧
                caps_min_count p1 = caps_min_count p).
  { subst p1. pool_fields. by rewrite wrap_int_id by lia. }
  destruct Hp1 as (-> & -> & ->).
  case_decide.
  - unfold take_from_list.
    rewrite decide_False by (subst p1; pool_fields; lia).
    cbn [mbind res_bind].
    match goal with
    | |- context [conservedb ?q] => assert (Hwf' : pool_wf q)
    end.
    { subst p1. pool_fields. rewrite !wrap_int_id by lia. lia. }
    rewrite (conservedb_exact _ Hwf'). simpl. eexists. split; [done|].
    split; [done|]. subst p1. pool_fields. rewrite !wrap_int_id by lia. lia.
  - cbn [mbind res_bind].
    match goal with
    | |- context [conservedb ?q] => assert (Hwf' : pool_wf q)
    end.
    { subst p1. pool_fields. rewrite !wrap_int_id by lia. lia. }
    rewrite (conservedb_exact _ Hwf'). simpl. eexists. split; [done|].
    split; [done|]. subst p1. pool_fields. rewrite !wrap_int_id by lia. lia.
Qed.

Section with_consts.
Context `{!KernelConsts}.

(** The loop of [ceph_reserve_caps]: [r0] is the reserve count before
    the call. *)
Lemma reserve_loop_post fuel allocs trimmed_caps need s r0 :
  pool_wf (l_pool s) ->
  (l_trimmed s = false -> Z.of_nat trimmed_caps <= caps_use_count (l_pool s)) ->
  0 <= l_have s -> 0 <= l_alloc s -> l_i s = l_have s + l_alloc s ->
  l_i s <= need -> need < 2147483648 -> 0 <= r0 ->
  caps_reserve_count (l_pool s) = r0 + l_have s ->
  caps_total_count (l_pool s) + l_alloc s + Z.of_nat (length allocs)
    < 2147483648 ->
  (length allocs + (if l_trimmed s then 1 else 2) <= fuel)%nat ->
  exists s' err,
    reserve_loop fuel allocs trimmed_caps need s = Ok (s', err) ∧
    pool_wf (l_pool s') ∧ 0 <= l_have s' ∧ 0 <= l_alloc s' ∧
    caps_reserve_count (l_pool s') = r0 + l_have s' ∧
    caps_total_count (l_pool s') + l_alloc s' < 2147483648 ∧
    l_have s' + l_alloc s' <= need ∧
    (err = 0 ∧ l_have s' + l_alloc s' = need ∨ err = - ENOMEM).
Proof.
  revert allocs s.
  induction fuel as [|fuel IH];
    intros allocs s Hwf Htrim Hh Hal Hi Hle Hneed Hr0 Hr Htot Hfuel.
  { destruct (l_trimmed s); lia. }
  cbn [reserve_loop]. case_decide as Hlt.
  2:{ exists s, 0. split_and!; try done; lia. }
  destruct allocs as [|[|] allocs]; cbn [head tail length] in *.
  - (* no allocation outcome is left: the allocation fails *)
    destruct (l_trimmed s) eqn:Ht; cbn [negb].
    { exists s, (- ENOMEM). split_and!; try done; lia. }
    destruct (trim_puts_post trimmed_caps (l_pool s) Hwf (Htrim eq_refl))
      as (p1 & -> & Hwf1 & Hu1 & Hr1 & Ht1).
    cbn [mbind res_bind].
    pose proof Hwf1 as (Hu & Hrr & Ha & Hsum & Hlt1 & Hl).
    rewrite (wrap_int_id (need - l_i s)) by lia.
    apply IH; cbn [length]; try lia.
    all: case_decide; [case_decide|]; cbn [l_pool l_i l_have l_alloc l_trimmed];
      pool_fields; unwrap_all; try lia; try done.
  - (* the allocation succeeds *)
    apply IH; cbn [l_pool l_i l_have l_alloc l_trimmed]; try done;
      unwrap_all; try lia; try (destruct (l_trimmed s); lia).
  - (* the allocation fails *)
    destruct (l_trimmed s) eqn:Ht; cbn [negb].
    { exists s, (- ENOMEM). split_and!; try done; lia. }
    destruct (trim_puts_post trimmed_caps (l_pool s) Hwf (Htrim eq_refl))
      as (p1 & -> & Hwf1 & Hu1 & Hr1 & Ht1).
    cbn [mbind res_bind].
    pose proof Hwf1 as (Hu & Hrr & Ha & Hsum & Hlt1 & Hl).
    rewrite (wrap_int_id (need - l_i s)) by lia.
    apply IH; cbn [length]; try lia.
    all: case_decide; [case_decide|]; cbn [l_pool l_i l_have l_alloc l_trimmed];
      pool_fields; unwrap_all; try lia; try done.
Qed.

(** [ceph_reserve_caps] on a well-formed pool always returns.  When it
    returns 0 the reservation holds [need] caps and the reserve count
    has grown by [need]; when it returns [-ENOMEM] the reservation is
    untouched and everything that was set aside has been handed back:
    the reserve count is what it was. *)
Theorem reserve_caps_post p ctx need allocs trimmed_caps :
  ENOMEM ≠ 0 -> pool_wf p -> 0 <= need < 2147483648 ->
  Z.of_nat trimmed_caps <= caps_use_count p ->
  caps_total_count p + Z.of_nat (length allocs) < 2147483648 ->
  exists p' ctx' err,
    ceph_reserve_caps p ctx need allocs trimmed_caps = Ok (p', ctx', err) ∧
    pool_wf p' ∧
    (err = 0 ∧ ctx' = mk_ctx need 0 ∧
     caps_reserve_count p' = caps_reserve_count p + need
     ∨ err = - ENOMEM ∧ ctx' = ctx ∧
       caps_reserve_count p' = caps_reserve_count p).
Proof.
  intros Hno Hwf Hneed Htrim Htot. unfold ceph_reserve_caps. cbv zeta.
  pose proof Hwf as (Hu & Hr & Ha & Hsum & Hlt & Hl).
  set (have := if decide (caps_avail_count p >= need) then need
               else caps_avail_count p).
  assert (Hhave : 0 <= have <= need ∧ have <= caps_avail_count p).
  { unfold have. case_decide; lia. }
  set (p1 := set_reserve (add have) (set_avail (sub have) p)).
  assert (Hwf1 : pool_wf p1 ∧ caps_use_count p1 = caps_use_count p ∧
                 caps_reserve_count p1 = caps_reserve_count p + have ∧
                 caps_total_count p1 = caps_total_count p).
  { subst p1. pool_fields. unwrap_all. lia. }
  destruct Hwf1 as (Hwf1 & Hu1 & Hr1 & Ht1).
  rewrite (conservedb_exact _ Hwf1). cbn [negb BUG_ON mbind res_bind].
  destruct (reserve_loop_post (length allocs + 2) allocs trimmed_caps need
              (mk_loop p1 have have 0 false) (caps_reserve_count p))
    as (s' & err & -> & Hwf' & Hh' & Hal' & Hr' & Ht' & Hle' & Herr);
    cbn [l_pool l_i l_have l_alloc l_trimmed]; try lia; try done.
  cbn [mbind res_bind].
  pose proof Hwf' as (Hu' & Hrr' & Ha' & Hsum' & Hlt' & Hl').
  match goal with
  | |- context [conservedb ?q] => assert (Hwf2 : pool_wf q)
  end.
  { pool_fields. unwrap_all. lia. }
  destruct Herr as [[-> Hsum0]| ->].
  - rewrite decide_True by done.
    rewrite (proj2 (Z.eqb_eq _ _)) by (unwrap_all; lia).
    cbn [negb BUG_ON mbind res_bind].
    rewrite (conservedb_exact _ Hwf2). cbn [negb BUG_ON mbind res_bind].
    rewrite decide_False by (intros Hne; by apply Hne).
    cbn [mbind res_bind]. eexists _, _, _. split; [done|].
    split; [done|]. left. split; [done|]. split; [done|].
    pool_fields. unwrap_all. lia.
  - assert (Hne : - ENOMEM ≠ 0) by lia.
    rewrite !(decide_False (P := - ENOMEM = 0)) by done.
    cbn [mbind res_bind].
    rewrite (conservedb_exact _ Hwf2). cbn [negb BUG_ON mbind res_bind].
    rewrite decide_True by done.
    match goal with
    | |- context [__ceph_unreserve_caps ?q ?n] =>
        destruct (unreserve_post q n Hwf2) as (p3 & -> & Hwf3 & _ & Hr3 & _)
    end.
    { pool_fields. unwrap_all. lia. }
    cbn [mbind res_bind]. eexists _, _, _. split; [done|].
    split; [done|]. right. split; [done|]. split; [done|].
    rewrite Hr3. pool_fields. unwrap_all. lia.
Qed.

End with_consts.

(** [ceph_unreserve_caps] undoes what is left of a reservation: the
    reserve count goes down by [ctx->count], which becomes 0, and the use
    count and [ctx->used] stay. *)
Theorem unreserve_caps_post p ctx :
  pool_wf p -> 0 <= count ctx <= caps_reserve_count p ->
  exists p' reclaim,
    ceph_unreserve_caps p ctx = Ok (p', mk_ctx 0 (used ctx), reclaim) ∧
    pool_wf p' ∧
    caps_use_count p' = caps_use_count p ∧
    caps_reserve_count p' = caps_reserve_count p - count ctx ∧
    caps_total_count p' - caps_avail_count p' =
      caps_total_count p - caps_avail_count p - count ctx.
Proof.
  intros Hwf Hc. unfold ceph_unreserve_caps. case_decide as Hz.
  - exists p, false. destruct ctx as [c u]. simpl in *. subst c.
    split_and!; try done; lia.
  - destruct (unreserve_post p (count ctx) Hwf Hc)
      as (p1 & -> & Hwf1 & Hu1 & Hr1 & Hrest).
    cbn [mbind res_bind]. eexists _, _. split; [done|].
    split_and!; try done. case_decide; lia.
Qed.

(** [ceph_get_cap] from a reservation that holds a cap: a cap comes
    back, moved from the reserve count to the use count and from
    [ctx->count] to [ctx->used]. *)
Theorem get_cap_reserved p c alloc_ok :
  pool_wf p -> 0 < count c <= caps_reserve_count p ->
  used c < 2147483647 -> -2147483648 <= used c ->
  exists p',
    ceph_get_cap p (Some c) alloc_ok
      = Ok (p', Some (mk_ctx (count c - 1) (used c + 1)), true) ∧
    pool_wf p' ∧
    caps_use_count p' = caps_use_count p + 1 ∧
    caps_reserve_count p' = caps_reserve_count p - 1 ∧
    caps_avail_count p' = caps_avail_count p ∧
    caps_total_count p' = caps_total_count p.
Proof.
  intros Hwf Hc Hused Hused'. unfold ceph_get_cap.
  pose proof Hwf as (Hu & Hr & Ha & Hsum & Hlt & Hl).
  rewrite (bool_decide_eq_false_2 (count c = 0)) by lia.
  rewrite (bool_decide_eq_false_2 (count c > caps_reserve_count p)) by lia.
  rewrite (bool_decide_eq_false_2 (caps_list p = 0%nat)) by lia.
  cbn [BUG_ON mbind res_bind]. cbv zeta.
  unfold take_from_list. rewrite decide_False by (pool_fields; lia).
  cbn [mbind res_bind].
  match goal with
  | |- context [conservedb ?q] => assert (Hwf2 : pool_wf q)
  end.
  { pool_fields. unwrap_all. lia. }
  rewrite (conservedb_exact _ Hwf2). cbn [negb BUG_ON mbind res_bind].
  eexists. split.
  { unfold add, sub. unwrap_all. done. }
  split; [done|]. pool_fields. unwrap_all. lia.
Qed.

Lemma get_cap_none p alloc_ok :
  pool_wf p -> caps_total_count p < 2147483647 ->
  exists p' got,
    ceph_get_cap p None alloc_ok = Ok (p', None, got) ∧ pool_wf p' ∧
    caps_reserve_count p' = caps_reserve_count p ∧
    (got = false <-> alloc_ok = false ∧ caps_avail_count p = 0) ∧
    (got = false -> p' = p) ∧
    (got = true -> caps_use_count p' = caps_use_count p + 1 ∧
                   if alloc_ok
                   then caps_avail_count p' = caps_avail_count p
                   else caps_avail_count p' = caps_avail_count p - 1).
Proof.
  intros Hwf Hlt'. unfold ceph_get_cap.
  pose proof Hwf as (Hu & Hr & Ha & Hsum & Hlt & Hl).
  destruct alloc_ok.
  - eexists _, true. split; [done|].
    assert (Hwf2 : pool_wf (set_total (add 1) (set_use (add 1) p))).
    { pool_fields. unwrap_all. lia. }
    split; [done|]. split; [done|].
    split; [split; [done|by intros [? _]]|]. split; [done|]. intros _.
    pool_fields. unwrap_all. lia.
  - case_decide as Hav.
    + rewrite (bool_decide_eq_false_2 (caps_list p = 0%nat)) by lia.
      cbn [BUG_ON mbind res_bind]. cbv zeta.
      unfold take_from_list. rewrite decide_False by (pool_fields; lia).
      cbn [mbind res_bind].
      match goal with
      | |- context [conservedb ?q] => assert (Hwf2 : pool_wf q)
      end.
      { pool_fields. unwrap_all. lia. }
      rewrite (conservedb_exact _ Hwf2). cbn [negb BUG_ON mbind res_bind].
      eexists _, true. split; [done|]. split; [done|]. split; [done|].
      split; [split; [done|intros [_ ?]; lia]|]. split; [done|]. intros _.
      pool_fields. unwrap_all. lia.
    + exists p, false. split; [done|]. split; [done|]. split; [done|].
      split; [split; [intros _; split; [done|lia]|done]|]. split; done.
Qed.

(** [ceph_get_cap] without a reservation returns NULL exactly when the
    allocation fails and no cap is available, and the pool is then what
    it was; otherwise the use count grows by one, the cap being a fresh
    one or one taken from the available caps. *)
Theorem get_cap_unreserved p alloc_ok :
  pool_wf p -> caps_total_count p < 2147483647 ->
  exists p' got,
    ceph_get_cap p None alloc_ok = Ok (p', None, got) ∧ pool_wf p' ∧
    caps_reserve_count p' = caps_reserve_count p ∧
    (got = false <-> alloc_ok = false ∧ caps_avail_count p = 0) ∧
    (got = false -> p' = p) ∧
    (got = true -> caps_use_count p' = caps_use_count p + 1 ∧
                   if alloc_ok
                   then caps_avail_count p' = caps_avail_count p
                   else caps_avail_count p' = caps_avail_count p - 1).
Proof. apply get_cap_none. Qed.

(** A cap that [ceph_get_cap] hands out without a reservation and that
    [ceph_put_cap] takes back leaves the use count and the reserve count
    as they were, and no cap is lost: what the pool holds outside the
    available caps is what it held. *)
Theorem get_put_round_trip p alloc_ok p1 :
  pool_wf p -> caps_total_count p < 2147483647 ->
  ceph_get_cap p None alloc_ok = Ok (p1, None, true) ->
  exists p2,
    ceph_put_cap p1 = Ok p2 ∧ pool_wf p2 ∧
    caps_use_count p2 = caps_use_count p ∧
    caps_reserve_count p2 = caps_reserve_count p ∧
    caps_total_count p2 - caps_avail_count p2 =
      caps_total_count p - caps_avail_count p.
Proof.
  intros Hwf Hlt Hget.
  destruct (get_cap_none p alloc_ok Hwf Hlt)
    as (p1' & got & Hget' & Hwf1 & Hr1 & _ & _ & Hgot).
  rewrite Hget in Hget'. injection Hget' as <- <-.
  destruct (Hgot eq_refl) as [Hu1 Hav1].
  pose proof Hwf as (Hu & Hr & Ha & Hsum & _ & _).
  pose proof Hwf1 as (_ & _ & _ & Hsum1 & _ & _).
  destruct (put_cap_post p1 Hwf1) as (p2 & Hput & Hwf2 & Hu2 & Hr2 & Hrest);
    [lia|].
  exists p2. split; [done|]. split; [done|].
  split; [lia|]. split; [congruence|].
  destruct alloc_ok; case_decide; lia.
Qed.

Ltac pool_conc := unfold pool_wf; simpl; lia.

Lemma reserve_caps_post_witness :
  exists p' ctx' err,
    ceph_reserve_caps (H := linux_consts) run2_pool (mk_ctx 0 0) 4
      [true; true] 0 = Ok (p', ctx', err) ∧
    pool_wf p' ∧
    (err = 0 ∧ ctx' = mk_ctx 4 0 ∧
     caps_reserve_count p' = caps_reserve_count run2_pool + 4
     ∨ err = - 12 ∧ ctx' = mk_ctx 0 0 ∧
       caps_reserve_count p' = caps_reserve_count run2_pool).
Proof.
  apply (reserve_caps_post (H := linux_consts)).
  - discriminate.
  - pool_conc.
  - lia.
  - simpl. lia.
  - simpl. lia.
Defined.

Lemma unreserve_caps_post_witness :
  exists p' reclaim,
    ceph_unreserve_caps (Pool.mk 4 0 4 0 0 0 4) (mk_ctx 3 1)
      = Ok (p', mk_ctx 0 1, reclaim) ∧
    pool_wf p' ∧ caps_use_count p' = 0 ∧ caps_reserve_count p' = 4 - 3 ∧
    caps_total_count p' - caps_avail_count p' = 4 - 0 - 3.
Proof.
  apply (unreserve_caps_post (Pool.mk 4 0 4 0 0 0 4) (mk_ctx 3 1)).
  - pool_conc.
  - simpl. lia.
Defined.

Lemma get_cap_reserved_witness :
  exists p',
    ceph_get_cap (Pool.mk 4 0 4 0 0 0 4) (Some (mk_ctx 4 0)) false
      = Ok (p', Some (mk_ctx (4 - 1) (0 + 1)), true) ∧
    pool_wf p' ∧ caps_use_count p' = 0 + 1 ∧ caps_reserve_count p' = 4 - 1 ∧
    caps_avail_count p' = 0 ∧ caps_total_count p' = 4.
Proof.
  apply (get_cap_reserved (Pool.mk 4 0 4 0 0 0 4) (mk_ctx 4 0) false).
  - pool_conc.
  - simpl. lia.
  - simpl. lia.
  - simpl. lia.
Defined.

Lemma get_cap_unreserved_witness :
  exists p' got,
    ceph_get_cap run2_pool None false = Ok (p', None, got) ∧ pool_wf p' ∧
    caps_reserve_count p' = caps_reserve_count run2_pool ∧
    (got = false <-> false = false ∧ caps_avail_count run2_pool = 0) ∧
    (got = false -> p' = run2_pool) ∧
    (got = true -> caps_use_count p' = caps_use_count run2_pool + 1 ∧
                   caps_avail_count p' = caps_avail_count run2_pool - 1).
Proof.
  apply (get_cap_unreserved run2_pool false).
  - pool_conc.
  - simpl. lia.
Defined.

Lemma get_put_round_trip_witness :
  exists p2,
    ceph_put_cap (Pool.mk 2 1 0 1 0 0 1) = Ok p2 ∧ pool_wf p2 ∧
    caps_use_count p2 = caps_use_count run2_pool ∧
    caps_reserve_count p2 = caps_reserve_count run2_pool ∧
    caps_total_count p2 - caps_avail_count p2 =
      caps_total_count run2_pool - caps_avail_count run2_pool.
Proof.
  apply (get_put_round_trip run2_pool false (Pool.mk 2 1 0 1 0 0 1)).
  - pool_conc.
  - simpl. lia.
  - reflexivity.
Defined.

End PoolOps.

(** * Queries on the caps of an inode *)
Module Queries.
Import CapsFacts ExportFacts.

Lemma land_covers a m :
  Z.land a m = m <-> covers (fun n => Z.testbit a n = true) m.
Proof.
  unfold covers. split.
  - intros Heq n Hn Hm. rewrite <- Heq in Hm. rewrite Z.land_spec in Hm.
    by apply andb_true_iff in Hm as [? _].
  - intros Hc. apply Z.bits_inj'. intros n Hn. rewrite Z.land_spec.
    destruct (Z.testbit m n) eqn:Hm; [|apply andb_false_r].
    by rewrite (Hc n Hn Hm).
Qed.

Section with_consts.
Context `{!KernelConsts}.

Lemma issued_mask_scan_spec e mdsc mask have l :
  (forall k c, (k, c) ∈ l -> is_Some (sessions mdsc !! Cap.mds c)) ->
  Z.land have mask ≠ mask ->
  exists b, issued_mask_scan e mdsc mask have l = Ok b ∧
    (b = true <->
     covers (fun n => Z.testbit have n = true ∨
                      exists k c, (k, c) ∈ l ∧
                        cap_valid_b e (sessions mdsc) c = true ∧
                        Z.testbit (Cap.issued c) n = true) mask).
Proof.
  revert have. induction l as [|[k c] l IH]; intros have Hsess Hnot.
  - exists false. split; [done|]. split; [done|]. intros Hc. exfalso.
    apply Hnot, land_covers. intros n Hn Hm.
    destruct (Hc n Hn Hm) as [?|(? & ? & Hin & _)]; [done|].
    by apply elem_of_nil in Hin.
  - cbn [issued_mask_scan].
    rewrite cap_is_valid_read by (apply (Hsess k); left).
    cbn [mbind res_bind].
    assert (Hsess' : forall k' c', (k', c') ∈ l ->
                       is_Some (sessions mdsc !! Cap.mds c')).
    { intros k' c' Hin. apply (Hsess k'). by right. }
    destruct (cap_valid_b e (sessions mdsc) c) eqn:Hv; cbn [negb].
    + case_decide as Hone.
      { exists true. split; [done|]. split; [|done]. intros _ n Hn Hm.
        right. exists k, c. split; [left|]. split; [done|].
        by apply (proj1 (land_covers _ _) Hone). }
      cbv zeta. case_decide as Hcombo.
      { exists true. split; [done|]. split; [|done]. intros _ n Hn Hm.
        pose proof (proj1 (land_covers _ _) Hcombo n Hn Hm) as Hb.
        simpl in Hb. rewrite Z.lor_spec in Hb.
        apply orb_true_iff in Hb as [Hb|Hb]; [by left|].
        right. exists k, c. split; [left|]. done. }
      destruct (IH _ Hsess' Hcombo) as (b & -> & Hb).
      exists b. split; [done|]. rewrite Hb. split; intros Hc n Hn Hm.
      * destruct (Hc n Hn Hm) as [Hh|(k' & c' & Hin & Hv' & Hbit)].
        -- rewrite Z.lor_spec in Hh.
           apply orb_true_iff in Hh as [Hh|Hh]; [by left|].
           right. exists k, c. split; [left|]. done.
        -- right. exists k', c'. split; [by right|]. done.
      * destruct (Hc n Hn Hm) as [Hh|(k' & c' & Hin & Hv' & Hbit)].
        -- left. by rewrite Z.lor_spec, Hh.
        -- apply elem_of_cons in Hin as [[= -> ->]|Hin].
           ++ left. by rewrite Z.lor_spec, Hbit, orb_true_r.
           ++ right. exists k', c'. done.
    + destruct (IH _ Hsess' Hnot) as (b & -> & Hb).
      exists b. split; [done|]. rewrite Hb. split; intros Hc n Hn Hm.
      * destruct (Hc n Hn Hm) as [Hh|(k' & c' & Hin & Hv' & Hbit)];
          [by left|].
        right. exists k', c'. split; [by right|]. done.
      * destruct (Hc n Hn Hm) as [Hh|(k' & c' & Hin & Hv' & Hbit)];
          [by left|].
        apply elem_of_cons in Hin as [[= -> ->]|Hin]; [congruence|].
        right. exists k', c'. done.
Qed.

Lemma caps_in_order_elem ci k c :
  (k, c) ∈ caps_in_order ci <-> i_caps ci !! k = Some c.
Proof.
  unfold caps_in_order. rewrite merge_sort_Permutation.
  apply elem_of_map_to_list.
Qed.

Lemma issued_mask_covers e mdsc ci mask :
  caps_have_sessions mdsc ci ->
  exists b, __ceph_caps_issued_mask e mdsc ci mask = Ok b ∧
    (b = true <->
     covers (issued_bit e (sessions mdsc) (i_snap_caps ci) (i_caps ci)) mask).
Proof.
  intros Hsess. unfold __ceph_caps_issued_mask. cbv zeta.
  case_decide as Hsnap.
  - exists true. split; [done|]. split; [|done]. intros _ n Hn Hm. left.
    by apply (proj1 (land_covers _ _) Hsnap).
  - destruct (issued_mask_scan_spec e mdsc mask (i_snap_caps ci)
                (caps_in_order ci)) as (b & -> & Hb); [|done|].
    { intros k c Hin. apply caps_in_order_elem in Hin. by eapply Hsess. }
    exists b. split; [done|]. rewrite Hb. unfold issued_bit.
    split; intros Hc n Hn Hm.
    + destruct (Hc n Hn Hm) as [?|(k & c & Hin & ?)]; [by left|].
      right. exists k, c. by rewrite <- caps_in_order_elem.
    + destruct (Hc n Hn Hm) as [?|(k & c & Hin & ?)]; [by left|].
      right. exists k, c. by rewrite caps_in_order_elem.
Qed.

(** [__ceph_caps_issued_mask] answers 1 exactly when every bit of the
    mask is issued by the snap caps or by some valid cap of the inode;
    the caps may cover the mask together. *)
Theorem issued_mask_spec e mdsc ci mask :
  caps_have_sessions mdsc ci ->
  exists b, __ceph_caps_issued_mask e mdsc ci mask = Ok b ∧
    (b = true <->
     covers (issued_bit e (sessions mdsc) (i_snap_caps ci) (i_caps ci)) mask).
Proof. apply issued_mask_covers. Qed.

(** A mask that [__ceph_caps_issued] covers is a mask that
    [__ceph_caps_issued_mask] accepts; the two agree when the auth cap
    has nothing under revocation, or when there is no auth cap. *)
Theorem issued_mask_agrees e mdsc ci mask have impl :
  caps_have_sessions mdsc ci ->
  __ceph_caps_issued e mdsc ci = Ok (have, impl) ->
  (Z.land have mask = mask ->
   __ceph_caps_issued_mask e mdsc ci mask = Ok true) ∧
  ((forall a cap, i_auth_cap ci = Some a -> i_caps ci !! a = Some cap ->
                  Z.land (Cap.implemented cap) (Z.lnot (Cap.issued cap)) = 0) ->
   __ceph_caps_issued_mask e mdsc ci mask = Ok true ->
   Z.land have mask = mask).
Proof.
  intros Hsess Hissued.
  destruct (issued_mask_covers e mdsc ci mask Hsess) as (b & Hrun & Hb).
  destruct (fold_issued e mdsc (i_snap_caps ci) 0 (i_caps ci) Hsess)
    as (have0 & impl0 & Hfold & Hbits).
  unfold __ceph_caps_issued in Hissued. rewrite Hfold in Hissued.
  cbn [mbind res_bind] in Hissued.
  assert (Hsub : forall n, 0 <= n -> Z.testbit have n = true ->
                           Z.testbit have0 n = true).
  { intros n Hn. destruct (i_auth_cap ci) as [a|]; [|by simplify_eq].
    destruct (i_caps ci !! a) as [cap|]; simpl in Hissued; [|done].
    simplify_eq. rewrite Z.land_spec. by intros [? _]%andb_true_iff. }
  split.
  - intros Hcov. rewrite Hrun. f_equal. apply Hb. intros n Hn Hm.
    apply Hbits; [done|]. apply Hsub; [done|].
    by apply (proj1 (land_covers _ _) Hcov).
  - intros Hrev Hrun'. rewrite Hrun in Hrun'. injection Hrun' as ->.
    apply land_covers. intros n Hn Hm.
    pose proof (proj2 (Hbits n Hn) (proj1 Hb eq_refl n Hn Hm)) as Hb0.
    destruct (i_auth_cap ci) as [a|] eqn:Ha; [|by simplify_eq].
    destruct (i_caps ci !! a) as [cap|] eqn:Hcap; simpl in Hissued; [|done].
    simplify_eq. rewrite Z.land_spec, Hb0, Z.lor_spec, Z.lnot_spec by done.
    simpl.
    pose proof (f_equal (fun z => Z.testbit z n) (Hrev a cap eq_refl Hcap))
      as Hz.
    simpl in Hz. rewrite Z.land_spec, Z.lnot_spec, Z.bits_0 in Hz by done.
    by destruct (Z.testbit (Cap.implemented cap) n),
      (Z.testbit (Cap.issued cap) n).
Qed.

(** [__ceph_caps_issued_other] gathers the bits of the snap caps and of
    the valid caps but the one it is told to leave out: the bits that
    would be issued were that cap removed. *)
Theorem issued_other_spec e mdsc ci ocap :
  caps_have_sessions mdsc ci ->
  exists have,
    __ceph_caps_issued_other e mdsc ci ocap = Ok have ∧
    forall n, 0 <= n ->
      (Z.testbit have n = true <->
       issued_bit e (sessions mdsc) (i_snap_caps ci)
         (delete ocap (i_caps ci)) n).
Proof.
  unfold __ceph_caps_issued_other, caps_have_sessions.
  apply (map_fold_weak_ind
    (fun r (m : gmap Z Cap.t) =>
       (forall k c, m !! k = Some c -> is_Some (sessions mdsc !! Cap.mds c)) ->
       exists have, r = Ok have ∧
         forall n, 0 <= n ->
           (Z.testbit have n = true <->
            issued_bit e (sessions mdsc) (i_snap_caps ci) (delete ocap m) n))).
  - intros _. exists (i_snap_caps ci). split; [done|]. intros n Hn.
    unfold issued_bit. split; [by left|].
    intros [?|(k & c & Hc & _)]; [done|].
    by rewrite delete_empty, lookup_empty in Hc.
  - intros k c m r Hk IH Hall.
    destruct IH as (have & -> & Hbits).
    { intros k' c' Hc'. apply (Hall k'). rewrite lookup_insert_ne; [done|].
      intros ->. by rewrite Hk in Hc'. }
    unfold issued_other_step. cbn [mbind res_bind].
    case_decide as Hoc.
    + subst k. exists have. split; [done|]. intros n Hn.
      rewrite Hbits by done. by rewrite delete_insert_eq.
    + rewrite cap_is_valid_read by (apply (Hall k); by rewrite lookup_insert_eq).
      cbn [mbind res_bind].
      rewrite delete_insert_ne by done.
      assert (Hk' : delete ocap m !! k = None).
      { by rewrite lookup_delete_ne. }
      destruct (cap_valid_b e (sessions mdsc) c) eqn:Hv.
      * eexists. split; [done|]. intros n Hn.
        rewrite Z.lor_spec, orb_true_iff, Hbits by done. unfold issued_bit.
        split.
        -- intros [[?|(k' & c' & Hc' & ?)]|Hbit]; [by left| |].
           ++ right. exists k', c'. split; [|done].
              rewrite lookup_insert_ne; [done|]. intros ->.
              by rewrite Hk' in Hc'.
           ++ right. exists k, c. by rewrite lookup_insert_eq.
        -- intros [?|(k' & c' & Hc' & Hv' & Hbit)]; [by left; left|].
           apply lookup_insert_Some in Hc' as [[<- <-]|[Hne Hc']];
             [by right|].
           left. right. by exists k', c'.
      * eexists. split; [done|]. intros n Hn.
        rewrite Hbits by done. unfold issued_bit. split.
        -- intros [?|(k' & c' & Hc' & ?)]; [by left|].
           right. exists k', c'. split; [|done].
           rewrite lookup_insert_ne; [done|]. intros ->.
           by rewrite Hk' in Hc'.
        -- intros [?|(k' & c' & Hc' & Hv' & Hbit)]; [by left|].
           apply lookup_insert_Some in Hc' as [[<- <-]|[Hne Hc']];
             [congruence|].
           right. by exists k', c'.
Qed.

End with_consts.

Ltac sample_sessions :=
  let k := fresh "k" in
  let c0 := fresh "c" in
  let Hc0 := fresh "Hc" in
  intros k c0 Hc0; unfold Sample.inode1 in Hc0; simpl in Hc0;
  apply lookup_insert_Some in Hc0 as [[<- <-]|[_ Hc0]]; [by eexists|];
  by rewrite lookup_empty in Hc0.

Lemma issued_mask_spec_witness :
  exists b,
    __ceph_caps_issued_mask (H := linux_consts) Sample.env0 Sample.mdsc0
      (Sample.inode1 5 0 (1 + 2048)) 2048 = Ok b ∧
    (b = true <->
     covers (issued_bit (H := linux_consts) Sample.env0
               (sessions Sample.mdsc0)
               (i_snap_caps (Sample.inode1 5 0 (1 + 2048)))
               (i_caps (Sample.inode1 5 0 (1 + 2048)))) 2048).
Proof.
  apply (issued_mask_spec (H := linux_consts)). sample_sessions.
Defined.

Lemma issued_mask_agrees_witness :
  (Z.land 2049 2048 = 2048 ->
   __ceph_caps_issued_mask (H := linux_consts) Sample.env0 Sample.mdsc0
     (Sample.inode1 5 0 (1 + 2048)) 2048 = Ok true) ∧
  ((forall a cap, i_auth_cap (Sample.inode1 5 0 (1 + 2048)) = Some a ->
                  i_caps (Sample.inode1 5 0 (1 + 2048)) !! a = Some cap ->
                  Z.land (Cap.implemented cap) (Z.lnot (Cap.issued cap)) = 0) ->
   __ceph_caps_issued_mask (H := linux_consts) Sample.env0 Sample.mdsc0
     (Sample.inode1 5 0 (1 + 2048)) 2048 = Ok true ->
   Z.land 2049 2048 = 2048).
Proof.
  apply (issued_mask_agrees (H := linux_consts) Sample.env0 Sample.mdsc0
           (Sample.inode1 5 0 (1 + 2048)) 2048 2049 2049).
  - sample_sessions.
  - reflexivity.
Defined.

Lemma issued_other_spec_witness :
  exists have,
    __ceph_caps_issued_other (H := linux_consts) Sample.env0 Sample.mdsc0
      (Sample.inode1 5 0 (1 + 2048)) 0 = Ok have ∧
    forall n, 0 <= n ->
      (Z.testbit have n = true <->
       issued_bit (H := linux_consts) Sample.env0 (sessions Sample.mdsc0)
         (i_snap_caps (Sample.inode1 5 0 (1 + 2048)))
         (delete 0 (i_caps (Sample.inode1 5 0 (1 + 2048)))) n).
Proof.
  apply (issued_other_spec (H := linux_consts)). sample_sessions.
Defined.

End Queries.

(** * What an acquisition attempt takes *)
Module Acquire.
Import CapsFacts Codes.

Lemma land_lor_absorb a b : Z.land (Z.lor a b) a = a.
Proof.
  apply Z.bits_inj'. intros n Hn. rewrite Z.land_spec, Z.lor_spec.
  by destruct (Z.testbit a n), (Z.testbit b n).
Qed.

Lemma land_lor_within h a b c :
  Z.land h a = a -> Z.land h b = b ->
  Z.land h (Z.lor a (Z.land b c)) = Z.lor a (Z.land b c).
Proof.
  intros Ha Hb. apply Z.bits_inj'. intros n Hn.
  pose proof (f_equal (fun z => Z.testbit z n) Ha) as Ha'.
  pose proof (f_equal (fun z => Z.testbit z n) Hb) as Hb'.
  simpl in Ha', Hb'. rewrite Z.land_spec in Ha', Hb'.
  rewrite !Z.land_spec, !Z.lor_spec, Z.land_spec.
  destruct (Z.testbit h n), (Z.testbit a n), (Z.testbit b n),
    (Z.testbit c n); simpl in *; congruence.
Qed.

Section with_consts.
Context `{!KernelConsts}.

Lemma touch_fmode_refs e ci flags :
  cap_refs (__ceph_touch_fmode e ci flags) = cap_refs ci ∧
  i_count (__ceph_touch_fmode e ci flags) = i_count ci ∧
  i_head_snapc (__ceph_touch_fmode e ci flags) = i_head_snapc ci.
Proof. unfold __ceph_touch_fmode. cbv zeta. by repeat case_match. Qed.

(** A pass that does not take the caps leaves the counters alone. *)
Lemma pass_no_refs e mdsc ci need want endoff flags got lk trylock r :
  try_get_cap_refs_pass e mdsc ci need want endoff flags got lk trylock = Ok r ->
  match r with
  | GetOut c ret g =>
      ret = 1 ∨ (g = got ∧ cap_refs c = cap_refs ci ∧ i_count c = i_count ci ∧
                 i_head_snapc c = i_head_snapc ci)
  | GetAgain c =>
      cap_refs c = cap_refs ci ∧ i_count c = i_count ci ∧
      i_head_snapc c = i_head_snapc ci
  end.
Proof.
  unfold try_get_cap_refs_pass, mbind, res_bind. intros Hp.
  repeat (case_match; simplify_eq); auto.
Qed.

(** An attempt of [try_get_cap_refs] that does not return 1 has taken
    nothing: [*got], the reference counters of the caps, the reference
    count of the inode and the head snap context are what they were. *)
Theorem failed_get_takes_no_refs e mdsc ci need want endoff flags got trylock
    ci' ret got' :
  try_get_cap_refs e mdsc ci need want endoff flags got trylock
    = Ok (ci', ret, got') ->
  ret ≠ 1 ->
  got' = got ∧ cap_refs ci' = cap_refs ci ∧ i_count ci' = i_count ci ∧
  i_head_snapc ci' = i_head_snapc ci.
Proof.
  unfold try_get_cap_refs. intros Hrun Hret.
  destruct (try_get_cap_refs_pass e mdsc ci need want endoff flags got false
              trylock) as [r1|] eqn:Hp1; [|done].
  apply pass_no_refs in Hp1. cbn [mbind res_bind] in Hrun.
  destruct r1 as [c r g|c].
  - cbn [mbind res_bind] in Hrun. simplify_eq.
    destruct Hp1 as [?|(-> & Hrefs & Hcount & Hsnapc)]; [done|].
    destruct (touch_fmode_refs e c flags) as (-> & -> & ->). done.
  - destruct (try_get_cap_refs_pass e mdsc c need want endoff flags got true
                trylock) as [r2|] eqn:Hp2; [|done].
    apply pass_no_refs in Hp2. cbn [mbind res_bind] in Hrun.
    destruct r2 as [c2 r g|c2]; [|done].
    cbn [mbind res_bind] in Hrun. simplify_eq.
    destruct Hp1 as (Hr1 & Hc1 & Hs1).
    destruct Hp2 as [?|(-> & Hrefs & Hcount & Hsnapc)]; [done|].
    destruct (touch_fmode_refs e c2 flags) as (-> & -> & ->).
    split; [done|]. split_and!; congruence.
Qed.

Lemma pass_got_issued e mdsc ci need want endoff flags got lk trylock c g
    have impl :
  errno_positive ->
  __ceph_caps_issued e mdsc ci = Ok (have, impl) ->
  try_get_cap_refs_pass e mdsc ci need want endoff flags got lk trylock
    = Ok (GetOut c 1 g) ->
  Z.land g need = need ∧ Z.land have g = g.
Proof.
  intros (HIO & HAG & HFB & HRO & HST & HUC) Hissued.
  unfold try_get_cap_refs_pass.
  destruct (tst flags CHECK_FILELOCK && _); [intros [= ]; lia|].
  assert (Hsame : forall x, __ceph_caps_issued e mdsc
                              (set_i_truncate_pending x ci)
                            = __ceph_caps_issued e mdsc ci) by done.
  destruct (decide (i_truncate_pending ci ≠ 0)); rewrite ?Hsame, Hissued;
    cbn [mbind res_bind];
    unfold mbind, res_bind;
    repeat (case_match; simplify_eq); intros Hp; simplify_eq; try lia;
    (split; [apply land_lor_absorb || by rewrite Z.land_diag
            |by apply land_lor_within || done]).
Qed.

Lemma pass_again_same e mdsc ci need want endoff flags got lk trylock c :
  try_get_cap_refs_pass e mdsc ci need want endoff flags got lk trylock
    = Ok (GetAgain c) ->
  __ceph_caps_issued e mdsc c = __ceph_caps_issued e mdsc ci.
Proof.
  unfold try_get_cap_refs_pass, mbind, res_bind. intros Hp.
  repeat (case_match; simplify_eq); done.
Qed.

(** The caps that a successful [try_get_cap_refs] hands out in [*got]
    include the needed caps and are all issued: they are among the bits
    that [__ceph_caps_issued] returns. *)
Theorem got_is_issued e mdsc ci need want endoff flags got trylock ci' got'
    have impl :
  errno_positive ->
  __ceph_caps_issued e mdsc ci = Ok (have, impl) ->
  try_get_cap_refs e mdsc ci need want endoff flags got trylock
    = Ok (ci', 1, got') ->
  Z.land got' need = need ∧ Z.land have got' = got'.
Proof.
  intros Herr Hissued. unfold try_get_cap_refs. intros Hrun.
  destruct (try_get_cap_refs_pass e mdsc ci need want endoff flags got false
              trylock) as [[c r g|c]|] eqn:Hp1; [| |done];
    cbn [mbind res_bind] in Hrun.
  - simplify_eq. by eapply pass_got_issued.
  - destruct (try_get_cap_refs_pass e mdsc c need want endoff flags got true
                trylock) as [[c2 r g|c2]|] eqn:Hp2; [|done|done].
    cbn [mbind res_bind] in Hrun. simplify_eq.
    apply pass_again_same in Hp1. rewrite <- Hp1 in Hissued.
    by eapply pass_got_issued.
Qed.

End with_consts.

Lemma failed_get_takes_no_refs_witness :
  0 = 0 ∧
  cap_refs (__ceph_touch_fmode (H := linux_consts) Sample.env0 writer_ci 256)
    = cap_refs writer_ci ∧
  i_count (__ceph_touch_fmode (H := linux_consts) Sample.env0 writer_ci 256)
    = i_count writer_ci ∧
  i_head_snapc (__ceph_touch_fmode (H := linux_consts) Sample.env0 writer_ci 256)
    = i_head_snapc writer_ci.
Proof.
  apply (failed_get_takes_no_refs (H := linux_consts) Sample.env0 Sample.mdsc0
           writer_ci 4096 4096 150 256 0 true _ 0 0).
  - reflexivity.
  - discriminate.
Defined.

Lemma got_is_issued_witness :
  exists ci' got',
    try_get_cap_refs (H := linux_consts) Sample.env0 Sample.mdsc0 reader_ci
      2048 0 0 1 0 true = Ok (ci', 1, got') ∧
    Z.land got' 2048 = 2048 ∧ Z.land 2049 got' = got'.
Proof.
  destruct (try_get_cap_refs (H := linux_consts) Sample.env0 Sample.mdsc0
              reader_ci 2048 0 0 1 0 true)
    as [[[c r] g]|f] eqn:E; [|exfalso; vm_compute in E; discriminate E].
  assert (Hr : r = 1).
  { pose proof E as E'. vm_compute in E'. by injection E' as _ <- _. }
  subst r. exists c, g. split; [reflexivity|].
  apply (got_is_issued (H := linux_consts) Sample.env0 Sample.mdsc0 reader_ci
           2048 0 0 1 0 true c g 2049 2049).
  - unfold errno_positive. simpl. lia.
  - reflexivity.
  - exact E.
Defined.

End Acquire.

(** * Adding and removing caps *)
Module AddRemove.
Import CapsFacts GrantSteps.

Section with_consts.
Context `{!KernelConsts}.

(** [ceph_add_cap] for a rank that has no cap on the inode. *)
Lemma add_cap_fresh_core e mdsc ci smds cap_id issued wanted seq mseq realmino
    flags realm s :
  i_caps ci !! smds = None -> sessions mdsc !! smds = Some s ->
  if_ok (fun r =>
           r.2 = false ∧
           i_caps r.1.2 =
             <[smds := Cap.mk cap_id smds issued issued wanted seq seq mseq
                         (s_cap_gen s)]> (i_caps ci) ∧
           (i_auth_cap r.1.2 = i_auth_cap ci ∨ i_auth_cap r.1.2 = Some smds))
    (ceph_add_cap e mdsc ci smds cap_id issued wanted seq mseq realmino flags
       true realm).
Proof.
  intros Hnone Hs.
  unfold ceph_add_cap, session_of, __get_cap_for_mds, __insert_cap_node.
  rewrite Hs, Hnone. simpl. rewrite Hnone. simpl.
  set (fresh := Cap.mk 0 smds 0 0 0 0 0 0 0).
  match goal with
  | |- if_ok _ (__check_cap_issue _ _ ?c _ ≫= _) =>
      assert (Hc : i_caps c = <[smds := fresh]> (i_caps ci) ∧
                   i_auth_cap c = i_auth_cap ci);
        [|generalize dependent c; intros ci1 [Hci1 Ha1]]
  end.
  { destruct (match i_snap_realm _ with Some _ => _ | None => _ end);
      [destruct realm|]; done. }
  apply if_ok_bind.
  assert (Hchk : if_ok (fun c => i_caps c = i_caps ci1 ∧
                                 i_auth_cap c = i_auth_cap ci1)
                   (__check_cap_issue e mdsc ci1 issued)).
  { unfold __check_cap_issue. apply if_ok_bind.
    destruct (__ceph_caps_issued _ _ _) as [[? ?]|]; simpl; [|done].
    by repeat case_match. }
  eapply if_ok_mono; [|exact Hchk]. intros ci2 [Hci2 Ha2].
  rewrite Hci2, Hci1, lookup_insert_eq. simpl.
  apply if_ok_bind.
  match goal with
  | |- if_ok _ ?X =>
      assert (Hauth : if_ok (fun r =>
                (r.2 = fresh ∨ r.2 = Cap.set_mds_wanted wanted fresh) ∧
                i_caps r.1.2 = i_caps ci2 ∧
                (i_auth_cap r.1.2 = i_auth_cap ci2 ∨
                 i_auth_cap r.1.2 = Some smds)) X)
  end.
  { destruct (tst _ _); [|simpl; auto].
    apply if_ok_bind.
    match goal with
    | |- if_ok _ ?Y => destruct Y as [[|]|]; simpl; auto
    end.
    apply if_ok_bind.
    match goal with
    | |- if_ok _ ?Y => destruct Y; simpl; auto
    end. }
  eapply if_ok_mono; [|exact Hauth].
  intros [[m3 ci3] cap3] (Hcap3 & Hci3 & Ha3). simpl in Hcap3, Hci3, Ha3.
  simpl. split; [done|]. split.
  - unfold store_cap. simpl.
    assert (Hmds : Cap.mds cap3 = smds) by (by destruct Hcap3 as [-> | ->]).
    destruct (decide _); simpl; rewrite Hmds, Hci3, Hci2, Hci1,
      insert_insert_eq; f_equal;
      destruct Hcap3 as [-> | ->]; simpl;
      by rewrite ?Z.lor_0_l, ?Z.lor_diag.
  - rewrite <- Ha1, <- Ha2. unfold store_cap. simpl. done.
Qed.

(** [__ceph_remove_cap] of a cap that the inode has. *)
Lemma remove_cap_core mdsc ci mds qr cap s mdsc' ci' acts :
  i_caps ci !! mds = Some cap -> sessions mdsc !! mds = Some s ->
  __ceph_remove_cap mdsc ci mds qr = Ok (mdsc', ci', acts) ->
  i_caps ci' = delete mds (i_caps ci) ∧
  i_auth_cap ci' =
    (if decide (i_auth_cap ci = Some mds) then None else i_auth_cap ci) ∧
  (s_cap_iterator s = Some (i_ino ci, mds) ->
   acts = [] ∧ pool mdsc' = pool mdsc) ∧
  (s_cap_iterator s ≠ Some (i_ino ci, mds) ->
   (acts = [QueueCapRelease mds (i_ino ci) (Cap.cap_id cap) (Cap.seq cap)
              (Cap.issue_seq cap) (Cap.mseq cap)] ∧
    pool mdsc' = pool mdsc)
   ∨ (acts = [] ∧ Pool.ceph_put_cap (pool mdsc) = Ok (pool mdsc'))) ∧
  (delete mds (i_caps ci) = ∅ -> i_wr_ref ci = 0 -> i_snap_realm ci' = None).
Proof.
  intros Hcap Hs. unfold __ceph_remove_cap, session_of.
  rewrite Hcap, Hs. cbn [deref mbind res_bind]. cbv zeta.
  set (ci1 := if decide (i_auth_cap (set_i_caps (delete mds (i_caps ci)) ci)
                         = Some mds)
              then set_i_auth_cap None (set_i_caps (delete mds (i_caps ci)) ci)
              else set_i_caps (delete mds (i_caps ci)) ci).
  assert (Hci1 : i_ino ci1 = i_ino ci ∧ i_caps ci1 = delete mds (i_caps ci) ∧
                 i_wr_ref ci1 = i_wr_ref ci ∧
                 i_auth_cap ci1 = (if decide (i_auth_cap ci = Some mds)
                                   then None else i_auth_cap ci)).
  { subst ci1. cbn [i_auth_cap set_i_caps].
    destruct (decide (i_auth_cap ci = Some mds)); done. }
  destruct Hci1 as (Hino & Hcaps & Hwr & Hauth).
  rewrite Hino.
  set (ci2 := if negb (__ceph_is_any_real_caps ci1) &&
                 bool_decide (i_wr_ref ci1 = 0) &&
                 bool_decide (is_Some (i_snap_realm ci1))
              then set_i_snap_realm None ci1 else ci1).
  assert (Hci2 : i_caps ci2 = i_caps ci1 ∧ i_auth_cap ci2 = i_auth_cap ci1 ∧
                 (i_caps ci1 = ∅ -> i_wr_ref ci1 = 0 -> i_snap_realm ci2 = None)).
  { subst ci2. unfold __ceph_is_any_real_caps.
    destruct (bool_decide (i_caps ci1 = ∅)) eqn:He; cbn [negb andb].
    - destruct (bool_decide (i_wr_ref ci1 = 0)) eqn:Hw; cbn [andb].
      + destruct (i_snap_realm ci1) as [r|] eqn:Hr.
        * rewrite bool_decide_eq_true_2 by (by eexists). done.
        * rewrite bool_decide_eq_false_2 by (by intros [? ?]). done.
      + split; [done|]. split; [done|]. intros _ Hz.
        by apply bool_decide_eq_false in Hw.
    - split; [done|]. split; [done|]. intros Hz.
      by apply bool_decide_eq_false in He. }
  destruct Hci2 as (Hcaps2 & Hauth2 & Hrealm2).
  clearbody ci2 ci1.
  intros Hrun.
  destruct (decide (s_cap_iterator s = Some (i_ino ci, mds))) as [Hit|Hit].
  - rewrite (bool_decide_eq_true_2 _ Hit) in Hrun.
    cbn [negb andb] in Hrun. rewrite !andb_false_r in Hrun.
    cbn [mbind res_bind] in Hrun.
    injection Hrun as <- <- <-.
    split_and!; try done; try congruence.
    intros He Hw. apply Hrealm2; congruence.
  - rewrite (bool_decide_eq_false_2 _ Hit) in Hrun.
    cbn [negb] in Hrun. rewrite !andb_true_r in Hrun.
    destruct (qr && _) eqn:Hq; cbn [negb] in Hrun;
      cbn [mbind res_bind] in Hrun.
    + injection Hrun as <- <- <-.
      split_and!; try done; try congruence.
      * intros _. by left.
      * intros He Hw. apply Hrealm2; congruence.
    + destruct (Pool.ceph_put_cap (pool mdsc)) as [p'|] eqn:Hput;
        cbn [mbind res_bind] in Hrun; [|done].
      injection Hrun as <- <- <-.
      split_and!; try done; try congruence.
      * intros _. right. done.
      * intros He Hw. apply Hrealm2; congruence.
Qed.

(** A cap that [ceph_add_cap] adds for a rank that had none is found
    under that rank with the id, the bits and the sequence numbers of
    the call, and with the generation of its session; the cap object
    that the caller brought is used up and the other caps stay. *)
Theorem add_cap_fresh e mdsc ci smds cap_id issued wanted seq mseq realmino
    flags realm s mdsc' ci' new_cap' :
  i_caps ci !! smds = None -> sessions mdsc !! smds = Some s ->
  ceph_add_cap e mdsc ci smds cap_id issued wanted seq mseq realmino flags
    true realm = Ok (mdsc', ci', new_cap') ->
  new_cap' = false ∧
  __get_cap_for_mds ci' smds =
    Some (Cap.mk cap_id smds issued issued wanted seq seq mseq (s_cap_gen s)) ∧
  forall k, k ≠ smds -> __get_cap_for_mds ci' k = __get_cap_for_mds ci k.
Proof.
  intros Hnone Hs Hrun.
  pose proof (if_ok_run _ _ _
                (add_cap_fresh_core e mdsc ci smds cap_id issued wanted seq
                   mseq realmino flags realm s Hnone Hs) Hrun)
    as (Hnc & Hcaps & _).
  simpl in Hnc, Hcaps. unfold __get_cap_for_mds. rewrite Hcaps.
  split; [done|]. split; [by rewrite lookup_insert_eq|].
  intros k Hk. by rewrite lookup_insert_ne.
Qed.

(** [__ceph_remove_cap] takes the cap out of the inode and clears the
    auth cap if that was it.  Unless the session is iterating over this
    very cap, the cap object goes one way only: it is queued for release
    to the MDS, or it is given back to the pool.  The inode that loses
    its last cap with no write in progress leaves its snap realm. *)
Theorem remove_cap_post mdsc ci mds qr cap s mdsc' ci' acts :
  i_caps ci !! mds = Some cap -> sessions mdsc !! mds = Some s ->
  __ceph_remove_cap mdsc ci mds qr = Ok (mdsc', ci', acts) ->
  i_caps ci' = delete mds (i_caps ci) ∧
  i_auth_cap ci' =
    (if decide (i_auth_cap ci = Some mds) then None else i_auth_cap ci) ∧
  (s_cap_iterator s = Some (i_ino ci, mds) ->
   acts = [] ∧ pool mdsc' = pool mdsc) ∧
  (s_cap_iterator s ≠ Some (i_ino ci, mds) ->
   (acts = [QueueCapRelease mds (i_ino ci) (Cap.cap_id cap) (Cap.seq cap)
              (Cap.issue_seq cap) (Cap.mseq cap)] ∧
    pool mdsc' = pool mdsc)
   ∨ (acts = [] ∧ Pool.ceph_put_cap (pool mdsc) = Ok (pool mdsc'))) ∧
  (delete mds (i_caps ci) = ∅ -> i_wr_ref ci = 0 -> i_snap_realm ci' = None).
Proof. apply remove_cap_core. Qed.

(** Adding a cap for a rank that had none and removing it again leaves
    the caps of the inode as they were, and the rank is not the auth
    rank afterwards. *)
Theorem add_remove_round_trip e mdsc ci smds cap_id issued wanted seq mseq
    realmino flags realm s mdsc1 ci1 nc qr mdsc2 ci2 acts :
  i_caps ci !! smds = None -> sessions mdsc !! smds = Some s ->
  ceph_add_cap e mdsc ci smds cap_id issued wanted seq mseq realmino flags
    true realm = Ok (mdsc1, ci1, nc) ->
  __ceph_remove_cap mdsc1 ci1 smds qr = Ok (mdsc2, ci2, acts) ->
  i_caps ci2 = i_caps ci ∧ i_auth_cap ci2 ≠ Some smds.
Proof.
  intros Hnone Hs Hadd Hrem.
  pose proof (if_ok_run _ _ _
                (add_cap_fresh_core e mdsc ci smds cap_id issued wanted seq
                   mseq realmino flags realm s Hnone Hs) Hadd)
    as (_ & Hcaps & Hauth).
  simpl in Hcaps, Hauth.
  destruct (sessions mdsc1 !! smds) as [s1|] eqn:Hs1.
  2:{ unfold __ceph_remove_cap, session_of in Hrem.
      rewrite Hcaps, lookup_insert_eq, Hs1 in Hrem. done. }
  destruct (remove_cap_core mdsc1 ci1 smds qr _ s1 mdsc2 ci2 acts
              ltac:(by rewrite Hcaps, lookup_insert_eq) Hs1 Hrem)
    as (Hcaps2 & Hauth2 & _).
  split.
  - rewrite Hcaps2, Hcaps, delete_insert_eq. by apply delete_id.
  - rewrite Hauth2. case_decide; [done|]. done.
Qed.

End with_consts.

Lemma add_cap_fresh_witness :
  exists mdsc' ci',
    ceph_add_cap (H := linux_consts) Sample.env0 Sample.mdsc0
      (Sample.inode1 5 0 (1 + 2048)) 1 11 (1 + 1024) 0 1 0 1 0 true
      (Some Sample.realm0) = Ok (mdsc', ci', false) ∧
    __get_cap_for_mds ci' 1 =
      Some (Cap.mk 11 1 (1 + 1024) (1 + 1024) 0 1 1 0 1) ∧
    forall k, k ≠ 1 ->
      __get_cap_for_mds ci' k
      = __get_cap_for_mds (Sample.inode1 5 0 (1 + 2048)) k.
Proof.
  destruct (ceph_add_cap (H := linux_consts) Sample.env0 Sample.mdsc0
              (Sample.inode1 5 0 (1 + 2048)) 1 11 (1 + 1024) 0 1 0 1 0 true
              (Some Sample.realm0))
    as [[[m c] nc]|f] eqn:E; [|exfalso; vm_compute in E; discriminate E].
  destruct (add_cap_fresh (H := linux_consts) Sample.env0 Sample.mdsc0
              (Sample.inode1 5 0 (1 + 2048)) 1 11 (1 + 1024) 0 1 0 1 0
              (Some Sample.realm0)
              Sample.session0 m c nc)
    as (-> & H2 & H3).
  - reflexivity.
  - reflexivity.
  - exact E.
  - exists m, c. split; [reflexivity|]. split; [exact H2|exact H3].
Defined.

Lemma remove_cap_post_witness :
  exists mdsc' ci',
    __ceph_remove_cap Sample.mdsc0 (Sample.inode1 5 0 (1 + 2048)) 0 true
      = Ok (mdsc', ci', [QueueCapRelease 0 5 10 1 1 0]) ∧
    i_caps ci' = delete 0 (i_caps (Sample.inode1 5 0 (1 + 2048))) ∧
    i_auth_cap ci' = None ∧ pool mdsc' = pool Sample.mdsc0.
Proof.
  destruct (__ceph_remove_cap Sample.mdsc0 (Sample.inode1 5 0 (1 + 2048)) 0
              true)
    as [[[m c] a]|f] eqn:E; [|exfalso; vm_compute in E; discriminate E].
  destruct (remove_cap_post Sample.mdsc0 (Sample.inode1 5 0 (1 + 2048)) 0 true
              (Sample.cap0 0 (1 + 2048) (1 + 2048)) Sample.session0 m c a)
    as (H1 & H2 & _ & H4 & _).
  - reflexivity.
  - reflexivity.
  - exact E.
  - assert (Ha : a = [QueueCapRelease 0 5 10 1 1 0]).
    { pose proof E as E'. vm_compute in E'. by injection E' as _ _ <-. }
    subst a. exists m, c. split; [reflexivity|]. split; [exact H1|].
    split; [exact H2|].
    destruct H4 as [[_ Hp]|[Hn _]]; [discriminate|exact Hp|discriminate Hn].
Defined.

Lemma add_remove_round_trip_witness :
  exists mdsc1 ci1 mdsc2 ci2 acts,
    ceph_add_cap (H := linux_consts) Sample.env0 Sample.mdsc0
      (Sample.inode1 5 0 (1 + 2048)) 1 11 (1 + 1024) 0 1 0 1 0 true
      (Some Sample.realm0) = Ok (mdsc1, ci1, false) ∧
    __ceph_remove_cap mdsc1 ci1 1 false = Ok (mdsc2, ci2, acts) ∧
    i_caps ci2 = i_caps (Sample.inode1 5 0 (1 + 2048)) ∧
    i_auth_cap ci2 ≠ Some 1.
Proof.
  destruct (ceph_add_cap (H := linux_consts) Sample.env0 Sample.mdsc0
              (Sample.inode1 5 0 (1 + 2048)) 1 11 (1 + 1024) 0 1 0 1 0 true
              (Some Sample.realm0))
    as [[[m c] nc]|f] eqn:E; [|exfalso; vm_compute in E; discriminate E].
  assert (Hnc : nc = false).
  { pose proof E as E'. vm_compute in E'. by injection E' as _ _ <-. }
  subst nc.
  destruct (__ceph_remove_cap m c 1 false) as [[[m2 c2] a]|f] eqn:E2.
  2:{ exfalso. vm_compute in E. injection E as <- <-.
      vm_compute in E2. discriminate E2. }
  destruct (add_remove_round_trip (H := linux_consts) Sample.env0 Sample.mdsc0
              (Sample.inode1 5 0 (1 + 2048)) 1 11 (1 + 1024) 0 1 0 1 0
              (Some Sample.realm0) Sample.session0 m c false false m2 c2 a)
    as [H1 H2].
  - reflexivity.
  - reflexivity.
  - exact E.
  - exact E2.
  - exists m, c, m2, c2, a. split; [reflexivity|]. split; [exact E2|].
    split; [exact H1|exact H2].
Defined.

End AddRemove.

(** * Releasing caps with a request *)
Module Release.
Import CapsFacts GrantSteps.

Lemma bits_subset_land_l a b : bits_subset (Z.land a b) a.
Proof.
  intros n Hn. rewrite Z.land_spec in Hn.
  by apply andb_true_iff in Hn as [? _].
Qed.

Lemma bits_subset_refl a : bits_subset a a.
Proof. by intros n. Qed.

(** What is left of [x] once the bits [d] are dropped, [d] being among
    the bits of [drop] that are neither used nor dirty. *)
Lemma dropped_bits x d drop ud :
  bits_subset d (Z.land drop (Z.lnot ud)) ->
  bits_subset (Z.land x (Z.lnot d)) x ∧
  bits_subset (Z.land x ud) (Z.land x (Z.lnot d)) ∧
  bits_subset (Z.land x (Z.lnot drop)) (Z.land x (Z.lnot d)).
Proof.
  intros Hd. split; [apply bits_subset_land_l|].
  assert (Hbit : forall n, 0 <= n -> Z.testbit d n = true ->
                   Z.testbit drop n = true ∧ Z.testbit ud n = false).
  { intros n Hn Hdn. specialize (Hd n Hdn).
    rewrite Z.land_spec, Z.lnot_spec in Hd by done.
    apply andb_true_iff in Hd as [? ?%negb_true_iff]. done. }
  split; intros n Hn; destruct (Z.neg_nonneg_cases n) as [Hneg|Hpos];
    try (rewrite Z.testbit_neg_r in Hn by done; discriminate Hn);
    rewrite Z.land_spec in Hn; apply andb_true_iff in Hn as [Hx Hy];
    rewrite Z.land_spec, Hx, Z.lnot_spec by done; simpl;
    destruct (Z.testbit d n) eqn:Hdn; simpl; try done;
    destruct (Hbit n Hpos Hdn) as [H1 H2].
  - congruence.
  - rewrite Z.lnot_spec, H1 in Hy by done. done.
Qed.

Section with_consts.
Context `{!KernelConsts}.

(** [ceph_encode_inode_release] only drops unused, clean caps: of the
    cap of the rank it is called for, every bit that is in use or dirty
    and every bit it was not asked to drop stays issued and implemented,
    nothing is added, and the other caps are not touched.  When it
    returns 0 the inode is what it was. *)
Theorem inode_release_keeps_used e mdsc ci mds drop unless force cap ci' ret :
  i_caps ci !! mds = Some cap -> Cap.mds cap = mds ->
  ceph_encode_inode_release e mdsc ci mds drop unless force = Ok (ci', ret) ->
  (ret = 0 ∧ ci' = ci ∨ ret = 1) ∧
  exists cap',
    i_caps ci' = <[mds := cap']> (i_caps ci) ∧
    let ud := Z.lor (__ceph_caps_used ci) (__ceph_caps_dirty ci) in
    (bits_subset (Cap.issued cap') (Cap.issued cap) ∧
     bits_subset (Z.land (Cap.issued cap) ud) (Cap.issued cap') ∧
     bits_subset (Z.land (Cap.issued cap) (Z.lnot drop)) (Cap.issued cap')) ∧
    (bits_subset (Cap.implemented cap') (Cap.implemented cap) ∧
     bits_subset (Z.land (Cap.implemented cap) ud) (Cap.implemented cap') ∧
     bits_subset (Z.land (Cap.implemented cap) (Z.lnot drop))
       (Cap.implemented cap')).
Proof.
  intros Hcap Hm. unfold ceph_encode_inode_release, __get_cap_for_mds.
  cbv zeta. rewrite Hcap.
  set (ud := Z.lor (__ceph_caps_used ci) (__ceph_caps_dirty ci)).
  assert (Hsame : exists cap',
             i_caps ci = <[mds := cap']> (i_caps ci) ∧
             (bits_subset (Cap.issued cap') (Cap.issued cap) ∧
              bits_subset (Z.land (Cap.issued cap) ud) (Cap.issued cap') ∧
              bits_subset (Z.land (Cap.issued cap) (Z.lnot drop))
                (Cap.issued cap')) ∧
             (bits_subset (Cap.implemented cap') (Cap.implemented cap) ∧
              bits_subset (Z.land (Cap.implemented cap) ud)
                (Cap.implemented cap') ∧
              bits_subset (Z.land (Cap.implemented cap) (Z.lnot drop))
                (Cap.implemented cap'))).
  { exists cap. split; [by rewrite insert_id|].
    split; (split; [apply bits_subset_refl|]);
      split; apply bits_subset_land_l. }
  destruct (__cap_is_valid e mdsc cap) as [[|]|]; cbn [mbind res_bind negb];
    [| |done].
  2:{ intros [= <- <-]. split; [by left|done]. }
  match goal with
  | |- context [tst (Cap.issued cap) ?dd] =>
      assert (Hd : bits_subset dd (Z.land drop (Z.lnot ud)));
        [|set (d := dd) in *; clearbody d]
  end.
  { case_decide; [|apply bits_subset_refl].
    repeat case_match;
      repeat first [ apply bits_subset_refl
                   | eapply bits_subset_trans; [apply bits_subset_land_l|] ]. }
  destruct (bool_decide (force ≠ 0) || tst (Cap.issued cap) d) eqn:Hgo.
  2:{ intros [= <- <-]. split; [by left|done]. }
  destruct (tst (Cap.issued cap) d) eqn:Hdrop.
  2:{ intros [= <- <-]. split; [by right|done]. }
  intros [= <- <-]. split; [by right|].
  eexists. split.
  { destruct (_ && _); unfold store_cap; simpl; rewrite Hm; reflexivity. }
  simpl. split; by apply dropped_bits.
Qed.

End with_consts.

Lemma inode_release_keeps_used_witness :
  exists ci' ret cap',
    ceph_encode_inode_release (H := linux_consts) Sample.env0 Sample.mdsc0
      reader_ci 0 2048 0 0 = Ok (ci', ret) ∧
    (ret = 0 ∧ ci' = reader_ci ∨ ret = 1) ∧
    i_caps ci' = <[0 := cap']> (i_caps reader_ci) ∧
    bits_subset (Z.land 2049 (Z.lnot 2048)) (Cap.issued cap').
Proof.
  destruct (ceph_encode_inode_release (H := linux_consts) Sample.env0
              Sample.mdsc0 reader_ci 0 2048 0 0)
    as [[c r]|f] eqn:E; [|exfalso; vm_compute in E; discriminate E].
  destruct (inode_release_keeps_used (H := linux_consts) Sample.env0
              Sample.mdsc0 reader_ci 0 2048 0 0
              (Sample.cap0 0 (1 + 2048) (1 + 2048)) c r)
    as (H1 & cap' & H2 & (_ & _ & H3) & _).
  - reflexivity.
  - reflexivity.
  - exact E.
  - exists c, r, cap'. split; [reflexivity|]. split; [exact H1|].
    split; [exact H2|exact H3].
Defined.

End Release.

(** * Messages that do not decode *)
Module Decode.

Section with_consts.
Context `{!KernelConsts}.

(** A message of version 2 or later whose front ends before the four
    bytes of the flock length that follow the snap trace does not
    decode. *)
Lemma short_tail_is_bad msg h l :
  hdr_version msg >= 2 ->
  Z.of_nat (length l) < h_snap_trace_len h + 4 ->
  decode_caps_tail msg h l = None.
Proof.
  intros Hv Hlen. unfold decode_caps_tail. cbv zeta.
  rewrite decide_True by done. unfold decode_safe, ceph_has_room.
  destruct (bool_decide (Z.of_nat (length l) >= h_snap_trace_len h)) eqn:Hge;
    [|done].
  rewrite (bool_decide_eq_false_2
             (Z.of_nat 4 <= Z.of_nat (length l) - h_snap_trace_len h)); [done|].
  change (Z.of_nat 4) with 4. lia.
Qed.

(** [ceph_handle_caps] drops a message that is too short to hold the
    fixed head, or whose front ends before the flock length of a message
    of version 2 or later: it reports the corrupt message and changes
    neither the client nor any inode, whatever the operation and whether
    or not the inode is cached. *)
Theorem truncated_message_dropped e o mdsc inodes session msg :
  o_blocker_ok o = true ->
  match front msg with
  | None => True
  | Some (h, l) =>
      hdr_version msg >= 2 ∧
      Z.of_nat (length l) < h_snap_trace_len h + 4
  end ->
  ceph_handle_caps e o mdsc inodes session msg
    = Ok (mdsc, inodes, [CorruptMessage]).
Proof.
  intros Hblock Hshort. unfold ceph_handle_caps. rewrite Hblock. cbn [negb].
  destruct (front msg) as [[h l]|]; [|done].
  destruct Hshort as [Hv Hlen].
  by rewrite short_tail_is_bad.
Qed.

End with_consts.

Lemma truncated_message_dropped_witness :
  ceph_handle_caps (H := linux_consts) Sample.env0 Sample.oracle0
    Sample.mdsc0 (<[5 := Sample.inode1 5 0 (1 + 2048)]> ∅) 0
    (mk_msg 2 0 (Some (Sample.head0 CEPH_CAP_OP_GRANT 5 4097 2, [0; 0; 0]))
       Sample.peer0)
  = Ok (Sample.mdsc0, <[5 := Sample.inode1 5 0 (1 + 2048)]> ∅,
        [CorruptMessage]).
Proof.
  apply (truncated_message_dropped (H := linux_consts)).
  - reflexivity.
  - simpl. split; [lia|lia].
Defined.

End Decode.

(** * Flushes that an ack completes *)
Module Flushed.
Import FlushFacts.

(** Once [handle_cap_flush_ack] has handled the ack of tid [T], and no
    cap snap of the inode is being flushed with a tid up to [T],
    [caps_are_flushed] answers 1 for [T]: whoever waits in fsync for the
    flush of tid [T] can go on. *)
Theorem ack_then_flushed mdsc ci T mdsc' ci' r :
  tid_ordered (flushes mdsc) (i_cap_flush_list ci) ->
  NoDup (cap_flush_list mdsc) ->
  sublist (i_cap_flush_list ci) (cap_flush_list mdsc) ->
  no_capsnap_upto mdsc ci T ->
  handle_cap_flush_ack mdsc ci T = Ok (mdsc', ci', r) ->
  caps_are_flushed mdsc' ci' T = Ok true.
Proof.
  intros [Hin Hsorted] Hnd Hsub Hsnap Hrun.
  apply flush_ack_inv in Hrun
    as (st1 & m2 & w2 & Hscan & Hall & Hst' & Hg' & Hl' & Hwci & Hwm).
  apply (ack_scan_spec (flushes mdsc)) in Hscan
    as (Hrun1 & Hrm & Hm1 & _); [|done|apply wakes_added_refl].
  simpl in Hrun1, Hrm, Hm1.
  set (R := filter (fun cf => ackedb (flushes mdsc) T cf = true)
                   (i_cap_flush_list ci)) in *.
  apply detach_each_spec in Hrun1 as (Hl1 & Hadd1 & _ & _);
    [|by eapply sorted_NoDup|apply sublist_filter].
  rewrite Hrm in Hall. apply detach_all_is_each in Hall.
  rewrite Hm1 in Hall. simpl in Hall.
  apply detach_each_spec in Hall as (_ & Hadd2 & _ & _);
    [|done|by etrans; [apply sublist_filter|]].
  pose proof (wakes_added_trans _ _ _ Hadd1 Hadd2) as Hadd.
  unfold caps_are_flushed. rewrite Hl', Hl1.
  destruct (filter (fun x => x ∉ R) (i_cap_flush_list ci)) as [|cf rest] eqn:Hf;
    [done|].
  assert (Hcf : cf ∈ filter (fun x => x ∉ R) (i_cap_flush_list ci)).
  { rewrite Hf. left. }
  apply list_elem_of_filter in Hcf as [HnR Hcf].
  rewrite Hst', Hrm, lookup_foldr_delete by done.
  rewrite Forall_forall in Hin. destruct (Hin cf Hcf) as [c Hc].
  pose proof (Hadd cf) as Hcf2. rewrite Hc in Hcf2.
  destruct (flushes m2 !! cf) as [c2|]; [|done].
  destruct Hcf2 as (Htid & _ & _ & _). cbn [deref mbind res_bind].
  rewrite Htid.
  assert (Hn : ackedb (flushes mdsc) T cf = false).
  { destruct (ackedb (flushes mdsc) T cf) eqn:Ha; [|done].
    exfalso. apply HnR. unfold R. by apply list_elem_of_filter. }
  unfold ackedb in Hn. rewrite Hc in Hn.
  destruct (Flush.is_capsnap c) eqn:Hcs.
  - pose proof (Hsnap cf c Hcf Hc Hcs). by rewrite decide_False by lia.
  - simpl in Hn. apply bool_decide_eq_false in Hn.
    by rewrite decide_False by done.
Qed.

Lemma ack_then_flushed_witness :
  exists mdsc' ci' r,
    handle_cap_flush_ack flushed_mdsc flushed_ci 2 = Ok (mdsc', ci', r) ∧
    caps_are_flushed mdsc' ci' 2 = Ok true.
Proof.
  destruct (handle_cap_flush_ack flushed_mdsc flushed_ci 2)
    as [[[m c] r]|f] eqn:E; [|vm_compute in E; discriminate E].
  exists m, c, r. split; [reflexivity|].
  apply (ack_then_flushed flushed_mdsc flushed_ci 2 m c r).
  - split.
    + repeat constructor; by eexists.
    + repeat constructor; vm_compute; reflexivity.
  - apply NoDup_ListNoDup. repeat constructor; simpl; intuition discriminate.
  - reflexivity.
  - intros cf c0 Hcf Hc0 Hcs. exfalso.
    apply list_elem_of_In in Hcf. simpl in Hcf.
    destruct Hcf as [<-|[<-|[]]]; vm_compute in Hc0;
      injection Hc0 as <-; discriminate Hcs.
  - exact E.
Defined.

End Flushed.

(** * Open file modes *)
Module Fmode.
Import PoolOps.

Lemma put_get_fmode_loop bits count l : forall i a c l1 a1,
  0 <= count -> modes_in_range count l ->
  get_fmode_loop bits count i l a = (l1, a1) ->
  exists c1, put_fmode_loop bits count i l1 c = Some (l, c1) ∧
             (a = negb c -> a1 = negb c1).
Proof.
  induction l as [|x l IH]; intros i a c l1 a1 Hcount Hrange.
  - simpl. intros [= <- <-]. exists c. done.
  - apply Forall_cons in Hrange as [[Hx0 Hx1] Hrange].
    cbn [get_fmode_loop]. cbv zeta.
    destruct (get_fmode_loop bits count (S i) l _) as [l2 a2] eqn:Hget.
    intros [= <- <-].
    cbn [put_fmode_loop].
    set (a' := if bool_decide (i ≠ 0%nat) && bool_decide (x ≠ 0) then true
               else a) in *.
    assert (Hput : (if tst bits (Z.shiftl 1 (Z.of_nat i))
                    then if decide ((if tst bits (Z.shiftl 1 (Z.of_nat i))
                                     then wrap_int (x + count) else x) < count)
                         then None
                         else Some (wrap_int
                                (((if tst bits (Z.shiftl 1 (Z.of_nat i))
                                   then wrap_int (x + count) else x)) - count))
                    else Some (if tst bits (Z.shiftl 1 (Z.of_nat i))
                               then wrap_int (x + count) else x)) = Some x).
    { destruct (tst bits _); [|done].
      rewrite (wrap_int_id (x + count)) by lia.
      rewrite decide_False by lia. f_equal.
      rewrite wrap_int_id by lia. lia. }
    rewrite Hput. cbn [mbind option_bind].
    match goal with
    | |- context [put_fmode_loop bits count (S i) l2 ?cc] =>
        destruct (IH (S i) a' cc l2 a2 Hcount Hrange Hget) as (c1 & -> & Hac)
    end.
    cbn [mbind option_bind]. exists c1. split; [done|].
    intros Ha. apply Hac. subst a'. destruct (_ && _); [done|exact Ha].
Qed.

(** An open file reference that [ceph_get_fmode] takes and
    [ceph_put_fmode] drops leaves the per-mode counters as they were,
    and the metrics balanced: [opened_inodes] is decremented exactly
    when it was incremented, and likewise [opened_files]. *)
Theorem get_put_fmode_round_trip ci fmode count ci1 files inodes :
  0 <= count -> modes_in_range count (i_nr_by_mode ci) ->
  ceph_get_fmode ci fmode count = (ci1, files, inodes) ->
  ceph_put_fmode ci1 fmode count = Some (ci, files, inodes).
Proof.
  intros Hcount Hrange. unfold ceph_get_fmode, ceph_put_fmode. cbv zeta.
  destruct (get_fmode_loop _ _ _ _ _) as [l1 a1] eqn:Hget.
  intros [= <- <- <-]. cbn [i_nr_by_mode set_i_nr_by_mode].
  destruct (put_get_fmode_loop _ _ _ 0%nat false true l1 a1 Hcount Hrange Hget)
    as (c1 & -> & Hac).
  cbn [mbind option_bind]. f_equal. f_equal; [f_equal|].
  - by destruct ci.
  - rewrite (Hac eq_refl). by destruct c1.
Qed.

Lemma get_put_fmode_round_trip_witness :
  ceph_put_fmode (ceph_get_fmode (Sample.inode0 5) 1 1).1.1 1 1
  = Some (Sample.inode0 5, true, true).
Proof.
  apply (get_put_fmode_round_trip (Sample.inode0 5) 1 1).
  - lia.
  - unfold modes_in_range. simpl. repeat constructor; lia.
  - reflexivity.
Defined.

End Fmode.

(** * Readable cap strings *)
Module CapString.
Import PoolOps.

Section with_consts.
Context `{!KernelConsts, !CapGroupConsts}.

Lemma gcap_string_length c : (length (gcap_string c) <= 8)%nat.
Proof.
  unfold gcap_string. rewrite !length_app.
  repeat match goal with
         | |- context [if ?b then _ else _] => destruct b
         end; simpl; lia.
Qed.

Lemma cap_group_length letter c : (length (cap_group letter c) <= 9)%nat.
Proof.
  unfold cap_group. pose proof (gcap_string_length c).
  case_decide; simpl; lia.
Qed.

(** [ceph_cap_string] stays inside its buffers: the buffer it writes is
    one of the [MAX_CAP_STR] buffers, [last_cap_str] stays an index of
    one, and the text with its terminating NUL fits the 40 bytes of a
    buffer, whatever the caps.  The text is never empty. *)
Theorem cap_string_fits last caps :
  0 <= last < MAX_CAP_STR ->
  let '(last', i, s) := ceph_cap_string last caps in
  0 <= last' < MAX_CAP_STR ∧ 0 <= i < MAX_CAP_STR ∧
  s ≠ [] ∧ Z.of_nat (length s) + 1 <= CAP_STR_SIZE.
Proof.
  unfold MAX_CAP_STR, CAP_STR_SIZE. intros Hlast.
  unfold ceph_cap_string. cbv zeta.
  rewrite wrap_int_id by lia.
  split; [unfold MAX_CAP_STR; case_decide; lia|]. split; [done|].
  match goal with
  | |- context [decide (?t = [])] => set (s := t)
  end.
  assert (Hlen : (length s <= 37)%nat).
  { subst s. rewrite !length_app.
    pose proof (cap_group_length "A" (Z.land (Z.shiftr caps CEPH_CAP_SAUTH) 3)).
    pose proof (cap_group_length "L" (Z.land (Z.shiftr caps CEPH_CAP_SLINK) 3)).
    pose proof (cap_group_length "X" (Z.land (Z.shiftr caps CEPH_CAP_SXATTR) 3)).
    pose proof (cap_group_length "F" (Z.shiftr caps CEPH_CAP_SFILE)).
    destruct (tst caps CEPH_CAP_PIN); simpl; lia. }
  clearbody s. case_decide; [split; [done|simpl; lia]|]. split; [done|lia].
Qed.

End with_consts.

Lemma cap_string_fits_witness :
  let '(last', i, s) :=
    ceph_cap_string (H := linux_consts) (H0 := linux_cap_groups) 19
      (1 + 2048 + 4096) in
  0 <= last' < MAX_CAP_STR ∧ 0 <= i < MAX_CAP_STR ∧
  s ≠ [] ∧ Z.of_nat (length s) + 1 <= CAP_STR_SIZE.
Proof.
  apply (cap_string_fits (H := linux_consts) (H0 := linux_cap_groups) 19
           (1 + 2048 + 4096)).
  unfold MAX_CAP_STR. lia.
Defined.

End CapString.

(** * Dirty and flushing caps *)
Module Dirty.
Import CapsFacts.

Section with_consts.
Context `{!KernelConsts}.

(** [__ceph_mark_dirty_caps] on an inode with an auth cap adds the mask
    to the dirty caps and leaves the inode on a dirty list.  It takes a
    reference on the inode exactly when the inode had nothing dirty and
    nothing being flushed, and it is then that [I_DIRTY_SYNC] is among
    the flags it returns; marking an inode that is dirty already touches
    neither the client, nor the reference count, nor [*pcf]. *)
Theorem mark_dirty_accumulates mdsc ci mask pcf a mdsc' ci' pcf' dirty :
  i_auth_cap ci = Some a ->
  __ceph_mark_dirty_caps mdsc ci mask pcf = Ok (mdsc', ci', pcf', dirty) ->
  i_dirty_caps ci' = Z.lor (i_dirty_caps ci) mask ∧
  i_dirty_item ci' = true ∧
  i_flushing_caps ci' = i_flushing_caps ci ∧
  (if decide (i_dirty_caps ci = 0 ∧ i_flushing_caps ci = 0)
   then i_count ci' = wrap_int (i_count ci + 1) ∧
        (dirty = I_DIRTY_SYNC ∨ dirty = Z.lor I_DIRTY_SYNC I_DIRTY_DATASYNC)
   else i_count ci' = i_count ci ∧ (dirty = 0 ∨ dirty = I_DIRTY_DATASYNC)) ∧
  (i_dirty_caps ci ≠ 0 -> mdsc' = mdsc ∧ pcf' = pcf).
Proof.
  intros Hauth. unfold __ceph_mark_dirty_caps, session_of, ihold, BUG_ON.
  rewrite Hauth. cbv zeta.
  destruct (decide (i_dirty_caps ci = 0 ∧ i_flushing_caps ci = 0))
    as [[Hwas Hfl]|Hnot].
  - rewrite decide_True by done. cbn [i_caps set_i_dirty_caps].
    unfold mbind, res_bind.
    repeat (case_match; simplify_eq); intros Hrun; simplify_eq;
      cbn in *; try done;
      (split_and!; try done; try (by apply negb_false_iff); auto).
  - destruct (decide (i_dirty_caps ci = 0)) as [Hwas|Hwas].
    + assert (Hfl : i_flushing_caps ci ≠ 0) by (intros ?; by apply Hnot).
      unfold mbind, res_bind.
      repeat (case_match; simplify_eq); intros Hrun; simplify_eq;
        cbn in *; try done;
        (split_and!; try done; try (by apply negb_false_iff); auto).
    + unfold mbind, res_bind.
      repeat (case_match; simplify_eq); intros Hrun; simplify_eq;
        cbn in *; try done;
        (split_and!; try done; try (by apply negb_false_iff); auto).
Qed.

(** [__mark_caps_flushing] moves the dirty caps to the flushing caps:
    no bit that was dirty or being flushed is lost, nothing stays dirty,
    the inode leaves the dirty list for a flushing list, and the
    preallocated record goes to the tail of both flush lists with the
    dirty caps and the next tid of the client, which is the tid
    returned. *)
Theorem mark_flushing_moves_dirty mdsc ci session wake mdsc' ci' tid oldest :
  __mark_caps_flushing mdsc ci session wake = Ok (mdsc', ci', tid, oldest) ->
  i_dirty_caps ci' = 0 ∧
  i_flushing_caps ci' = Z.lor (i_flushing_caps ci) (i_dirty_caps ci) ∧
  __ceph_caps_dirty ci' = __ceph_caps_dirty ci ∧
  i_dirty_item ci' = false ∧ i_flushing_item ci' = true ∧
  i_prealloc_cap_flush ci' = None ∧
  tid = wrap_u64 (last_cap_flush_tid mdsc + 1) ∧
  last_cap_flush_tid mdsc' = tid ∧
  exists cf c,
    i_prealloc_cap_flush ci = Some cf ∧
    i_cap_flush_list ci' = i_cap_flush_list ci ++ [cf] ∧
    cap_flush_list mdsc' = cap_flush_list mdsc ++ [cf] ∧
    flushes mdsc' !! cf = Some c ∧
    Flush.caps c = i_dirty_caps ci ∧ Flush.tid c = tid ∧ Flush.wake c = wake.
Proof.
  unfold __mark_caps_flushing, session_of, BUG_ON, __ceph_caps_dirty, deref.
  cbv zeta.
  destruct (i_prealloc_cap_flush ci) as [cf|] eqn:Hpre.
  2:{ rewrite (bool_decide_eq_true_2 (None = None)) by done.
      unfold mbind, res_bind.
      repeat case_match; intros Hx; discriminate Hx. }
  cbn [i_prealloc_cap_flush set_i_dirty_caps set_i_flushing_caps].
  rewrite Hpre.
  unfold mbind, res_bind.
  repeat (case_match; simplify_eq); intros Hrun; simplify_eq; cbn in *;
    try done;
    (split_and!; try done;
     [by rewrite Z.lor_0_l, Z.lor_comm
     |eexists _, _; split; [done|]; split; [done|]; split; [done|];
      split; [apply lookup_insert_eq|done]]).
Qed.

End with_consts.

Lemma mark_dirty_accumulates_witness :
  exists mdsc' ci' pcf' dirty,
    __ceph_mark_dirty_caps (H := linux_consts) trip_mdsc trip_ci 4096
      (Some 7%nat) = Ok (mdsc', ci', pcf', dirty) ∧
    i_dirty_caps ci' = 4096 ∧ i_dirty_item ci' = true ∧
    i_count ci' = wrap_int (i_count trip_ci + 1) ∧
    (dirty = 1 ∨ dirty = Z.lor 1 2).
Proof.
  destruct (__ceph_mark_dirty_caps (H := linux_consts) trip_mdsc trip_ci 4096
              (Some 7%nat))
    as [[[[m c] p] d]|f] eqn:E; [|exfalso; vm_compute in E; discriminate E].
  destruct (mark_dirty_accumulates (H := linux_consts) trip_mdsc trip_ci 4096
              (Some 7%nat) 0 m c p d)
    as (H1 & H2 & _ & H4 & _).
  - reflexivity.
  - exact E.
  - exists m, c, p, d. split; [reflexivity|]. split; [exact H1|].
    split; [exact H2|]. exact H4.
Defined.

Lemma mark_flushing_moves_dirty_witness :
  exists mdsc' ci' tid oldest,
    __mark_caps_flushing dirty_mdsc dirty_ci 0 true
      = Ok (mdsc', ci', tid, oldest) ∧
    i_dirty_caps ci' = 0 ∧ i_flushing_caps ci' = Z.lor 0 4096 ∧
    tid = wrap_u64 (0 + 1) ∧ last_cap_flush_tid mdsc' = tid.
Proof.
  destruct (__mark_caps_flushing dirty_mdsc dirty_ci 0 true)
    as [[[[m c] t] o]|f] eqn:E; [|exfalso; vm_compute in E; discriminate E].
  destruct (mark_flushing_moves_dirty dirty_mdsc dirty_ci 0 true m c t o E)
    as (H1 & H2 & _ & _ & _ & _ & H7 & H8 & _).
  exists m, c, t, o. split; [reflexivity|]. split; [exact H1|].
  split; [exact H2|]. split; [exact H7|exact H8].
Defined.

End Dirty.

(** * Acks of snap flushes *)
Module SnapAck.
Import FlushFacts.

Lemma list_find_first {A} (P : A -> Prop) `{!forall x, Decision (P x)}
    (l1 : list A) x l2 :
  Forall (fun y => ¬ P y) l1 -> P x ->
  list_find P (l1 ++ x :: l2) = Some (length l1, x).
Proof.
  intros Hl Hx. induction Hl as [|y l1 Hy _ IH]; simpl.
  - by rewrite decide_True.
  - rewrite decide_False by done. by rewrite IH.
Qed.

(** [handle_cap_flushsnap_ack] looks for the first cap snap of the inode
    whose [follows] is the one of the message.  An ack that no cap snap
    answers to, by [follows] and tid, changes nothing and wakes nobody.
    An ack whose tid is the tid of that first cap snap removes it, and
    it alone, takes its flush record off the flush list of the inode and
    off the global one, frees it, and drops one reference on the inode;
    the caps, dirty caps and flushing caps of the inode stay. *)
Theorem flushsnap_ack_post mdsc ci T F mdsc' ci' acts :
  handle_cap_flushsnap_ack mdsc ci T F = Ok (mdsc', ci', acts) ->
  ((forall cs c, cs ∈ i_cap_snaps ci -> cs_follows cs = F ->
      flushes mdsc !! cs_cap_flush cs = Some c -> Flush.tid c ≠ T) ->
   mdsc' = mdsc ∧ ci' = ci ∧ acts = []) ∧
  (forall l1 cs l2 c,
     i_cap_snaps ci = l1 ++ cs :: l2 ->
     Forall (fun x => cs_follows x ≠ F) l1 -> cs_follows cs = F ->
     flushes mdsc !! cs_cap_flush cs = Some c ->
     (Flush.tid c ≠ T -> mdsc' = mdsc ∧ ci' = ci ∧ acts = []) ∧
     (Flush.tid c = T ->
      i_cap_snaps ci' =
        filter (fun x => cs_cap_flush x ≠ cs_cap_flush cs) (i_cap_snaps ci) ∧
      i_cap_flush_list ci' = list_del (cs_cap_flush cs) (i_cap_flush_list ci) ∧
      cap_flush_list mdsc' = list_del (cs_cap_flush cs) (cap_flush_list mdsc) ∧
      flushes mdsc' !! cs_cap_flush cs = None ∧
      i_count ci' = wrap_int (i_count ci - 1) ∧
      i_caps ci' = i_caps ci ∧ i_dirty_caps ci' = i_dirty_caps ci ∧
      i_flushing_caps ci' = i_flushing_caps ci)).
Proof.
  unfold handle_cap_flushsnap_ack, find_capsnap. intros Hrun. split.
  - intros Hno.
    destruct (list_find _ (i_cap_snaps ci)) as [[i cs]|] eqn:Hf; simpl in Hrun.
    + apply list_find_Some in Hf as (Hi & HF & _).
      apply list_elem_of_lookup_2 in Hi.
      destruct (flushes mdsc !! cs_cap_flush cs) as [c|] eqn:Hc;
        simpl in Hrun; [|discriminate Hrun].
      destruct (decide (Flush.tid c ≠ T)) as [|Hn]; simpl in Hrun.
      * by injection Hrun as <- <- <-.
      * exfalso. apply Hn. by eapply Hno.
    + by injection Hrun as <- <- <-.
  - intros l1 cs l2 c Hl Hl1 HF Hc.
    rewrite Hl, (list_find_first (fun x => cs_follows x = F) l1 cs l2 Hl1 HF)
      in Hrun.
    simpl in Hrun. rewrite Hc in Hrun. simpl in Hrun.
    destruct (decide (Flush.tid c ≠ T)) as [Hne|Heq]; simpl in Hrun.
    + split; [|done]. intros _. by injection Hrun as <- <- <-.
    + split; [done|]. intros _. rewrite <- Hl in Hrun. clear Heq.
      unfold __detach_cap_flush_from_ci, __detach_cap_flush_from_mdsc in Hrun.
      simpl in Hrun.
      destruct (detach_cap_flush (flushes mdsc) (i_cap_flush_list ci)
                  (cs_cap_flush cs)) as [[[st1 li] w1]|] eqn:E1;
        simpl in Hrun; [|discriminate Hrun].
      apply detach_cap_flush_spec in E1 as (-> & _ & _).
      destruct (bool_decide _); simpl in Hrun;
        match type of Hrun with
        | context [detach_cap_flush ?s ?l ?c] =>
            destruct (detach_cap_flush s l c) as [[[st2 lg] w2]|] eqn:E2
        end; simpl in Hrun; try discriminate Hrun;
        apply detach_cap_flush_spec in E2 as (-> & _ & _);
        injection Hrun as <- <- <-; simpl;
        by rewrite lookup_delete_eq.
Qed.

(** An inode with two cap snaps: the ack for the first one. *)
Lemma flushsnap_ack_post_witness :
  exists mdsc' ci' acts,
    i_cap_snaps ci' = [mk_capsnap 2 9 0 0 true] ∧
    i_cap_flush_list ci' = [2%nat] ∧ cap_flush_list mdsc' = [2%nat] ∧
    acts = [] ∧
    handle_cap_flushsnap_ack snapack_mdsc snapack_ci 4 8
      = Ok (mdsc', ci', acts).
Proof.
  destruct (handle_cap_flushsnap_ack snapack_mdsc snapack_ci 4 8)
    as [[[m c] a]|f] eqn:E; [|exfalso; vm_compute in E; discriminate E].
  exists m, c, a.
  destruct (flushsnap_ack_post _ _ _ _ _ _ _ E) as [_ Hm].
  destruct (Hm [] (mk_capsnap 1 8 0 0 true) [mk_capsnap 2 9 0 0 true]
              (Flush.mk 4 0 true false) eq_refl (Forall_nil_2 _) eq_refl
              eq_refl) as [_ Hyes].
  destruct (Hyes eq_refl) as (Hs & Hi & Hg & _).
  pose proof E as E'. vm_compute in E'. injection E' as <- <- <-.
  split; [exact Hs|]. split; [exact Hi|]. split; [exact Hg|].
  split; reflexivity.
Defined.

End SnapAck.

(** * Messages from a rank that has no cap on the inode *)
Module NoCap.
Import PoolOps.

Section with_consts.
Context `{!KernelConsts}.

(** A cap message for a cached inode on which the sending rank has no
    cap, of an operation that needs one (any but FLUSHSNAP_ACK, EXPORT
    and IMPORT), leaves the inode and the whole inode cache as they were,
    the reference of the lookup being dropped again.  For an operation
    other than GRANT and REVOKE it queues nothing, leaves the client
    alone and flushes the cap releases of the session.  For GRANT and
    REVOKE, when a cap object can be had (the allocation succeeds, or the
    pool, its counters adding up, has a preallocated cap available), it
    queues a release for the cap that the message names and flushes the
    cap releases of the session, the sessions staying as they were; when
    the allocation fails and the pool has nothing available, it writes
    through the null pointer that [ceph_get_cap] returned. *)
Theorem message_without_cap e o mdsc inodes session msg h l ci :
  o_blocker_ok o = true -> front msg = Some (h, l) ->
  is_Some (decode_caps_tail msg h l) ->
  inodes !! h_ino h = Some ci -> i_ino ci = h_ino h ->
  0 <= i_count ci < 2147483647 ->
  h_op h ≠ CEPH_CAP_OP_FLUSHSNAP_ACK -> h_op h ≠ CEPH_CAP_OP_EXPORT ->
  h_op h ≠ CEPH_CAP_OP_IMPORT ->
  __get_cap_for_mds ci session = None ->
  (h_op h ≠ CEPH_CAP_OP_GRANT -> h_op h ≠ CEPH_CAP_OP_REVOKE ->
   ceph_handle_caps e o mdsc inodes session msg
   = Ok (mdsc, inodes, [FlushSessionCapReleases session])) ∧
  (h_op h = CEPH_CAP_OP_GRANT ∨ h_op h = CEPH_CAP_OP_REVOKE ->
   (cap_at_hand o mdsc ->
    exists mdsc',
      ceph_handle_caps e o mdsc inodes session msg
      = Ok (mdsc', inodes,
            [QueueCapRelease session (h_ino h) (h_cap_id h) (h_seq h)
               (h_seq h) (h_migrate_seq h);
             FlushSessionCapReleases session]) ∧
      sessions mdsc' = sessions mdsc) ∧
   (head (o_allocs o) ≠ Some true ->
    Pool.caps_avail_count (pool mdsc) = 0 ->
    ceph_handle_caps e o mdsc inodes session msg = Oops NullDeref)).
Proof.
  intros Hblock Hfront [peer Hdec] Hino Hself Hcount Hn1 Hn2 Hn3 Hcap.
  assert (Hback : <[h_ino h := iput (ihold ci)]> inodes = inodes).
  { apply insert_id. rewrite Hino. f_equal. unfold iput, ihold.
    simpl. rewrite (wrap_int_id (i_count ci + 1)) by lia.
    replace (i_count ci + 1 - 1) with (i_count ci) by lia.
    rewrite wrap_int_id by lia. by destruct ci. }
  assert (Hc : __get_cap_for_mds (ihold ci) session = None) by exact Hcap.
  assert (Hrun : ceph_handle_caps e o mdsc inodes session msg
                 = '(m, acts) ← flush_cap_releases mdsc session h
                                  (bool_decide (h_op h = CEPH_CAP_OP_GRANT ∨
                                                h_op h = CEPH_CAP_OP_REVOKE))
                                  (default false (head (o_allocs o)));
                   Ok (m, inodes, acts)).
  { unfold ceph_handle_caps. rewrite Hblock, Hfront, Hdec. cbn [negb].
    cbv zeta. rewrite Hino.
    set (F := flush_cap_releases mdsc session h).
    destruct (h_op h) eqn:Hop; try congruence; rewrite Hc;
      (rewrite bool_decide_eq_true_2 by auto) ||
      (rewrite bool_decide_eq_false_2 by (intros [?|?]; congruence));
      (destruct (F _ _) as [[m acts]|]; cbn [mbind res_bind]; [|done]);
      unfold put_inode; change (i_ino (iput (ihold ci))) with (i_ino ci);
      by rewrite Hself, Hback. }
  rewrite Hrun. split.
  - intros Hg Hr.
    rewrite bool_decide_eq_false_2 by (intros [?|?]; congruence).
    by rewrite Uncached.flush_releases_quiet.
  - intros Hop. rewrite bool_decide_eq_true_2 by done. split.
    + intros Hhand.
      destruct (Uncached.flush_releases_queued o mdsc session h Hhand)
        as (m & -> & Hs).
      by exists m.
    + intros Hh Hav. by rewrite Uncached.flush_releases_null.
Qed.

End with_consts.

(** A FLUSH_ACK from rank 1 for an inode whose only cap is from rank 0. *)
Lemma message_without_cap_witness :
  ceph_handle_caps (H := linux_consts) Sample.env0 Sample.oracle0
    Sample.mdsc0 (<[5 := Sample.inode1 5 0 1]> ∅) 1
    (Sample.msg0 CEPH_CAP_OP_FLUSH_ACK 5 0 1 1)
  = Ok (Sample.mdsc0, <[5 := Sample.inode1 5 0 1]> ∅,
        [FlushSessionCapReleases 1]).
Proof.
  destruct (message_without_cap (H := linux_consts) Sample.env0
              Sample.oracle0 Sample.mdsc0 (<[5 := Sample.inode1 5 0 1]> ∅) 1
              (Sample.msg0 CEPH_CAP_OP_FLUSH_ACK 5 0 1 1)
              (Sample.head0 CEPH_CAP_OP_FLUSH_ACK 5 0 1) []
              (Sample.inode1 5 0 1))
    as (Hquiet & _).
  - reflexivity.
  - reflexivity.
  - by eexists.
  - reflexivity.
  - reflexivity.
  - vm_compute. split; [discriminate|reflexivity].
  - discriminate.
  - discriminate.
  - discriminate.
  - reflexivity.
  - apply Hquiet; discriminate.
Defined.

End NoCap.

(** * What the MDSs know we want *)
Module Wanted.
Import CapsFacts ExportFacts.

Section with_consts.
Context `{!KernelConsts}.

(** [__ceph_caps_mds_wanted] gathers the bits that the caps of the inode
    have registered as wanted, of the valid caps only when [check] is
    set; a bit of [CEPH_CAP_ANY_FILE_WR] counts only when it is the auth
    cap that wants it. *)
Theorem mds_wanted_spec e mdsc ci check :
  caps_have_sessions mdsc ci ->
  exists w,
    __ceph_caps_mds_wanted e mdsc ci check = Ok w ∧
    forall n, 0 <= n ->
      (Z.testbit w n = true <->
       exists k c, i_caps ci !! k = Some c ∧
         (check = true -> cap_valid_b e (sessions mdsc) c = true) ∧
         Z.testbit (Cap.mds_wanted c) n = true ∧
         (i_auth_cap ci = Some k ∨
          Z.testbit CEPH_CAP_ANY_FILE_WR n = false)).
Proof.
  unfold __ceph_caps_mds_wanted, caps_have_sessions.
  apply (map_fold_weak_ind
    (fun r (m : gmap Z Cap.t) =>
       (forall k c, m !! k = Some c -> is_Some (sessions mdsc !! Cap.mds c)) ->
       exists w, r = Ok w ∧
         forall n, 0 <= n ->
           (Z.testbit w n = true <->
            exists k c, m !! k = Some c ∧
              (check = true -> cap_valid_b e (sessions mdsc) c = true) ∧
              Z.testbit (Cap.mds_wanted c) n = true ∧
              (i_auth_cap ci = Some k ∨
               Z.testbit CEPH_CAP_ANY_FILE_WR n = false)))).
  - intros _. exists 0. split; [done|]. intros n Hn. rewrite Z.bits_0.
    split; [done|]. intros (k & c & Hc & _). by rewrite lookup_empty in Hc.
  - intros k c m r Hk IH Hall.
    destruct IH as (w & -> & Hbits).
    { intros k' c' Hc'. apply (Hall k'). rewrite lookup_insert_ne; [done|].
      intros ->. by rewrite Hk in Hc'. }
    assert (Hold : forall n, 0 <= n -> Z.testbit w n = true ->
              exists k' c', <[k:=c]> m !! k' = Some c' ∧
                (check = true -> cap_valid_b e (sessions mdsc) c' = true) ∧
                Z.testbit (Cap.mds_wanted c') n = true ∧
                (i_auth_cap ci = Some k' ∨
                 Z.testbit CEPH_CAP_ANY_FILE_WR n = false)).
    { intros n Hn Hw. apply Hbits in Hw as (k' & c' & Hc' & ?); [|done].
      exists k', c'. split; [|done]. rewrite lookup_insert_ne; [done|].
      intros ->. by rewrite Hk in Hc'. }
    assert (Hnew : forall n k' c', 0 <= n -> <[k:=c]> m !! k' = Some c' ->
              (check = true -> cap_valid_b e (sessions mdsc) c' = true) ->
              Z.testbit (Cap.mds_wanted c') n = true ->
              (i_auth_cap ci = Some k' ∨
               Z.testbit CEPH_CAP_ANY_FILE_WR n = false) ->
              (k' = k ∧ c' = c) ∨ Z.testbit w n = true).
    { intros n k' c' Hn Hc' Hv Hb Ha.
      apply lookup_insert_Some in Hc' as [[<- <-]|[Hne Hc']]; [by left|].
      right. apply Hbits; [done|]. by exists k', c'. }
    unfold mds_wanted_step. cbn [mbind res_bind].
    assert (Hv : exists v,
               (if check then __cap_is_valid e mdsc c else Ok true) = Ok v ∧
               (v = true <->
                (check = true -> cap_valid_b e (sessions mdsc) c = true))).
    { destruct check.
      - rewrite cap_is_valid_read
          by (apply (Hall k); by rewrite lookup_insert_eq).
        eexists. split; [done|]. split; [done|]. intros Hc. by apply Hc.
      - exists true. done. }
    destruct Hv as (v & -> & Hv). cbn [mbind res_bind].
    destruct v; cbn [negb].
    + case_decide as Hauth.
      * eexists. split; [done|]. intros n Hn.
        rewrite Z.lor_spec, orb_true_iff. split.
        -- intros [Hw|Hb]; [by apply Hold|].
           exists k, c. rewrite lookup_insert_eq.
           split; [done|]. split; [by apply Hv|]. split; [done|]. by left.
        -- intros (k' & c' & Hc' & Hv' & Hb & Ha).
           destruct (Hnew n k' c' Hn Hc' Hv' Hb Ha) as [[-> ->]|?];
             [by right|by left].
      * eexists. split; [done|]. intros n Hn.
        rewrite Z.lor_spec, orb_true_iff, Z.land_spec, Z.lnot_spec,
          andb_true_iff, negb_true_iff by done.
        split.
        -- intros [Hw|[Hb Hnw]]; [by apply Hold|].
           exists k, c. rewrite lookup_insert_eq.
           split; [done|]. split; [by apply Hv|]. split; [done|]. by right.
        -- intros (k' & c' & Hc' & Hv' & Hb & Ha).
           destruct (Hnew n k' c' Hn Hc' Hv' Hb Ha) as [[-> ->]|?];
             [|by left].
           right. split; [done|]. by destruct Ha as [Ha|Ha].
    + eexists. split; [done|]. intros n Hn. split; [by apply Hold|].
      intros (k' & c' & Hc' & Hv' & Hb & Ha).
      destruct (Hnew n k' c' Hn Hc' Hv' Hb Ha) as [[-> ->]|?]; [|done].
      apply Hv in Hv'. discriminate Hv'.
Qed.

End with_consts.

Lemma mds_wanted_spec_witness :
  exists w,
    __ceph_caps_mds_wanted (H := linux_consts) Sample.env0 Sample.mdsc0
      (Sample.inode1 5 0 (1 + 2048)) true = Ok w ∧
    forall n, 0 <= n ->
      (Z.testbit w n = true <->
       exists k c, i_caps (Sample.inode1 5 0 (1 + 2048)) !! k = Some c ∧
         (true = true ->
          cap_valid_b (H := linux_consts) Sample.env0
            (sessions Sample.mdsc0) c = true) ∧
         Z.testbit (Cap.mds_wanted c) n = true ∧
         (i_auth_cap (Sample.inode1 5 0 (1 + 2048)) = Some k ∨
          Z.testbit (CEPH_CAP_ANY_FILE_WR (KernelConsts := linux_consts)) n
            = false)).
Proof.
  apply (mds_wanted_spec (H := linux_consts)).
  intros k c Hc. unfold Sample.inode1 in Hc. simpl in Hc.
  apply lookup_insert_Some in Hc as [[<- <-]|[_ Hc]]; [by eexists|].
  by rewrite lookup_empty in Hc.
Defined.

End Wanted.

(** * Resending the flushes of an inode *)
Module Kick.
Import CapsFacts TidFacts.

Section with_consts.
Context `{!KernelConsts}.




End with_consts.


End Kick.

(** * Imports *)
Module ImportFacts.
Import CapsFacts GrantSteps ExportFacts AddRemove.

Section with_consts.
Context `{!KernelConsts}.

Lemma remove_cap_caps mdsc ci mds qr mdsc' ci' acts :
  __ceph_remove_cap mdsc ci mds qr = Ok (mdsc', ci', acts) ->
  i_caps ci' = delete mds (i_caps ci).
Proof.
  unfold __ceph_remove_cap, session_of.
  destruct (i_caps ci !! mds) as [cap|]; simpl; [|done].
  destruct (sessions mdsc !! mds) as [s|]; simpl; [|done].
  match goal with
  | |- context [if ?b then Pool.ceph_put_cap ?p else _] =>
      destruct (if b then Pool.ceph_put_cap p else Ok p) as [p'|]; simpl;
        [|done]
  end.
  intros [= <- <- <-]. by repeat case_match.
Qed.

(** What a completed [handle_cap_import] has done for a rank that had no
    cap on the inode. *)
Lemma import_completed e mdsc ci session im ph allocs realm s mdsc' ci'
    acts old_issued :
  i_caps ci !! session = None -> sessions mdsc !! session = Some s ->
  wrap_int (p_mds ph) ≠ session ->
  handle_cap_import e mdsc ci session im (Some ph) allocs realm
    = Ok (mdsc', ci', acts, old_issued) ->
  let peer := wrap_int (p_mds ph) in
  let new := Cap.mk (h_cap_id im) session (wrap_int (h_caps im))
               (wrap_int (h_caps im)) (wrap_int (h_wanted im)) (h_seq im)
               (h_seq im) (h_migrate_seq im) (s_cap_gen s) in
  (exists have impl, __ceph_caps_issued e mdsc ci = Ok (have, impl) ∧
     old_issued = Z.lor impl (__ceph_caps_dirty ci)) ∧
  (forall ocap, 0 <= peer -> i_caps ci !! peer = Some ocap ->
     Cap.cap_id ocap = p_cap_id ph ->
     i_caps ci' = <[session := new]> (delete peer (i_caps ci))) ∧
  ((peer < 0 ∨ i_caps ci !! peer = None ∨
    exists ocap, i_caps ci !! peer = Some ocap ∧
                 Cap.cap_id ocap ≠ p_cap_id ph) ->
   i_caps ci' = <[session := new]> (i_caps ci) ∧ acts = []).
Proof.
  intros Hnone Hs Hne Hrun peer new.
  unfold handle_cap_import, __get_cap_for_mds in Hrun. cbv zeta in Hrun.
  rewrite Hnone in Hrun. fold peer in Hrun.
  destruct (import_get_cap allocs (pool mdsc)) as [p|] eqn:Hp;
    cbn [mbind res_bind] in Hrun; [|done].
  assert (Hiss : __ceph_caps_issued e (set_pool p mdsc) ci
                 = __ceph_caps_issued e mdsc ci) by done.
  rewrite Hiss in Hrun.
  destruct (__ceph_caps_issued e mdsc ci) as [[have impl]|] eqn:Hi;
    cbn [mbind res_bind] in Hrun; [|done].
  destruct (ceph_add_cap _ _ _ _ _ _ _ _ _ _ _ _ _) as [[[m1 ci1] nc]|] eqn:Hadd;
    cbn [mbind res_bind] in Hrun; [|done].
  pose proof (if_ok_run _ _ _
                (add_cap_fresh_core e (set_pool p mdsc) ci session (h_cap_id im)
                   (wrap_int (h_caps im)) (wrap_int (h_wanted im)) (h_seq im)
                   (h_migrate_seq im) (h_realm im) CEPH_CAP_FLAG_AUTH realm s
                   Hnone Hs) Hadd) as (_ & Hcaps1 & _).
  simpl in Hcaps1. fold new in Hcaps1.
  assert (Hpeer1 : i_caps ci1 !! peer = i_caps ci !! peer).
  { rewrite Hcaps1. by rewrite lookup_insert_ne. }
  match type of Hrun with
  | (?X ≫= _) = _ => destruct X as [[[m2 ci2] a2]|] eqn:Htail
  end; cbn [mbind res_bind] in Hrun; [|done].
  injection Hrun as <- <- <- <-.
  split; [by exists have, impl|].
  split.
  - intros ocap Hpos Hoc Hid.
    rewrite decide_True in Htail by lia. rewrite Hpeer1, Hoc in Htail.
    rewrite decide_True in Htail by done.
    apply remove_cap_caps in Htail. rewrite Htail, Hcaps1.
    by rewrite delete_insert_ne.
  - intros Hcase.
    assert (Hskip : (if decide (peer >= 0) then i_caps ci1 !! peer else None)
                    = None ∨
                    exists ocap,
                      (if decide (peer >= 0) then i_caps ci1 !! peer else None)
                      = Some ocap ∧ Cap.cap_id ocap ≠ p_cap_id ph).
    { rewrite Hpeer1. destruct Hcase as [Hneg|[Hno|(ocap & Hoc & Hid)]].
      - left. by rewrite decide_False by lia.
      - left. rewrite Hno. by destruct (decide _).
      - destruct (decide (peer >= 0)); [right; by exists ocap|by left]. }
    destruct Hskip as [Hskip|(ocap & Hskip & Hid)]; rewrite Hskip in Htail.
    + by injection Htail as <- <- <-.
    + rewrite decide_False in Htail by done.
      by injection Htail as <- <- <-.
Qed.

(** The allocation loop at the head of [handle_cap_import]. *)
Lemma import_get_cap_runs allocs p :
  import_cap_at_hand allocs p ->
  returns Pool.conserved (import_get_cap allocs p).
Proof.
  intros [Hp [[Hav Hin]|(Hav & Hl & Hne)]].
  - induction allocs as [|a allocs IH]; [by apply elem_of_nil in Hin|].
    simpl. destruct a.
    + simpl. unfold Pool.conserved, Pool.sum3 in *. destruct p. simpl in *.
      PoolFacts.wrap_lia.
    + unfold Pool.ceph_get_cap. rewrite decide_False by (by intros ?).
      simpl. apply IH. by apply elem_of_cons in Hin as [?|?].
  - destruct allocs as [|a allocs]; [done|]. simpl.
    apply returns_bind.
    eapply returns_mono; [|apply (get_cap_runs p a Hp)].
    + intros [[p' c] got] [Hp' Hgot]. simpl in Hp', Hgot. by subst got.
    + right. by split.
Qed.

(** While every allocation fails and the pool has nothing available, the
    loop goes on. *)
Lemma import_get_cap_spins allocs p :
  (forall a, a ∈ allocs -> a = false) -> Pool.caps_avail_count p = 0 ->
  import_get_cap allocs p = Oops LoopBound.
Proof.
  intros Hall Hav. induction allocs as [|a allocs IH]; [done|].
  simpl. rewrite (Hall a) by apply list_elem_of_here.
  unfold Pool.ceph_get_cap. rewrite decide_False by (by intros ?).
  simpl. apply IH. intros b Hb. apply Hall. by apply list_elem_of_further.
Qed.

Lemma import_runs e mdsc ci session im ph allocs realm s :
  caps_keyed ci -> caps_have_sessions mdsc ci ->
  (forall a, i_auth_cap ci = Some a -> is_Some (i_caps ci !! a)) ->
  i_caps ci !! session = None -> sessions mdsc !! session = Some s ->
  import_cap_at_hand allocs (pool mdsc) ->
  returns (fun _ => True)
    (handle_cap_import e mdsc ci session im (Some ph) allocs realm).
Proof.
  intros Hkey Hsess Hauth Hnone Hs Hhand.
  unfold handle_cap_import, __get_cap_for_mds. cbv zeta.
  rewrite Hnone. set (peer := wrap_int (p_mds ph)).
  apply returns_bind. apply returns_bind.
  eapply returns_mono; [|by apply import_get_cap_runs].
  intros p Hp. cbn [returns].
  apply returns_bind.
  eapply returns_mono;
    [|apply (caps_issued_runs e (set_pool p mdsc) ci); [exact Hsess|exact Hauth]].
  intros [have impl] _.
  apply returns_bind.
  eapply returns_mono;
    [|apply returns_if_ok;
      [apply (add_placeholder e (set_pool p mdsc) ci session) with (ts := s);
         [exact Hnone|exact Hs]
      |apply (add_placeholder_runs e (set_pool p mdsc) ci session)
         with (ts := s); [exact Hsess|exact Hauth|exact Hnone|exact Hs]]].
  intros [[m1 ci1] nc] [Hp1 ((tcap & Hcaps1 & _) & _ & Hs1 & _)].
  simpl in Hp1, Hcaps1, Hs1.
  apply returns_bind.
  eapply returns_mono with (P := fun _ => True); [by intros [[? ?] ?] _|].
  destruct (decide (peer >= 0)); [|done].
  destruct (i_caps ci1 !! peer) as [ocap|] eqn:Hocap; [|done].
  case_decide; [|done].
  eapply returns_mono; [|apply remove_runs]; [done|by rewrite Hocap| |].
  - rewrite Hcaps1 in Hocap.
    apply lookup_insert_Some in Hocap as [[<- _]|[_ Hocap]].
    + eapply sess_same_some; [exact Hs1|by rewrite Hs].
    + eapply sess_same_some; [exact Hs1|].
      rewrite <- (Hkey _ _ Hocap). by eapply Hsess.
  - by rewrite Hp1.
Qed.

(** [handle_cap_import] for a rank that has no cap on the inode yet, the
    message naming another rank as the exporter, on an inode whose caps
    are keyed by their rank and have their sessions registered.  When a
    cap object can be had (the counters of the pool add up, and the pool
    has a cap available or some allocation succeeds), the call completes
    and the inode gets a cap of the importing rank with the id, the bits
    and the sequence numbers of the message.  When it holds the cap that
    the exporter names (same rank, same cap id), that cap is removed in
    the same call, so that its bits are not counted twice; a cap of the
    exporter with another id is left where it is and nothing is sent.
    [*old_issued] is what was implemented or dirty before the call.
    When every allocation fails and the pool has nothing available, the
    call does not complete: its allocation loop goes on for as long as
    that lasts. *)
Theorem import_replaces_peer e mdsc ci session im ph allocs realm s :
  caps_keyed ci -> caps_have_sessions mdsc ci ->
  (forall a, i_auth_cap ci = Some a -> is_Some (i_caps ci !! a)) ->
  i_caps ci !! session = None -> sessions mdsc !! session = Some s ->
  wrap_int (p_mds ph) ≠ session ->
  let peer := wrap_int (p_mds ph) in
  let new := Cap.mk (h_cap_id im) session (wrap_int (h_caps im))
               (wrap_int (h_caps im)) (wrap_int (h_wanted im)) (h_seq im)
               (h_seq im) (h_migrate_seq im) (s_cap_gen s) in
  (import_cap_at_hand allocs (pool mdsc) ->
   exists mdsc' ci' acts old_issued,
     handle_cap_import e mdsc ci session im (Some ph) allocs realm
       = Ok (mdsc', ci', acts, old_issued) ∧
     (exists have impl, __ceph_caps_issued e mdsc ci = Ok (have, impl) ∧
        old_issued = Z.lor impl (__ceph_caps_dirty ci)) ∧
     (forall ocap, 0 <= peer -> i_caps ci !! peer = Some ocap ->
        Cap.cap_id ocap = p_cap_id ph ->
        i_caps ci' = <[session := new]> (delete peer (i_caps ci))) ∧
     ((peer < 0 ∨ i_caps ci !! peer = None ∨
       exists ocap, i_caps ci !! peer = Some ocap ∧
                    Cap.cap_id ocap ≠ p_cap_id ph) ->
      i_caps ci' = <[session := new]> (i_caps ci) ∧ acts = [])) ∧
  ((forall a, a ∈ allocs -> a = false) ->
   Pool.caps_avail_count (pool mdsc) = 0 ->
   handle_cap_import e mdsc ci session im (Some ph) allocs realm
     = Oops LoopBound).
Proof.
  intros Hkey Hsess Hauth Hnone Hs Hne peer new. split.
  - intros Hhand.
    destruct (returns_run _ _
                (import_runs e mdsc ci session im ph allocs realm s Hkey
                   Hsess Hauth Hnone Hs Hhand))
      as ([[[mdsc' ci'] acts] old_issued] & Hrun & _).
    exists mdsc', ci', acts, old_issued. split; [exact Hrun|].
    by eapply import_completed.
  - intros Hall Hav.
    unfold handle_cap_import, __get_cap_for_mds. cbv zeta.
    rewrite Hnone. by rewrite import_get_cap_spins.
Qed.

End with_consts.

(** The cap of inode 5 moves from rank 0 to rank 1: the import names the
    cap 10 of rank 0 as the exported one. *)
Lemma import_replaces_peer_witness :
  exists mdsc' ci' acts old_issued,
    handle_cap_import (H := linux_consts) Sample.env0 Sample.mdsc0
      (Sample.inode1 5 0 (1 + 2048)) 1
      (Sample.head0 CEPH_CAP_OP_IMPORT 5 (1 + 2048) 1)
      (Some (mk_peer 10 1 0 0 0)) [true] (Some Sample.realm0)
    = Ok (mdsc', ci', acts, old_issued) ∧
    i_caps ci' = <[1 := Cap.mk 10 1 2049 2049 0 1 1 0 1]> ∅.
Proof.
  pose proof (import_replaces_peer (H := linux_consts) Sample.env0
                Sample.mdsc0 (Sample.inode1 5 0 (1 + 2048)) 1
                (Sample.head0 CEPH_CAP_OP_IMPORT 5 (1 + 2048) 1)
                (mk_peer 10 1 0 0 0) [true] (Some Sample.realm0)
                Sample.session0) as Hpost.
  cbv zeta in Hpost.
  destruct Hpost as [Hpost _].
  - intros k c0 Hc0. unfold Sample.inode1 in Hc0. simpl in Hc0.
    apply lookup_insert_Some in Hc0 as [[<- <-]|[_ Hc0]]; [reflexivity|].
    by rewrite lookup_empty in Hc0.
  - intros k c0 Hc0. unfold Sample.inode1 in Hc0. simpl in Hc0.
    apply lookup_insert_Some in Hc0 as [[<- <-]|[_ Hc0]]; [by eexists|].
    by rewrite lookup_empty in Hc0.
  - intros a Ha. unfold Sample.inode1 in Ha. simpl in Ha.
    injection Ha as <-. by eexists.
  - reflexivity.
  - reflexivity.
  - discriminate.
  - destruct Hpost as (m & c & a & o & E & _ & Hrep & _).
    { split; [reflexivity|]. right.
      split; [discriminate|]. split; discriminate. }
    exists m, c, a, o. split; [exact E|].
    rewrite (Hrep (Sample.cap0 0 (1 + 2048) (1 + 2048)));
      [|vm_compute; discriminate|reflexivity|reflexivity].
    unfold Sample.inode1. simpl. by rewrite delete_insert_eq, delete_empty.
Defined.

End ImportFacts.

(** * Taking and dropping references on caps *)
Module PutRefs.
Import PoolOps.

Section with_consts.
Context `{!KernelConsts}.

Lemma wrap_int_back x : 0 <= x < 2147483647 -> wrap_int (x + 1 - 1) = x.
Proof. intros Hx. rewrite wrap_int_id by lia. lia. Qed.

(** The counters after [ceph_take_cap_refs]. *)
Lemma take_cap_refs_counts ci got lk ci1 :
  refs_in_range ci -> ceph_take_cap_refs ci got lk = Ok ci1 ->
  i_pin_ref ci1 = i_pin_ref ci + (if tst got CEPH_CAP_PIN then 1 else 0) ∧
  i_rd_ref ci1 = i_rd_ref ci + (if tst got CEPH_CAP_FILE_RD then 1 else 0) ∧
  i_rdcache_ref ci1 =
    i_rdcache_ref ci + (if tst got CEPH_CAP_FILE_CACHE then 1 else 0) ∧
  i_fx_ref ci1 = i_fx_ref ci + (if tst got CEPH_CAP_FILE_EXCL then 1 else 0) ∧
  i_wr_ref ci1 = i_wr_ref ci + (if tst got CEPH_CAP_FILE_WR then 1 else 0) ∧
  i_wb_ref ci1 = i_wb_ref ci + (if tst got CEPH_CAP_FILE_BUFFER then 1 else 0) ∧
  i_count ci1 =
    i_count ci + (if tst got CEPH_CAP_FILE_BUFFER && bool_decide (i_wb_ref ci = 0)
                  then 1 else 0) ∧
  i_cap_snaps ci1 = i_cap_snaps ci.
Proof.
  intros (Hpin & Hrd & Hcache & Hfx & Hwr & Hwb & Hcount).
  unfold ceph_take_cap_refs, ihold. cbv zeta.
  set (c1 := if tst got CEPH_CAP_PIN then _ else ci).
  assert (F1 : i_pin_ref c1 = i_pin_ref ci +
                 (if tst got CEPH_CAP_PIN then 1 else 0) ∧
               i_rd_ref c1 = i_rd_ref ci ∧ i_rdcache_ref c1 = i_rdcache_ref ci ∧
               i_fx_ref c1 = i_fx_ref ci ∧ i_wr_ref c1 = i_wr_ref ci ∧
               i_wb_ref c1 = i_wb_ref ci ∧ i_count c1 = i_count ci ∧
               i_cap_snaps c1 = i_cap_snaps ci).
  { subst c1. destruct (tst got CEPH_CAP_PIN); simpl;
      rewrite ?wrap_int_id by lia; split_and!; try done; lia. }
  clearbody c1. destruct F1 as (P1 & R1 & C1 & X1 & W1 & B1 & N1 & S1).
  set (c2 := if tst got CEPH_CAP_FILE_RD then _ else c1).
  assert (F2 : i_pin_ref c2 = i_pin_ref c1 ∧
               i_rd_ref c2 = i_rd_ref c1 +
                 (if tst got CEPH_CAP_FILE_RD then 1 else 0) ∧
               i_rdcache_ref c2 = i_rdcache_ref c1 ∧
               i_fx_ref c2 = i_fx_ref c1 ∧ i_wr_ref c2 = i_wr_ref c1 ∧
               i_wb_ref c2 = i_wb_ref c1 ∧ i_count c2 = i_count c1 ∧
               i_cap_snaps c2 = i_cap_snaps c1).
  { subst c2. destruct (tst got CEPH_CAP_FILE_RD); simpl;
      rewrite ?wrap_int_id by lia; split_and!; try done; lia. }
  clearbody c2. destruct F2 as (P2 & R2 & C2 & X2 & W2 & B2 & N2 & S2).
  set (c3 := if tst got CEPH_CAP_FILE_CACHE then _ else c2).
  assert (F3 : i_pin_ref c3 = i_pin_ref c2 ∧ i_rd_ref c3 = i_rd_ref c2 ∧
               i_rdcache_ref c3 = i_rdcache_ref c2 +
                 (if tst got CEPH_CAP_FILE_CACHE then 1 else 0) ∧
               i_fx_ref c3 = i_fx_ref c2 ∧ i_wr_ref c3 = i_wr_ref c2 ∧
               i_wb_ref c3 = i_wb_ref c2 ∧ i_count c3 = i_count c2 ∧
               i_cap_snaps c3 = i_cap_snaps c2).
  { subst c3. destruct (tst got CEPH_CAP_FILE_CACHE); simpl;
      rewrite ?wrap_int_id by lia; split_and!; try done; lia. }
  clearbody c3. destruct F3 as (P3 & R3 & C3 & X3 & W3 & B3 & N3 & S3).
  set (c4 := if tst got CEPH_CAP_FILE_EXCL then _ else c3).
  assert (F4 : i_pin_ref c4 = i_pin_ref c3 ∧ i_rd_ref c4 = i_rd_ref c3 ∧
               i_rdcache_ref c4 = i_rdcache_ref c3 ∧
               i_fx_ref c4 = i_fx_ref c3 +
                 (if tst got CEPH_CAP_FILE_EXCL then 1 else 0) ∧
               i_wr_ref c4 = i_wr_ref c3 ∧
               i_wb_ref c4 = i_wb_ref c3 ∧ i_count c4 = i_count c3 ∧
               i_cap_snaps c4 = i_cap_snaps c3).
  { subst c4. destruct (tst got CEPH_CAP_FILE_EXCL); simpl;
      rewrite ?wrap_int_id by lia; split_and!; try done; lia. }
  clearbody c4. destruct F4 as (P4 & R4 & C4 & X4 & W4 & B4 & N4 & S4).
  match goal with
  | |- (?M ≫= _) = _ -> _ => destruct M as [c5|] eqn:E5
  end; cbn [mbind res_bind]; [|done].
  assert (F5 : i_pin_ref c5 = i_pin_ref c4 ∧ i_rd_ref c5 = i_rd_ref c4 ∧
               i_rdcache_ref c5 = i_rdcache_ref c4 ∧
               i_fx_ref c5 = i_fx_ref c4 ∧
               i_wr_ref c5 = i_wr_ref c4 +
                 (if tst got CEPH_CAP_FILE_WR then 1 else 0) ∧
               i_wb_ref c5 = i_wb_ref c4 ∧ i_count c5 = i_count c4 ∧
               i_cap_snaps c5 = i_cap_snaps c4).
  { revert E5. destruct (tst got CEPH_CAP_FILE_WR).
    - match goal with
      | |- (?M ≫= _) = _ -> _ => destruct M as [c|] eqn:E
      end; cbn [mbind res_bind]; [|done].
      assert (Hc : i_pin_ref c = i_pin_ref c4 ∧ i_rd_ref c = i_rd_ref c4 ∧
                   i_rdcache_ref c = i_rdcache_ref c4 ∧
                   i_fx_ref c = i_fx_ref c4 ∧ i_wr_ref c = i_wr_ref c4 ∧
                   i_wb_ref c = i_wb_ref c4 ∧ i_count c = i_count c4 ∧
                   i_cap_snaps c = i_cap_snaps c4).
      { revert E. destruct (_ && _); [|by intros [= <-]].
        unfold BUG_ON. destruct (negb lk); [done|]. cbn [mbind res_bind].
        destruct (i_snap_realm c4); [|done]. by intros [= <-]. }
      destruct Hc as (? & ? & ? & ? & Hw & ? & ? & ?).
      intros [= <-]. simpl. rewrite wrap_int_id by lia.
      split_and!; try done; lia.
    - intros [= <-]. split_and!; try done; lia. }
  clear E5. destruct F5 as (P5 & R5 & C5 & X5 & W5 & B5 & N5 & S5).
  destruct (tst got CEPH_CAP_FILE_BUFFER); cbn [andb].
  - assert (Hb : i_wb_ref c5 = i_wb_ref ci) by congruence.
    case_decide as Hz; intros [= <-]; simpl;
      [rewrite bool_decide_eq_true_2 by congruence
      |rewrite bool_decide_eq_false_2 by congruence];
      rewrite (wrap_int_id (i_wb_ref c5 + 1)) by lia;
      rewrite ?wrap_int_id by lia; split_and!; try lia; congruence.
  - intros [= <-]. split_and!; try lia; congruence.
Qed.

(** References that [ceph_take_cap_refs] takes and [__ceph_put_cap_refs]
    drops, on an inode with no cap snap pending, leave the six reference
    counters as they were.  The reference on the inode that the first
    FILE_BUFFER reference takes is handed back by the one [iput] that
    ends the function.  [ceph_check_caps] is called (queued, in the
    asynchronous mode) exactly when one of the counters of FILE_RD,
    FILE_CACHE, FILE_EXCL, FILE_BUFFER or FILE_WR that was dropped went
    back to 0; nobody is woken. *)
Theorem take_put_round_trip mdsc finish ci got lk ci1 mode :
  refs_in_range ci -> __ceph_have_pending_cap_snap ci = false ->
  ceph_take_cap_refs ci got lk = Ok ci1 ->
  (tst got CEPH_CAP_FILE_WR = true -> i_head_snapc ci1 ≠ None) ->
  exists r,
    __ceph_put_cap_refs mdsc finish ci1 got mode = inr r ∧
    cap_refs (pr_ci r) = cap_refs ci ∧
    i_count (pr_ci r) = i_count ci + pr_put r ∧
    pr_put r = (if tst got CEPH_CAP_FILE_BUFFER && bool_decide (i_wb_ref ci = 0)
                then 1 else 0) ∧
    pr_wake r = false ∧
    (pr_last r = 0 <->
     (tst got CEPH_CAP_FILE_RD = true -> i_rd_ref ci ≠ 0) ∧
     (tst got CEPH_CAP_FILE_CACHE = true -> i_rdcache_ref ci ≠ 0) ∧
     (tst got CEPH_CAP_FILE_EXCL = true -> i_fx_ref ci ≠ 0) ∧
     (tst got CEPH_CAP_FILE_BUFFER = true -> i_wb_ref ci ≠ 0) ∧
     (tst got CEPH_CAP_FILE_WR = true -> i_wr_ref ci ≠ 0)) ∧
    pr_call r =
      (if decide (pr_last r ≠ 0)
       then match mode with
            | PUT_CAP_REFS_SYNC => PutCheckCaps
            | PUT_CAP_REFS_ASYNC => PutQueueCheckCaps
            end
       else PutNoCall).
Proof.
  intros Hrange Hpend Htake Hsnapc.
  destruct (take_cap_refs_counts ci got lk ci1 Hrange Htake)
    as (P0 & R0 & C0 & X0 & W0 & B0 & N0 & S0).
  destruct Hrange as (Hpin & Hrd & Hcache & Hfx & Hwr & Hwb & Hcount).
  clear Htake. unfold __ceph_put_cap_refs. cbv zeta.
  set (c1 := if tst got CEPH_CAP_PIN then _ else ci1).
  assert (F1 : i_pin_ref c1 = i_pin_ref ci ∧
               i_rd_ref c1 = i_rd_ref ci1 ∧ i_rdcache_ref c1 = i_rdcache_ref ci1 ∧
               i_fx_ref c1 = i_fx_ref ci1 ∧ i_wr_ref c1 = i_wr_ref ci1 ∧
               i_wb_ref c1 = i_wb_ref ci1 ∧ refs_frame c1 = refs_frame ci1).
  { subst c1. destruct (tst got CEPH_CAP_PIN); simpl;
      rewrite ?P0, ?wrap_int_back by lia; split_and!; try done; lia. }
  clearbody c1. destruct F1 as (P1 & R1 & C1 & X1 & W1 & B1 & N1).
  set (c2 := if tst got CEPH_CAP_FILE_RD then _ else c1).
  assert (F2 : i_pin_ref c2 = i_pin_ref c1 ∧ i_rd_ref c2 = i_rd_ref ci ∧
               i_rdcache_ref c2 = i_rdcache_ref c1 ∧
               i_fx_ref c2 = i_fx_ref c1 ∧ i_wr_ref c2 = i_wr_ref c1 ∧
               i_wb_ref c2 = i_wb_ref c1 ∧ refs_frame c2 = refs_frame c1).
  { subst c2. destruct (tst got CEPH_CAP_FILE_RD); simpl;
      rewrite ?R1, ?R0, ?wrap_int_back by lia; split_and!; try done; lia. }
  clearbody c2. destruct F2 as (P2 & R2 & C2 & X2 & W2 & B2 & N2).
  set (c3 := if tst got CEPH_CAP_FILE_CACHE then _ else c2).
  assert (F3 : i_pin_ref c3 = i_pin_ref c2 ∧ i_rd_ref c3 = i_rd_ref c2 ∧
               i_rdcache_ref c3 = i_rdcache_ref ci ∧
               i_fx_ref c3 = i_fx_ref c2 ∧ i_wr_ref c3 = i_wr_ref c2 ∧
               i_wb_ref c3 = i_wb_ref c2 ∧ refs_frame c3 = refs_frame c2).
  { subst c3. destruct (tst got CEPH_CAP_FILE_CACHE); simpl;
      rewrite ?C2, ?C1, ?C0, ?wrap_int_back by lia; split_and!; try done; lia. }
  clearbody c3. destruct F3 as (P3 & R3 & C3 & X3 & W3 & B3 & N3).
  set (c4 := if tst got CEPH_CAP_FILE_EXCL then _ else c3).
  assert (F4 : i_pin_ref c4 = i_pin_ref c3 ∧ i_rd_ref c4 = i_rd_ref c3 ∧
               i_rdcache_ref c4 = i_rdcache_ref c3 ∧
               i_fx_ref c4 = i_fx_ref ci ∧ i_wr_ref c4 = i_wr_ref c3 ∧
               i_wb_ref c4 = i_wb_ref c3 ∧ refs_frame c4 = refs_frame c3).
  { subst c4. destruct (tst got CEPH_CAP_FILE_EXCL); simpl;
      rewrite ?X3, ?X2, ?X1, ?X0, ?wrap_int_back by lia;
      split_and!; try done; lia. }
  clearbody c4. destruct F4 as (P4 & R4 & C4 & X4 & W4 & B4 & N4).
  set (c5 := if tst got CEPH_CAP_FILE_BUFFER then _ else c4).
  assert (F5 : i_pin_ref c5 = i_pin_ref c4 ∧ i_rd_ref c5 = i_rd_ref c4 ∧
               i_rdcache_ref c5 = i_rdcache_ref c4 ∧
               i_fx_ref c5 = i_fx_ref c4 ∧ i_wr_ref c5 = i_wr_ref c4 ∧
               i_wb_ref c5 = i_wb_ref ci ∧ refs_frame c5 = refs_frame c4).
  { subst c5. destruct (tst got CEPH_CAP_FILE_BUFFER); simpl;
      rewrite ?B4, ?B3, ?B2, ?B1, ?B0, ?wrap_int_back by lia;
      split_and!; try done; lia. }
  clearbody c5. destruct F5 as (P5 & R5 & C5 & X5 & W5 & B5 & N5).
  set (c6 := if tst got CEPH_CAP_FILE_WR then _ else c5).
  assert (F6 : i_pin_ref c6 = i_pin_ref c5 ∧ i_rd_ref c6 = i_rd_ref c5 ∧
               i_rdcache_ref c6 = i_rdcache_ref c5 ∧
               i_fx_ref c6 = i_fx_ref c5 ∧ i_wr_ref c6 = i_wr_ref ci ∧
               i_wb_ref c6 = i_wb_ref c5 ∧ refs_frame c6 = refs_frame c5).
  { subst c6. destruct (tst got CEPH_CAP_FILE_WR); simpl;
      rewrite ?W5, ?W4, ?W3, ?W2, ?W1, ?W0, ?wrap_int_back by lia;
      split_and!; try done; lia. }
  clearbody c6. destruct F6 as (P6 & R6 & C6 & X6 & W6 & B6 & N6).
  assert (HN : refs_frame c6 = refs_frame ci1) by congruence.
  unfold refs_frame in HN. injection HN as Hn6 Hs6 Hh6.
  set (wr_last := tst got CEPH_CAP_FILE_WR && bool_decide (i_wr_ref c6 = 0)).
  set (wb_last := tst got CEPH_CAP_FILE_BUFFER && bool_decide (i_wb_ref c5 = 0)).
  set (drop_snapc := wr_last && _ && _ && _).
  assert (Hbug : drop_snapc && bool_decide (i_head_snapc c6 = None) = false).
  { destruct drop_snapc eqn:Hd; [|done]. simpl. apply bool_decide_eq_false_2.
    rewrite Hh6. apply Hsnapc. subst drop_snapc wr_last.
    by destruct (tst got CEPH_CAP_FILE_WR). }
  rewrite Hbug. clearbody drop_snapc.
  set (c7 := if drop_snapc then _ else c6).
  assert (F7 : cap_refs c7 = cap_refs c6 ∧ i_count c7 = i_count c6 ∧
               i_cap_snaps c7 = i_cap_snaps c6).
  { subst c7. by destruct drop_snapc. }
  clearbody c7. destruct F7 as (Hr7 & Hn7 & Hs7).
  set (c8 := if wr_last && _ && _ then _ else c7).
  assert (F8 : cap_refs c8 = cap_refs c7 ∧ i_count c8 = i_count c7 ∧
               i_cap_snaps c8 = i_cap_snaps c7).
  { subst c8. by destruct (_ && _ && _). }
  clearbody c8. destruct F8 as (Hr8 & Hn8 & Hs8).
  assert (Hp8 : __ceph_have_pending_cap_snap c8 = false).
  { unfold __ceph_have_pending_cap_snap in *. by rewrite Hs8, Hs7, Hs6, S0. }
  rewrite Hp8, andb_false_r.
  eexists. split; [reflexivity|]. cbn [pr_ci pr_put pr_wake pr_last pr_call].
  assert (Hrefs : cap_refs c8 = cap_refs ci).
  { rewrite Hr8, Hr7. unfold cap_refs.
    by rewrite P6, P5, P4, P3, P2, P1, R6, R5, R4, R3, R2, C6, C5, C4, C3,
      X6, X5, X4, W6, B6, B5. }
  split; [exact Hrefs|].
  assert (Hwb5 : i_wb_ref c5 = i_wb_ref ci) by congruence.
  assert (Hwr6 : i_wr_ref c6 = i_wr_ref ci) by congruence.
  assert (Hrd2 : i_rd_ref c2 = i_rd_ref ci) by congruence.
  assert (Hc3 : i_rdcache_ref c3 = i_rdcache_ref ci) by congruence.
  assert (Hx4 : i_fx_ref c4 = i_fx_ref ci) by congruence.
  subst wr_last wb_last. rewrite Hwb5, Hwr6, Hrd2, Hc3, Hx4.
  split.
  { rewrite Hn8, Hn7, Hn6, N0. by destruct (_ && _). }
  split; [reflexivity|]. split; [reflexivity|].
  split; [|destruct mode; by case_decide].
  destruct (tst got CEPH_CAP_FILE_RD), (tst got CEPH_CAP_FILE_CACHE),
    (tst got CEPH_CAP_FILE_EXCL), (tst got CEPH_CAP_FILE_BUFFER),
    (tst got CEPH_CAP_FILE_WR); cbn [andb];
    repeat case_bool_decide; split; intros; split_and?; try done; try lia;
    naive_solver.
Qed.

End with_consts.

(** A writer comes and goes on a file that has a reader: FILE_RD and
    FILE_WR are taken and dropped, the counter of FILE_WR goes back to 0
    and [ceph_check_caps] is called. *)
Lemma take_put_round_trip_witness :
  exists ci1 r,
    ceph_take_cap_refs (H := linux_consts) reading_ci (2048 + 4096) true
      = Ok ci1 ∧
    __ceph_put_cap_refs (H := linux_consts) Sample.mdsc0
      (fun c _ => (c, false)) ci1 (2048 + 4096) PUT_CAP_REFS_SYNC = inr r ∧
    cap_refs (pr_ci r) = cap_refs reading_ci ∧
    pr_call r = PutCheckCaps.
Proof.
  destruct (ceph_take_cap_refs (H := linux_consts) reading_ci (2048 + 4096)
              true) as [ci1|f] eqn:E;
    [|exfalso; vm_compute in E; discriminate E].
  destruct (take_put_round_trip (H := linux_consts) Sample.mdsc0
              (fun c _ => (c, false)) reading_ci (2048 + 4096) true ci1
              PUT_CAP_REFS_SYNC) as (r & Hrun & Hrefs & _ & _ & _ & Hlast & Hcall).
  - vm_compute. repeat split; discriminate.
  - reflexivity.
  - exact E.
  - intros _. pose proof E as E'. vm_compute in E'. injection E' as <-.
    discriminate.
  - exists ci1, r. split; [reflexivity|]. split; [exact Hrun|].
    split; [exact Hrefs|]. rewrite Hcall. rewrite decide_True; [reflexivity|].
    intros Hz. apply Hlast in Hz as (_ & _ & _ & _ & Hwr).
    by apply Hwr.
Defined.

End PutRefs.

(** * What a reconciliation leaves issued *)
Module CheckCaps.
Import CapsFacts GrantSteps.

Ltac istep :=
  match goal with
  | |- if_ok _ (Ok _) => simpl
  | |- if_ok _ (Oops _) => exact I
  | |- if_ok _ (deref _ ≫= _) => apply if_ok_deref; intros ? ?
  | |- if_ok _ (session_of _ _ ≫= _) => unfold session_of
  | |- if_ok _ (BUG_ON ?c _ ≫= _) => unfold BUG_ON; destruct c
  | |- if_ok _ (__get_oldest_flush_tid ?m ≫= _) =>
      destruct (__get_oldest_flush_tid m)
  | |- if_ok _ ((if ?c then _ else _) ≫= _) => destruct c
  | |- if_ok _ (if ?c then _ else _) => destruct c
  | |- if_ok _ (Ok _ ≫= _) => simpl
  | |- if_ok _ (Oops _ ≫= _) => exact I
  | |- if_ok _ ((_ ≫= _) ≫= _) => apply if_ok_bind
  | |- if_ok _ (let '(_, _) := ?c in _) => destruct c
  end.

Ltac subset_lor :=
  let k := fresh "k" in
  let Hk := fresh "Hk" in
  intros k Hk; rewrite ?Z.lor_spec; rewrite Hk;
  repeat (rewrite orb_true_l || rewrite orb_true_r); reflexivity.

Section with_consts.
Context `{!KernelConsts}.

Lemma check_step_refl c : caps_keyed c -> check_step c c.
Proof.
  intros Hk. split; [done|]. split; [by intros ?|].
  intros mds cap Hcap. exists cap. split; [done|]. split; [|by intros ?].
  intros k. rewrite Z.land_spec. by intros [? _]%andb_true_iff.
Qed.

Lemma check_step_trans a b c : check_step a b -> check_step b c -> check_step a c.
Proof.
  intros (_ & Hu1 & Hk1) (Hkey & Hu2 & Hk2). split; [done|].
  split; [by intros k Hk; apply Hu1, Hu2|].
  intros mds cap Hcap.
  destruct (Hk1 mds cap Hcap) as (cap1 & Hcap1 & Hin1 & Hsub1).
  destruct (Hk2 mds cap1 Hcap1) as (cap2 & Hcap2 & Hin2 & Hsub2).
  exists cap2. split; [done|]. split.
  - intros k Hk. rewrite Z.land_spec in Hk.
    apply andb_true_iff in Hk as [Hi Hu]. apply Hin2.
    rewrite Z.land_spec, Hu, andb_true_r. apply Hin1.
    by rewrite Z.land_spec, Hi, (Hu2 k Hu).
  - by intros k Hk; apply Hsub1, Hsub2.
Qed.

Lemma check_step_same c c' :
  caps_keyed c -> i_caps c' = i_caps c ->
  bits_subset (__ceph_caps_used c') (__ceph_caps_used c) -> check_step c c'.
Proof.
  intros Hkey Hcaps Hu. split; [unfold caps_keyed; by rewrite Hcaps|].
  split; [done|]. intros mds cap Hcap. exists cap. rewrite Hcaps.
  split; [done|]. split; [|by intros ?].
  intros k. rewrite Z.land_spec. by intros [? _]%andb_true_iff.
Qed.

(** [__prep_cap] keeps the issued bits that it is told to retain. *)
Lemma prep_cap_step ci mds cap_used want retain :
  caps_keyed ci ->
  (forall cap, i_caps ci !! mds = Some cap ->
     bits_subset (Z.land (Cap.issued cap) (__ceph_caps_used ci)) retain) ->
  if_ok (fun r => check_step ci r.1)
    (__prep_cap ci mds cap_used want retain).
Proof.
  intros Hkey Hret. unfold __prep_cap.
  destruct (i_caps ci !! mds) as [cap|] eqn:Hcap; simpl; [|done].
  unfold BUG_ON. destruct (negb _); simpl; [done|].
  pose proof (Hkey _ _ Hcap) as Hm. specialize (Hret cap eq_refl).
  match goal with
  | |- check_step _ (store_cap ?c ?i) =>
      set (cap' := c);
      assert (Hi : i_caps i = i_caps ci ∧
                   __ceph_caps_used i = __ceph_caps_used ci)
        by (by repeat case_match);
      generalize dependent i; intros ci1 [Hcaps1 Hused1]
  end.
  assert (Hm' : Cap.mds cap' = mds) by done.
  assert (Hused : __ceph_caps_used (store_cap cap' ci1) = __ceph_caps_used ci)
    by (by rewrite <- Hused1).
  split; [|split].
  - unfold caps_keyed, store_cap. simpl. rewrite ?Hm', ?Hm, Hcaps1.
    intros k c.
    rewrite lookup_insert_Some. intros [[<- <-]|[_ Hc]]; [done|].
    by eapply Hkey.
  - rewrite Hused. by intros ?.
  - intros k c Hc. rewrite Hused. unfold store_cap. simpl.
    rewrite ?Hm', ?Hm, Hcaps1. destruct (decide (k = mds)) as [->|Hne].
    + rewrite lookup_insert_eq. rewrite Hcap in Hc. injection Hc as <-.
      eexists. split; [done|]. subst cap'. simpl. split.
      * intros j Hj. pose proof (Hret j Hj) as Hr.
        rewrite Z.land_spec in Hj. apply andb_true_iff in Hj as [Hi _].
        destruct (Z.neg_nonneg_cases j) as [Hneg|Hpos].
        { rewrite Z.testbit_neg_r in Hi by done. discriminate Hi. }
        rewrite !Z.land_spec, Z.lnot_spec, Z.land_spec, Z.lnot_spec by done.
        rewrite Hi, Hr. simpl. by rewrite andb_false_r.
      * intros j. rewrite Z.land_spec. by intros [? _]%andb_true_iff.
    + rewrite lookup_insert_ne by done. exists c. split; [done|].
      split; [|by intros ?].
      intros j. rewrite Z.land_spec. by intros [? _]%andb_true_iff.
Qed.

Lemma kick_loop_step e session oldest mdsc l : forall ci first_tid acts,
  caps_keyed ci ->
  if_ok (fun r => check_step ci r.1)
    (kick_loop e session oldest l mdsc ci first_tid acts).
Proof.
  induction l as [|cf l IH]; intros ci first_tid acts Hkey; simpl;
    [by apply check_step_refl|].
  apply if_ok_deref. intros c _.
  case_decide; [by apply IH|].
  destruct (i_auth_cap ci) as [a|]; [|by apply check_step_refl].
  case_decide as Ha; [|by apply check_step_refl]. subst a.
  destruct (Flush.is_capsnap c); [by apply IH|].
  apply if_ok_deref. intros cap Hcap.
  apply if_ok_bind.
  eapply if_ok_mono; [|apply prep_cap_step; [done|]].
  - intros [ci1 w] Hs1. simpl in Hs1. apply if_ok_deref. intros ? _.
    eapply if_ok_mono; [|apply IH; apply Hs1].
    intros r Hr. eapply check_step_trans; eauto.
  - intros cap0 Hcap0. rewrite Hcap in Hcap0. injection Hcap0 as <-.
    intros k. rewrite Z.land_spec, Z.lor_spec.
    intros [-> _]%andb_true_iff. done.
Qed.

Lemma kick_flushing_step e mdsc session ci oldest :
  caps_keyed ci ->
  if_ok (fun r => check_step ci r.1)
    (__kick_flushing_caps e mdsc session ci oldest).
Proof.
  intros Hkey. unfold __kick_flushing_caps.
  destruct (tst _ _); [by apply check_step_refl|]. cbv zeta.
  eapply if_ok_mono; [|apply kick_loop_step].
  - intros r Hr. eapply check_step_trans; [|exact Hr].
    apply check_step_same; [done|done|by intros ?].
  - done.
Qed.

Lemma flush_snaps_assign_same session l : forall st,
  if_ok (fun st' => i_caps (fs_ci st') = i_caps (fs_ci st) ∧
                    __ceph_caps_used (fs_ci st') = __ceph_caps_used (fs_ci st))
    (flush_snaps_assign session l st).
Proof.
  induction l as [|cs l IH]; intros st; [done|].
  cbn [flush_snaps_assign]. cbv zeta.
  destruct (_ || _); [done|].
  unfold BUG_ON. destruct (negb _); simpl; [done|].
  apply if_ok_deref. intros c _.
  case_decide; [by apply IH|].
  repeat first [ eapply if_ok_mono; [|apply IH]; simpl; intros ? [-> ->]; done
               | istep ].
Qed.

Lemma flush_snaps_same mdsc ci session :
  if_ok (fun st' => i_caps (fs_ci st') = i_caps ci ∧
                    __ceph_caps_used (fs_ci st') = __ceph_caps_used ci)
    (__ceph_flush_snaps mdsc ci session).
Proof.
  unfold __ceph_flush_snaps. apply if_ok_bind.
  eapply if_ok_mono;
    [|apply (flush_snaps_assign_same session _ (mk_snaps mdsc ci 0 1 0))].
  intros st [Hc Hu]. simpl in *. by rewrite <- Hc, <- Hu.
Qed.

Lemma mark_caps_flushing_same mdsc ci session wake :
  if_ok (fun r => i_caps r.1.1.2 = i_caps ci ∧
                  __ceph_caps_used r.1.1.2 = __ceph_caps_used ci)
    (__mark_caps_flushing mdsc ci session wake).
Proof.
  unfold __mark_caps_flushing. cbv zeta. repeat istep; done.
Qed.

Lemma invalidate_used ci pages_left :
  bool_decide (i_kind ci = S_IFREG) = true ->
  bool_decide (i_nrpages ci ≠ 0) = true ->
  i_caps (try_nonblocking_invalidate ci pages_left).1 = i_caps ci ∧
  bits_subset (__ceph_caps_used (try_nonblocking_invalidate ci pages_left).1)
    (__ceph_caps_used ci).
Proof.
  intros Hreg Hpages. unfold try_nonblocking_invalidate. cbv zeta.
  assert (Hu : bits_subset (__ceph_caps_used (set_i_nrpages pages_left ci))
                 (__ceph_caps_used ci)).
  { unfold __ceph_caps_used. simpl. rewrite Hreg, Hpages. simpl.
    rewrite orb_true_r. intros k.
    repeat case_match; rewrite ?Z.lor_spec, ?orb_true_iff; tauto. }
  destruct (_ && _); simpl; done.
Qed.

Lemma check_scan_found e mdsc ci flags used want retain mds l : forall wb cap wb',
  check_scan e mdsc ci flags used want retain mds l wb = Ok (Some cap, wb') ->
  exists k, (k, cap) ∈ l.
Proof.
  induction l as [|[k c] l IH]; intros wb cap wb'; [done|].
  cbn [check_scan].
  destruct (check_one _ _ _ _ _ _ _ _ _) as [[ack w]|]; simpl; [|done].
  destruct ack.
  - intros [= <- <-]. exists k. left.
  - intros Hrun. apply IH in Hrun as [k' Hk']. exists k'. by right.
Qed.

Lemma check_caps_retry_step fuel e pages_left flags : forall st,
  caps_keyed (c_ci st) ->
  if_ok (fun st' => check_step (c_ci st) (c_ci st'))
    (check_caps_retry fuel e pages_left flags st).
Proof.
  induction fuel as [|fuel IH]; intros st Hkey; [done|].
  cbn [check_caps_retry]. cbv zeta.
  apply if_ok_bind.
  destruct (__ceph_caps_issued e (c_mdsc st) (c_ci st))
    as [[issued implemented]|]; simpl; [|done].
  match goal with
  | |- if_ok _ (let '(_, _) := ?c in _) => destruct c as [want retain] eqn:Hwr
  end.
  assert (Hretain : bits_subset (__ceph_caps_used (c_ci st)) retain).
  { revert Hwr. repeat case_match; intros [= <- <-]; subset_lor. }
  clear Hwr.
  match goal with
  | |- if_ok _ (if ?c then _ else _) => destruct c eqn:Hinv
  end.
  - repeat (apply andb_true_iff in Hinv as [Hinv ?]).
    destruct (invalidate_used (c_ci st) pages_left) as [Hc Hu]; [done|done|].
    destruct (try_nonblocking_invalidate _ _) as [ci1 ok]. simpl in Hc, Hu.
    destruct ok.
    + eapply if_ok_mono; [|apply IH; unfold caps_keyed; simpl; by rewrite Hc].
      intros st' Hs. simpl in Hs. eapply check_step_trans; [|exact Hs].
      apply check_step_same; [exact Hkey|exact Hc|exact Hu].
    + eapply if_ok_mono; [|apply IH; unfold caps_keyed; simpl; by rewrite Hc].
      intros st' Hs. simpl in Hs. eapply check_step_trans; [|exact Hs].
      apply check_step_same; [exact Hkey|exact Hc|exact Hu].
  - clear Hinv. apply if_ok_bind.
    destruct (check_scan _ _ _ _ _ _ _ _ _ _) as [[found wb]|] eqn:Es; simpl;
      [|done].
    destruct found as [cap|]; [|by apply check_step_refl].
    apply check_scan_found in Es as [k Hin].
    apply Queries.caps_in_order_elem in Hin.
    pose proof (Hkey _ _ Hin) as Hm. subst k.
    match goal with
    | |- if_ok _ (if ?c then _ else _) => destruct c
    end.
    + apply if_ok_bind.
      eapply if_ok_mono with (P := fun r => check_step (c_ci st) r.1).
      2:{ destruct (tst _ CEPH_I_KICK_FLUSH); [|by apply check_step_refl].
          by apply kick_flushing_step. }
      intros [ci1 acts1] Hs1. simpl in Hs1.
      apply if_ok_bind.
      eapply if_ok_mono with (P := fun r => check_step (c_ci st) r.2).
      { intros [m2 ci2] Hs2. simpl in Hs2.
        eapply if_ok_mono; [|apply IH; apply Hs2].
        intros st' Hs'. simpl in Hs'. eapply check_step_trans; eauto. }
      destruct (tst _ CEPH_I_FLUSH_SNAPS); [|exact Hs1].
      apply if_ok_bind.
      eapply if_ok_mono; [|apply flush_snaps_same].
      intros st' [Hc Hu]. simpl. eapply check_step_trans; [exact Hs1|].
      apply check_step_same; [apply Hs1|done|by rewrite Hu; intros ?].
    + apply if_ok_bind.
      match goal with
      | |- if_ok _ ?X =>
          eapply if_ok_mono with (P := fun _ => True);
            [|destruct X; exact I]
      end.
      intros cap_used _.
      apply if_ok_bind.
      eapply if_ok_mono
        with (P := fun r => i_caps r.1.1.1.2 = i_caps (c_ci st) ∧
                            __ceph_caps_used r.1.1.1.2
                            = __ceph_caps_used (c_ci st)).
      2:{ match goal with
          | |- if_ok _ (if ?c then _ else _) => destruct c
          end.
          - cbv zeta. apply if_ok_bind.
            eapply if_ok_mono; [|apply mark_caps_flushing_same].
            intros [[[? ?] ?] ?] H'. exact H'.
          - destruct (__get_oldest_flush_tid _); simpl; done. }
      intros [[[[m2 ci2] fl] ftid] old] [Hc2 Hu2]. simpl in Hc2, Hu2.
      assert (Hkey2 : caps_keyed ci2) by (unfold caps_keyed; by rewrite Hc2).
      apply if_ok_bind.
      eapply if_ok_mono; [|apply prep_cap_step; [exact Hkey2|]].
      * intros [ci3 w] Hs3. simpl in Hs3.
        apply if_ok_deref. intros cap' _.
        eapply if_ok_mono; [|apply IH; apply Hs3].
        intros st' Hs'. simpl in Hs'.
        eapply check_step_trans; [|exact Hs'].
        eapply check_step_trans; [|exact Hs3].
        apply check_step_same; [done|done|by rewrite Hu2; intros ?].
      * intros cap0 _ j. rewrite Z.land_spec, Hu2.
        intros [_ Hj]%andb_true_iff. by apply Hretain.
Qed.

(** [ceph_check_caps] never gives up a cap that is in use: every cap of
    the inode is still there afterwards, with no issued bit that it did
    not have, and with every issued bit that is in use when the function
    returns.  It brings no bit into use. *)
Theorem check_caps_keeps_used e pages_left mdsc ci flags mdsc' ci' acts :
  caps_keyed ci ->
  ceph_check_caps e pages_left mdsc ci flags = Ok (mdsc', ci', acts) ->
  bits_subset (__ceph_caps_used ci') (__ceph_caps_used ci) ∧
  kept_in_use ci ci'.
Proof.
  intros Hkey. unfold ceph_check_caps.
  destruct (tst _ CEPH_I_ASYNC_CREATE).
  - intros [= <- <- <-]. apply check_step_same; [done|done|by intros ?].
  - cbv zeta.
    pose proof (check_caps_retry_step (2 * size (i_caps ci) + 3) e pages_left
                  (if tst (i_ceph_flags ci) CEPH_I_FLUSH
                   then Z.lor flags CHECK_CAPS_FLUSH else flags)
                  (mk_check mdsc ci (-1) false false false []) Hkey) as Hs.
    destruct (check_caps_retry _ _ _ _ _) as [st|]; simpl; [|done].
    intros [= <- <- <-]. apply Hs.
Qed.

End with_consts.

(** The reconciliation of a file that nothing wants any more while a
    read is going on gives FILE_CACHE back and keeps FILE_RD. *)
Lemma check_caps_keeps_used_witness :
  exists mdsc' ci' cap',
    ceph_check_caps (H := linux_consts) Sample.env0 0 Sample.mdsc0
      idle_reader_ci 0 = Ok (mdsc', ci', [SendCap 0 0 0 2049 0 0]) ∧
    i_caps ci' !! 0 = Some cap' ∧ Cap.issued cap' = 1 + 2048 ∧
    kept_in_use (H := linux_consts) idle_reader_ci ci'.
Proof.
  destruct (ceph_check_caps (H := linux_consts) Sample.env0 0 Sample.mdsc0
              idle_reader_ci 0) as [[[m c] a]|f] eqn:E;
    [|exfalso; vm_compute in E; discriminate E].
  destruct (check_caps_keeps_used (H := linux_consts) Sample.env0 0
              Sample.mdsc0 idle_reader_ci 0 m c a) as [_ Hkept].
  - intros k c0 Hc. unfold idle_reader_ci, Sample.inode1 in Hc. simpl in Hc.
    apply lookup_insert_Some in Hc as [[<- <-]|[_ Hc]]; [done|].
    by rewrite lookup_empty in Hc.
  - exact E.
  - pose proof E as E'. vm_compute in E'. injection E' as _ Hc Ha.
    exists m, c. eexists. split; [by rewrite <- Ha|].
    split; [rewrite <- Hc; reflexivity|]. split; [reflexivity|exact Hkept].
Defined.

End CheckCaps.

(** * The passes of a reconciliation *)
Module CheckBound.
Import CapsFacts.

Lemma within_bound_bind {A B} (Q : B -> Prop) (m : res A) (k : A -> res B) :
  within_bound (fun a => within_bound Q (k a)) m -> within_bound Q (m ≫= k).
Proof. destruct m; simpl; auto. Qed.

Lemma within_bound_mono {A} (P Q : A -> Prop) (r : res A) :
  (forall a, P a -> Q a) -> within_bound P r -> within_bound Q r.
Proof. destruct r; simpl; auto. Qed.

Lemma within_bound_deref {A B} (Q : B -> Prop) (o : option A) (k : A -> res B) :
  (forall a, o = Some a -> within_bound Q (k a)) ->
  within_bound Q (deref o ≫= k).
Proof. destruct o; simpl; [auto | discriminate]. Qed.

Lemma within_bound_null {A} (r : res A) :
  (forall f, r = Oops f -> f = NullDeref) -> within_bound (fun _ => True) r.
Proof. destruct r as [|f]; simpl; [done|]. intros Hf. by rewrite (Hf f). Qed.

Lemma within_bound_oldest {B} (Q : B -> Prop) mdsc (k : Z -> res B) :
  (forall t, within_bound Q (k t)) ->
  within_bound Q (__get_oldest_flush_tid mdsc ≫= k).
Proof.
  intros Hk. destruct (__get_oldest_flush_tid mdsc) eqn:E; simpl; [apply Hk|].
  apply oldest_flush_tid_fault in E. by subst.
Qed.

Ltac bstep :=
  match goal with
  | |- within_bound _ (Ok _) => simpl
  | |- within_bound _ (Oops _) => simpl; discriminate
  | |- within_bound _ (deref _ ≫= _) => apply within_bound_deref; intros ? ?
  | |- within_bound _ (session_of _ _ ≫= _) => unfold session_of
  | |- within_bound _ (BUG_ON ?c _ ≫= _) => unfold BUG_ON; destruct c
  | |- within_bound _ (__get_oldest_flush_tid _ ≫= _) =>
      apply within_bound_oldest; intros ?
  | |- within_bound _ ((if ?c then _ else _) ≫= _) => destruct c
  | |- within_bound _ (if ?c then _ else _) => destruct c
  | |- within_bound _ (Ok _ ≫= _) => simpl
  | |- within_bound _ (Oops _ ≫= _) => simpl; discriminate
  | |- within_bound _ ((_ ≫= _) ≫= _) => apply within_bound_bind
  | |- within_bound _ (let '(_, _) := ?c in _) => destruct c
  end.

Lemma tst_subset a b x : bits_subset a b -> tst b x = false -> tst a x = false.
Proof.
  rewrite !tst_false. intros Hs Hb. apply Z.bits_inj'. intros k Hk.
  rewrite Z.land_spec, Z.bits_0.
  destruct (Z.testbit a k) eqn:Ha; [|done].
  apply (f_equal (fun z => Z.testbit z k)) in Hb.
  rewrite Z.land_spec, Z.bits_0, (Hs k Ha) in Hb. done.
Qed.

Lemma tst_cleared a x : tst (Z.land a (Z.lnot x)) x = false.
Proof. apply tst_false. bitblast. Qed.

Lemma tst_lor_false a x y :
  tst a x = false -> tst a y = false -> tst a (Z.lor x y) = false.
Proof. rewrite !tst_false. intros Hx Hy. bitblast. Qed.

Lemma bits_subset_cleared a x : bits_subset (Z.land a (Z.lnot x)) a.
Proof. intros k. rewrite Z.land_spec. by intros [? _]%andb_true_iff. Qed.

Section with_consts.
Context `{!KernelConsts}.

Lemma same_ranks_refl c : caps_keyed c -> same_ranks c c.
Proof. intros Hk. split; [done|]. split; [done|]. by intros ?. Qed.

Lemma same_ranks_trans a b c :
  same_ranks a b -> same_ranks b c -> same_ranks a c.
Proof.
  intros (_ & Hd1 & Hf1) (Hk & Hd2 & Hf2). split; [done|].
  split; [congruence|]. intros k Hb. by apply Hf1, Hf2.
Qed.

Lemma same_ranks_fields c c' :
  caps_keyed c -> i_caps c' = i_caps c ->
  bits_subset (i_ceph_flags c') (i_ceph_flags c) -> same_ranks c c'.
Proof.
  intros Hk Hc Hf. split; [unfold caps_keyed; by rewrite Hc|].
  split; [by rewrite Hc|done].
Qed.

Lemma prep_cap_ranks ci mds used want retain :
  caps_keyed ci ->
  within_bound (fun r => same_ranks ci r.1)
    (__prep_cap ci mds used want retain).
Proof.
  intros Hkey. unfold __prep_cap.
  destruct (i_caps ci !! mds) as [cap|] eqn:Hcap; simpl; [|done].
  unfold BUG_ON. destruct (negb _); simpl; [done|].
  pose proof (Hkey _ _ Hcap) as Hm.
  match goal with
  | |- same_ranks _ (store_cap ?c ?i) =>
      assert (Hi : i_caps i = i_caps ci ∧
                   i_ceph_flags i =
                     Z.land (i_ceph_flags ci) (Z.lnot CEPH_I_FLUSH))
        by (by repeat case_match);
      generalize dependent i; intros ci1 [Hcaps1 Hflags1]
  end.
  unfold same_ranks, caps_keyed, store_cap. simpl. rewrite Hm, Hcaps1, Hflags1.
  split; [|split].
  - intros k c. rewrite lookup_insert_Some. intros [[<- <-]|[_ Hc]]; [done|].
    by eapply Hkey.
  - rewrite dom_insert_L. apply subseteq_union_1_L, singleton_subseteq_l.
    by apply elem_of_dom_2 in Hcap.
  - apply bits_subset_cleared.
Qed.

Lemma kick_loop_ranks e session oldest mdsc l : forall ci first_tid acts,
  caps_keyed ci ->
  within_bound (fun r => same_ranks ci r.1)
    (kick_loop e session oldest l mdsc ci first_tid acts).
Proof.
  induction l as [|cf l IH]; intros ci first_tid acts Hkey; simpl;
    [by apply same_ranks_refl|].
  apply within_bound_deref. intros c _.
  case_decide; [by apply IH|].
  destruct (i_auth_cap ci) as [a|]; [|by apply same_ranks_refl].
  case_decide as Ha; [|by apply same_ranks_refl]. subst a.
  destruct (Flush.is_capsnap c); [by apply IH|].
  apply within_bound_deref. intros cap Hcap.
  apply within_bound_bind.
  eapply within_bound_mono; [|by apply prep_cap_ranks].
  intros [ci1 w] Hs1. simpl in Hs1. apply within_bound_deref. intros ? _.
  eapply within_bound_mono; [|apply IH; apply Hs1].
  intros r Hr. eapply same_ranks_trans; eauto.
Qed.

Lemma kick_flushing_ranks e mdsc session ci oldest :
  caps_keyed ci -> tst (i_ceph_flags ci) CEPH_I_ASYNC_CREATE = false ->
  within_bound (fun r => same_ranks ci r.1 ∧
                         tst (i_ceph_flags r.1) CEPH_I_KICK_FLUSH = false)
    (__kick_flushing_caps e mdsc session ci oldest).
Proof.
  intros Hkey Hasync. unfold __kick_flushing_caps. rewrite Hasync. cbv zeta.
  eapply within_bound_mono; [|apply kick_loop_ranks; exact Hkey].
  intros r (Hk & Hd & Hf). simpl in Hd, Hf. split.
  - split; [done|]. split; [done|].
    intros k Hk'. eapply bits_subset_cleared, Hf, Hk'.
  - eapply tst_subset; [exact Hf|apply tst_cleared].
Qed.

Lemma flush_snaps_assign_ranks session l : forall st,
  within_bound
    (fun st' => i_caps (fs_ci st') = i_caps (fs_ci st) ∧
                i_ceph_flags (fs_ci st') = i_ceph_flags (fs_ci st))
    (flush_snaps_assign session l st).
Proof.
  induction l as [|cs l IH]; intros st; [done|].
  cbn [flush_snaps_assign]. cbv zeta.
  destruct (_ || _); [done|].
  unfold BUG_ON. destruct (negb _); simpl; [done|].
  apply within_bound_deref. intros c _.
  case_decide; [by apply IH|].
  repeat first [ eapply within_bound_mono; [|apply IH]; simpl;
                 intros ? [-> ->]; done
               | bstep ].
Qed.

Lemma flush_snaps_ranks mdsc ci session :
  within_bound
    (fun st' => i_caps (fs_ci st') = i_caps ci ∧
                i_ceph_flags (fs_ci st') =
                  Z.land (i_ceph_flags ci) (Z.lnot CEPH_I_FLUSH_SNAPS))
    (__ceph_flush_snaps mdsc ci session).
Proof.
  unfold __ceph_flush_snaps. apply within_bound_bind.
  eapply within_bound_mono;
    [|apply (flush_snaps_assign_ranks session _ (mk_snaps mdsc ci 0 1 0))].
  intros st [Hc Hf]. simpl in *. by rewrite <- Hc, <- Hf.
Qed.

Lemma mark_caps_flushing_ranks mdsc ci session wake :
  within_bound (fun r => i_caps r.1.1.2 = i_caps ci ∧
                         i_ceph_flags r.1.1.2 = i_ceph_flags ci)
    (__mark_caps_flushing mdsc ci session wake).
Proof.
  unfold __mark_caps_flushing. cbv zeta. repeat bstep; done.
Qed.

Lemma check_one_higher e mdsc ci flags used want retain mds cap :
  within_bound (fun r => r.1 = true -> mds < Cap.mds cap)
    (check_one e mdsc ci flags used want retain mds cap).
Proof.
  unfold check_one. cbv zeta.
  destruct (bool_decide (mds >= Cap.mds cap)) eqn:Hge; simpl; [done|].
  apply bool_decide_eq_false in Hge.
  destruct (_ && _); simpl; [done|].
  apply within_bound_bind.
  eapply within_bound_mono with (P := fun _ => True).
  2:{ destruct (i_auth_cap ci); [|done]. destruct (bool_decide _); [done|].
      apply within_bound_deref. intros; done. }
  intros cu _.
  destruct (_ || _); simpl; [intros _; lia|].
  apply within_bound_bind.
  eapply within_bound_mono with (P := fun _ => True).
  { intros [|] _; simpl; intros _; lia. }
  destruct (tst want _); [|done].
  destruct (tst want _); [done|].
  destruct (__cap_is_valid e mdsc cap) eqn:Ev; simpl; [done|].
  apply cap_is_valid_fault in Ev. by subst.
Qed.

Lemma check_scan_higher e mdsc ci flags used want retain mds l : forall wb,
  within_bound (fun r => forall cap, r.1 = Some cap ->
                           (exists k, (k, cap) ∈ l) ∧ mds < Cap.mds cap)
    (check_scan e mdsc ci flags used want retain mds l wb).
Proof.
  induction l as [|[k c] l IH]; intros wb; [done|].
  cbn [check_scan]. apply within_bound_bind.
  eapply within_bound_mono; [|apply check_one_higher].
  intros [ack w] Hack. simpl in Hack. destruct ack.
  - simpl. intros cap [= <-]. split; [exists k; left|by apply Hack].
  - eapply within_bound_mono; [|apply IH].
    intros r Hr cap Hcap. destruct (Hr cap Hcap) as [[k' Hin] Hlt].
    split; [exists k'; by right|done].
Qed.

Lemma higher_ranks_fewer (D : gset Z) (c c' : Z) :
  c < c' -> c' ∈ D ->
  (size (filter (fun k : Z => (c' < k)%Z) D)
   < size (filter (fun k : Z => (c < k)%Z) D))%nat.
Proof.
  intros Hlt Hin. apply subset_size. split.
  - intros k. rewrite !elem_of_filter. intros [? ?]. split; [lia|done].
  - intros Hsub. specialize (Hsub c'). rewrite !elem_of_filter in Hsub.
    destruct Hsub as [? _]; [done|lia].
Qed.

Lemma flag_term_le f f' x :
  bits_subset f' f ->
  ((if tst f' x then 1 else 0) <= (if tst f x then 1 else 0))%nat.
Proof.
  intros Hs. destruct (tst f x) eqn:Hf; [destruct (tst f' x); lia|].
  by rewrite (tst_subset _ _ _ Hs Hf).
Qed.

Lemma check_caps_retry_ends fuel e pages_left flags : forall st,
  caps_keyed (c_ci st) ->
  tst (i_ceph_flags (c_ci st)) CEPH_I_ASYNC_CREATE = false ->
  (passes_left st <= fuel)%nat ->
  within_bound (fun _ => True) (check_caps_retry fuel e pages_left flags st).
Proof.
  induction fuel as [|fuel IH]; intros st Hkey Hasync Hfuel.
  { unfold passes_left in Hfuel. lia. }
  cbn [check_caps_retry]. cbv zeta.
  apply within_bound_bind.
  destruct (__ceph_caps_issued e (c_mdsc st) (c_ci st))
    as [[issued implemented]|] eqn:Ei; simpl;
    [|apply caps_issued_fault in Ei; by subst].
  match goal with
  | |- within_bound _ (let '(_, _) := ?c in _) => destruct c as [want retain]
  end.
  match goal with
  | |- within_bound _ (if ?c then _ else _) => destruct c eqn:Hinv
  end.
  - apply andb_true_iff in Hinv as [_ Htried].
    apply negb_true_iff in Htried.
    assert (Hnext : forall ci1 qi,
              i_caps ci1 = i_caps (c_ci st) ->
              i_ceph_flags ci1 = i_ceph_flags (c_ci st) ->
              within_bound (fun _ => True)
                (check_caps_retry fuel e pages_left flags
                   (mk_check (c_mdsc st) ci1 (c_mds st) true qi
                      (c_queue_writeback st) (c_actions st)))).
    { intros ci1 qi Hc Hf. apply IH; simpl.
      - unfold caps_keyed. by rewrite Hc.
      - by rewrite Hf.
      - unfold passes_left in *. simpl. rewrite Hc, Hf.
        rewrite Htried in Hfuel. lia. }
    unfold try_nonblocking_invalidate. cbv zeta.
    destruct (_ && _); simpl; by apply Hnext.
  - clear Hinv. apply within_bound_bind.
    eapply within_bound_mono; [|apply check_scan_higher].
    intros [found wb] Hfound. simpl in Hfound.
    destruct found as [cap|]; [|done].
    destruct (Hfound cap eq_refl) as [[k Hin] Hlt].
    apply Queries.caps_in_order_elem in Hin.
    pose proof (Hkey _ _ Hin) as Hm. subst k.
    match goal with
    | |- within_bound _ (if ?c then _ else _) => destruct c eqn:Hflags
    end.
    + apply andb_true_iff in Hflags as [_ Hflags].
      apply within_bound_bind.
      eapply within_bound_mono
        with (P := fun r => same_ranks (c_ci st) r.1 ∧
                            tst (i_ceph_flags r.1) CEPH_I_KICK_FLUSH = false).
      2:{ destruct (tst _ CEPH_I_KICK_FLUSH) eqn:Hk.
          - by apply kick_flushing_ranks.
          - simpl. split; [by apply same_ranks_refl|done]. }
      intros [ci1 acts1] [Hs1 Hk1]. simpl in Hs1, Hk1.
      apply within_bound_bind.
      eapply within_bound_mono
        with (P := fun r => same_ranks (c_ci st) r.2 ∧
                            tst (i_ceph_flags r.2)
                              (Z.lor CEPH_I_KICK_FLUSH CEPH_I_FLUSH_SNAPS)
                            = false).
      { intros [m2 ci2] [(Hk2 & Hd2 & Hf2) Hno]. simpl in Hk2, Hd2, Hf2, Hno.
        apply IH; simpl; [done| |].
        - eapply tst_subset; [exact Hf2|exact Hasync].
        - unfold passes_left in *. simpl. rewrite Hd2, Hno.
          rewrite Hflags in Hfuel. lia. }
      destruct (tst (i_ceph_flags ci1) CEPH_I_FLUSH_SNAPS) eqn:Hfs.
      * apply within_bound_bind.
        eapply within_bound_mono; [|apply flush_snaps_ranks].
        intros st' [Hc Hf]. simpl. split.
        -- eapply same_ranks_trans; [exact Hs1|].
           apply same_ranks_fields; [apply Hs1|done|].
           rewrite Hf. apply bits_subset_cleared.
        -- rewrite Hf. apply tst_lor_false; [|apply tst_cleared].
           eapply tst_subset; [apply bits_subset_cleared|exact Hk1].
      * simpl. split; [done|]. by apply tst_lor_false.
    + clear Hflags. apply within_bound_bind.
      eapply within_bound_mono with (P := fun _ => True).
      2:{ destruct (i_auth_cap (c_ci st)); [|done].
          destruct (bool_decide _); [done|].
          apply within_bound_deref. intros; done. }
      intros cap_used _.
      apply within_bound_bind.
      eapply within_bound_mono
        with (P := fun r => i_caps r.1.1.1.2 = i_caps (c_ci st) ∧
                            i_ceph_flags r.1.1.1.2 = i_ceph_flags (c_ci st)).
      2:{ match goal with
          | |- within_bound _ (if ?c then _ else _) => destruct c
          end.
          - cbv zeta. apply within_bound_bind.
            eapply within_bound_mono; [|apply mark_caps_flushing_ranks].
            intros [[[? ?] ?] ?] H'. exact H'.
          - destruct (__get_oldest_flush_tid _) eqn:Eo; simpl; [done|].
            apply oldest_flush_tid_fault in Eo. by subst. }
      intros [[[[m2 ci2] fl] ftid] old] [Hc2 Hf2]. simpl in Hc2, Hf2.
      assert (Hkey2 : caps_keyed ci2) by (unfold caps_keyed; by rewrite Hc2).
      apply within_bound_bind.
      eapply within_bound_mono; [|apply prep_cap_ranks; exact Hkey2].
      intros [ci3 w] (Hk3 & Hd3 & Hf3). simpl in Hk3, Hd3, Hf3.
      apply within_bound_deref. intros cap' _.
      apply IH; simpl; [done| |].
      * eapply tst_subset; [exact Hf3|]. by rewrite Hf2.
      * unfold passes_left in *. simpl. rewrite Hd3, Hc2.
        pose proof (higher_ranks_fewer (dom (i_caps (c_ci st))) (c_mds st)
                      (Cap.mds cap) Hlt (elem_of_dom_2 _ _ _ Hin)) as Hless.
        pose proof (flag_term_le (i_ceph_flags (c_ci st)) (i_ceph_flags ci3)
                      (Z.lor CEPH_I_KICK_FLUSH CEPH_I_FLUSH_SNAPS)) as Hfl.
        rewrite Hf2 in Hf3. specialize (Hfl Hf3). lia.
Qed.

(** The loop of [ceph_check_caps] ends: the passes it is given for an
    inode whose caps are keyed by their rank are enough, so that what it
    returns is a result or a fault of the code, never the bound on its
    passes. *)
Theorem check_caps_ends e pages_left mdsc ci flags :
  caps_keyed ci ->
  ceph_check_caps e pages_left mdsc ci flags ≠ Oops LoopBound.
Proof.
  intros Hkey. unfold ceph_check_caps.
  destruct (tst _ CEPH_I_ASYNC_CREATE) eqn:Hasync; [done|]. cbv zeta.
  pose proof (check_caps_retry_ends (2 * size (i_caps ci) + 3) e pages_left
                (if tst (i_ceph_flags ci) CEPH_I_FLUSH
                 then Z.lor flags CHECK_CAPS_FLUSH else flags)
                (mk_check mdsc ci (-1) false false false []) Hkey Hasync)
    as Hends.
  destruct (check_caps_retry _ _ _ _ _) as [st|f]; simpl; [done|].
  intros [= ->]. apply Hends; [|done].
  unfold passes_left. simpl.
  assert (Hsz : (size (filter (fun k : Z => (-1 < k)%Z) (dom (i_caps ci)))
                 <= size (i_caps ci))%nat).
  { rewrite <- size_dom. apply subseteq_size. intros k.
    rewrite elem_of_filter. by intros [_ ?]. }
  destruct (tst (i_ceph_flags ci) (Z.lor _ _)); lia.
Qed.

End with_consts.

Lemma check_caps_ends_witness :
  ceph_check_caps (H := linux_consts) Sample.env0 0 Sample.mdsc0
    idle_reader_ci 0 ≠ Oops LoopBound.
Proof.
  apply (check_caps_ends (H := linux_consts)).
  intros k c0 Hc. unfold idle_reader_ci, Sample.inode1 in Hc. simpl in Hc.
  apply lookup_insert_Some in Hc as [[<- <-]|[_ Hc]]; [done|].
  by rewrite lookup_empty in Hc.
Defined.

End CheckBound.
(** * The handler of a grant ends *)
Module GrantEnds.
Import CapsFacts GrantSteps ExportFacts Reconcile CheckBound.

Section with_consts.
Context `{!KernelConsts}.

Lemma check_caps_bound e pages_left mdsc ci flags :
  caps_keyed ci ->
  within_bound (fun _ => True) (ceph_check_caps e pages_left mdsc ci flags).
Proof.
  intros Hkey. unfold ceph_check_caps.
  destruct (tst _ CEPH_I_ASYNC_CREATE) eqn:Hasync; [done|]. cbv zeta.
  apply within_bound_bind.
  eapply within_bound_mono; [|apply check_caps_retry_ends; simpl; try done].
  { by intros st _. }
  unfold passes_left. simpl.
  assert (Hsz : (size (filter (fun k : Z => (-1 < k)%Z) (dom (i_caps ci)))
                 <= size (i_caps ci))%nat).
  { rewrite <- size_dom. apply subseteq_size. intros k.
    rewrite elem_of_filter. by intros [_ ?]. }
  destruct (tst (i_ceph_flags ci) (Z.lor _ _)); lia.
Qed.

Lemma prep_cap_bound ci mds used want retain :
  within_bound (fun _ => True) (__prep_cap ci mds used want retain).
Proof.
  unfold __prep_cap. apply within_bound_deref. intros cap _. cbv zeta.
  unfold BUG_ON. by destruct (negb _).
Qed.

Lemma kick_loop_bound e session oldest mdsc l : forall ci first_tid acts,
  within_bound (fun _ => True)
    (kick_loop e session oldest l mdsc ci first_tid acts).
Proof.
  induction l as [|cf l IH]; intros ci first_tid acts; simpl; [done|].
  apply within_bound_deref. intros c _.
  case_decide; [by apply IH|].
  destruct (i_auth_cap ci) as [a|]; [|done].
  case_decide as Ha; [|done]. subst a.
  destruct (Flush.is_capsnap c); [by apply IH|].
  apply within_bound_deref. intros cap Hcap.
  apply within_bound_bind.
  eapply within_bound_mono; [|by apply prep_cap_bound].
  intros [ci1 w] _. apply within_bound_deref. intros ? _. apply IH.
Qed.

Lemma kick_inode_bound e mdsc session ci :
  within_bound (fun _ => True)
    (ceph_kick_flushing_inode_caps e mdsc session ci).
Proof.
  unfold ceph_kick_flushing_inode_caps.
  destruct (bool_decide _); [done|].
  apply within_bound_deref. intros a _.
  apply within_bound_bind.
  destruct (move_tail_flushing _ _ _) as [ss|f] eqn:E; simpl.
  2:{ apply HandlerFacts.move_tail_flushing_fault in E. by subst. }
  apply within_bound_oldest. intros t.
  apply within_bound_bind. unfold __kick_flushing_caps.
  destruct (tst _ CEPH_I_ASYNC_CREATE); [done|]. cbv zeta.
  eapply within_bound_mono; [|apply kick_loop_bound]. by intros [? ?] _.
Qed.

(** The part of [handle_cap_grant] under [i_ceph_lock] has no loop of
    its own. *)
Lemma grant_locked_bound e mdsc ci session grant extra_issued pages_left
    layout_changed fill :
  caps_keyed ci ->
  within_bound (fun r => caps_keyed r.1.2)
    (handle_cap_grant_locked e mdsc ci session grant extra_issued pages_left
       layout_changed fill).
Proof.
  intros Hkey.
  destruct (i_caps ci !! session) as [cap|] eqn:Hcap.
  2:{ unfold handle_cap_grant_locked. by rewrite Hcap. }
  destruct (sessions mdsc !! session) as [s|] eqn:Hs.
  2:{ unfold handle_cap_grant_locked, session_of. by rewrite Hcap, Hs. }
  pose proof (grant_locked_effect e mdsc ci session grant extra_issued
                pages_left layout_changed fill cap s Hcap (Hkey _ _ Hcap) Hs)
    as Heff.
  destruct (handle_cap_grant_locked _ _ _ _ _ _ _ _ _) as [[[m c] r]|f] eqn:E.
  { simpl in *. destruct Heff as (_ & _ & _ & (cap' & Hc & Hg) & _).
    intros k c0. rewrite Hc. intros [[<- <-]|[_ Hc0]]%lookup_insert_Some.
    - destruct Hg as (-> & _). by apply Hkey.
    - by eapply Hkey. }
  simpl. clear Heff. intros ->. revert E.
  unfold handle_cap_grant_locked, session_of. rewrite Hcap, Hs.
  cbn [deref mbind res_bind]. cbv zeta.
  repeat match goal with
         | |- context [let '(_, _) := ?E in _] => destruct E
         end.
  match goal with
  | |- context [__check_cap_issue ?a ?b ?c ?d] =>
      destruct (__check_cap_issue a b c d) as [ci2|f] eqn:Echk
  end; cbn [mbind res_bind].
  2:{ intros [= ->]. revert Echk. unfold __check_cap_issue.
      destruct (__ceph_caps_issued _ _ _) as [[? ?]|f] eqn:Ei; simpl; [done|].
      apply caps_issued_fault in Ei. by subst. }
  repeat match goal with
         | |- context [let '(_, _) := ?E in _] => destruct E
         end.
  unfold BUG_ON. destruct (tst _ _); cbn [mbind res_bind]; [done|].
  repeat match goal with
         | |- context [let '(_, _) := ?E in _] => destruct E
         end.
  destruct (_ && _); cbn [mbind res_bind]; [|done].
  repeat match goal with
         | |- context [let '(_, _) := ?E in _] => destruct E
         end.
  match goal with
  | |- context [ceph_kick_flushing_inode_caps ?a ?b ?c ?d] =>
      pose proof (kick_inode_bound a b c d) as Hk;
      destruct (ceph_kick_flushing_inode_caps a b c d) as [[[? ?] ?]|f]
  end; cbn [mbind res_bind]; [done|].
  intros [= ->]. by apply Hk.
Qed.

(** [handle_cap_grant] on an inode whose caps are keyed by their rank
    does not stop at the bound on the passes of the reconciliation that
    it ends with. *)
Lemma grant_ends e mdsc ci session grant extra_issued pages_left
    layout_changed fill :
  caps_keyed ci ->
  handle_cap_grant e mdsc ci session grant extra_issued pages_left
    layout_changed fill ≠ Oops LoopBound.
Proof.
  intros Hkey. unfold handle_cap_grant.
  pose proof (grant_locked_bound e mdsc ci session grant extra_issued
                pages_left layout_changed fill Hkey) as Hl.
  destruct (handle_cap_grant_locked _ _ _ _ _ _ _ _ _) as [[[m c] r]|f];
    cbn [mbind res_bind]; [|by intros [= ->]].
  simpl in Hl. cbv zeta.
  match goal with
  | |- (?X ≫= _) ≠ _ =>
      assert (Hb : within_bound (fun _ => True) X)
  end.
  { repeat case_decide; try done; by apply check_caps_bound. }
  match goal with
  | |- (?X ≫= _) ≠ _ => destruct X as [[[? ?] ?]|f]
  end; cbn [mbind res_bind]; [done|].
  intros [= ->]. by apply Hb.
Qed.

End with_consts.
End GrantEnds.

(** * Exports *)
Module ExportEdges.
Import CapsFacts ExportFacts ImportFacts CheckBound.

Section with_consts.
Context `{!KernelConsts}.

Lemma set_pool_same mdsc : set_pool (pool mdsc) mdsc = mdsc.
Proof. by destruct mdsc. Qed.

Lemma put_cap_bound p : within_bound (fun _ => True) (Pool.ceph_put_cap p).
Proof.
  unfold Pool.ceph_put_cap. cbv zeta. unfold BUG_ON.
  by destruct (negb _).
Qed.

Lemma get_cap_bound p ctx a :
  within_bound (fun _ => True) (Pool.ceph_get_cap p ctx a).
Proof.
  unfold Pool.ceph_get_cap, Pool.take_from_list, BUG_ON. cbv zeta.
  repeat first [ bstep | case_match ]; done.
Qed.

Lemma remove_cap_bound mdsc ci mds qr :
  within_bound (fun _ => True) (__ceph_remove_cap mdsc ci mds qr).
Proof.
  unfold __ceph_remove_cap, session_of. cbv zeta.
  apply within_bound_deref. intros cap _.
  apply within_bound_deref. intros s _.
  apply within_bound_bind.
  eapply within_bound_mono with (P := fun _ => True); [done|].
  destruct (_ && _); [apply put_cap_bound|done].
Qed.

Lemma change_auth_bound mdsc ci smds :
  within_bound (fun _ => True) (change_auth_cap_ses mdsc ci smds).
Proof.
  apply within_bound_null. intros f. apply change_auth_cap_ses_fault.
Qed.

Lemma check_cap_issue_bound e mdsc ci issued :
  within_bound (fun _ => True) (__check_cap_issue e mdsc ci issued).
Proof.
  unfold __check_cap_issue. apply within_bound_bind.
  destruct (__ceph_caps_issued e mdsc ci) as [[? ?]|] eqn:E; simpl.
  - done.
  - apply caps_issued_fault in E. by subst.
Qed.

Lemma add_cap_bound e mdsc ci smds cap_id issued wanted seq mseq realmino
    flags new_cap realm :
  within_bound (fun _ => True)
    (ceph_add_cap e mdsc ci smds cap_id issued wanted seq mseq realmino flags
       new_cap realm).
Proof.
  unfold ceph_add_cap, session_of, __insert_cap_node. cbv zeta.
  apply within_bound_deref. intros s _.
  apply within_bound_bind.
  eapply within_bound_mono with (P := fun _ => True).
  2:{ destruct (__get_cap_for_mds ci smds).
      - by case_decide.
      - destruct new_cap; simpl; [|done]. by destruct (i_caps ci !! smds). }
  intros [[[[[ci1 nc] seq1] mseq1] issued1] flags1] _.
  apply within_bound_bind.
  eapply within_bound_mono with (P := fun _ => True);
    [|apply check_cap_issue_bound].
  intros ci2 _. apply within_bound_deref. intros cap _.
  apply within_bound_bind.
  eapply within_bound_mono with (P := fun _ => True);
    [by intros [[? ?] ?] _|].
  destruct (tst flags1 CEPH_CAP_FLAG_AUTH); [|done].
  apply within_bound_bind.
  eapply within_bound_mono with (P := fun _ => True).
  2:{ destruct (i_auth_cap ci2); [|done].
      apply within_bound_deref. intros; done. }
  intros [|] _; [|done].
  apply within_bound_bind.
  eapply within_bound_mono with (P := fun _ => True); [done|].
  destruct (i_auth_cap ci2); [|done].
  case_decide; [apply change_auth_bound|done].
Qed.

(** A pass of [handle_cap_export] that has the session of the target, or
    no target, does not ask for the session. *)
Lemma export_pass_done e mdsc ci mds ex_cap_id t_cap_id t_issue_seq t_mseq
    target tsession nc realm :
  within_bound (fun r => tsession = true ∨ target < 0 -> r ≠ ExportOpenTarget)
    (export_pass e mdsc ci mds ex_cap_id t_cap_id t_issue_seq t_mseq target
       tsession nc realm).
Proof.
  unfold export_pass.
  destruct (__get_cap_for_mds ci mds) as [cap|]; [|done].
  case_decide; [done|].
  assert (Hrm : forall m c,
            within_bound
              (fun r => tsession = true ∨ target < 0 -> r ≠ ExportOpenTarget)
              (__ceph_remove_cap m c mds false ≫= fun '(m', c', acts) =>
               Ok (ExportDone m' c' acts nc))).
  { intros m c. apply within_bound_bind.
    eapply within_bound_mono; [|apply remove_cap_bound].
    by intros [[? ?] ?] _. }
  case_decide as Ht; [apply Hrm|]. cbv zeta.
  destruct (__get_cap_for_mds ci target) as [tcap|].
  - apply within_bound_bind.
    eapply within_bound_mono with (P := fun _ => True).
    { intros [m c] _. apply Hrm. }
    destruct (_ && _); [|done]. cbv zeta.
    case_decide; [|done].
    apply within_bound_bind.
    eapply within_bound_mono; [|apply change_auth_bound]. done.
  - destruct tsession; [|simpl; intros [?|?]; [done|lia]].
    apply within_bound_bind.
    eapply within_bound_mono with (P := fun _ => True); [|apply add_cap_bound].
    intros [[m1 c1] nc1] _.
    apply within_bound_bind.
    eapply within_bound_mono with (P := fun _ => True).
    2:{ destruct (_ && _); [|done].
        apply within_bound_bind.
        destruct (move_tail_flushing _ _ _) eqn:E; simpl; [done|].
        apply HandlerFacts.move_tail_flushing_fault in E. by subst. }
    intros [m2 c2] _.
    apply within_bound_bind.
    eapply within_bound_mono; [|apply remove_cap_bound].
    by intros [[? ?] ?] _.
Qed.

(** The edges of [handle_cap_export].  An export of a cap that the inode
    does not have, or has under another cap id, changes nothing.  An
    export that names no target, or whose target has no cap on the inode
    while its session cannot be opened, removes the cap and leaves no
    placeholder: the caps of the other ranks are what they were.  The
    loop from [retry] ends: it is gone through twice at most. *)
Theorem export_edges e mdsc ci mds ex_cap_id ph open_target alloc_ok realm :
  let target := match ph with
                | Some ph => wrap_int (p_mds ph)
                | None => -1
                end in
  ((forall cap, i_caps ci !! mds = Some cap -> Cap.cap_id cap ≠ ex_cap_id) ->
   handle_cap_export e mdsc ci mds ex_cap_id ph open_target alloc_ok realm
   = Ok (mdsc, ci, [])) ∧
  (forall cap mdsc' ci' acts,
     i_caps ci !! mds = Some cap -> Cap.cap_id cap = ex_cap_id ->
     target < 0 ∨ (i_caps ci !! target = None ∧ open_target = None) ->
     handle_cap_export e mdsc ci mds ex_cap_id ph open_target alloc_ok realm
     = Ok (mdsc', ci', acts) ->
     i_caps ci' = delete mds (i_caps ci)) ∧
  handle_cap_export e mdsc ci mds ex_cap_id ph open_target alloc_ok realm
  ≠ Oops LoopBound.
Proof.
  intros target.
  assert (Ht : target =
               (match ph with
                | Some ph =>
                    (p_cap_id ph, p_issue_seq ph, p_mseq ph,
                     wrap_int (p_mds ph))
                | None => (0, 0, 0, -1)
                end).2) by (subst target; by destruct ph).
  clearbody target. subst target. unfold handle_cap_export.
  generalize (match ph with
              | Some ph =>
                  (p_cap_id ph, p_issue_seq ph, p_mseq ph, wrap_int (p_mds ph))
              | None => (0, 0, 0, -1)
              end).
  intros [[[t_cap_id t_issue_seq] t_mseq] target]. cbn [snd].
  split; [|split].
  - intros Hno. unfold export_pass, __get_cap_for_mds.
    destruct (i_caps ci !! mds) as [cap|] eqn:Hcap; simpl.
    + destruct (decide (Cap.cap_id cap ≠ ex_cap_id)) as [|Hn];
        [|exfalso; apply Hn; by apply Hno].
      simpl. by rewrite set_pool_same.
    + by rewrite set_pool_same.
  - intros cap mdsc' ci' acts Hcap Hid Hcase.
    assert (Hlast : forall m nc,
              export_pass e m ci mds ex_cap_id t_cap_id t_issue_seq t_mseq
                (-1) false nc realm
              = (__ceph_remove_cap m ci mds false ≫= fun '(m', c', a) =>
                 Ok (ExportDone m' c' a nc))).
    { intros m nc. unfold export_pass, __get_cap_for_mds. rewrite Hcap.
      destruct (decide (Cap.cap_id cap ≠ ex_cap_id)); [done|].
      destruct (decide (-1 < 0)); [done|lia]. }
    assert (Hdel : forall m nc r,
              (__ceph_remove_cap m ci mds false ≫= fun '(m', c', a) =>
               Ok (ExportDone m' c' a nc)) = Ok r ->
              exists m' c' a, r = ExportDone m' c' a nc ∧
                              i_caps c' = delete mds (i_caps ci)).
    { intros m nc r.
      destruct (__ceph_remove_cap m ci mds false) as [[[m1 c1] a1]|] eqn:Hrm;
        simpl; [|done].
      intros [= <-]. apply remove_cap_caps in Hrm. by exists m1, c1, a1. }
    destruct (export_pass e mdsc ci mds ex_cap_id t_cap_id t_issue_seq t_mseq
                target false false realm) as [r1|] eqn:Hr1;
      cbn [mbind res_bind]; [|done].
    destruct r1 as [m1 c1 a1 nc1|].
    + (* the first pass is the last *)
      assert (Hdone : target < 0 ->
                nc1 = false ∧ i_caps c1 = delete mds (i_caps ci)).
      { intros Hneg. revert Hr1. unfold export_pass, __get_cap_for_mds.
        rewrite Hcap.
        destruct (decide (Cap.cap_id cap ≠ ex_cap_id)); [done|].
        destruct (decide (target < 0)); [|lia].
        destruct (__ceph_remove_cap mdsc ci mds false) as [[[m2 c2] a2]|] eqn:Hrm;
          simpl; [|done].
        apply remove_cap_caps in Hrm. by intros [= <- <- <- <-]. }
      destruct Hcase as [Hneg|[Hnone ->]].
      * destruct (Hdone Hneg) as [-> Hc1]. simpl. by intros [= <- <- <-].
      * destruct (decide (target < 0)) as [Hneg|Hpos].
        -- destruct (Hdone Hneg) as [-> Hc1]. simpl. by intros [= <- <- <-].
        -- rewrite <- Hid in Hr1.
           rewrite export_first_pass in Hr1 by (done || lia). done.
    + destruct Hcase as [Hneg|[Hnone ->]].
      * exfalso. pose proof (export_pass_done e mdsc ci mds ex_cap_id t_cap_id
                               t_issue_seq t_mseq target false false realm)
          as Hp. rewrite Hr1 in Hp. simpl in Hp. apply Hp; [by right|done].
      * cbn [mbind res_bind]. rewrite Hlast.
        destruct (__ceph_remove_cap mdsc ci mds false ≫= _) as [r|] eqn:Hr;
          simpl; [|done].
        apply Hdel in Hr as (m2 & c2 & a2 & -> & Hc2). simpl.
        by intros [= <- <- <-].
  - assert (Hend : forall m (c : ceph_inode_info) (a : list action) nc,
              (p ← (if nc : bool then Pool.ceph_put_cap (pool m)
                    else Ok (pool m));
               Ok (set_pool p m, c, a)) ≠ Oops LoopBound).
    { intros m c a nc. destruct nc; simpl; [|done].
      pose proof (put_cap_bound (pool m)) as Hp.
      destruct (Pool.ceph_put_cap (pool m)); simpl; [done|].
      intros [= ->]. by apply Hp. }
    pose proof (export_pass_done e mdsc ci mds ex_cap_id t_cap_id t_issue_seq
                  t_mseq target false false realm) as Hp1.
    destruct (export_pass e mdsc ci mds ex_cap_id t_cap_id t_issue_seq t_mseq
                target false false realm) as [r|f];
      cbn [mbind res_bind]; [|intros [= ->]; by apply Hp1].
    destruct r as [m1 c1 a1 nc1|]; [apply Hend|].
    destruct open_target as [ts|].
    + cbn [mbind res_bind].
      match goal with
      | |- context [Pool.ceph_get_cap ?p None alloc_ok] =>
          pose proof (get_cap_bound p None alloc_ok) as Hg;
            destruct (Pool.ceph_get_cap p None alloc_ok)
              as [[[p1 ?] got]|f]
      end; cbn [mbind res_bind]; [|intros [= ->]; by apply Hg].
      match goal with
      | |- context [export_pass e ?m ci mds ex_cap_id t_cap_id t_issue_seq
                      t_mseq target true got realm] =>
          pose proof (export_pass_done e m ci mds ex_cap_id t_cap_id
                        t_issue_seq t_mseq target true got realm) as Hp2;
            destruct (export_pass e m ci mds ex_cap_id t_cap_id t_issue_seq
                        t_mseq target true got realm) as [r2|f]
      end; cbn [mbind res_bind]; [|intros [= ->]; by apply Hp2].
      destruct r2 as [m2 c2 a2 nc2|]; [apply Hend|].
      exfalso. apply Hp2; [by left|done].
    + cbn [mbind res_bind].
      pose proof (export_pass_done e mdsc ci mds ex_cap_id t_cap_id
                    t_issue_seq t_mseq (-1) false false realm) as Hp2.
      destruct (export_pass e mdsc ci mds ex_cap_id t_cap_id t_issue_seq
                  t_mseq (-1) false false realm) as [r2|f];
        cbn [mbind res_bind]; [|intros [= ->]; by apply Hp2].
      destruct r2 as [m2 c2 a2 nc2|]; [apply Hend|].
      exfalso. apply Hp2; [right; lia|done].
Qed.

End with_consts.

(** The export of the only cap of inode 5 to rank 2, whose session cannot
    be opened: the cap goes and nothing stands in for it. *)
Lemma export_edges_witness :
  exists mdsc' ci' acts,
    handle_cap_export (H := linux_consts) Sample.env0 Sample.mdsc0
      (Sample.inode1 5 0 (1 + 2048)) 0 10 (Some (mk_peer 11 1 0 2 0)) None
      true None = Ok (mdsc', ci', acts) ∧
    i_caps ci' = ∅.
Proof.
  destruct (handle_cap_export (H := linux_consts) Sample.env0 Sample.mdsc0
              (Sample.inode1 5 0 (1 + 2048)) 0 10 (Some (mk_peer 11 1 0 2 0))
              None true None) as [[[m c] a]|f] eqn:E;
    [|exfalso; vm_compute in E; discriminate E].
  pose proof (export_edges (H := linux_consts) Sample.env0 Sample.mdsc0
                (Sample.inode1 5 0 (1 + 2048)) 0 10
                (Some (mk_peer 11 1 0 2 0)) None true None) as Hedge.
  cbv zeta in Hedge. destruct Hedge as (_ & Hrm & _).
  exists m, c, a. split; [reflexivity|].
  rewrite (Hrm (Sample.cap0 0 (1 + 2048) (1 + 2048)) m c a eq_refl eq_refl
             (or_intror (conj eq_refl eq_refl)) E).
  unfold Sample.inode1. simpl. by rewrite delete_insert_eq, delete_empty.
Defined.

End ExportEdges.
(** * Grants with an old seq *)
Module OldGrant.
Import CapsFacts GrantSteps ExportFacts Reconcile GrantEnds.

Section with_consts.
Context `{!KernelConsts}.

(** C6, amended.  On a cap that is not stale (its generation is that of
    its session), [handle_cap_grant] of a message whose seq is not after
    the recorded seq, in the order of [ceph_seq_cmp], leaves issued every
    bit that was issued and that is held back from a reconciliation:
    PIN, the bits in use and the bits that the open files want.  When the
    message is a GRANT and no other cap of the inode is revoking a bit
    that the cap holds or is granted, the handler does not go on to
    [ceph_check_caps], and every bit that was issued is still issued.
    The reconciliation ends within the passes that the model gives it.
    The same holds of the merge in [ceph_add_cap], through which an
    import goes. *)
Theorem old_grant_keeps_issued e mdsc ci session cap s :
  caps_keyed ci ->
  i_caps ci !! session = Some cap ->
  sessions mdsc !! session = Some s ->
  ¬ Cap.cap_gen cap < s_cap_gen s ->
  (forall grant extra_issued pages_left layout_changed fill,
     ceph_seq_cmp (h_seq grant) (Cap.seq cap) <= 0 ->
     handle_cap_grant e mdsc ci session grant extra_issued pages_left
       layout_changed fill ≠ Oops LoopBound ∧
     forall mdsc' ci' acts,
       handle_cap_grant e mdsc ci session grant extra_issued pages_left
         layout_changed fill = Ok (mdsc', ci', acts) ->
       still_issued session (Z.land (Cap.issued cap) (held_back e ci')) ci' ∧
       (h_op grant = CEPH_CAP_OP_GRANT ->
        __ceph_caps_revoking_other ci session
          (Z.lor (wrap_int (h_caps grant)) (Cap.issued cap)) = false ->
        still_issued session (Cap.issued cap) ci')) ∧
  (forall cap_id issued wanted seq mseq realmino flags new_cap realm
          mdsc' ci' new_cap',
     ceph_seq_cmp seq (Cap.seq cap) <= 0 ->
     ceph_add_cap e mdsc ci session cap_id issued wanted seq mseq realmino
       flags new_cap realm = Ok (mdsc', ci', new_cap') ->
     still_issued session (Cap.issued cap) ci').
Proof.
  intros Hkey Hcap Hs Hfresh. pose proof (Hkey _ _ Hcap) as Hm. split.
  - intros grant extra_issued pages_left layout_changed fill Hseq.
    split; [by apply grant_ends|]. intros mdsc' ci' acts Hrun.
    pose proof (grant_effect e mdsc ci session grant extra_issued pages_left
                  layout_changed fill cap s Hkey Hcap Hs) as He.
    rewrite Hrun in He. cbn [if_ok fst snd] in He.
    destruct He as (_ & ci1 & cap1 & _ & Hc1 & Hg & _ & Hr & Hq).
    assert (Hnew : grant_newcaps s cap grant
                   = Z.lor (wrap_int (h_caps grant)) (Cap.issued cap)).
    { unfold grant_newcaps, grant_had.
      rewrite (bool_decide_eq_false_2 (Cap.cap_gen cap < s_cap_gen s)) by done.
      by rewrite decide_True by done. }
    destruct Hg as (Hm1 & _ & _ & _ & Hi1 & _). rewrite Hnew in Hi1.
    assert (Hsub : bits_subset (Cap.issued cap) (Cap.issued cap1))
      by (rewrite Hi1; apply bits_subset_lor).
    split.
    + destruct Hr as (_ & _ & _ & _ & Hcaps).
      destruct (Hcaps session cap1) as (cap' & Hcap' & Hless);
        [rewrite Hc1; apply lookup_insert_eq|].
      destruct Hless as (Hm' & _ & _ & _ & _ & _ & Hkeep & _).
      exists cap'. split; [done|]. split; [congruence|].
      intros n Hn. apply Hkeep. rewrite Z.land_spec in Hn |- *.
      apply andb_true_iff in Hn as [Hi Hh]. by rewrite (Hsub n Hi), Hh.
    + intros Hop Hrev.
      destruct Hq as [-> _].
      { unfold quiet_grant. rewrite Hnew. split; [done|]. split; [done|].
        split; [apply bits_subset_lor|done]. }
      exists cap1. split; [rewrite Hc1; apply lookup_insert_eq|].
      split; [congruence|done].
  - intros cap_id issued wanted seq mseq realmino flags new_cap realm
      mdsc' ci' new_cap' Hseq Hrun.
    exact (if_ok_run _ _ _
             (add_cap_keeps e mdsc ci session cap_id issued wanted seq mseq
                realmino flags new_cap realm cap s Hcap Hm Hs Hfresh Hseq) Hrun).
Qed.

End with_consts.

(** Two messages with the seq that the cap records after which a bit is
    gone.  The cap holds PIN and FILE_RD from before its session was
    renewed, and the MDS sends a grant of PIN alone: the handler resets
    the stale cap to PIN before it merges, and FILE_RD is gone.  The cap
    holds PIN and FILE_WR on a file that nothing uses or wants, and the
    MDS sends a revoke down to PIN: the merge keeps FILE_WR, and the
    reconciliation that ends the handler gives it back. *)
Lemma stale_grant_loses_bits :
  ¬ grant_keeps_issued_as_stated (H := linux_consts) Sample.env0 stale_mdsc
      (Sample.inode1 5 0 (1 + 2048)) 0
      (Sample.head0 CEPH_CAP_OP_GRANT 5 1 1) 0 0 false Sample.fill0 ∧
  ¬ grant_keeps_issued_as_stated (H := linux_consts) Sample.env0 Sample.mdsc0
      idle_writer_ci 0
      (Sample.head0 CEPH_CAP_OP_REVOKE 5 1 1) 0 0 false Sample.fill0.
Proof.
  split; intros Hclaim.
  - destruct (handle_cap_grant (H := linux_consts) Sample.env0 stale_mdsc
                (Sample.inode1 5 0 (1 + 2048)) 0
                (Sample.head0 CEPH_CAP_OP_GRANT 5 1 1) 0 0 false Sample.fill0)
      as [[[m c] r]|f] eqn:E; [|vm_compute in E; discriminate E].
    destruct (Hclaim (Sample.cap0 0 (1 + 2048) (1 + 2048)) m c r)
      as (cap' & Hl & _ & Hb).
    + reflexivity.
    + vm_compute. discriminate.
    + exact E.
    + vm_compute in E. injection E as <- <- <-.
      vm_compute in Hl. injection Hl as <-.
      specialize (Hb 11 eq_refl). vm_compute in Hb. discriminate Hb.
  - destruct (handle_cap_grant (H := linux_consts) Sample.env0 Sample.mdsc0
                idle_writer_ci 0
                (Sample.head0 CEPH_CAP_OP_REVOKE 5 1 1) 0 0 false Sample.fill0)
      as [[[m c] r]|f] eqn:E; [|vm_compute in E; discriminate E].
    destruct (Hclaim (Sample.cap0 0 (1 + 4096) (1 + 4096)) m c r)
      as (cap' & Hl & _ & Hb).
    + reflexivity.
    + vm_compute. discriminate.
    + exact E.
    + vm_compute in E. injection E as <- <- <-.
      vm_compute in Hl. injection Hl as <-.
      specialize (Hb 12 eq_refl). vm_compute in Hb. discriminate Hb.
Qed.

Lemma old_grant_keeps_issued_witness :
  exists mdsc' ci' acts,
    handle_cap_grant (H := linux_consts) Sample.env0 Sample.mdsc0
      (Sample.inode1 5 0 (1 + 2048)) 0
      (Sample.head0 CEPH_CAP_OP_GRANT 5 1 1) 0 0 false Sample.fill0
    = Ok (mdsc', ci', acts) ∧
    still_issued 0 (1 + 2048) ci'.
Proof.
  destruct (handle_cap_grant (H := linux_consts) Sample.env0 Sample.mdsc0
              (Sample.inode1 5 0 (1 + 2048)) 0
              (Sample.head0 CEPH_CAP_OP_GRANT 5 1 1) 0 0 false Sample.fill0)
    as [[[m c] a]|f] eqn:E; [|exfalso; vm_compute in E; discriminate E].
  exists m, c, a. split; [reflexivity|].
  assert (Hkey : caps_keyed (Sample.inode1 5 0 (1 + 2048))).
  { intros k c0 Hc0. unfold Sample.inode1 in Hc0. simpl in Hc0.
    apply lookup_insert_Some in Hc0 as [[<- <-]|[_ Hc0]]; [reflexivity|].
    by rewrite lookup_empty in Hc0. }
  assert (Hfresh : ¬ Cap.cap_gen (Sample.cap0 0 (1 + 2048) (1 + 2048))
                     < s_cap_gen Sample.session0) by (simpl; lia).
  destruct (old_grant_keeps_issued (H := linux_consts) Sample.env0 Sample.mdsc0
              (Sample.inode1 5 0 (1 + 2048)) 0
              (Sample.cap0 0 (1 + 2048) (1 + 2048)) Sample.session0
              Hkey eq_refl eq_refl Hfresh) as [Hgrant _].
  destruct (Hgrant (Sample.head0 CEPH_CAP_OP_GRANT 5 1 1) 0 0 false
              Sample.fill0) as [_ Hok]; [vm_compute; discriminate|].
  destruct (Hok m c a E) as [_ Hall].
  apply Hall; reflexivity.
Defined.

End OldGrant.
(** * Writes beyond the max size *)
Module MaxSize.
Import CapsFacts GrantSteps ExportFacts Reconcile GrantEnds.

Section with_consts.
Context `{!KernelConsts}.

(** A pending truncation is finished before anything else is looked
    at. *)
Lemma get_after_truncate e mdsc ci need want endoff flags got trylock :
  tst flags CHECK_FILELOCK = false ->
  try_get_cap_refs e mdsc ci need want endoff flags got trylock
  = try_get_cap_refs e mdsc (truncation_done ci) need want endoff flags got
      trylock.
Proof.
  intros Hlock. unfold truncation_done.
  destruct (decide (i_truncate_pending ci ≠ 0)) as [Hp|Hp]; [|done].
  unfold try_get_cap_refs. f_equal. unfold try_get_cap_refs_pass.
  rewrite Hlock. cbn [andb].
  rewrite (decide_True (P := i_truncate_pending ci ≠ 0)) by done.
  change (i_truncate_pending (set_i_truncate_pending 0 ci)) with 0.
  rewrite (decide_False (P := 0 ≠ 0)) by (by intros ?). done.
Qed.

(** An end offset beyond [i_max_size], with FILE_WR held and needed. *)
Lemma beyond_max_size e mdsc ci need want endoff flags got trylock have impl :
  tst flags CHECK_FILELOCK = false ->
  __ceph_caps_issued e mdsc ci = Ok (have, impl) ->
  tst (Z.land have need) CEPH_CAP_FILE_WR = true ->
  0 <= endoff -> endoff > wrap_s64 (i_max_size ci) ->
  try_get_cap_refs e mdsc ci need want endoff flags got trylock
    = Ok (__ceph_touch_fmode e (truncation_done ci) flags,
          beyond_max_size_ret ci endoff, got).
Proof.
  intros Hlock Hissued Hwr Hoff Hmax. rewrite get_after_truncate by done.
  assert (Ht : i_truncate_pending (truncation_done ci) = 0).
  { unfold truncation_done. destruct (decide _) as [?|Hn]; [done|].
    by apply dec_stable. }
  assert (Hi : __ceph_caps_issued e mdsc (truncation_done ci) = Ok (have, impl)).
  { unfold truncation_done. by destruct (decide _). }
  assert (Hf : i_max_size (truncation_done ci) = i_max_size ci ∧
               i_requested_max_size (truncation_done ci)
               = i_requested_max_size ci ∧
               i_auth_cap (truncation_done ci) = i_auth_cap ci).
  { unfold truncation_done. by destruct (decide _). }
  destruct Hf as (Hf1 & Hf2 & Hf3).
  generalize dependent (truncation_done ci). intros c Ht Hi Hf1 Hf2 Hf3.
  unfold try_get_cap_refs, try_get_cap_refs_pass, beyond_max_size_ret.
  rewrite Hlock. rewrite Ht. simpl. rewrite Hi. simpl.
  rewrite Hwr. rewrite (bool_decide_eq_true_2 (endoff >= 0)) by lia.
  rewrite Hf1, Hf2, Hf3.
  rewrite (bool_decide_eq_true_2 (endoff > wrap_s64 (i_max_size ci))) by lia.
  simpl. by destruct (decide (endoff > i_requested_max_size ci)).
Qed.

Lemma take_cap_refs_ok ci got :
  i_head_snapc ci ≠ None ∨ i_snap_realm ci ≠ None ->
  exists ci', ceph_take_cap_refs ci got true = Ok ci'.
Proof.
  intros Hh. unfold ceph_take_cap_refs. cbv zeta.
  assert (Hwr : forall c : ceph_inode_info,
             i_head_snapc c = i_head_snapc ci ->
             i_snap_realm c = i_snap_realm ci ->
             exists c',
               (if bool_decide (i_wr_ref c = 0) && bool_decide (i_head_snapc c = None)
                then _ ← BUG_ON (negb true) SnapRwsemUnlocked;
                     r ← deref (i_snap_realm c);
                     Ok (set_i_head_snapc (cached_context r) c)
                else Ok c) = Ok c').
  { intros c Hc1 Hc2. destruct (_ && _) eqn:Hcond; [|eauto].
    apply andb_true_iff in Hcond as [_ Hnone%bool_decide_eq_true].
    rewrite Hc1 in Hnone. destruct Hh as [Hh|Hh]; [done|].
    rewrite Hc2. destruct (i_snap_realm ci); [simpl; eauto|done]. }
  repeat match goal with
         | |- context [if tst got ?c then _ else _] => destruct (tst got c)
         end;
    try (match goal with
         | |- context [bool_decide (i_wr_ref ?c = 0)] =>
             destruct (Hwr c) as [c' ->]; [done|done|]
         end);
    cbn [mbind res_bind]; eauto.
Qed.

Lemma wrap_s64_small z : 0 <= z < 2 ^ 63 -> wrap_s64 z = z.
Proof.
  intros Hz. unfold wrap_s64.
  change (2 ^ 63) with 9223372036854775808 in *.
  change (2 ^ 64) with 18446744073709551616.
  rewrite Z.mod_small by lia. lia.
Qed.

(** With the needed caps issued by a valid auth cap, no truncation
    pending and an end offset within [i_max_size], the attempt
    succeeds. *)
Lemma get_succeeds_now e mdsc ci session cap s need want endoff flags got
    trylock :
  caps_have_sessions mdsc ci ->
  i_caps ci !! session = Some cap -> Cap.mds cap = session ->
  i_auth_cap ci = Some session -> sessions mdsc !! session = Some s ->
  Cap.cap_gen cap = s_cap_gen s ->
  time_after_eq (jiffies e) (s_cap_ttl s) = false ->
  bits_subset need (Cap.issued cap) -> bits_subset want (Cap.issued cap) ->
  tst flags CHECK_FILELOCK = false -> i_truncate_pending ci = 0 ->
  __ceph_have_pending_cap_snap ci = false ->
  i_head_snapc ci ≠ None ∨ (trylock = true ∧ i_snap_realm ci ≠ None) ->
  0 <= i_max_size ci < 2 ^ 63 -> endoff <= i_max_size ci ->
  exists ci' got',
    try_get_cap_refs e mdsc ci need want endoff flags got trylock
      = Ok (ci', 1, got').
Proof.
  intros Hsess Hcap Hm Hauth Hs Hgen Httl Hsub Hsubw Hlock Htrunc Hpend Hhead
    Hmax Hoff.
  destruct (fold_issued e mdsc (i_snap_caps ci) 0 (i_caps ci) Hsess)
    as (have0 & impl0 & Hfold & Hbits).
  assert (Hvalid : cap_valid_b e (sessions mdsc) cap = true).
  { unfold cap_valid_b. rewrite Hm, Hs, Hgen, Httl.
    by rewrite bool_decide_eq_false_2 by lia. }
  set (have := Z.land have0 (Z.lor (Z.lnot (Cap.implemented cap)) (Cap.issued cap))).
  assert (Hissued : __ceph_caps_issued e mdsc ci = Ok (have, impl0)).
  { unfold __ceph_caps_issued. rewrite Hfold. simpl. by rewrite Hauth, Hcap. }
  assert (Hcover : forall a, bits_subset a (Cap.issued cap) -> Z.land have a = a).
  { intros a Ha. apply Z.bits_inj'. intros n Hn. unfold have.
    rewrite !Z.land_spec, Z.lor_spec, Z.lnot_spec by done.
    destruct (Z.testbit a n) eqn:Hbit; [|by rewrite andb_false_r].
    rewrite (Ha n Hbit). rewrite orb_true_r, !andb_true_r.
    apply Hbits; [done|]. right. exists session, cap. split; [done|].
    split; [done|]. by apply Ha. }
  pose proof (Hcover need Hsub) as Hhn.
  pose proof (Hcover want Hsubw) as Hhw.
  assert (Hex : Z.land (Z.land impl0 (Z.lnot have))
                  (Z.land want (Z.lnot (Z.land have need))) = 0).
  { apply Z.bits_inj'. intros n Hn.
    pose proof (f_equal (fun z => Z.testbit z n) Hhw) as Hb. simpl in Hb.
    rewrite Z.land_spec in Hb.
    rewrite !Z.land_spec, !Z.lnot_spec, Z.bits_0 by done.
    rewrite Z.land_spec.
    destruct (Z.testbit have n), (Z.testbit want n), (Z.testbit impl0 n),
      (Z.testbit need n); simpl in *; congruence. }
  assert (Hyes : forall (P : Prop) (B : Type) (d : Decision P) (x y : B),
             P -> (if d then x else y) = x).
  { intros P B [Hy|Hn] x y HP; [done|by exfalso]. }
  unfold try_get_cap_refs, try_get_cap_refs_pass.
  rewrite Hlock. cbn [andb]. rewrite Htrunc.
  assert (Hd : forall (B : Type) (d : Decision (0 ≠ 0)) (x y : B),
            (if d then x else y) = y).
  { intros B [Hn|Hn] x y; [by exfalso; apply Hn|done]. }
  rewrite !Hd. clear Hd.
  cbv beta iota zeta. rewrite Hissued. cbn [mbind res_bind].
  cbv beta iota zeta.
  rewrite (bool_decide_eq_false_2 (endoff > wrap_s64 (i_max_size ci)))
    by (rewrite wrap_s64_small by done; lia).
  rewrite andb_false_r. rewrite Hpend, andb_false_r.
  rewrite !Hyes by done.
  rewrite Hex.
  rewrite (bool_decide_eq_true_2 (0 = 0)) by done. cbn [orb].
  assert (Hnolock : bool_decide (i_head_snapc ci = None) &&
                    tst need CEPH_CAP_FILE_WR && negb trylock = false).
  { destruct Hhead as [Hh|[-> _]].
    - by rewrite (bool_decide_eq_false_2 (i_head_snapc ci = None)) by done.
    - apply andb_false_r. }
  cbn [negb andb]. rewrite Hnolock.
  destruct (take_cap_refs_ok ci (Z.lor need (Z.land want (Z.lnot 0))))
    as [ci' Htake]; [destruct Hhead as [?|[_ ?]]; auto|].
  rewrite Htake. cbn [mbind res_bind]. eauto.
Qed.

(** The same, whether or not a truncation is pending. *)
Lemma get_succeeds e mdsc ci session cap s need want endoff flags got trylock :
  caps_have_sessions mdsc ci ->
  i_caps ci !! session = Some cap -> Cap.mds cap = session ->
  i_auth_cap ci = Some session -> sessions mdsc !! session = Some s ->
  Cap.cap_gen cap = s_cap_gen s ->
  time_after_eq (jiffies e) (s_cap_ttl s) = false ->
  bits_subset need (Cap.issued cap) -> bits_subset want (Cap.issued cap) ->
  tst flags CHECK_FILELOCK = false ->
  __ceph_have_pending_cap_snap ci = false ->
  i_head_snapc ci ≠ None ∨ (trylock = true ∧ i_snap_realm ci ≠ None) ->
  0 <= i_max_size ci < 2 ^ 63 -> endoff <= i_max_size ci ->
  exists ci' got',
    try_get_cap_refs e mdsc ci need want endoff flags got trylock
      = Ok (ci', 1, got').
Proof.
  intros Hsess Hcap Hm Hauth Hs Hgen Httl Hsub Hsubw Hlock Hpend Hhead
    Hmax Hoff.
  rewrite get_after_truncate by done.
  apply (get_succeeds_now e mdsc (truncation_done ci) session cap s);
    try done; unfold truncation_done; destruct (decide _) as [?|Hn]; try done.
  by apply dec_stable.
Qed.

Lemma touch_fmode_untouched e ci flags :
  i_caps (__ceph_touch_fmode e (truncation_done ci) flags) = i_caps ci ∧
  i_auth_cap (__ceph_touch_fmode e (truncation_done ci) flags) = i_auth_cap ci ∧
  i_cap_snaps (__ceph_touch_fmode e (truncation_done ci) flags)
  = i_cap_snaps ci ∧
  i_head_snapc (__ceph_touch_fmode e (truncation_done ci) flags)
  = i_head_snapc ci ∧
  i_snap_realm (__ceph_touch_fmode e (truncation_done ci) flags)
  = i_snap_realm ci.
Proof.
  unfold __ceph_touch_fmode, truncation_done. cbv zeta.
  by repeat case_match.
Qed.

(** C8 (amended).  A write-cap acquisition that does not check for
    file-lock errors, on an inode whose auth cap is valid, with FILE_WR
    needed and issued and an end offset beyond [i_max_size], returns 0
    (not acquired yet) when the offset is within [i_requested_max_size],
    and the need-larger-max-size code [-EFBIG] only when the offset is
    beyond [i_requested_max_size] as well.  Once [handle_cap_grant] has
    then handled a message for the auth cap that carries the needed and
    the wanted caps, a file write cap among them, and a max size that
    covers the offset, the attempt with the same arguments returns 1,
    provided that the needed and the wanted caps are caps that the open
    files of the inode want, so that the reconciliation at the end of the
    handler does not give them back, that no cap snap is pending and that
    the head snap context is at hand or [snap_rwsem] can be taken.  That
    reconciliation ends within the passes that the model gives it. *)
Theorem beyond_max_size_then_retry e mdsc ci session cap s need want endoff
    flags got trylock have impl :
  caps_keyed ci -> caps_have_sessions mdsc ci ->
  i_caps ci !! session = Some cap ->
  i_auth_cap ci = Some session -> sessions mdsc !! session = Some s ->
  time_after_eq (jiffies e) (s_cap_ttl s) = false ->
  tst flags CHECK_FILELOCK = false ->
  __ceph_have_pending_cap_snap ci = false ->
  i_head_snapc ci ≠ None ∨ (trylock = true ∧ i_snap_realm ci ≠ None) ->
  __ceph_caps_issued e mdsc ci = Ok (have, impl) ->
  tst (Z.land have need) CEPH_CAP_FILE_WR = true ->
  0 <= endoff -> endoff > wrap_s64 (i_max_size ci) ->
  exists ci1,
    try_get_cap_refs e mdsc ci need want endoff flags got trylock
      = Ok (ci1,
            (if decide (endoff > i_requested_max_size ci) then - EFBIG else 0),
            got) ∧
    forall grant extra_issued pages_left layout_changed fill,
      bits_subset need (wrap_int (h_caps grant)) ->
      bits_subset want (wrap_int (h_caps grant)) ->
      tst (wrap_int (h_caps grant)) CEPH_CAP_ANY_FILE_WR = true ->
      endoff <= h_max_size grant < 2 ^ 63 ->
      bits_subset (Z.lor need want)
        (Z.lor (__ceph_caps_file_wanted e ci1) CEPH_CAP_PIN) ->
      handle_cap_grant e mdsc ci1 session grant extra_issued pages_left
        layout_changed fill ≠ Oops LoopBound ∧
      forall mdsc2 ci2 acts,
        handle_cap_grant e mdsc ci1 session grant extra_issued pages_left
          layout_changed fill = Ok (mdsc2, ci2, acts) ->
        exists ci3 got',
          try_get_cap_refs e mdsc2 ci2 need want endoff flags got trylock
            = Ok (ci3, 1, got').
Proof.
  intros Hkey Hsess Hcap Hauth Hs Httl Hlock Hpend Hhead Hissued Hwr
    Hoff Hbeyond.
  pose proof (Hkey _ _ Hcap) as Hm.
  exists (__ceph_touch_fmode e (truncation_done ci) flags). split.
  { rewrite (beyond_max_size e mdsc ci need want endoff flags got trylock
               have impl) by done.
    unfold beyond_max_size_ret. by rewrite Hauth. }
  intros grant extra_issued pages_left layout_changed fill
    Hsubn Hsubw Hanywr Hmax Hwanted.
  destruct (touch_fmode_untouched e ci flags) as (Hc0 & Ha0 & Hs0 & Hh0 & Hr0).
  set (ci1 := __ceph_touch_fmode e (truncation_done ci) flags) in *.
  assert (Hkey1 : caps_keyed ci1) by (unfold caps_keyed; by rewrite Hc0).
  split; [by apply grant_ends|]. intros mdsc2 ci2 acts Hgrant.
  pose proof (grant_effect e mdsc ci1 session grant extra_issued pages_left
                layout_changed fill cap s Hkey1) as Hg.
  rewrite Hgrant in Hg. cbn [if_ok fst snd] in Hg.
  destruct Hg as (Hss & cm & cap1 & Hfm & Hcm & Hgr & Hmaxm & Hrec & _);
    [by rewrite Hc0|done|].
  destruct Hgr as (Hm1 & _ & Hgen1 & _ & Hi1 & _).
  assert (Hnew : bits_subset (wrap_int (h_caps grant)) (grant_newcaps s cap grant)).
  { unfold grant_newcaps. destruct (decide _); [apply bits_subset_lor_l|].
    by intros ?. }
  assert (Hwr1 : tst (grant_newcaps s cap grant) CEPH_CAP_ANY_FILE_WR = true).
  { unfold grant_newcaps. destruct (decide _); [by apply tst_lor_l|done]. }
  specialize (Hmaxm ltac:(by rewrite Ha0) Hwr1).
  pose proof Hrec as Hrec0.
  destruct Hrec as (Hdom & Hf2 & Hmax2 & _ & Hcaps2).
  destruct (Hcaps2 session cap1) as (cap2 & Hcap2 & Hless);
    [rewrite Hcm; apply lookup_insert_eq|].
  destruct Hless as (Hm2 & _ & _ & _ & _ & Hgen2 & Hkeep & _).
  pose proof (caps_frame_trans _ _ _ Hfm Hf2) as Hf.
  pose proof (file_wanted_frame e _ _ Hf) as Hfw.
  destruct Hf as (_ & _ & Hfa & _ & Hfs & Hfh & Hfr & _).
  pose proof (Hss session) as Hview. rewrite Hs in Hview.
  destruct (sessions mdsc2 !! session) as [s2|] eqn:Hs2; [|done].
  injection Hview as Hgen_s Httl_s.
  assert (Hheld : forall a, bits_subset a (Z.lor need want) ->
                            bits_subset a (Cap.issued cap2)).
  { intros a Ha n Hn. apply Hkeep. rewrite Z.land_spec.
    apply andb_true_iff. split.
    - rewrite Hi1. apply Hnew.
      pose proof (Ha n Hn) as Hnw. rewrite Z.lor_spec in Hnw.
      apply orb_true_iff in Hnw as [?|?]; [by apply Hsubn|by apply Hsubw].
    - unfold held_back. rewrite Hfw.
      pose proof (Hwanted n (Ha n Hn)) as Hw.
      destruct (Z.neg_nonneg_cases n) as [Hneg|Hpos].
      { rewrite Z.testbit_neg_r in Hn by done. discriminate Hn. }
      rewrite !Z.lor_spec in Hw |- *.
      apply orb_true_iff in Hw as [Hw|Hw]; [by rewrite Hw|].
      rewrite Z.lor_spec, Hw. by rewrite !orb_true_r. }
  apply (get_succeeds e mdsc2 ci2 session cap2 s2).
  - intros k c Hc.
    assert (Hin : k ∈ dom (i_caps ci)).
    { assert (Hk : k ∈ dom (i_caps ci2)) by (by eapply elem_of_dom_2).
      rewrite Hdom, Hcm, dom_insert_L, Hc0 in Hk.
      apply elem_of_union in Hk as [Hk|Hk]; [|done].
      apply elem_of_singleton in Hk as ->. by eapply elem_of_dom_2. }
    apply elem_of_dom in Hin as [c0 Hc0'].
    assert (Hmc : Cap.mds c = k).
    { eapply (reconciled_keyed e cm ci2); [|exact Hrec0|exact Hc].
      intros k' c'. rewrite Hcm, Hc0. rewrite lookup_insert_Some.
      intros [[<- <-]|[_ Hc']]; [congruence|by eapply Hkey]. }
    rewrite Hmc. destruct (Hsess k c0 Hc0') as [s0 Hs0'].
    rewrite (Hkey _ _ Hc0') in Hs0'.
    pose proof (Hss k) as Hv. rewrite Hs0' in Hv.
    destruct (sessions mdsc2 !! k); [by eexists|done].
  - exact Hcap2.
  - congruence.
  - congruence.
  - exact Hs2.
  - congruence.
  - by rewrite Httl_s.
  - apply Hheld, bits_subset_lor_l.
  - apply Hheld. intros n Hn.
    destruct (Z.neg_nonneg_cases n) as [Hneg|Hpos].
    { rewrite Z.testbit_neg_r in Hn by done. discriminate Hn. }
    rewrite Z.lor_spec, Hn. apply orb_true_r.
  - done.
  - unfold __ceph_have_pending_cap_snap in *. by rewrite Hfs, Hs0.
  - rewrite Hfh, Hh0, Hfr, Hr0. done.
  - rewrite Hmax2, Hmaxm. lia.
  - rewrite Hmax2, Hmaxm. lia.
Qed.

End with_consts.
End MaxSize.

Module MaxSizeRuns.
Import GrantSteps MaxSize.

(** C8 as stated does not hold.  Asking for 150 bytes with a max size of
    100 and 200 already requested returns 0, not [-EFBIG].  And on a file
    that no open file wants, the handler of the grant that raises the max
    size to 300 and takes FILE_BUFFER back gives FILE_WR back to the MDS
    as well, so that the same attempt then returns [-EUCLEAN]. *)
Lemma within_requested_returns_zero :
  ¬ need_larger_as_stated (H := linux_consts) Sample.env0 Sample.mdsc0
      writer_ci 4096 4096 150 0 0 true ∧
  ¬ retry_as_stated (H := linux_consts) Sample.env0 Sample.mdsc0
      unwanted_writer_ci 0 4096 4096 150 0 0 true raise_grant 0 0 false
      Sample.fill0.
Proof.
  split.
  - intros Hs.
    destruct (Hs 4097 4097) as (ci' & got' & Hrun).
    + reflexivity.
    + reflexivity.
    + vm_compute. discriminate.
    + reflexivity.
    + vm_compute. discriminate.
    + vm_compute in Hrun. congruence.
  - intros Hs.
    destruct (try_get_cap_refs (H := linux_consts) Sample.env0 Sample.mdsc0
                unwanted_writer_ci 4096 4096 150 0 0 true)
      as [[[ci1 ret] got1]|f] eqn:E1; [|vm_compute in E1; discriminate E1].
    assert (Hci1 : ci1 = __ceph_touch_fmode (H := linux_consts) Sample.env0
                           unwanted_writer_ci 0).
    { vm_compute in E1. injection E1 as <- _ _. reflexivity. }
    destruct (handle_cap_grant (H := linux_consts) Sample.env0 Sample.mdsc0
                ci1 0 raise_grant 0 0 false Sample.fill0)
      as [[[mdsc2 ci2] acts]|f] eqn:E2;
      [|rewrite Hci1 in E2; vm_compute in E2; discriminate E2].
    destruct (Hs ci1 ret got1 mdsc2 ci2 acts) as (ci3 & got' & Hrun).
    + vm_compute. discriminate.
    + reflexivity.
    + vm_compute. discriminate.
    + exact E1.
    + vm_compute. discriminate.
    + exact E2.
    + rewrite Hci1 in E2. vm_compute in E2. injection E2 as <- <- _.
      vm_compute in Hrun. congruence.
Qed.

Lemma beyond_max_size_then_retry_witness :
  exists ci1 r ci3 got',
    try_get_cap_refs (H := linux_consts) Sample.env0 Sample.mdsc0 writer_ci
      4096 4096 150 256 0 true = Ok (ci1, 0, 0) ∧
    handle_cap_grant (H := linux_consts) Sample.env0 Sample.mdsc0 ci1 0
      raise_grant 0 0 false Sample.fill0 = Ok r ∧
    try_get_cap_refs (H := linux_consts) Sample.env0 r.1.1 r.1.2
      4096 4096 150 256 0 true = Ok (ci3, 1, got').
Proof.
  destruct (beyond_max_size_then_retry (H := linux_consts) Sample.env0
              Sample.mdsc0 writer_ci 0 (Sample.cap0 0 (1 + 4096) (1 + 4096))
              Sample.session0 4096 4096 150 256 0 true 4097 4097)
    as (ci1 & H1 & H2).
  - intros k c0 Hc0. unfold writer_ci, Sample.inode1 in Hc0. simpl in Hc0.
    apply lookup_insert_Some in Hc0 as [[<- <-]|[_ Hc0]]; [reflexivity|].
    by rewrite lookup_empty in Hc0.
  - intros k c0 Hc0. unfold writer_ci, Sample.inode1 in Hc0. simpl in Hc0.
    apply lookup_insert_Some in Hc0 as [[<- <-]|[_ Hc0]]; [by eexists|].
    by rewrite lookup_empty in Hc0.
  - reflexivity.
  - reflexivity.
  - reflexivity.
  - reflexivity.
  - reflexivity.
  - reflexivity.
  - left. discriminate.
  - reflexivity.
  - reflexivity.
  - vm_compute. discriminate.
  - reflexivity.
  - assert (Hci1 : ci1 = __ceph_touch_fmode (H := linux_consts) Sample.env0
                           writer_ci 256).
    { vm_compute in H1. injection H1 as <-. reflexivity. }
    destruct (handle_cap_grant (H := linux_consts) Sample.env0 Sample.mdsc0
                ci1 0 raise_grant 0 0 false Sample.fill0)
      as [[[mdsc2 ci2] acts]|f] eqn:E;
      [|exfalso; rewrite Hci1 in E; vm_compute in E; discriminate E].
    destruct (H2 raise_grant 0 0 false Sample.fill0) as [_ Hok].
    + apply bits_subset_of_land. reflexivity.
    + apply bits_subset_of_land. reflexivity.
    + reflexivity.
    + vm_compute. split; [discriminate|reflexivity].
    + rewrite Hci1. apply bits_subset_of_land. reflexivity.
    + destruct (Hok mdsc2 ci2 acts E) as (ci3 & got' & H3).
      exists ci1, (mdsc2, ci2, acts), ci3, got'.
      split; [exact H1|]. split; [exact E|exact H3].
Defined.

End MaxSizeRuns.
(** * What a grant does to the cap *)
Module Grant.
Import CapsFacts GrantSteps ExportFacts Reconcile GrantEnds.

Section with_consts.
Context `{!KernelConsts}.

(** A GRANT or REVOKE of a sequence number later than the one of the cap
    leaves the cap with the sequence number of the message and the
    generation of the session.  Its issued bits are bits of the message,
    and among them are all the bits of the message that the inode uses
    or its open files want, and the pin: the reconciliation that
    [handle_cap_grant] may end with gives back nothing else.  Its
    implemented bits are bits of the message or bits that were
    implemented before, where a cap of an older generation than its
    session starts again from [CEPH_CAP_PIN].  When the message is a
    GRANT for a cap that is not stale, takes no issued bit away and
    grants no bit that another cap is revoking, there is no
    reconciliation: the issued bits are exactly the bits of the message,
    the implemented bits the old ones and those of the message, and the
    other caps and the client are as they were.  The reconciliation ends
    within the passes that the model gives it. *)
Theorem grant_sets_issued e mdsc ci session grant extra_issued pages_left
    layout_changed fill cap s :
  caps_keyed ci ->
  i_caps ci !! session = Some cap ->
  sessions mdsc !! session = Some s ->
  ceph_seq_cmp (h_seq grant) (Cap.seq cap) > 0 ->
  h_op grant ≠ CEPH_CAP_OP_IMPORT ->
  handle_cap_grant e mdsc ci session grant extra_issued pages_left
    layout_changed fill ≠ Oops LoopBound ∧
  forall mdsc' ci' acts,
  handle_cap_grant e mdsc ci session grant extra_issued pages_left
    layout_changed fill = Ok (mdsc', ci', acts) ->
  exists cap',
    i_caps ci' !! session = Some cap' ∧
    Cap.mds cap' = session ∧ Cap.cap_id cap' = Cap.cap_id cap ∧
    Cap.seq cap' = h_seq grant ∧ Cap.cap_gen cap' = s_cap_gen s ∧
    bits_subset (Cap.issued cap') (wrap_int (h_caps grant)) ∧
    bits_subset (Z.land (wrap_int (h_caps grant)) (held_back e ci'))
      (Cap.issued cap') ∧
    bits_subset (Cap.implemented cap')
      (Z.lor (if bool_decide (Cap.cap_gen cap < s_cap_gen s)
              then CEPH_CAP_PIN else Cap.implemented cap)
         (wrap_int (h_caps grant))) ∧
    (h_op grant = CEPH_CAP_OP_GRANT -> ¬ Cap.cap_gen cap < s_cap_gen s ->
     bits_subset (Cap.issued cap) (wrap_int (h_caps grant)) ->
     __ceph_caps_revoking_other ci session (wrap_int (h_caps grant)) = false ->
     mdsc' = mdsc ∧
     i_caps ci' = <[session := cap']> (i_caps ci) ∧
     Cap.issued cap' = wrap_int (h_caps grant) ∧
     Cap.implemented cap' =
       Z.lor (Cap.implemented cap) (wrap_int (h_caps grant))).
Proof.
  intros Hkey Hcap Hs Hseq Hop. split; [by apply grant_ends|].
  intros mdsc' ci' acts Hrun.
  pose proof (grant_effect e mdsc ci session grant extra_issued pages_left
                layout_changed fill cap s Hkey Hcap Hs) as Hg.
  rewrite Hrun in Hg. cbn [if_ok fst snd] in Hg.
  destruct Hg as (_ & ci1 & cap1 & _ & Hc1 & Hgr & _ & Hrec & Hquiet).
  assert (Hnew : grant_newcaps s cap grant = wrap_int (h_caps grant)).
  { unfold grant_newcaps. by rewrite decide_False by lia. }
  assert (Hhad : (grant_had s cap).2 =
                 (if bool_decide (Cap.cap_gen cap < s_cap_gen s)
                  then CEPH_CAP_PIN else Cap.implemented cap)).
  { unfold grant_had. by destruct (bool_decide _). }
  unfold granted in Hgr. rewrite Hnew, Hhad in Hgr.
  destruct Hgr as (Hm1 & Hid1 & Hgen1 & Hseq1 & Hi1 & Himp1 & Himp1').
  rewrite decide_False in Hseq1 by lia.
  destruct Hrec as (_ & _ & _ & _ & Hcaps).
  destruct (Hcaps session cap1) as (cap' & Hcap' & Hless);
    [rewrite Hc1; apply lookup_insert_eq|].
  destruct Hless as (Hm & Hid & Hsq & _ & _ & Hgen & Hkeep & Hsub & Himp).
  exists cap'. split; [done|].
  split; [rewrite Hm, Hm1; by apply Hkey|].
  split; [congruence|]. split; [congruence|]. split; [congruence|].
  split; [by rewrite <- Hi1|]. split; [by rewrite <- Hi1|].
  split; [eapply bits_subset_trans; [exact Himp|exact Himp1]|].
  intros Hgrant Hfresh Hnone Hother.
  destruct Hquiet as [-> ->].
  { unfold quiet_grant. by rewrite Hnew. }
  rewrite Hc1, lookup_insert_eq in Hcap'. injection Hcap' as <-.
  split; [done|]. split; [done|]. split; [done|].
  rewrite (Himp1' Hop). by rewrite bool_decide_eq_false_2.
Qed.

End with_consts.

(** A REVOKE that takes FILE_WR back from the cap of a file that holds
    pin and FILE_WR. *)
Lemma grant_sets_issued_witness :
  exists mdsc' ci' acts cap',
    handle_cap_grant (H := linux_consts) Sample.env0 Sample.mdsc0
      (Sample.inode1 5 0 (1 + 4096)) 0
      (Sample.head0 CEPH_CAP_OP_REVOKE 5 1 2) 0 0 false Sample.fill0
    = Ok (mdsc', ci', acts) ∧
    i_caps ci' !! 0 = Some cap' ∧
    bits_subset (Cap.issued cap') 1 ∧ Cap.seq cap' = 2.
Proof.
  destruct (handle_cap_grant (H := linux_consts) Sample.env0 Sample.mdsc0
              (Sample.inode1 5 0 (1 + 4096)) 0
              (Sample.head0 CEPH_CAP_OP_REVOKE 5 1 2) 0 0 false Sample.fill0)
    as [[[m c] a]|f] eqn:E; [|exfalso; vm_compute in E; discriminate E].
  destruct (grant_sets_issued (H := linux_consts) Sample.env0 Sample.mdsc0
              (Sample.inode1 5 0 (1 + 4096)) 0
              (Sample.head0 CEPH_CAP_OP_REVOKE 5 1 2) 0 0 false Sample.fill0
              (Sample.cap0 0 (1 + 4096) (1 + 4096)) Sample.session0)
    as (_ & Hok).
  - intros k c0 Hc0. unfold Sample.inode1 in Hc0. simpl in Hc0.
    apply lookup_insert_Some in Hc0 as [[<- <-]|[_ Hc0]]; [reflexivity|].
    by rewrite lookup_empty in Hc0.
  - reflexivity.
  - reflexivity.
  - vm_compute. reflexivity.
  - discriminate.
  - destruct (Hok m c a E) as (cap' & Hcap' & _ & _ & Hsq & _ & Hi & _).
    exists m, c, a, cap'. split; [reflexivity|].
    split; [exact Hcap'|]. split; [exact Hi|exact Hsq].
Defined.

End Grant.
